(** * svpop: the N-way structural-variant merger, embedded in Rocq

  The development follows [svpoplib/variant.py] and [svpoplib/svmerge.py].
  Python values are embedded shallowly: integers as [Z], floats by the
  rational they denote ([Qc]), strings as [string] (one [ascii] per byte),
  sets and dicts as stdpp's [gset] and [gmap], pandas tables as lists of
  labelled rows, exceptions as the [Raise] outcome of a small error monad. *)

From Stdlib Require Import Ascii QArith Qcanon Qround Qpower Lqa.
From stdpp Require Import gmap strings list fin_maps pretty numbers sorting.

Open Scope Z_scope.

(** ** The Python run-time fragment the sources rely on *)
Module Py.

(** Exceptions by class; the message keeps the leading words of the source's
    format string. *)
Inductive exn : Type :=
| RuntimeError (msg : string)
| ValueError (msg : string)
| KeyError (msg : string)
| TypeError (msg : string)
| OverflowError (msg : string)
| ZeroDivisionError (msg : string)
| AttributeError (msg : string)
| NameError (msg : string).

(** Outcome of a call: a value, a raised exception, or [Diverge] when a
    fuel-bounded loop runs out of fuel (shown unreachable where it matters). *)
Inductive result (A : Type) : Type :=
| Ok (a : A)
| Raise (e : exn)
| Diverge.
Global Arguments Ok {A} a.
Global Arguments Raise {A} e.
Global Arguments Diverge {A}.

Definition bind {A B : Type} (m : result A) (k : A → result B) : result B :=
  match m with
  | Ok a => k a
  | Raise e => Raise e
  | Diverge => Diverge
  end.

Definition raised {A : Type} (m : result A) : Prop :=
  match m with Raise _ => True | _ => False end.

Definition returned {A : Type} (m : result A) : Prop :=
  match m with Ok _ => True | _ => False end.

(** [[f(x) for x in xs]] with exceptions. *)
Fixpoint map_each {X Y : Type} (f : X → result Y) (xs : list X) : result (list Y) :=
  match xs with
  | [] => Ok []
  | x :: xs' => bind (f x) (λ y, bind (map_each f xs') (λ ys, Ok (y :: ys)))
  end.


(** [for x in xs: st = body(st, x)] with exceptions. *)
Fixpoint for_each {S X : Type} (body : S → X → result S) (xs : list X) (st : S)
  : result S :=
  match xs with
  | [] => Ok st
  | x :: xs' => bind (body st x) (for_each body xs')
  end.

(** *** Characters *)

Definition chr (n : N) : ascii := ascii_of_N n.
Definition ord (c : ascii) : N := N_of_ascii c.

(** [str.isspace] on the ASCII range: TAB, LF, VT, FF, CR, FS, GS, RS, US and
    the space. The regular expression class [\s] matches the same bytes. *)
Definition isspace (c : ascii) : bool :=
  let n := ord c in
  ((9 <=? n) && (n <=? 13) || (28 <=? n) && (n <=? 32))%N.

Definition lower_char (c : ascii) : ascii :=
  let n := ord c in
  if ((65 <=? n) && (n <=? 90))%N then chr (n + 32) else c.

Definition upper_char (c : ascii) : ascii :=
  let n := ord c in
  if ((97 <=? n) && (n <=? 122))%N then chr (n - 32) else c.

Definition digit_of (c : ascii) : option Z :=
  let n := ord c in
  if ((48 <=? n) && (n <=? 57))%N then Some (Z.of_N n - 48) else None.

(** *** Strings *)

Fixpoint smap (f : ascii → ascii) (s : string) : string :=
  match s with
  | EmptyString => EmptyString
  | String c s' => String (f c) (smap f s')
  end.

(** [s.lower()] and [s.upper()]. *)
Definition lower : string → string := smap lower_char.
Definition upper : string → string := smap upper_char.

(** [s.lstrip()], [s.rstrip()], [s.strip()]. *)
Fixpoint lstrip (s : string) : string :=
  match s with
  | EmptyString => EmptyString
  | String c s' => if isspace c then lstrip s' else s
  end.

Fixpoint rstrip (s : string) : string :=
  match s with
  | EmptyString => EmptyString
  | String c s' =>
      match rstrip s' with
      | EmptyString => if isspace c then EmptyString else String c EmptyString
      | t => String c t
      end
  end.

Definition strip (s : string) : string := rstrip (lstrip s).

(** Whether some character of [s] satisfies [p]. *)
Fixpoint any_char (p : ascii → bool) (s : string) : bool :=
  match s with
  | EmptyString => false
  | String a s' => p a || any_char p s'
  end.

(** [c in s] for a one-character [c]. *)
Fixpoint contains (c : ascii) (s : string) : bool :=
  match s with
  | EmptyString => false
  | String a s' => Ascii.eqb a c || contains c s'
  end.

(** [s.split(sep)] for a one-character separator: never empty. *)
Fixpoint split (sep : ascii) (s : string) : list string :=
  match s with
  | EmptyString => [EmptyString]
  | String c s' =>
      if Ascii.eqb c sep then EmptyString :: split sep s'
      else match split sep s' with
           | t :: ts => String c t :: ts
           | [] => [String c EmptyString]
           end
  end.

(** The cut of [s] at its last [sep], when there is one. *)
Fixpoint cut_last (sep : ascii) (s : string) : option (string * string) :=
  match s with
  | EmptyString => None
  | String c s' =>
      match cut_last sep s' with
      | Some (a, b) => Some (String c a, b)
      | None => if Ascii.eqb c sep then Some (EmptyString, s') else None
      end
  end.

(** [s.rsplit(sep, 1)]: one or two pieces. *)
Definition rsplit1 (sep : ascii) (s : string) : list string :=
  match cut_last sep s with
  | Some (a, b) => [a; b]
  | None => [s]
  end.

(** The cut of [s] at its first [sep]. *)
Fixpoint cut_first (sep : ascii) (s : string) : option (string * string) :=
  match s with
  | EmptyString => None
  | String c s' =>
      if Ascii.eqb c sep then Some (EmptyString, s')
      else match cut_first sep s' with
           | Some (a, b) => Some (String c a, b)
           | None => None
           end
  end.

(** [re.split('\s*=\s*', s, 1)]: the leftmost match starts at the blank run
    that ends at the first [=] and swallows the blanks after it. *)
Definition re_split_eq (s : string) : list string :=
  match cut_first "=" s with
  | Some (a, b) => [rstrip a; lstrip b]
  | None => [s]
  end.

(** [sep.join(parts)]. *)
Fixpoint join (sep : string) (parts : list string) : string :=
  match parts with
  | [] => EmptyString
  | [p] => p
  | p :: ps => p +:+ sep +:+ join sep ps
  end.

(** [str(n)] for an integer. *)
Definition str (n : Z) : string := pretty n.

(** Python's ordering of strings, by code point. *)
Definition str_lt (a b : string) : bool := String.ltb a b.

(** *** [int(s)] in base 10

    Blanks around, one optional sign, decimal digits, single underscores
    between digits. Non-ASCII digits are outside the byte model. *)
Fixpoint digits_from (acc : Z) (after_us : bool) (s : string) : option Z :=
  match s with
  | EmptyString => if after_us then None else Some acc
  | String c s' =>
      if Ascii.eqb c "_" then
        if after_us then None else digits_from acc true s'
      else
        match digit_of c with
        | Some d => digits_from (10 * acc + d) false s'
        | None => None
        end
  end.

Definition digits (s : string) : option Z :=
  match s with
  | EmptyString => None
  | String c s' =>
      match digit_of c with
      | Some d => digits_from d false s'
      | None => None
      end
  end.

(** The blanks that [int] skips around a literal: TAB, LF, VT, FF, CR and the
    space. The separators FS, GS, RS and US, which [str.strip] removes, are not
    among them. *)
Definition int_blank (c : ascii) : bool :=
  let n := ord c in
  ((9 <=? n) && (n <=? 13) || (n =? 32))%N.

Fixpoint int_lstrip (s : string) : string :=
  match s with
  | EmptyString => EmptyString
  | String c s' => if int_blank c then int_lstrip s' else s
  end.

Fixpoint int_rstrip (s : string) : string :=
  match s with
  | EmptyString => EmptyString
  | String c s' =>
      match int_rstrip s' with
      | EmptyString => if int_blank c then EmptyString else String c EmptyString
      | t => String c t
      end
  end.

Definition int (s : string) : option Z :=
  match int_rstrip (int_lstrip s) with
  | String "+" r => digits r
  | String "-" r => Z.opp <$> digits r
  | t => digits t
  end.

(** *** Floats

    A finite float is carried as the rational it denotes; the two roundings
    the sources meet are to binary64 (Python [float]) and binary32
    ([np.float32]). *)
Inductive float : Type :=
| Fin (q : Qc)
| Inf (negative : bool)
| NaN.

Definition Qc_of (z : Z) : Qc := Qc_of_Z z.

Definition pow2 (e : Z) : Qc :=
  if 0 <=? e then Qc_of (2 ^ e) else (1 / Qc_of (2 ^ (- e)))%Qc.

Definition pow10 (e : Z) : Qc :=
  if 0 <=? e then Qc_of (10 ^ e) else (1 / Qc_of (10 ^ (- e)))%Qc.

Definition Qc_floor (q : Qc) : Z := Qfloor (this q).

(** Nearest integer, ties to even. *)
Definition round_half_even (q : Qc) : Z :=
  let f := Qc_floor q in
  let r := (q - Qc_of f)%Qc in
  let half : Qc := (1 / Qc_of 2)%Qc in
  if decide (r < half)%Qc then f
  else if decide (half < r)%Qc then f + 1
  else if Z.even f then f else f + 1.

(** The exponent [e] with [2^e <= q < 2^(e+1)], for [q > 0]. *)
Definition ilog2 (q : Qc) : Z :=
  let n := Qnum (this q) in
  let d := Z.pos (Qden (this q)) in
  let e := Z.log2 n - Z.log2 d in
  if decide (pow2 e ≤ q)%Qc then e else e - 1.

(** Round to nearest, ties to even, in a binary format of [prec] significant
    bits whose least subnormal is [2^emin]; beyond [2^emax] the result is an
    infinity. *)
Definition round_binary (prec emin emax : Z) (q : Qc) : float :=
  if decide (q = 0)%Qc then Fin 0%Qc
  else
    let a := if decide (q < 0)%Qc then (- q)%Qc else q in
    let u := Z.max (ilog2 a - (prec - 1)) emin in
    let m := round_half_even (a / pow2 u)%Qc in
    let r := (Qc_of m * pow2 u)%Qc in
    if decide (pow2 emax ≤ r)%Qc then Inf (bool_decide (q < 0)%Qc)
    else Fin (if decide (q < 0)%Qc then (- r)%Qc else r).

Definition round64 : Qc → float := round_binary 53 (-1074) 1024.
Definition round32 : Qc → float := round_binary 24 (-149) 128.

(** [a / b] on integers: the correctly rounded quotient. *)
Definition truediv (a b : Z) : result Qc :=
  if decide (b = 0) then Raise (ZeroDivisionError "division by zero")
  else
    match round64 (Qc_of a / Qc_of b)%Qc with
    | Fin q => Ok q
    | _ => Raise (OverflowError "integer division result too large for a float")
    end.

(** *** [float(s)]

    Blanks around, one optional sign, then [inf], [infinity] or [nan] in any
    case, or a decimal numeral with optional fraction and exponent; the value
    is rounded to binary64. *)
Definition is_digit (c : ascii) : bool := bool_decide (is_Some (digit_of c)).

(** A run of digits with single underscores between them: its value, its
    digit count and what follows. *)
Fixpoint scan_digits (acc : Z) (n : nat) (s : string) : Z * nat * string :=
  match s with
  | EmptyString => (acc, n, s)
  | String c s' =>
      match digit_of c with
      | Some d => scan_digits (10 * acc + d) (S n) s'
      | None =>
          match n, s' with
          | S _, String c' _ =>
              if Ascii.eqb c "_" && is_digit c' then scan_digits acc n s'
              else (acc, n, s)
          | _, _ => (acc, n, s)
          end
      end
  end.

Definition scan_exponent (s : string) : option Z :=
  match s with
  | EmptyString => Some 0
  | String c r =>
      if Ascii.eqb (lower_char c) "e" then
        let '(neg, r') :=
          match r with
          | String "+" t => (false, t)
          | String "-" t => (true, t)
          | _ => (false, r)
          end in
        match scan_digits 0 0 r' with
        | (v, S _, EmptyString) => Some (if neg : bool then - v else v)
        | _ => None
        end
      else None
  end.

Definition decimal (s : string) : option Qc :=
  let '(ip, ni, r1) := scan_digits 0 0 s in
  let '(fp, nf, r2) :=
    match r1 with
    | String "." t => scan_digits 0 0 t
    | _ => (0, 0%nat, r1)
    end in
  if bool_decide (ni = 0%nat ∧ nf = 0%nat) then None
  else
    match scan_exponent r2 with
    | Some e =>
        Some (Qc_of (ip * 10 ^ Z.of_nat nf + fp) * pow10 (e - Z.of_nat nf))%Qc
    | None => None
    end.

Definition unsigned_float (s : string) : option float :=
  let l := lower s in
  if bool_decide (l = "inf" ∨ l = "infinity") then Some (Inf false)
  else if bool_decide (l = "nan") then Some NaN
  else round64 <$> decimal s.

Definition fneg (x : float) : float :=
  match x with
  | Fin q => Fin (- q)%Qc
  | Inf b => Inf (negb b)
  | NaN => NaN
  end.

Definition float_of_str (s : string) : option float :=
  match strip s with
  | String "+" r => unsigned_float r
  | String "-" r => fneg <$> unsigned_float r
  | t => unsigned_float t
  end.

(** Comparisons of floats: every comparison with a NaN is false. *)
Definition flt (x y : float) : bool :=
  match x, y with
  | NaN, _ | _, NaN => false
  | Inf true, Inf true => false
  | Inf true, _ => true
  | _, Inf true => false
  | Inf false, _ => false
  | _, Inf false => true
  | Fin a, Fin b => bool_decide (a < b)%Qc
  end.

Definition fle (x y : float) : bool :=
  match x, y with
  | NaN, _ | _, NaN => false
  | _, _ => negb (flt y x)
  end.

(** *** Fixed notation, [format(x, '.Nf')]: the decimal expansion of the
    float with [N] decimals, rounded half to even. *)
Fixpoint zeros (n : nat) : string :=
  match n with
  | O => EmptyString
  | S n' => String "0" (zeros n')
  end.

Definition format_f (decimals : nat) (x : float) : string :=
  match x with
  | NaN => "nan"
  | Inf false => "inf"
  | Inf true => "-inf"
  | Fin q =>
      let a := if decide (q < 0)%Qc then (- q)%Qc else q in
      let scale := 10 ^ Z.of_nat decimals in
      let n := round_half_even (a * Qc_of scale)%Qc in
      let ip := str (n / scale) in
      let fp := str (n mod scale) in
      let body :=
        match decimals with
        | O => ip
        | _ => ip +:+ "." +:+ zeros (decimals - String.length fp) +:+ fp
        end in
      if decide (q < 0)%Qc then "-" +:+ body else body
  end.

End Py.

(** ** The pandas fragment: tables of labelled rows *)
Module Pd.
Import Py.

(** A cell of a table. [CCat] is a value of a [pd.Categorical]: its code in
    the category list and its label. A missing value is the float NaN. *)
Inductive cell : Type :=
| CStr (s : string)
| CInt (z : Z)
| CFloat (x : float)
| CBool (b : bool)
| CCat (code : nat) (label : string).

Global Instance float_eq_dec : EqDecision float.
Proof. solve_decision. Defined.
Global Instance cell_eq_dec : EqDecision cell.
Proof. solve_decision. Defined.

Definition nan : cell := CFloat NaN.

(** The element of a categorical column is its label. *)
Definition label_of (c : cell) : cell :=
  match c with
  | CCat _ s => CStr s
  | _ => c
  end.

Definition isnull (c : cell) : bool :=
  match c with CFloat NaN => true | _ => false end.

(** A row maps column names to cells; a column the row does not bind reads
    as NaN, as after a [pd.concat] of tables with different columns. *)
Abbreviation row := (gmap string cell).

Definition at_col (r : row) (c : string) : cell := default nan (r !! c).

(** A table: its column names in order, and its rows with their index
    labels. *)
Record frame : Type := Frame {
  columns : list string;
  body : list (cell * row)
}.

Definition rows (df : frame) : list row := (body df).*2.
Definition index (df : frame) : list cell := (body df).*1.
(** [df.shape[0]]. *)
Definition nrows (df : frame) : nat := length (body df).

Definition has_col (df : frame) (c : string) : bool := bool_decide (c ∈ columns df).

(** [df[c]]: the column as a list of cells. *)
Definition col (df : frame) (c : string) : result (list cell) :=
  if has_col df c then Ok ((λ r, at_col r c) <$> rows df)
  else Raise (KeyError c).

(** [df[c]] as a Series: cells with their index labels. *)
Definition series (df : frame) (c : string) : result (list (cell * cell)) :=
  if has_col df c then Ok ((λ lr, (lr.1, at_col lr.2 c)) <$> body df)
  else Raise (KeyError c).

Definition add_col (cs : list string) (c : string) : list string :=
  if bool_decide (c ∈ cs) then cs else cs ++ [c].

(** [df[c] = f(row)], row by row; a new column goes last. *)
Definition set_col (c : string) (f : row → cell) (df : frame) : frame :=
  Frame (add_col (columns df) c) ((λ lr, (lr.1, <[c := f lr.2]> lr.2)) <$> body df).

(** The same when computing a cell can raise. *)
Fixpoint set_col_rows (c : string) (f : row → result cell) (b : list (cell * row))
  : result (list (cell * row)) :=
  match b with
  | [] => Ok []
  | lr :: b' =>
      bind (f lr.2) (λ v,
      bind (set_col_rows c f b') (λ b'',
      Ok ((lr.1, <[c := v]> lr.2) :: b'')))
  end.

Definition set_col_checked (c : string) (f : row → result cell) (df : frame)
  : result frame :=
  bind (set_col_rows c f (body df)) (λ b, Ok (Frame (add_col (columns df) c) b)).

(** [del df[c]]. *)
Definition del_col (c : string) (df : frame) : frame :=
  Frame (filter (λ x, x ≠ c) (columns df)) ((λ lr, (lr.1, delete c lr.2)) <$> body df).

Definition restrict (cs : list string) (r : row) : row :=
  filter (λ kv, kv.1 ∈ cs) r.

(** [df.loc[:, cs]]. *)
Definition select_cols (cs : list string) (df : frame) : result frame :=
  match filter (λ c, c ∉ columns df) cs with
  | [] => Ok (Frame cs ((λ lr, (lr.1, restrict cs lr.2)) <$> body df))
  | c :: _ => Raise (KeyError c)
  end.

(** [df.loc[mask]] with the mask computed row by row. *)
Definition filter_rows (p : row → bool) (df : frame) : frame :=
  Frame (columns df) (filter (λ lr, p lr.2) (body df)).

(** [df.set_index(c, drop=...)]. *)
Definition set_index (c : string) (drop : bool) (df : frame) : result frame :=
  if has_col df c then
    Ok (Frame (if drop then filter (λ x, x ≠ c) (columns df) else columns df)
              ((λ lr, (at_col lr.2 c, if drop then delete c lr.2 else lr.2)) <$> body df))
  else Raise (KeyError c).

Definition range_index {A : Type} (l : list A) : list (cell * A) :=
  imap (λ i x, (CInt (Z.of_nat i), x)) l.

(** [df.reset_index(drop=True)]. *)
Definition reset_index_drop (df : frame) : frame :=
  Frame (columns df) (range_index (rows df)).

(** [df.reset_index(drop=False)] for an index named [name]: the labels become
    the first column. *)
Definition reset_index_keep (name : string) (df : frame) : frame :=
  Frame (name :: columns df)
        (range_index ((λ lr, <[name := lr.1]> lr.2) <$> body df)).

(** [df.loc[labels]]: for each label the rows that carry it; a label no row
    carries is a KeyError. *)
Fixpoint loc_labels (labels : list cell) (b : list (cell * row))
  : result (list (cell * row)) :=
  match labels with
  | [] => Ok []
  | l :: ls =>
      match filter (λ lr, lr.1 = l) b with
      | [] => Raise (KeyError "label not in index")
      | hit => bind (loc_labels ls b) (λ rest, Ok (hit ++ rest))
      end
  end.

Definition loc (labels : list cell) (df : frame) : result frame :=
  bind (loc_labels labels (body df)) (λ b, Ok (Frame (columns df) b)).

Fixpoint assoc (l : cell) (s : list (cell * cell)) : option cell :=
  match s with
  | [] => None
  | (k, v) :: s' => if decide (k = l) then Some v else assoc l s'
  end.

(** [df[c] = s] for a Series [s]: the values are aligned on the index. Equal
    indexes align by position; otherwise the Series is reindexed, which needs
    its labels to be unique and reads NaN for a label it lacks. *)
Definition assign_series (c : string) (s : list (cell * cell)) (df : frame)
  : result frame :=
  if decide (s.*1 = index df) then
    Ok (Frame (add_col (columns df) c)
              (zip_with (λ lr v, (lr.1, <[c := v]> lr.2)) (body df) s.*2))
  else if decide (NoDup s.*1) then
    Ok (Frame (add_col (columns df) c)
              ((λ lr, (lr.1, <[c := default nan (assoc lr.1 s)]> lr.2)) <$> body df))
  else Raise (ValueError "cannot reindex on an axis with duplicate labels").

(** *** Ordering cells and sorting rows *)

Inductive kind : Type := KStr | KNum | KCat.

Definition kind_of (c : cell) : option kind :=
  match c with
  | CStr _ => Some KStr
  | CCat _ _ => Some KCat
  | CFloat NaN => None
  | _ => Some KNum
  end.

Global Instance kind_eq_dec : EqDecision kind.
Proof. solve_decision. Defined.

Definition num_of (c : cell) : float :=
  match c with
  | CInt z => Fin (Qc_of z)
  | CFloat x => x
  | CBool b => Fin (if b then 1 else 0)%Qc
  | _ => NaN
  end.

(** [a < b] on two cells of one kind. *)
Definition cell_lt (a b : cell) : bool :=
  match a, b with
  | CStr s, CStr t => str_lt s t
  | CCat i _, CCat j _ => bool_decide (i < j)%nat
  | CStr _, _ | _, CStr _ | CCat _ _, _ | _, CCat _ _ => false
  | _, _ => flt (num_of a) (num_of b)
  end.

(** A sort key: a column and whether it ascends. Missing values go last in
    either direction. *)
Definition key_lt (ascending : bool) (a b : cell) : bool :=
  if isnull a then false
  else if isnull b then true
  else if ascending then cell_lt a b else cell_lt b a.

Fixpoint row_lt (by_cols : list (string * bool)) (r1 r2 : row) : bool :=
  match by_cols with
  | [] => false
  | (c, ascending) :: rest =>
      key_lt ascending (at_col r1 c) (at_col r2 c)
      || (negb (key_lt ascending (at_col r2 c) (at_col r1 c)) && row_lt rest r1 r2)
  end.

(** A stable sort: an element goes in front of the first one that is not
    strictly before it, so ties keep their order. *)
Fixpoint insert_sorted {A : Type} (lt : A → A → bool) (x : A) (l : list A) : list A :=
  match l with
  | [] => [x]
  | y :: l' => if lt y x then y :: insert_sorted lt x l' else x :: l
  end.

Definition stable_sort {A : Type} (lt : A → A → bool) (l : list A) : list A :=
  foldr (insert_sorted lt) [] l.

(** The cells of a sort column must be of one kind (strings, numbers or
    categories); Python refuses to order a string against a number. *)
Definition one_kind (cells : list cell) : bool :=
  match omap kind_of cells with
  | [] => true
  | k :: ks => forallb (λ k', bool_decide (k' = k)) ks
  end.

Fixpoint check_sortable (by_cols : list string) (df : frame) : result unit :=
  match by_cols with
  | [] => Ok tt
  | c :: rest =>
      bind (col df c) (λ cells,
      if one_kind cells then check_sortable rest df
      else Raise (TypeError "'<' not supported between instances of 'str' and 'int'"))
  end.

(** [df.sort_values(by, ascending=...)] with two or more keys: a stable
    lexicographic sort. *)
Definition sort_values (by_cols : list (string * bool)) (df : frame) : result frame :=
  bind (check_sortable by_cols.*1 df) (λ _,
  Ok (Frame (columns df)
            (stable_sort (λ a b, row_lt by_cols a.2 b.2) (body df)))).

Definition ascending (cs : list string) : list (string * bool) :=
  (λ c, (c, true)) <$> cs.

(** *** Duplicates *)

Definition key_of (subset : list string) (r : row) : list cell :=
  at_col r <$> subset.

Fixpoint keep_first {A K : Type} `{EqDecision K} (key : A → K) (seen : list K)
    (l : list A) : list A :=
  match l with
  | [] => []
  | x :: l' =>
      if decide (key x ∈ seen) then keep_first key seen l'
      else x :: keep_first key (key x :: seen) l'
  end.

(** [df.drop_duplicates(subset, keep='first')]. *)
Definition drop_duplicates (subset : list string) (df : frame) : result frame :=
  match filter (λ c, c ∉ columns df) subset with
  | [] => Ok (Frame (columns df) (keep_first (λ lr, key_of subset lr.2) [] (body df)))
  | c :: _ => Raise (KeyError c)
  end.

(** *** Concatenation *)

(** [pd.concat(frames, axis=0, sort=False)]: the columns in order of first
    appearance, the rows one table after the other. *)
Definition concat (dfs : list frame) : frame :=
  Frame (foldl (λ acc df, foldl add_col acc (columns df)) [] dfs)
        (dfs ≫= body).

(** *** Conversions *)

Definition wrap32 (z : Z) : Z := (z + 2 ^ 31) mod 2 ^ 32 - 2 ^ 31.

(** [astype(np.int32)]. *)
Definition to_int32 (c : cell) : result cell :=
  match c with
  | CInt z => Ok (CInt (wrap32 z))
  | CBool b => Ok (CInt (if b then 1 else 0))
  | CFloat (Fin q) => Ok (CInt (wrap32 (Z.quot (Qnum (this q)) (Z.pos (Qden (this q))))))
  | CFloat _ => Raise (ValueError "cannot convert float NaN to integer")
  | CStr s =>
      match int s with
      | Some z => Ok (CInt (wrap32 z))
      | None => Raise (ValueError "invalid literal for int() with base 10")
      end
  | CCat _ _ => Raise (TypeError "cannot convert a category to int")
  end.

Definition narrow32 (x : float) : float :=
  match x with
  | Fin q => round32 q
  | _ => x
  end.

(** [astype(np.float32)]. *)
Definition to_float32 (c : cell) : result cell :=
  match c with
  | CInt z => Ok (CFloat (narrow32 (Fin (Qc_of z))))
  | CBool b => Ok (CFloat (Fin (if b then 1 else 0)%Qc))
  | CFloat x => Ok (CFloat (narrow32 x))
  | CStr s =>
      match float_of_str s with
      | Some x => Ok (CFloat (narrow32 x))
      | None => Raise (ValueError "could not convert string to float")
      end
  | CCat _ _ => Raise (TypeError "cannot convert a category to float")
  end.

(** [pd.Categorical(values, categories)]: a value outside the categories is
    missing. *)
Definition categorical (categories : list string) (c : cell) : cell :=
  let label :=
    match c with
    | CStr s => Some s
    | CCat _ s => Some s
    | _ => None
    end in
  match label with
  | Some s =>
      match list_find (λ x, x = s) categories with
      | Some (i, _) => CCat i s
      | None => nan
      end
  | None => nan
  end.

(** *** Grouping *)

Fixpoint apply_groups (f : frame → result row) (df : frame) (key : string)
    (keys : list cell) : result (list (cell * row)) :=
  match keys with
  | [] => Ok []
  | k :: ks =>
      bind (f (filter_rows (λ r, bool_decide (at_col r key = k)) df)) (λ r,
      bind (apply_groups f df key ks) (λ rest,
      Ok ((k, r) :: rest)))
  end.

(** [df.groupby(key).apply(f)] where [f] returns a Series over [out_cols]:
    one row per key in ascending key order, labelled by the key; rows with a
    missing key are left out. *)
Definition groupby_apply (key : string) (out_cols : list string)
    (f : frame → result row) (df : frame) : result frame :=
  bind (col df key) (λ cells,
  let present := filter (λ c, isnull c = false) cells in
  if one_kind present then
    bind (apply_groups f df key (stable_sort cell_lt (remove_dups present))) (λ b,
    Ok (Frame out_cols b))
  else Raise (TypeError "'<' not supported between instances of 'str' and 'int'")).

(** *** [sep.join(cells)]

    Every item must be a string: the label of a categorical cell is one, and
    the first item that is not a string raises [TypeError]. *)
Definition type_name (c : cell) : string :=
  match c with
  | CStr _ | CCat _ _ => "str"
  | CInt _ => "int"
  | CFloat _ => "float"
  | CBool _ => "bool"
  end.

Fixpoint join_items (i : nat) (l : list cell) : result (list string) :=
  match l with
  | [] => Ok []
  | c :: l' =>
      match c with
      | CStr s | CCat _ s => bind (join_items (S i) l') (λ parts, Ok (s :: parts))
      | _ =>
          Raise (TypeError ("sequence item " +:+ str (Z.of_nat i)
                            +:+ ": expected str instance, " +:+ type_name c +:+ " found"))
      end
  end.

Definition join_cells (sep : string) (l : list cell) : result string :=
  bind (join_items 0 l) (λ parts, Ok (join sep parts)).

End Pd.

(** ** [svpoplib/variant.py] *)
Module variant.
Import Py.

(** *** [reciprocal_overlap] *)

(** [min([x, y])]: the first of the smallest. *)
Definition min2 (x y : Qc) : Qc := if decide (y < x)%Qc then y else x.

Definition reciprocal_overlap (begin_a end_a begin_b end_b : Z) : result Qc :=
  let overlap := Z.min end_a end_b - Z.max begin_a begin_b in
  if decide (overlap < 0) then Ok 0%Qc
  else
    bind (truediv overlap (end_a - begin_a)) (λ x,
    bind (truediv overlap (end_b - begin_b)) (λ y,
    Ok (min2 x y))).

(** *** [version_id] *)

(** [collections.Counter]: [update] adds one per element met. *)
Definition counter_update (xs : list string) (id_count : gmap string nat)
  : gmap string nat :=
  foldl (λ c x, <[x := S (default 0%nat (c !! x))]> c) id_count xs.

(** [{val for val, count in id_count.items() if count > 1}]. *)
Definition dup_set_of (id_count : gmap string nat) : gset string :=
  dom (filter (λ kv, (1 < kv.2)%nat) id_count).

(** The version a duplicated name starts from: 1 without a [.], else one more
    than the integer after the last [.]. *)
Definition name_version (name : string) : result (string * Z) :=
  match rsplit1 "." name with
  | [tok0] => Ok (tok0, 1)
  | [tok0; tok1] =>
      match int tok1 with
      | Some v => Ok (tok0, v + 1)
      | None =>
          Raise (RuntimeError "Error de-duplicating variant ID field: expected to find an integer at the end")
      end
  | _ => Raise (RuntimeError "unreachable: rsplit with maxsplit 1")
  end.

Definition versioned (tok0 : string) (name_version : Z) : string :=
  join "." [tok0; str name_version].

(** [while new_name in id_set: name_version += 1; ...], at most [fuel] times
    round the loop. *)
Fixpoint find_unique (fuel : nat) (tok0 : string) (name_version : Z)
    (id_set : gset string) : result string :=
  let new_name := versioned tok0 name_version in
  if decide (new_name ∈ id_set) then
    match fuel with
    | O => Diverge
    | S fuel' => find_unique fuel' tok0 (name_version + 1) id_set
    end
  else Ok new_name.

(** The body of [for index in range(id_col.shape[0])], on the column being
    rewritten in place and the set of names taken. One more turn of the inner
    loop than there are names taken always finds a free one. *)
Definition version_at (dup_set : gset string) (st : list string * gset string)
    (index : nat) : result (list string * gset string) :=
  let '(id_col, id_set) := st in
  match id_col !! index with
  | None => Raise (KeyError "iloc: position out of bounds")
  | Some name =>
      if decide (name ∈ dup_set) then
        bind (name_version name) (λ '(tok0, v),
        bind (find_unique (size id_set) tok0 v id_set) (λ new_name,
        Ok (<[index := new_name]> id_col, {[new_name]} ∪ id_set)))
      else Ok (id_col, id_set)
  end.

Definition version_id (id_col : list string) (existing_id_set : option (gset string))
  : result (list string) :=
  let id_count : gmap string nat := ∅ in
  let id_count :=
    match existing_id_set with
    | Some existing => counter_update (elements existing) id_count
    | None => id_count
    end in
  let id_count := counter_update id_col id_count in
  let dup_set := dup_set_of id_count in
  if decide (size dup_set = 0%nat) then Ok id_col
  else
    let id_set : gset string := list_to_set id_col ∖ dup_set in
    let id_set :=
      match existing_id_set with
      | Some existing => id_set ∪ existing
      | None => id_set
      end in
    bind (for_each (version_at dup_set) (seq 0 (length id_col)) (id_col, id_set))
         (λ st, Ok st.1).

End variant.

(** ** [svpoplib/svmerge.py]: the merge parameters *)
Module svmerge_params.
Import Py.

(** A value of the alignment-parameter dict: a float, an integer or [None]. *)
Inductive align_value : Type :=
| AFloat (x : float)
| AInt (n : Z)
| ANone.

Inductive param_type : Type := TFloat | TInt.

Definition float_lit (n d : Z) : float := Fin (Qc_of n / Qc_of d)%Qc.

(** [ALIGN_PARAM_FIELD_LIST]: name, default and type of each field. The
    defaults 0.8, 2.0, -1.0, -5.0 and -0.5 are the floats nearest to these
    literals. *)
Definition ALIGN_PARAM_FIELD_LIST : list (string * align_value * param_type) :=
  [ ("SCORE-PROP", AFloat (round64 (Qc_of 8 / Qc_of 10)%Qc), TFloat);
    ("MATCH", AFloat (float_lit 2 1), TFloat);
    ("MISMATCH", AFloat (float_lit (-1) 1), TFloat);
    ("GAP-OPEN", AFloat (float_lit (-5) 1), TFloat);
    ("GAP-EXTEND", AFloat (float_lit (-1) 2), TFloat);
    ("MAP-LIMIT", AInt 20000, TInt);
    ("JACCARD-KMER", AInt 9, TInt) ].

Definition ALIGN_PARAM_KEY : gmap nat string :=
  list_to_map (imap (λ i f, (i, f.1.1)) ALIGN_PARAM_FIELD_LIST).

Definition ALIGN_PARAM_DEFAULT : gmap string align_value :=
  list_to_map ((λ f, (f.1.1, f.1.2)) <$> ALIGN_PARAM_FIELD_LIST).

Definition ALIGN_PARAM_TYPE : gmap string param_type :=
  list_to_map ((λ f, (f.1.1, f.2)) <$> ALIGN_PARAM_FIELD_LIST).

(** Modelled from the spec: [svpoplib.aligner.ScoreAligner] is not among the
    sources; the spec treats the aligner as a black box configured with the
    match, mismatch, gap-open and gap-extend scores, so the configured
    aligner is the record of these four. *)
Record ScoreAligner : Type := {
  score_match : align_value;
  score_mismatch : align_value;
  score_gap_open : align_value;
  score_gap_extend : align_value
}.

(** The attributes of the [param_set] object. *)
Record param_set : Type := {
  ro_min : option Qc;
  szro_min : option Qc;
  offset_max : option Z;
  match_ref : bool;
  match_alt : bool;
  expand_base : bool;
  match_seq : bool;
  aligner : option ScoreAligner;
  align_match_prop : option align_value;
  align_param : option (gmap string align_value);
  read_seq : bool
}.

Definition initial : param_set := {|
  ro_min := None; szro_min := None; offset_max := None;
  match_ref := false; match_alt := false; expand_base := false;
  match_seq := false; aligner := None; align_match_prop := None;
  align_param := None; read_seq := false
|}.

Definition with_ro_min (v : option Qc) (p : param_set) : param_set :=
  {| ro_min := v; szro_min := szro_min p; offset_max := offset_max p;
     match_ref := match_ref p; match_alt := match_alt p;
     expand_base := expand_base p; match_seq := match_seq p;
     aligner := aligner p; align_match_prop := align_match_prop p;
     align_param := align_param p; read_seq := read_seq p |}.

Definition with_szro_min (v : option Qc) (p : param_set) : param_set :=
  {| ro_min := ro_min p; szro_min := v; offset_max := offset_max p;
     match_ref := match_ref p; match_alt := match_alt p;
     expand_base := expand_base p; match_seq := match_seq p;
     aligner := aligner p; align_match_prop := align_match_prop p;
     align_param := align_param p; read_seq := read_seq p |}.

Definition with_offset_max (v : option Z) (p : param_set) : param_set :=
  {| ro_min := ro_min p; szro_min := szro_min p; offset_max := v;
     match_ref := match_ref p; match_alt := match_alt p;
     expand_base := expand_base p; match_seq := match_seq p;
     aligner := aligner p; align_match_prop := align_match_prop p;
     align_param := align_param p; read_seq := read_seq p |}.

Definition with_match_ref (p : param_set) : param_set :=
  {| ro_min := ro_min p; szro_min := szro_min p; offset_max := offset_max p;
     match_ref := true; match_alt := match_alt p;
     expand_base := expand_base p; match_seq := match_seq p;
     aligner := aligner p; align_match_prop := align_match_prop p;
     align_param := align_param p; read_seq := read_seq p |}.

Definition with_match_alt (p : param_set) : param_set :=
  {| ro_min := ro_min p; szro_min := szro_min p; offset_max := offset_max p;
     match_ref := match_ref p; match_alt := true;
     expand_base := expand_base p; match_seq := match_seq p;
     aligner := aligner p; align_match_prop := align_match_prop p;
     align_param := align_param p; read_seq := read_seq p |}.

Definition with_expand_base (p : param_set) : param_set :=
  {| ro_min := ro_min p; szro_min := szro_min p; offset_max := offset_max p;
     match_ref := match_ref p; match_alt := match_alt p;
     expand_base := true; match_seq := match_seq p;
     aligner := aligner p; align_match_prop := align_match_prop p;
     align_param := align_param p; read_seq := read_seq p |}.

Definition with_align_param (v : gmap string align_value) (p : param_set) : param_set :=
  {| ro_min := ro_min p; szro_min := szro_min p; offset_max := offset_max p;
     match_ref := match_ref p; match_alt := match_alt p;
     expand_base := expand_base p; match_seq := match_seq p;
     aligner := aligner p; align_match_prop := align_match_prop p;
     align_param := Some v; read_seq := read_seq p |}.

(** [int(val.strip()) / 100], then the range check [0 <= x <= 1]. A text
    that is no integer is the ValueError of [int]. *)
Definition percent (what : string) (val : string) : result Qc :=
  match int (strip val) with
  | None => Raise (ValueError "invalid literal for int() with base 10")
  | Some n =>
      bind (truediv n 100) (λ x,
      if bool_decide (x < 0 ∨ 1 < x)%Qc then
        Raise (ValueError ("Overlap length (" +:+ what +:+ ") must be between 0 and 100 (inclusive)"))
      else Ok x)
  end.

(** [tok.lower in {'na', 'unlimited'}]: the attribute [tok.lower] is not
    called, so the set of strings is searched for the bound method itself;
    a method object is equal to no string and the test is False for every
    [tok]. *)
Definition lower_method_in (tok : string) (names : list string) : bool := false.

(** [param_type(tok)]. *)
Definition convert (ty : param_type) (tok : string) : option align_value :=
  match ty with
  | TFloat => AFloat <$> float_of_str tok
  | TInt => AInt <$> int tok
  end.

(** Comparisons of an alignment value with a float or integer literal. *)
Definition as_float (v : align_value) : float :=
  match v with
  | AFloat x => x
  | AInt n => Fin (Qc_of n)
  | ANone => NaN
  end.

(** The body of [for i in range(len(val_split))]. *)
Definition align_field (align : gmap string align_value) (it : nat * string)
  : result (gmap string align_value) :=
  let '(i, raw) := it in
  let tok := strip raw in
  match ALIGN_PARAM_KEY !! i with
  | None => Raise (KeyError "ALIGN_PARAM_KEY")
  | Some field_name =>
      match ALIGN_PARAM_TYPE !! field_name with
      | None => Raise (KeyError "ALIGN_PARAM_TYPE")
      | Some ty =>
          if bool_decide (tok = "") then Ok align
          else
            bind
              (if bool_decide (field_name = "MAP-LIMIT")
                  && lower_method_in tok ["na"; "unlimited"]
               then Ok ANone
               else
                 match convert ty tok with
                 | None =>
                     Raise (RuntimeError "Alignment parameter in match type mismatch")
                 | Some tok_val =>
                     let x := as_float tok_val in
                     if bool_decide (field_name = "SCORE-PROP") then
                       if fle x (Fin 0) || flt (Fin 1) x then
                         Raise (RuntimeError "Alignment parameter in match must be between 0 (exclusive) and 1 (inclusive)")
                       else Ok tok_val
                     else if bool_decide (field_name ∈ ["MATCH"; "JACCARD-KMER"]) then
                       if fle x (Fin 0) then
                         Raise (RuntimeError "Alignment parameter in match must be positive")
                       else Ok tok_val
                     else if bool_decide (field_name ∈ ["MISMATCH"; "GAP-OPEN"; "GAP-EXTEND"]) then
                       if flt (Fin 0) x then
                         Raise (RuntimeError "Alignment parameter in match must not be positive")
                       else Ok tok_val
                     else if bool_decide (field_name = "MAP-LIMIT") then
                       if flt x (Fin 0) then
                         Raise (RuntimeError "Alignment parameter in match must not be negative")
                       else Ok tok_val
                     else Ok tok_val
                 end)
              (λ tok_val, Ok (<[field_name := tok_val]> align))
      end
  end.
(** The [match] branch: the dict of alignment parameters after the loop over
    the comma-separated fields. *)
Definition parse_match (val : option string) : result (gmap string align_value) :=
  let align := ALIGN_PARAM_DEFAULT in
  let val := default EmptyString val in
  let val := strip val in
  let val_split := split "," val in
  if bool_decide (size align < length val_split)%nat then
    Raise (RuntimeError "Alignment parameter in match argument count exceeds max")
  else for_each align_field (imap (λ i tok, (i, tok)) val_split) align.

Definition flag (name : string) (val : option string) (p : param_set)
  : result param_set :=
  match val with
  | Some _ => Raise (RuntimeError (name +:+ " should not have an argument"))
  | None => Ok p
  end.

(** The body of [for param_element in merge_params.split(':')]. *)
Definition param_element_step (p : param_set) (param_element : string)
  : result param_set :=
  let param_element := strip param_element in
  if bool_decide (param_element = EmptyString) then Ok p
  else
    let param_tok := re_split_eq param_element in
    let key := lower (default EmptyString (param_tok !! 0%nat)) in
    let val := param_tok !! 1%nat in
    if bool_decide (key = "ro") then
      match val with
      | None => Raise (ValueError "Missing value for parameter ro")
      | Some v =>
          if bool_decide (v ≠ "any") then
            bind (percent "ro" v) (λ x, Ok (with_ro_min (Some x) p))
          else Raise (RuntimeError "RO any is not yet implemented")
      end
    else if bool_decide (key = "szro") then
      match val with
      | None => Raise (ValueError "Missing value for parameter szro")
      | Some v =>
          if bool_decide (v ≠ "any") then
            bind (percent "szro" v) (λ x, Ok (with_szro_min (Some x) p))
          else Ok (with_szro_min None p)
      end
    else if bool_decide (key = "offset") then
      match val with
      | None => Raise (ValueError "Missing value for parameter offset")
      | Some v =>
          if bool_decide (v ≠ "any") then
            match int (strip v) with
            | None => Raise (ValueError "invalid literal for int() with base 10")
            | Some n =>
                if bool_decide (n < 0) then
                  Raise (RuntimeError "Maximum offset (offset parameter) may not be negative")
                else Ok (with_offset_max (Some n) p)
            end
          else Ok (with_offset_max None p)
      end
    else if bool_decide (key = "refalt") then
      bind (flag "Match-REF/ALT (refalt)" val p) (λ p,
      Ok (with_match_alt (with_match_ref p)))
    else if bool_decide (key = "ref") then
      bind (flag "Match-REF (ref)" val p) (λ p, Ok (with_match_ref p))
    else if bool_decide (key = "alt") then
      bind (flag "Match-ALT (alt)" val p) (λ p, Ok (with_match_alt p))
    else if bool_decide (key = "expand") then
      bind (flag "Expand-base (expand)" val p) (λ p, Ok (with_expand_base p))
    else if bool_decide (key = "match") then
      bind (parse_match val) (λ align, Ok (with_align_param align p))
    else Raise (ValueError ("Unknown parameter token: " +:+ key)).

Definition lookup_field (align : gmap string align_value) (name : string)
  : result align_value :=
  match align !! name with
  | Some v => Ok v
  | None => Raise (KeyError name)
  end.

(** The checks and derived fields after the loop. *)
Definition finish (p : param_set) : result param_set :=
  if bool_decide (is_Some (szro_min p) ∧ offset_max p = None) then
    Raise (RuntimeError "Parameters szro was specified without offset")
  else
    let ro :=
      if bool_decide (ro_min p = None ∧ is_Some (szro_min p)) then szro_min p
      else ro_min p in
    match align_param p with
    | Some align =>
        bind (lookup_field align "MATCH") (λ m,
        bind (lookup_field align "MISMATCH") (λ mm,
        bind (lookup_field align "GAP-OPEN") (λ go,
        bind (lookup_field align "GAP-EXTEND") (λ ge,
        bind (lookup_field align "SCORE-PROP") (λ sp,
        Ok {| ro_min := ro; szro_min := szro_min p; offset_max := offset_max p;
              match_ref := match_ref p; match_alt := match_alt p;
              expand_base := expand_base p;
              match_seq := true;
              aligner := Some {| score_match := m; score_mismatch := mm;
                                 score_gap_open := go; score_gap_extend := ge |};
              align_match_prop := Some sp;
              align_param := Some align;
              read_seq := true |})))))
    | None =>
        Ok {| ro_min := ro; szro_min := szro_min p; offset_max := offset_max p;
              match_ref := match_ref p; match_alt := match_alt p;
              expand_base := expand_base p;
              match_seq := false; aligner := None; align_match_prop := None;
              align_param := None;
              read_seq := false |}
    end.

(** [get_param_set(merge_params, strategy)]; [strategy] only words the error
    for a missing parameter string. *)
Definition get_param_set (merge_params : option string) (strategy : string)
  : result param_set :=
  match merge_params with
  | None => Raise (RuntimeError ("Cannot merge (strategy=" +:+ strategy +:+ ") with parameters: None"))
  | Some params =>
      bind (for_each param_element_step (split ":" params) initial) finish
  end.

End svmerge_params.

(** ** [svpoplib/variant.py]: column order *)
Module variant_columns.
Import Py Pd.

Definition check_present (what : string) (allow_missing : bool) (df : frame)
    (cols : list string) : result (list string) :=
  if allow_missing then Ok (filter (λ c, c ∈ columns df) cols)
  else
    match filter (λ c, c ∉ columns df) cols with
    | [] => Ok cols
    | c :: _ =>
        Raise (RuntimeError ("Missing " +:+ what +:+ " column in variant file: " +:+ c))
    end.

Definition order_variant_columns (df : frame) (head_cols tail_cols : option (list string))
    (allow_missing subset : bool) : result frame :=
  bind (check_present "head" allow_missing df (default [] head_cols)) (λ head_cols,
  bind (check_present "tail" allow_missing df (default [] tail_cols)) (λ tail_cols,
  let tail_cols := filter (λ c, c ∉ head_cols) tail_cols in
  if bool_decide (length head_cols = 0%nat ∧ length tail_cols = 0%nat) then
    Raise (RuntimeError "No head or tail columns to sort")
  else
    let mid_cols :=
      if subset then []
      else filter (λ c, (c ∉ head_cols) ∧ (c ∉ tail_cols)) (columns df) in
    select_cols (head_cols ++ mid_cols ++ tail_cols) df)).

End variant_columns.

(** ** [svpoplib/svmerge.py]: loading a sample *)
Module svmerge_load.
Import Py Pd variant_columns.

(** [[val for val, count in collections.Counter(cells).items() if count > 1]]:
    the values met more than once, in order of first appearance. Two cells
    are one key when they are the same cell, which is Python's equality on
    the strings that IDs are; what a [Counter] does with missing values and
    with equal numbers of different types is outside this definition. *)
Definition duplicates (cells : list cell) : list cell :=
  filter (λ v, (1 < length (filter (λ c, c = v) cells))%nat) (remove_dups cells).

(** Modelled from the spec: [svpoplib.pd.read_csv_chrom] is not among the
    sources. It reads the table of a sample, keeping only the columns that
    [usecols] accepts and, when a chromosome is given, only its records. The
    table on file is the frame [pd.read_csv] returns for it. *)
Definition read_csv_chrom (bed : frame) (chrom : option string)
    (usecols : string → bool) : frame :=
  let kept := filter (λ c, usecols c = true) (columns bed) in
  let df := Frame kept ((λ lr, (lr.1, restrict kept lr.2)) <$> body bed) in
  match chrom with
  | None => df
  | Some c => filter_rows (λ r, bool_decide (at_col r "#CHROM" = CStr c)) df
  end.

(** Modelled from the spec: [svpoplib.seq.fa_to_series] is not among the
    sources. The sequence file is a map from record ID to sequence, and
    [df.join(..., on='ID', how='left')] adds the column [SEQ], missing where
    the file has no record. *)
Definition join_seq (fa : gmap string string) (df : frame) : result frame :=
  if has_col df "ID" then
    Ok (set_col "SEQ"
          (λ r, match at_col r "ID" with
                | CStr i => from_option CStr nan (fa !! i)
                | _ => nan
                end) df)
  else Raise (KeyError "ID").

(** [val.upper()] on a cell. *)
Definition upper_cell (c : cell) : result cell :=
  match c with
  | CStr s => Ok (CStr (upper s))
  | CCat i s => Ok (CStr (upper s))
  | _ => Raise (AttributeError "object has no attribute 'upper'")
  end.

Definition float_sub (x y : float) : float :=
  match x, y with
  | Fin a, Fin b => round64 (a - b)%Qc
  | NaN, _ | _, NaN => NaN
  | Inf s, Inf t => if bool_decide (s = t) then NaN else Inf s
  | Inf s, _ => Inf s
  | _, Inf t => Inf (negb t)
  end.

Definition is_number (c : cell) : bool :=
  match c with
  | CInt _ | CFloat _ | CBool _ => true
  | _ => false
  end.

(** [a - b] on two cells of numeric columns. *)
Definition cell_sub (a b : cell) : result cell :=
  match a, b with
  | CInt x, CInt y => Ok (CInt (x - y))
  | _, _ =>
      if is_number a && is_number b then
        Ok (CFloat (float_sub (num_of a) (num_of b)))
      else Raise (TypeError "unsupported operand type(s) for -")
  end.

(** [a < n] for an integer literal [n]. *)
Definition cell_lt_int (a : cell) (n : Z) : result bool :=
  match a with
  | CStr _ | CCat _ _ =>
      Raise (TypeError "'<' not supported between instances of 'str' and 'int'")
  | _ => Ok (flt (num_of a) (Fin (Qc_of n)))
  end.

Definition head_cols : list string :=
  ["#CHROM"; "POS"; "END"; "ID"; "SVTYPE"; "SVLEN"].

Definition with_seq (col_list : list string) : list string :=
  if bool_decide ("SEQ" ∈ col_list) then col_list else col_list ++ ["SEQ"].

(** The sequence column: from the FASTA when one is given, else as read. *)
Definition read_seq_column (df : frame) (sample_name : string)
    (fa : option (gmap string string)) (col_list : list string)
  : result (frame * list string) :=
  match fa with
  | Some series =>
      if has_col df "SEQ" then
        Raise (RuntimeError "Duplicate SEQ sources for BED file")
      else
        bind (join_seq series df) (λ df,
        bind (col df "SEQ") (λ seqs,
        if existsb isnull seqs then
          Raise (RuntimeError ("Missing records in FASTA for sample " +:+ sample_name))
        else Ok (df, with_seq col_list)))
  | None =>
      if has_col df "SEQ" then Ok (df, with_seq col_list) else Ok (df, col_list)
  end.

(** Defaults for the columns [SVLEN] and [SVTYPE]. *)
Definition default_columns (df : frame) : result frame :=
  bind
    (if has_col df "SVLEN" then Ok df
     else if negb (has_col df "END") || negb (has_col df "SVTYPE") then
       Raise (RuntimeError "Missing SVLEN: Need both SVTYPE and END to set automatically")
     else
       bind (col df "SVTYPE") (λ svtypes,
       bind (map_each upper_cell svtypes) (λ uppers,
       if existsb (λ c, bool_decide (c = CStr "INS")) uppers then
         Raise (RuntimeError "Missing SVLEN: Cannot compute for insertions (SVTYPE must not be INS for any record)")
       else
         bind (col df "POS") (λ _,
         set_col_checked "SVLEN"
           (λ r, cell_sub (at_col r "END") (at_col r "POS")) df))))
    (λ df,
    if has_col df "SVTYPE" then Ok df
    else Ok (set_col "SVTYPE" (λ _, CStr "RGN") df)).

Definition read_variant_table (bed : frame) (sample_name : string)
    (subset_chrom : option string) (fa : option (gmap string string))
    (col_list : list string) : result frame :=
  let col_list := head_cols ++ filter (λ c, c ∉ head_cols) col_list in
  let df := read_csv_chrom bed subset_chrom (λ c, bool_decide (c ∈ col_list)) in
  bind (read_seq_column df sample_name fa col_list) (λ '(df, col_list),
  bind (default_columns df) (λ df,
  bind
    (* any exception under [try] meets [except RuntimeException], a name
       that is not defined *)
    (match order_variant_columns df (Some col_list) None false true with
     | Ok df => Ok df
     | Raise _ => Raise (NameError "name 'RuntimeException' is not defined")
     | Diverge => Diverge
     end) (λ df,
  bind (col df "SVLEN") (λ svlens,
  bind (map_each (λ c, cell_lt_int c 0) svlens) (λ negative,
  if existsb id negative then Raise (RuntimeError "Negative SVLEN entries")
  else
    bind (sort_values (ascending ["#CHROM"; "POS"; "SVLEN"; "ID"]) df) (λ df,
    bind (col df "ID") (λ ids,
    let dup_names := duplicates ids in
    match dup_names with
    | _ :: _ =>
        bind (join_cells ", " (take 3 dup_names)) (λ dup_name_str,
        Raise (RuntimeError ("Found IDs with duplicates in sample " +:+ sample_name)))
    | [] => set_index "ID" false df
    end))))))).

End svmerge_load.

(** ** [svpoplib/svmerge.py]: the exact matcher *)
Module svmerge_exact.
Import Py Pd.
















End svmerge_exact.

(** ** [svpoplib/svmerge.py]: from the support table to the merged table *)
Module svmerge_output.
Import Py Pd svmerge_load.

Definition REQUIRED_COLUMNS : list string :=
  ["SUPPORT_ID"; "MERGE_SRC"; "MERGE_SRC_ID"].

Definition OPT_COL : list string :=
  ["MERGE_AC"; "MERGE_AF"; "MERGE_SAMPLES"; "MERGE_VARIANTS"; "MERGE_RO";
   "MERGE_OFFSET"; "MERGE_SZRO"; "MERGE_OFFSZ"; "MERGE_MATCH"].

(** [OPT_COL_DTYPE]: the conversion of a column that has one. *)
Definition OPT_COL_DTYPE (c : string) : option (cell → result cell) :=
  if bool_decide (c = "MERGE_AC") then Some to_int32
  else if bool_decide (c = "MERGE_AF") then Some to_float32
  else None.

(** [df[c] = other[c]] for a column of another table. *)
Definition copy_col (other : frame) (df : frame) (c : string) : result frame :=
  bind (series other c) (λ s, assign_series c s df).

(** [l.extend([c for c in cs if c not in l])]. *)
Definition extend_new (l cs : list string) : list string :=
  l ++ filter (λ c, c ∉ l) cs.

(** The body of [for index in range(len(bed_list))]: the state is the list
    of output columns and the list of tables to concatenate. *)
Definition sample_step (df_support : frame) (opt_columns : list string)
    (st : list string * list frame) (it : frame * string)
  : result (list string * list frame) :=
  let '(col_list, merge_df_list) := st in
  let '(bed, sample_name) := it in
  bind (col df_support "MERGE_SRC") (λ _,
  let df_support_sample :=
    filter_rows (λ r, bool_decide (label_of (at_col r "MERGE_SRC") = CStr sample_name))
                df_support in
  bind (set_index "MERGE_SRC_ID" false df_support_sample) (λ df_support_sample,
  let df_sample := bed in
  let col_list := extend_new col_list (columns df_sample) in
  if bool_decide (nrows df_support_sample = 0%nat) then Ok (col_list, merge_df_list)
  else
    bind (set_index "ID" true df_sample) (λ df_sample,
    bind (col df_support_sample "MERGE_SRC_ID") (λ labels,
    bind (loc labels df_sample) (λ df_sample,
    bind (bind (series df_support_sample "SUPPORT_ID")
               (λ s, assign_series "ID" s df_sample)) (λ df_sample,
    bind (copy_col df_support_sample df_sample "MERGE_SRC") (λ df_sample,
    bind (copy_col df_support_sample df_sample "MERGE_SRC_ID") (λ df_sample,
    bind (for_each (copy_col df_support_sample) opt_columns df_sample) (λ df_sample,
    Ok (col_list, merge_df_list ++ [df_sample])))))))))).

Definition convert_col (df : frame) (c : string) : result frame :=
  match OPT_COL_DTYPE c with
  | Some conv =>
      bind (col df c) (λ _, set_col_checked c (λ r, conv (at_col r c)) df)
  | None => Ok df
  end.

(** The body of [for col in col_list] that adds the missing columns. *)
Definition add_missing (head_cols : list string) (df : frame) (c : string)
  : result frame :=
  if has_col df c then Ok df
  else if bool_decide (c ∈ head_cols) then
    Raise (RuntimeError ("Missing head column while merging sample support: " +:+ c))
  else Ok (set_col c (λ _, nan) df).

Definition merge_sample_by_support (df_support : option frame)
    (bed_list : list frame) (sample_names : list string) : result frame :=
  let df_support := default (Frame REQUIRED_COLUMNS []) df_support in
  if bool_decide (length bed_list ≠ length sample_names) then
    Raise (RuntimeError "BED list and sample name list lengths differ")
  else
    let missing_cols :=
      if bool_decide (0 < nrows df_support)%nat then
        filter (λ c, c ∉ columns df_support) REQUIRED_COLUMNS
      else [] in
    if bool_decide (missing_cols ≠ []) then
      Raise (RuntimeError "Missing column(s) in df_support")
    else
      let opt_columns := filter (λ c, c ∈ columns df_support) OPT_COL in
      bind (col df_support "SUPPORT_ID") (λ support_ids,
      let dup_id_list := duplicates support_ids in
      if bool_decide (0 < length dup_id_list)%nat then
        bind (join_cells ", " (take 3 dup_id_list)) (λ dup_id_str,
        Raise (RuntimeError "Duplicate IDs after merging"))
      else
        bind (for_each (sample_step df_support opt_columns)
                (zip bed_list sample_names) ([], []))
             (λ '(col_list, merge_df_list),
        let col_list := extend_new col_list REQUIRED_COLUMNS in
        let col_list := extend_new col_list opt_columns in
        let df_merge :=
          match merge_df_list with
          | [] => Frame col_list []
          | _ => concat merge_df_list
          end in
        bind (for_each convert_col opt_columns df_merge) (λ df_merge,
        bind (sort_values (ascending ["#CHROM"; "POS"]) df_merge) (λ df_merge,
        let head_cols :=
          ["#CHROM"; "POS"; "END"; "ID"]
          ++ (if has_col df_merge "SVTYPE" then ["SVTYPE"] else [])
          ++ (if has_col df_merge "SVLEN" then ["SVLEN"] else []) in
        let tail_cols := filter (λ c, c ∉ head_cols) col_list in
        bind (for_each (add_missing head_cols) col_list df_merge) (λ df_merge,
        bind (select_cols (head_cols ++ tail_cols) df_merge) (λ df_merge,
        Ok (reset_index_drop df_merge))))))).

End svmerge_output.

(** ** [svpoplib/svmerge.py]: the non-redundant merge *)
Module svmerge_nr.
Import Py Pd svmerge_params svmerge_load svmerge_output.

(** *** The finalizer *)

(** [np.max([0, val])]. *)
Definition max0 (c : cell) : result cell :=
  match c with
  | CInt z => Ok (CInt (Z.max 0 z))
  | CBool b => Ok (CInt (if b then 1 else 0))
  | CFloat (Fin q) => Ok (CFloat (Fin (if decide (q < 0)%Qc then 0%Qc else q)))
  | CFloat (Inf true) => Ok (CFloat (Fin 0))
  | CFloat x => Ok (CFloat x)
  | _ => Raise (TypeError "cannot compare a string with a number")
  end.

(** [np.abs] on a cell. *)
Definition cell_abs (c : cell) : result cell :=
  match c with
  | CInt z => Ok (CInt (Z.abs z))
  | CBool b => Ok (CBool b)
  | CFloat (Fin q) => Ok (CFloat (Fin (if decide (q < 0)%Qc then (- q)%Qc else q)))
  | CFloat (Inf _) => Ok (CFloat (Inf false))
  | CFloat NaN => Ok (CFloat NaN)
  | _ => Raise (TypeError "bad operand type for abs(): 'str'")
  end.

(** [df[c] = f(df[c])], cell by cell. *)
Definition update_col (c : string) (f : cell → result cell) (df : frame) : result frame :=
  bind (col df c) (λ _, set_col_checked c (λ r, f (at_col r c)) df).

(** [a == b] between the cells of two categorical columns over the same
    categories: a missing value equals nothing. *)
Definition cat_eq (a b : cell) : bool :=
  negb (isnull a) && negb (isnull b) && bool_decide (a = b).

(** The first steps of the finalizer: the sample columns become ordered
    categories, the self-support marks are normalized, the primary rows are
    flagged. *)
Definition normalize_support (sample_names : list string) (df : frame) : result frame :=
  bind (update_col "SAMPLE" (λ c, Ok (categorical sample_names c)) df) (λ df,
  bind (update_col "SUPPORT_SAMPLE" (λ c, Ok (categorical sample_names c)) df) (λ df,
  bind (update_col "SUPPORT_OFFSET" max0 df) (λ df,
  bind (update_col "SUPPORT_RO" cell_abs df) (λ df,
  bind (update_col "SUPPORT_SZRO" cell_abs df) (λ df,
  bind (update_col "SUPPORT_OFFSZ" cell_abs df) (λ df,
  bind (update_col "SUPPORT_MATCH" cell_abs df) (λ df,
  Ok (set_col "IS_PRIMARY"
        (λ r, CBool (cat_eq (at_col r "SAMPLE") (at_col r "SUPPORT_SAMPLE"))) df)))))))).

Definition support_order : list (string * bool) :=
  [ ("SAMPLE", true); ("SUPPORT_RO", false); ("SUPPORT_OFFSET", true);
    ("SUPPORT_SZRO", false); ("SUPPORT_OFFSZ", false); ("SUPPORT_MATCH", false) ].

Definition support_key : list string := ["SUPPORT_ID"; "SAMPLE"; "SUPPORT_SAMPLE"].

(** Best support first, then one row for each merged variant, sample and
    supported sample. *)
Definition best_support (df : frame) : result frame :=
  bind (sort_values support_order df) (drop_duplicates support_key).

(** ['{:.Nf}'.format(val)] on a cell. *)
Definition format_cell (decimals : nat) (c : cell) : result string :=
  match c with
  | CInt z => Ok (format_f decimals (Fin (Qc_of z)))
  | CBool b => Ok (format_f decimals (Fin (if b then 1 else 0)%Qc))
  | CFloat x => Ok (format_f decimals x)
  | _ => Raise (ValueError "Unknown format code 'f' for object of type 'str'")
  end.

(** An item of [','.join(...)]: it must be a string. *)
Definition str_item (c : cell) : result string :=
  match c with
  | CStr s => Ok s
  | CCat _ s => Ok s
  | _ => Raise (TypeError "sequence item: expected str instance")
  end.

Definition join_col (sub : frame) (c : string) (f : cell → result string)
  : result cell :=
  bind (col sub c) (λ cells,
  bind (map_each f cells) (λ parts, Ok (CStr (join "," parts)))).

Definition summary_columns : list string :=
  ["MERGE_SRC"; "MERGE_SRC_ID"; "MERGE_AC"; "MERGE_AF"; "MERGE_SAMPLES";
   "MERGE_VARIANTS"; "MERGE_RO"; "MERGE_OFFSET"; "MERGE_SZRO"; "MERGE_OFFSZ";
   "MERGE_MATCH"].

(** The function applied to each group of one [SUPPORT_ID]. *)
Definition summarize (n_samples : nat) (subdf : frame) : result row :=
  match rows subdf with
  | [] => Raise (KeyError "iloc: position out of bounds")
  | first :: _ =>
      bind (col subdf "SUPPORT_SAMPLE") (λ _,
      bind (col subdf "ID") (λ _,
      bind (truediv (Z.of_nat (nrows subdf)) (Z.of_nat n_samples)) (λ af,
      bind (join_col subdf "SAMPLE" str_item) (λ samples,
      bind (join_col subdf "ID" str_item) (λ variants,
      bind (join_col subdf "SUPPORT_RO" (format_cell 2)) (λ ro,
      bind (join_col subdf "SUPPORT_OFFSET" (format_cell 0)) (λ offset,
      bind (join_col subdf "SUPPORT_SZRO" (format_cell 2)) (λ szro,
      bind (join_col subdf "SUPPORT_OFFSZ" (format_cell 2)) (λ offsz,
      bind (join_col subdf "SUPPORT_MATCH" (format_cell 2)) (λ mtch,
      Ok (list_to_map
            [ ("MERGE_SRC", label_of (at_col first "SUPPORT_SAMPLE"));
              ("MERGE_SRC_ID", at_col first "ID");
              ("MERGE_AC", CInt (Z.of_nat (nrows subdf)));
              ("MERGE_AF", CStr (format_f 4 (Fin af)));
              ("MERGE_SAMPLES", samples);
              ("MERGE_VARIANTS", variants);
              ("MERGE_RO", ro);
              ("MERGE_OFFSET", offset);
              ("MERGE_SZRO", szro);
              ("MERGE_OFFSZ", offsz);
              ("MERGE_MATCH", mtch) ] : row)))))))))))
  end.

(** [# Finalize merged variant set]: the support table, one row for each
    merged variant. *)
Definition finalize (sample_names : list string) (df : frame) : result frame :=
  if bool_decide (0 < nrows df)%nat then
    bind (normalize_support sample_names df) (λ df,
    bind (best_support df) (λ df,
    bind (sort_values (ascending support_key) df) (λ df,
    bind (groupby_apply "SUPPORT_ID" summary_columns
            (summarize (length sample_names)) df) (λ df_support,
    Ok (reset_index_keep "SUPPORT_ID" df_support)))))
  else
    Ok (Frame ["MERGE_SRC"; "MERGE_SRC_ID"; "MERGE_AC"; "MERGE_AF"; "SUPPORT_ID";
               "MERGE_SAMPLES"; "MERGE_VARIANTS"; "MERGE_RO"; "MERGE_OFFSET";
               "MERGE_SZRO"; "MERGE_OFFSZ"; "MERGE_MATCH"] []).

(** *** [merge_variants_nr] *)

(** The self-support marks of a variant that enters the merged set. *)
Definition self_support (sample_name : string) (df : frame) : frame :=
  set_col "SUPPORT_MATCH" (λ _, CInt (-1)) (
  set_col "SUPPORT_OFFSZ" (λ _, CInt (-1)) (
  set_col "SUPPORT_SZRO" (λ _, CInt (-1)) (
  set_col "SUPPORT_RO" (λ _, CInt (-1)) (
  set_col "SUPPORT_OFFSET" (λ _, CInt (-1)) (
  set_col "SUPPORT_SAMPLE" (λ _, CStr sample_name) (
  set_col "SUPPORT_ID" (λ r, at_col r "ID") (
  set_col "SAMPLE" (λ _, CStr sample_name) df))))))).

Definition check_sample_names (sample_names : option (list string))
  : result (list string) :=
  match sample_names with
  | None | Some [] => Raise (RuntimeError "Sample names is missing or empty")
  | Some names =>
      let names := strip <$> names in
      if negb (forallb (λ v, negb (bool_decide (v = EmptyString))) names) then
        Raise (RuntimeError "Found empty sample names")
      else if existsb (any_char isspace) names then
        Raise (RuntimeError "Error: Sample names contain whitespace")
      else if bool_decide (length (remove_dups names) ≠ length names) then
        Raise (RuntimeError "Sample names may not be duplicated")
      else Ok names
  end.

Abbreviation fasta := (gmap string string).

Section Merge.

(** The body of the loop over the samples after the first: the exact, RO
    and size-offset phases against the merged set, then the bookkeeping of
    support rows and new leads. The overlap resolver it calls
    ([svpoplib.svlenoverlap], over an interval tree) is not among the
    sources, so the body is a parameter: from the parameters, the columns,
    whether sequences come in a column, the chromosome, the threads, the
    merged table with the support kept aside, and the next sample (table,
    name, sequences), to the new merged table and support. *)
Variable merge_next :
  param_set → list string → bool → option string → nat →
  frame * list frame → frame * string * option fasta →
  result (frame * list frame).

Definition need_seq_column (seq_in_col : bool) (df : frame) : result unit :=
  if seq_in_col && negb (has_col df "SEQ") then
    Raise (RuntimeError "Merge requires variant sequences, but none were provided through FASTA files or as SEQ columns")
  else Ok tt.

Definition merge_variants_nr (bed_list : list frame)
    (sample_names : option (list string)) (merge_params : option string)
    (fa_list : option (list (option fasta))) (subset_chrom : option string)
    (threads : nat) : result frame :=
  let merge_strategy := "nr" in
  if bool_decide (length bed_list = 0%nat) then
    Raise (ValueError "BED file list is empty")
  else
    bind (check_sample_names sample_names) (λ sample_names,
    let n_samples := length sample_names in
    bind (get_param_set merge_params merge_strategy) (λ param_set,
    bind
      (if read_seq param_set then
         match fa_list with
         | None => Ok (true, replicate n_samples None)
         | Some l =>
             if bool_decide (length l ≠ n_samples) then
               Raise (RuntimeError "Non-redundant merge requires variant sequences, but fa_list is not the same length as the number of samples")
             else Ok (false, l)
         end
       else Ok (false, replicate n_samples None)) (λ '(seq_in_col, fa_list),
    let col_list :=
      ["#CHROM"; "POS"; "END"; "ID"; "SVTYPE"; "SVLEN"]
      ++ (if match_ref param_set then ["REF"] else [])
      ++ (if match_alt param_set then ["ALT"] else [])
      ++ (if read_seq param_set then ["SEQ"] else []) in
    match bed_list, sample_names, fa_list with
    | bed0 :: beds, sample_name :: names, fa0 :: fas =>
        bind (read_variant_table bed0 sample_name subset_chrom fa0 col_list) (λ df,
        bind (need_seq_column seq_in_col df) (λ _,
        let df := self_support sample_name df in
        bind (for_each
                (merge_next param_set col_list seq_in_col subset_chrom threads)
                (zip (zip beds names) fas) (df, [])) (λ '(df, base_support),
        let df := if has_col df "SEQ" then del_col "SEQ" df else df in
        let df :=
          match base_support with
          | [] => df
          | _ => concat [df; concat base_support]
          end in
        bind (finalize sample_names df) (λ df_support,
        merge_sample_by_support (Some df_support) bed_list sample_names))))
    | _, _, _ => Raise (KeyError "list index out of range")
    end))).

End Merge.

End svmerge_nr.

(** ** [svpoplib/variant.py]: homology at a breakpoint *)
Module variant_homology.
Import Py.

(** What these functions can raise: [IndexError], from indexing a sequence,
    besides the exceptions of [Py.exn]. *)
Inductive error : Type :=
| IndexError (msg : string)
| Builtin (e : exn).

(** Outcome of a call; [NoFuel] when a fuel-bounded loop runs out of fuel. *)
Inductive outcome (A : Type) : Type :=
| Value (a : A)
| Error (e : error)
| NoFuel.
Global Arguments Value {A} a.
Global Arguments Error {A} e.
Global Arguments NoFuel {A}.

Definition and_then {A B : Type} (m : outcome A) (k : A → outcome B) : outcome B :=
  match m with
  | Value a => k a
  | Error e => Error e
  | NoFuel => NoFuel
  end.

(** [s[i]]: a negative index counts from the end. *)
Definition item (s : string) (i : Z) : outcome ascii :=
  let n := Z.of_nat (String.length s) in
  let j := if i <? 0 then i + n else i in
  if (0 <=? j) && (j <? n) then
    match String.get (Z.to_nat j) s with
    | Some c => Value c
    | None => Error (IndexError "string index out of range")
    end
  else Error (IndexError "string index out of range").

(** [a % b] on integers: the sign of the result is that of [b]. *)
Definition py_mod (a b : Z) : outcome Z :=
  if b =? 0 then Error (Builtin (ZeroDivisionError "integer division or modulo by zero"))
  else Value (a mod b).

(** [base in {'A', 'C', 'G', 'T'}]. *)
Definition is_acgt (base : ascii) : bool :=
  bool_decide (base ∈ ["A"; "C"; "G"; "T"]%char).

(** The loop of [left_homology], from [hom_len] on; [Value] carries the
    [hom_len] at which the loop ends or breaks. *)
Fixpoint left_loop (fuel : nat) (pos_tig : Z) (seq_tig seq_sv : string)
    (hom_len : Z) : outcome Z :=
  let svlen := Z.of_nat (String.length seq_sv) in
  if hom_len <=? pos_tig then
    match fuel with
    | O => NoFuel
    | S fuel' =>
        and_then (item seq_tig (pos_tig - hom_len)) (λ seq_tig_base,
        if negb (is_acgt seq_tig_base) then Value hom_len
        else
          and_then (py_mod (hom_len + 1) svlen) (λ m,
          and_then (item seq_sv (- m)) (λ sv_base,
          if negb (Ascii.eqb sv_base seq_tig_base) then Value hom_len
          else left_loop fuel' pos_tig seq_tig seq_sv (hom_len + 1))))
    end
  else Value hom_len.

(** The loop ends once [hom_len] passes [pos_tig]: [pos_tig + 1] rounds are
    enough. *)
Definition left_homology (pos_tig : Z) (seq_tig seq_sv : option string) : outcome Z :=
  match seq_sv, seq_tig with
  | None, _ | _, None => Value 0
  | Some seq_sv, Some seq_tig =>
      left_loop (Z.to_nat (pos_tig + 1)) pos_tig seq_tig seq_sv 0
  end.

Fixpoint right_loop (fuel : nat) (pos_tig : Z) (seq_tig seq_sv : string)
    (hom_len : Z) : outcome Z :=
  let svlen := Z.of_nat (String.length seq_sv) in
  let tig_len := Z.of_nat (String.length seq_tig) in
  let pos_tig_limit := tig_len - pos_tig in
  if hom_len <? pos_tig_limit then
    match fuel with
    | O => NoFuel
    | S fuel' =>
        and_then (item seq_tig (pos_tig + hom_len)) (λ seq_tig_base,
        if negb (is_acgt seq_tig_base) then Value hom_len
        else
          and_then (py_mod hom_len svlen) (λ m,
          and_then (item seq_sv m) (λ sv_base,
          if negb (Ascii.eqb sv_base seq_tig_base) then Value hom_len
          else right_loop fuel' pos_tig seq_tig seq_sv (hom_len + 1))))
    end
  else Value hom_len.

(** The loop ends once [hom_len] reaches [tig_len - pos_tig]. *)
Definition right_homology (pos_tig : Z) (seq_tig seq_sv : option string) : outcome Z :=
  match seq_sv, seq_tig with
  | None, _ | _, None => Value 0
  | Some seq_sv, Some seq_tig =>
      right_loop (Z.to_nat (Z.of_nat (String.length seq_tig) - pos_tig))
                 pos_tig seq_tig seq_sv 0
  end.

End variant_homology.

(** ** [svpoplib/variant.py]: genotypes and ID checks *)
Module variant_ids.
Import Py Pd svmerge_load.

(** [re.split('[/|]', gt)]: the pieces between the separators, empty pieces
    kept; never empty. *)
Fixpoint re_split_class (is_sep : ascii → bool) (s : string) : list string :=
  match s with
  | EmptyString => [EmptyString]
  | String c s' =>
      if is_sep c then EmptyString :: re_split_class is_sep s'
      else match re_split_class is_sep s' with
           | t :: ts => String c t :: ts
           | [] => [String c EmptyString]
           end
  end.

Definition gt_sep (c : ascii) : bool := Ascii.eqb c "/" || Ascii.eqb c "|".

(** The body of [for gt_allele in gt_list]. *)
Definition count_allele (ac : Z) (gt_allele : string) : result Z :=
  if bool_decide (gt_allele ≠ ".") then
    match int gt_allele with
    | Some n => if 0 <? n then Ok (ac + 1) else Ok ac
    | None => Raise (ValueError "invalid literal for int() with base 10")
    end
  else Ok ac.

Definition gt_to_ac (gt : string) (no_call : Z) (no_call_strict : bool) : result Z :=
  let ac := 0 in
  let gt_list := re_split_class gt_sep gt in
  if bool_decide ("." ∈ gt_list)
     && (bool_decide ((list_to_set gt_list : gset string) = {["."]}) || no_call_strict)
  then Ok no_call
  else for_each count_allele gt_list ac.

(** The argument of [check_unique_ids]: a table, a column, or an object of
    another class. *)
Inductive ids_arg : Type :=
| DataFrame (df : frame)
| Series (id_row : list cell)
| Other (class_name : string).

(** The keys of [collections.Counter(l)], in the order in which they are
    first met. As in [duplicates], two cells are one key when they are the
    same cell, which is Python's equality on strings. *)
Fixpoint counter_keys (seen l : list cell) : list cell :=
  match l with
  | [] => []
  | x :: l' =>
      if decide (x ∈ seen) then counter_keys seen l'
      else x :: counter_keys (x :: seen) l'
  end.

(** [[val for val, count in collections.Counter(l).items() if count > 1]]. *)
Definition counted_twice (l : list cell) : list cell :=
  filter (λ v, (1 < length (filter (λ c, c = v) l))%nat) (counter_keys [] l).

(** [None] is returned when the IDs are unique. *)
Definition check_unique_ids (df : ids_arg) (message : option string) : result unit :=
  bind
    (match df with
     | DataFrame df =>
         if negb (has_col df "ID") then
           Raise (RuntimeError "Cannot check for unique IDs is DataFrame: No ID column")
         else col df "ID"
     | Series id_row => Ok id_row
     | Other _ =>
         Raise (RuntimeError "Unrecognized data type for check_unique_ids(): Expected Pandas DataFrame or Series")
     end) (λ id_row,
  if (length (remove_dups id_row) <? length id_row)%nat then
    let dup_id_set := counted_twice id_row in
    let message := match message with None => EmptyString | Some m => strip m end in
    bind (join_cells ", " (take 3 dup_id_set)) (λ shown,
    Raise (RuntimeError
             ((if bool_decide (message ≠ EmptyString) then message +:+ ": " else EmptyString)
              +:+ "Found " +:+ str (Z.of_nat (length dup_id_set))
              +:+ " duplicate variant IDs: " +:+ shown
              +:+ (if (3 <? length dup_id_set)%nat then "..." else EmptyString))))
  else Ok tt).

End variant_ids.

(** ** [svpoplib/svmerge.py]: matches by ID, and the entry point *)
Module svmerge_entry.
Import Py Pd svmerge_params svmerge_nr.

(** One row of the table of matches by ID. *)
Definition nrid_row (id : cell) : row :=
  list_to_map [("ID", id); ("TARGET_ID", id); ("OFFSET", CInt 0); ("RO", CInt 1);
               ("SZRO", CInt 1); ("OFFSZ", CInt 0)].

(** The IDs of both tables are intersected as sets; two IDs are one element
    when they are the same cell, which is Python's equality on strings. *)
Definition get_support_table_nrid (df df_next : frame) : result frame :=
  bind (col df "ID") (λ ids,
  bind (col df_next "ID") (λ next_ids,
  let intersect_set := filter (λ id, id ∈ next_ids) (remove_dups ids) in
  bind (col df "ID") (λ ids,
  let intersect_list := filter (λ id, id ∈ intersect_set) ids in
  Ok (Frame ["ID"; "TARGET_ID"; "OFFSET"; "RO"; "SZRO"; "OFFSZ"]
            (range_index (nrid_row <$> intersect_list)))))).

Section Entry.

Variable merge_next :
  param_set → list string → bool → option string → nat →
  frame * list frame → frame * string * option fasta →
  result (frame * list frame).

(** [strategy.split(':', 1)], with [None] appended to a single token. *)
Definition strategy_tok (strategy : string) : string * option string :=
  match cut_first ":" strategy with
  | Some (a, b) => (a, Some b)
  | None => (strategy, None)
  end.

Definition merge_variants (bed_list : list frame) (sample_names : option (list string))
    (strategy : string) (fa_list : option (list (option fasta)))
    (subset_chrom : option string) (threads : nat) : result frame :=
  let strategy_tok := strategy_tok strategy in
  bind (match sample_names with
        | Some names => Ok (length names)
        | None => Raise (TypeError "object of type 'NoneType' has no len()")
        end) (λ n_names,
  if bool_decide (length bed_list ≠ n_names) then
    Raise (RuntimeError "Sample name list length does not match the input file list length")
  else if bool_decide (length bed_list = 0%nat) then
    Raise (RuntimeError "Cannot merge 0 samples")
  else if bool_decide (strategy_tok.1 = "nr") then
    merge_variants_nr merge_next bed_list sample_names strategy_tok.2 fa_list
                      subset_chrom threads
  else Raise (RuntimeError ("Unrecognized strategy: " +:+ strategy))).

End Entry.

End svmerge_entry.

(** ** [svpoplib/variant.py]: one VCF record to a variant call *)
Module variant_vcf.
Import Py Pd svmerge_load variant_homology variant_ids.

Definition lift {A : Type} (m : result A) : outcome A :=
  match m with
  | Ok a => Value a
  | Raise e => Error (Builtin e)
  | Diverge => NoFuel
  end.

Definition raise {A : Type} (e : exn) : outcome A := Error (Builtin e).

(** [row[k]] on a Series. *)
Definition getitem (row : gmap string cell) (k : string) : outcome cell :=
  match row !! k with
  | Some c => Value c
  | None => raise (KeyError k)
  end.

(** [val.upper().strip()]. *)
Definition upper_strip (c : cell) : outcome string :=
  match c with
  | CStr s | CCat _ s => Value (strip (upper s))
  | _ => raise (AttributeError "object has no attribute 'upper'")
  end.

(** [int(x)]: [None] when it raises. A float is cut towards zero. *)
Definition trunc (q : Qc) : Z :=
  if decide (0 ≤ q)%Qc then Qc_floor q else - Qc_floor (- q)%Qc.

Definition int_of_cell (c : cell) : option Z :=
  match c with
  | CInt z => Some z
  | CBool b => Some (if b then 1 else 0)
  | CStr s | CCat _ s => int s
  | CFloat (Fin q) => Some (trunc q)
  | CFloat _ => None
  end.

(** [a + b] and [a - b] where one side is an integer: integers stay
    integers, a float makes a float, a string is refused. *)
Definition int_like (c : cell) : option Z :=
  match c with
  | CInt z => Some z
  | CBool b => Some (if b then 1 else 0)
  | _ => None
  end.

Definition float_add (x y : float) : float := float_sub x (fneg y).

Definition add (a b : cell) : result cell :=
  match int_like a, int_like b with
  | Some x, Some y => Ok (CInt (x + y))
  | _, _ =>
      if is_number a && is_number b then
        Ok (CFloat (float_add (num_of a) (num_of b)))
      else Raise (TypeError "unsupported operand type(s) for +")
  end.

Definition sub (a b : cell) : result cell :=
  match int_like a, int_like b with
  | Some x, Some y => Ok (CInt (x - y))
  | _, _ =>
      if is_number a && is_number b then
        Ok (CFloat (float_sub (num_of a) (num_of b)))
      else Raise (TypeError "unsupported operand type(s) for -")
  end.

(** [s[1:]], [s[:-1]] and [s[1:-1]]. *)
Definition without_first (s : string) : string :=
  match s with
  | EmptyString => EmptyString
  | String _ t => t
  end.

Fixpoint without_last (s : string) : string :=
  match s with
  | EmptyString => EmptyString
  | String c t =>
      match t with
      | EmptyString => EmptyString
      | _ => String c (without_last t)
      end
  end.

Definition inner (s : string) : string := without_last (without_first s).

(** [s.split(':', 1)[0]]. *)
Definition first_token (s : string) : string :=
  match cut_first ":" s with
  | Some (a, _) => a
  | None => s
  end.

(** [re.match('^[a-zA-Z]+$', s)] on a stripped string. *)
Definition is_letter (c : ascii) : bool :=
  let n := ord c in
  ((65 <=? n) && (n <=? 90) || (97 <=? n) && (n <=? 122))%N.

Fixpoint all_char (p : ascii → bool) (s : string) : bool :=
  match s with
  | EmptyString => true
  | String a s' => p a && all_char p s'
  end.

Definition is_letters (s : string) : bool :=
  negb (bool_decide (s = EmptyString)) && all_char is_letter s.

(** [alt[0] == '<' and alt[-1] == '>']. *)
Definition is_symbolic (alt : string) : outcome bool :=
  and_then (item alt 0) (λ first,
  if Ascii.eqb first "<" then
    and_then (item alt (-1)) (λ last, Value (Ascii.eqb last ">"))
  else Value false).

(** What the branches hand to the end of the function: [pos], [end],
    [vartype], [svtype], [svlen], [seq] and [ref]. *)
Record call : Type := Call {
  call_pos : cell;
  call_end : cell;
  call_vartype : string;
  call_svtype : string;
  call_svlen : cell;
  call_seq : cell;
  call_ref : cell
}.

Definition size_class (svlen : cell) : outcome string :=
  and_then (lift (cell_lt_int svlen 50)) (λ small,
  Value (if small then "INDEL" else "SV")).

(** The branch of the symbolic ALT ([<DEL>], [<INS:ME>], ...). *)
Definition symbolic_sv (row : gmap string cell) (pos : cell) (ref alt : string)
  : outcome call :=
  let svtype := first_token (inner alt) in
  if negb (bool_decide (svtype ∈ ["INS"; "DEL"; "INV"; "DUP"; "CNV"])) then
    raise (RuntimeError "Unrecognized symbolic variant type")
  else
    let svlen :=
      match row !! "SVLEN" with
      | Some c => Z.abs <$> int_of_cell c
      | None => None
      end in
    and_then
      (match svlen with
       | Some z => Value (CInt z)
       | None =>
           match row !! "END" with
           | None =>
               raise (RuntimeError "Missing or 0-length SVLEN and no END for symbolic SV")
           | Some e =>
               match int_of_cell e with
               | None =>
                   raise (RuntimeError "Variant has no SVLEN and END is not an integer")
               | Some z =>
                   match sub (CInt (Z.abs z)) pos with
                   | Ok c => Value c
                   | Raise _ =>
                       raise (RuntimeError "Variant has no SVLEN and END is not an integer")
                   | Diverge => NoFuel
                   end
               end
           end
       end) (λ svlen,
    and_then (size_class svlen) (λ vartype,
    and_then (lift (if bool_decide (svtype = "INS") then add pos (CInt 1)
                    else add pos svlen)) (λ end_,
    let seq := default nan (row !! "SEQ") in
    Value (Call pos end_ vartype svtype svlen seq (CStr ref))))).

(** [while min_len and ref[0] == alt[0]]. *)
Fixpoint trim_left_loop (min_len : nat) (ref alt : string) (trim_left : Z)
  : outcome (string * string * Z * nat) :=
  match min_len with
  | O => Value (ref, alt, trim_left, O)
  | S min_len' =>
      and_then (item ref 0) (λ r0,
      and_then (item alt 0) (λ a0,
      if Ascii.eqb r0 a0 then
        trim_left_loop min_len' (without_first ref) (without_first alt) (trim_left + 1)
      else Value (ref, alt, trim_left, min_len)))
  end.

(** [while min_len and ref[-1] == alt[-1]]. *)
Fixpoint trim_right_loop (min_len : nat) (ref alt : string)
  : outcome (string * string) :=
  match min_len with
  | O => Value (ref, alt)
  | S min_len' =>
      and_then (item ref (-1)) (λ r0,
      and_then (item alt (-1)) (λ a0,
      if Ascii.eqb r0 a0 then
        trim_right_loop min_len' (without_last ref) (without_last alt)
      else Value (ref, alt)))
  end.

Definition len (s : string) : Z := Z.of_nat (String.length s).

(** The branch of the alleles spelled out in letters. *)
Definition sequence_variant (pos : cell) (ref alt : string) : outcome call :=
  let min_len := Nat.min (String.length ref) (String.length alt) in
  and_then (trim_left_loop min_len ref alt 0) (λ '(ref, alt, trim_left, min_len),
  and_then (trim_right_loop min_len ref alt) (λ '(ref, alt),
  let shifted :=
    and_then (lift (add pos (CInt trim_left))) (λ p, lift (sub p (CInt 1))) in
  if bool_decide (ref = EmptyString) && negb (bool_decide (alt = EmptyString)) then
    let svlen := CInt (len alt) in
    and_then (size_class svlen) (λ vartype,
    and_then shifted (λ pos,
    and_then (lift (add pos (CInt 1))) (λ end_,
    Value (Call pos end_ vartype "INS" svlen (CStr alt) (CStr ref)))))
  else if negb (bool_decide (ref = EmptyString)) && bool_decide (alt = EmptyString) then
    let svlen := CInt (len ref) in
    and_then (size_class svlen) (λ vartype,
    and_then shifted (λ pos,
    and_then (lift (add pos svlen)) (λ end_,
    Value (Call pos end_ vartype "DEL" svlen (CStr ref) (CStr EmptyString)))))
  else if bool_decide (String.length ref = 1%nat) && bool_decide (String.length alt = 1%nat) then
    and_then shifted (λ pos,
    and_then (lift (add pos (CInt 1))) (λ end_,
    Value (Call pos end_ "SNV" "SNV" (CInt 1) (CStr alt) (CStr ref))))
  else
    let svlen := CInt (len alt) in
    and_then shifted (λ pos,
    and_then (lift (add pos svlen)) (λ end_,
    Value (Call pos end_ "SUB" "SUB" svlen (CStr alt) (CStr ref)))))).

Definition vcf_fields_to_seq (row : gmap string cell) (pos_row ref_row alt_row : string)
  : outcome (gmap string cell) :=
  and_then (getitem row pos_row) (λ pos,
  and_then (and_then (getitem row ref_row) upper_strip) (λ ref,
  and_then (and_then (getitem row alt_row) upper_strip) (λ alt,
  if contains "," alt then
    raise (RuntimeError "Multiple alleles in ALT, separate before calling vcf_fields_to_seq()")
  else if bool_decide (alt = ".") then raise (RuntimeError "Missing ALT in record")
  else
    and_then (is_symbolic alt) (λ symbolic,
    and_then
      (if symbolic then symbolic_sv row pos ref alt
       else if bool_decide (alt = ".") then
         and_then (lift (add pos (CInt 1))) (λ end_,
         Value (Call pos end_ "NONE" "NONE" (CInt 0) nan nan))
       else if contains "[" alt || contains "]" alt || contains "." alt then
         and_then (lift (add pos (CInt 1))) (λ end_,
         Value (Call pos end_ "BND" "BND" (CInt 0) nan nan))
       else if is_letters alt && is_letters ref then sequence_variant pos ref alt
       else raise (RuntimeError "Unknown variant type")) (λ c,
    and_then
      (match row !! "GT" with
       | Some (CStr gt) | Some (CCat _ gt) =>
           and_then (lift (gt_to_ac gt (-1) false)) (λ ac, Value (CInt ac))
       | Some _ => raise (TypeError "expected string or bytes-like object")
       | None => Value nan
       end) (λ ac,
    Value (list_to_map
             [("POS", call_pos c); ("END", call_end c);
              ("VARTYPE", CStr (call_vartype c)); ("SVTYPE", CStr (call_svtype c));
              ("SVLEN", call_svlen c); ("AC", ac); ("SEQ", call_seq c);
              ("REF", call_ref c)]))))))).

End variant_vcf.

(** ** [svpoplib/variant.py]: non-redundant intervals *)
Module variant_nr.
Import Py Pd variant.

(** An interval [begin, end) of the tree. [intervaltree.IntervalTree] is a
    library outside the sources; from its documentation: the tree is a set of
    intervals, [tree[a:b]] gives those that overlap [a, b), none when
    [a >= b], and [tree[a:b] = data] adds an interval, which must not be
    empty. The set is kept as the list of its intervals in the order of
    arrival. *)
Abbreviation interval := (Z * Z)%type.

Definition overlapping (tree : list interval) (begin end_ : Z) : list interval :=
  if decide (end_ ≤ begin) then []
  else filter (λ iv : interval, iv.1 < end_ ∧ begin < iv.2) tree.

Definition tree_add (tree : list interval) (begin end_ : Z) : result (list interval) :=
  if decide ((begin, end_) ∈ tree) then Ok tree
  else if decide (end_ ≤ begin) then
    Raise (ValueError "IntervalTree: Null Interval objects not allowed in IntervalTree")
  else Ok (tree ++ [(begin, end_)]).

(** A record of the table: its index label and its integer columns [POS]
    and [END]. *)
Abbreviation record := (cell * interval)%type.

(** [for interval in interval_tree[pos:end]] with its [break]. *)
Fixpoint any_match (pos end_ : Z) (found : list interval) : result bool :=
  match found with
  | [] => Ok false
  | iv :: rest =>
      bind (reciprocal_overlap pos end_ iv.1 iv.2) (λ ro,
      if decide (Q2Qc (1 # 2) ≤ ro)%Qc then Ok true
      else any_match pos end_ rest)
  end.

(** The body of [for index, row in df_chr.iterrows()]. *)
Definition nr_step (st : list cell * list interval) (rec : record)
  : result (list cell * list interval) :=
  let '(index_list, interval_tree) := st in
  let '(index, (pos, end_)) := rec in
  bind (any_match pos end_ (overlapping interval_tree pos end_)) (λ ri_match,
  let index_list := if ri_match then index_list else index_list ++ [index] in
  bind (tree_add interval_tree pos end_) (λ interval_tree,
  Ok (index_list, interval_tree))).

(** [df_chr.loc[index_list]]: for each label, the records that carry it. *)
Definition loc_records (index_list : list cell) (df_chr : list record) : list record :=
  index_list ≫= (λ label, filter (λ r : record, r.1 = label) df_chr).

(** The threshold is the literal 0.50: the argument [overlap] is not read. *)
Definition nr_interval_merge (df_chr : list record) (overlap : Qc)
  : result (list record) :=
  bind (for_each nr_step df_chr ([], [])) (λ '(index_list, _),
  Ok (loc_records index_list df_chr)).

End variant_nr.

Import Py Pd variant svmerge_params variant_columns svmerge_load svmerge_exact svmerge_output svmerge_nr.
Import variant_homology variant_ids svmerge_entry variant_vcf variant_nr.

(** * The vocabulary of the statements *)

Definition occurrences (x : string) (xs : list string) : nat :=
  length (filter (λ y, y = x) xs).

(** The names [version_id] treats as duplicated. *)
Definition duplicated (id_col : list string) (existing : option (gset string))
  : gset string :=
  dup_set_of (counter_update id_col
    (match existing with
     | Some e => counter_update (elements e) ∅
     | None => ∅
     end)).

(** The renaming loop of [version_id] read from left to right: what is left of
    the column, with the names taken so far. *)
Fixpoint version_loop (dup_set : gset string) (id_set : gset string)
    (names : list string) : result (list string * gset string) :=
  match names with
  | [] => Ok ([], id_set)
  | name :: rest =>
      if decide (name ∈ dup_set) then
        bind (name_version name) (λ '(tok0, v),
        bind (find_unique (size id_set) tok0 v id_set) (λ new_name,
        bind (version_loop dup_set ({[new_name]} ∪ id_set) rest) (λ '(rest', s'),
        Ok (new_name :: rest', s'))))
      else
        bind (version_loop dup_set id_set rest) (λ '(rest', s'),
        Ok (name :: rest', s'))
  end.

(** The names taken when the loop reaches position [i]: the initial set and
    the names given to duplicated entries before [i]. *)
Definition took (dup_set id_set : gset string) (names out : list string)
    (i : nat) (n : string) : Prop :=
  n ∈ id_set ∨
  ∃ j y, (j < i)%nat ∧ names !! j = Some y ∧ y ∈ dup_set ∧ out !! j = Some n.

(** The names out of reach at position [i], seen from outside the loop: the
    entries already written before [i], and the entries of the input column
    that occur once. *)
Definition taken_before (id_col out : list string) (i : nat) (n : string) : Prop :=
  n ∈ take i out ∨ occurrences n id_col = 1%nat.

(** ** The merge parameters: keys and values of an element *)

Definition element_key (param_element : string) : string :=
  lower (default EmptyString (re_split_eq (strip param_element) !! 0%nat)).

Definition element_val (param_element : string) : option string :=
  re_split_eq (strip param_element) !! 1%nat.

(** An element that is blank is skipped; otherwise it is read by its key. *)
Definition names_key (key : string) (param_element : string) : Prop :=
  strip param_element ≠ EmptyString ∧ element_key param_element = key.

Definition raises_only {A : Type} (P : exn → Prop) (m : result A) : Prop :=
  ∀ e, m = Raise e → P e.

Definition duplicate_ids_error : exn := RuntimeError "Duplicate IDs after merging".

Definition support_ids (df_support : frame) : list cell :=
  (λ r, at_col r "SUPPORT_ID") <$> rows df_support.

Definition other_error (e : exn) : Prop := e ≠ duplicate_ids_error.

(** A support table in which the lead ID [x] comes twice. *)
Definition support_twice : frame :=
  Frame REQUIRED_COLUMNS
    (range_index
       [ list_to_map [("SUPPORT_ID", CStr "x"); ("MERGE_SRC", CStr "A");
                      ("MERGE_SRC_ID", CStr "x")];
         list_to_map [("SUPPORT_ID", CStr "y"); ("MERGE_SRC", CStr "A");
                      ("MERGE_SRC_ID", CStr "y")];
         list_to_map [("SUPPORT_ID", CStr "x"); ("MERGE_SRC", CStr "B");
                      ("MERGE_SRC_ID", CStr "z")] ]).













(** An example support table: two candidates for the same merged variant,
    sample and supported sample, and a self-support row. *)
Definition support_example : frame :=
  Frame ["ID"; "SUPPORT_ID"; "SAMPLE"; "SUPPORT_SAMPLE"; "SUPPORT_RO";
         "SUPPORT_OFFSET"; "SUPPORT_SZRO"; "SUPPORT_OFFSZ"; "SUPPORT_MATCH"]
    (range_index
       [ list_to_map [("ID", CStr "x"); ("SUPPORT_ID", CStr "v1");
                      ("SAMPLE", CCat 1 "s2"); ("SUPPORT_SAMPLE", CCat 0 "s1");
                      ("SUPPORT_RO", CFloat (Fin (Q2Qc (1 # 2))));
                      ("SUPPORT_OFFSET", CInt 10);
                      ("SUPPORT_SZRO", CFloat (Fin (Q2Qc (1 # 2))));
                      ("SUPPORT_OFFSZ", CFloat (Fin (Q2Qc (1 # 4))));
                      ("SUPPORT_MATCH", nan)];
         list_to_map [("ID", CStr "y"); ("SUPPORT_ID", CStr "v1");
                      ("SAMPLE", CCat 1 "s2"); ("SUPPORT_SAMPLE", CCat 0 "s1");
                      ("SUPPORT_RO", CFloat (Fin (Q2Qc (3 # 4))));
                      ("SUPPORT_OFFSET", CInt 20);
                      ("SUPPORT_SZRO", CFloat (Fin (Q2Qc (3 # 4))));
                      ("SUPPORT_OFFSZ", CFloat (Fin (Q2Qc (1 # 2))));
                      ("SUPPORT_MATCH", nan)];
         list_to_map [("ID", CStr "v1"); ("SUPPORT_ID", CStr "v1");
                      ("SAMPLE", CCat 0 "s1"); ("SUPPORT_SAMPLE", CCat 0 "s1");
                      ("SUPPORT_RO", CFloat (Fin (Q2Qc 1)));
                      ("SUPPORT_OFFSET", CInt 0);
                      ("SUPPORT_SZRO", CFloat (Fin (Q2Qc 1)));
                      ("SUPPORT_OFFSZ", CFloat (Fin (Q2Qc 1)));
                      ("SUPPORT_MATCH", CFloat (Fin (Q2Qc 1)))] ]).





(** The magnitude [round_binary] gives a positive rational, before the
    overflow test. *)
Definition rounded (prec emin : Z) (a : Qc) : Qc :=
  let u := Z.max (ilog2 a - (prec - 1)) emin in
  (Qc_of (round_half_even (a / pow2 u)) * pow2 u)%Qc.

(** The records of a sample table that a run restricted to [subset_chrom]
    reads. *)
Definition selected (bed : frame) (subset_chrom : option string) : list row :=
  match subset_chrom with
  | None => rows bed
  | Some c => filter (λ r, at_col r "#CHROM" = CStr c) (rows bed)
  end.

(** A well-typed record: chromosome and ID are strings, the position is an
    integer, the length a non-negative integer. *)
Definition valid_record (r : row) : Prop :=
  (∃ s, at_col r "#CHROM" = CStr s) ∧ (∃ z, at_col r "POS" = CInt z) ∧
  (∃ z, at_col r "SVLEN" = CInt z ∧ 0 ≤ z) ∧ (∃ s, at_col r "ID" = CStr s).

(** A row of the merged set that supports itself, as the first sample
    enters it. *)
Definition self_supported (name : string) (r : row) : Prop :=
  (∃ s, at_col r "ID" = CStr s) ∧
  at_col r "SUPPORT_ID" = at_col r "ID" ∧
  at_col r "SAMPLE" = CStr name ∧
  at_col r "SUPPORT_SAMPLE" = CStr name ∧
  at_col r "SUPPORT_OFFSET" = CInt (-1) ∧
  at_col r "SUPPORT_RO" = CInt (-1) ∧
  at_col r "SUPPORT_SZRO" = CInt (-1) ∧
  at_col r "SUPPORT_OFFSZ" = CInt (-1) ∧
  at_col r "SUPPORT_MATCH" = CInt (-1).

(** The same row once the finalizer has normalized the marks. *)
Definition normalized (name : string) (r : row) : Prop :=
  (∃ s, at_col r "ID" = CStr s) ∧
  at_col r "SUPPORT_ID" = at_col r "ID" ∧
  at_col r "SAMPLE" = CCat 0 name ∧
  at_col r "SUPPORT_SAMPLE" = CCat 0 name ∧
  at_col r "SUPPORT_OFFSET" = CInt 0 ∧
  at_col r "SUPPORT_RO" = CInt 1 ∧
  at_col r "SUPPORT_SZRO" = CInt 1 ∧
  at_col r "SUPPORT_OFFSZ" = CInt 1 ∧
  at_col r "SUPPORT_MATCH" = CInt 1.

Definition support_columns : list string :=
  ["ID"; "SAMPLE"; "SUPPORT_ID"; "SUPPORT_SAMPLE"; "SUPPORT_OFFSET"; "SUPPORT_RO";
   "SUPPORT_SZRO"; "SUPPORT_OFFSZ"; "SUPPORT_MATCH"].

(** The summary of a merged variant that only its own sample supports. *)
Definition summary (name : string) (k : cell) : row :=
  list_to_map
    [ ("MERGE_SRC", CStr name); ("MERGE_SRC_ID", k); ("MERGE_AC", CInt 1);
      ("MERGE_AF", CStr "1.0000"); ("MERGE_SAMPLES", CStr name);
      ("MERGE_VARIANTS", k); ("MERGE_RO", CStr "1.00"); ("MERGE_OFFSET", CStr "0");
      ("MERGE_SZRO", CStr "1.00"); ("MERGE_OFFSZ", CStr "1.00");
      ("MERGE_MATCH", CStr "1.00") ].

Definition support_row (name : string) (k : cell) : row :=
  <["SUPPORT_ID" := k]> (summary name k).

(** A row after the columns [cs] of the row [g] were copied into it. *)
Definition annotate (g : row) (cs : list string) (r : row) : row :=
  foldl (λ acc c, <[c := at_col g c]> acc) r cs.

(** The record of a sample as [merge_sample_by_support] writes it when the
    sample alone supports it. *)
Definition merged_row (name : string) (r : row) : row :=
  let g := support_row name (at_col r "ID") in
  annotate g OPT_COL (
    <["MERGE_SRC_ID" := at_col g "MERGE_SRC_ID"]> (
    <["MERGE_SRC" := at_col g "MERGE_SRC"]> (
    <["ID" := at_col g "SUPPORT_ID"]> (delete "ID" r)))).

(** The columns of the table of a sample once its support is copied in. *)
Definition merged_columns (bed : frame) : list string :=
  foldl add_col
    (add_col (add_col (add_col (filter (λ x, x ≠ "ID") (columns bed)) "ID")
                      "MERGE_SRC") "MERGE_SRC_ID")
    OPT_COL.

(** What the merged table says of a record that only its own sample
    supports. *)
Definition single_sample_output (name : string) (r o : row) : Prop :=
  at_col o "#CHROM" = at_col r "#CHROM" ∧
  at_col o "POS" = at_col r "POS" ∧
  at_col o "END" = at_col r "END" ∧
  at_col o "ID" = at_col r "ID" ∧
  at_col o "MERGE_SRC" = CStr name ∧
  at_col o "MERGE_SRC_ID" = at_col r "ID" ∧
  at_col o "MERGE_AC" = CInt 1 ∧
  at_col o "MERGE_AF" = CFloat (Fin 1%Qc) ∧
  at_col o "MERGE_SAMPLES" = CStr name ∧
  at_col o "MERGE_VARIANTS" = at_col r "ID" ∧
  at_col o "MERGE_RO" = CStr "1.00" ∧
  at_col o "MERGE_OFFSET" = CStr "0" ∧
  at_col o "MERGE_SZRO" = CStr "1.00" ∧
  at_col o "MERGE_OFFSZ" = CStr "1.00" ∧
  at_col o "MERGE_MATCH" = CStr "1.00".

(** The columns the merged table of a single sample must show. *)
Definition output_columns : list string :=
  ["#CHROM"; "POS"; "END"; "ID"; "MERGE_SRC"; "MERGE_SRC_ID"] ++ OPT_COL.

(** The row of the merged table before the columns are ordered. *)
Definition converted_row (name : string) (r : row) : row :=
  <["MERGE_AF" := CFloat (Fin 1%Qc)]> (<["MERGE_AC" := CInt 1]> (merged_row name r)).

(** The columns [merge_variants_nr] asks of each sample table. *)
Definition read_columns (ps : param_set) : list string :=
  ["#CHROM"; "POS"; "END"; "ID"; "SVTYPE"; "SVLEN"]
  ++ (if match_ref ps then ["REF"] else [])
  ++ (if match_alt ps then ["ALT"] else [])
  ++ (if read_seq ps then ["SEQ"] else []).

(** An example sample table, not sorted, with a column of its own. *)
Definition example_bed : frame :=
  Frame ["#CHROM"; "POS"; "END"; "ID"; "SVTYPE"; "SVLEN"; "QUAL"]
    (range_index
       [ list_to_map [("#CHROM", CStr "chr2"); ("POS", CInt 5); ("END", CInt 6);
                      ("ID", CStr "b"); ("SVTYPE", CStr "INS"); ("SVLEN", CInt 30);
                      ("QUAL", CInt 7)];
         list_to_map [("#CHROM", CStr "chr1"); ("POS", CInt 100); ("END", CInt 110);
                      ("ID", CStr "v1"); ("SVTYPE", CStr "DEL"); ("SVLEN", CInt 10);
                      ("QUAL", CInt 7)];
         list_to_map [("#CHROM", CStr "chr1"); ("POS", CInt 50); ("END", CInt 60);
                      ("ID", CStr "a"); ("SVTYPE", CStr "DEL"); ("SVLEN", CInt 10);
                      ("QUAL", CInt 7)] ]).

(** A loop body for runs in which no further sample comes. *)
Definition no_next : param_set → list string → bool → option string → nat →
    frame * list frame → frame * string * option fasta →
    result (frame * list frame) :=
  λ _ _ _ _ _ st _, Ok st.

(** The last steps of [read_variant_table], from the check of [SVLEN] on. *)
Definition check_and_index (sample_name : string) (df : frame) : result frame :=
  bind (col df "SVLEN") (λ svlens,
  bind (map_each (λ c, cell_lt_int c 0) svlens) (λ negative,
  if existsb id negative then Raise (RuntimeError "Negative SVLEN entries")
  else
    bind (sort_values (ascending ["#CHROM"; "POS"; "SVLEN"; "ID"]) df) (λ df,
    bind (col df "ID") (λ ids,
    match duplicates ids with
    | _ :: _ =>
        bind (join_cells ", " (take 3 (duplicates ids))) (λ _,
        Raise (RuntimeError ("Found IDs with duplicates in sample " +:+ sample_name)))
    | [] => set_index "ID" false df
    end)))).

(** A typed record: chromosome and ID are strings, position and length are
    integers. *)
Definition typed_record (r : row) : Prop :=
  (∃ s, at_col r "#CHROM" = CStr s) ∧ (∃ z, at_col r "POS" = CInt z) ∧
  (∃ z, at_col r "SVLEN" = CInt z) ∧ (∃ s, at_col r "ID" = CStr s).

Definition negative_length (r : row) : Prop :=
  ∃ z, at_col r "SVLEN" = CInt z ∧ z < 0.

(** Round [i] of the loop of [left_homology] finds a match: the base of the
    contig [i] places before [pos_tig] is one of A, C, G, T and equals the
    base of the variant sequence [i + 1] places from its end, going round. *)
Definition left_match (pos_tig : Z) (seq_tig seq_sv : string) (i : Z) : bool :=
  match String.get (Z.to_nat (pos_tig - i)) seq_tig,
        String.get (Z.to_nat ((- (i + 1)) mod Z.of_nat (String.length seq_sv))) seq_sv with
  | Some a, Some b => is_acgt a && Ascii.eqb b a
  | _, _ => false
  end.

(** Round [i] of the loop of [right_homology] finds a match. *)
Definition right_match (pos_tig : Z) (seq_tig seq_sv : string) (i : Z) : bool :=
  match String.get (Z.to_nat (pos_tig + i)) seq_tig,
        String.get (Z.to_nat (i mod Z.of_nat (String.length seq_sv))) seq_sv with
  | Some a, Some b => is_acgt a && Ascii.eqb b a
  | _, _ => false
  end.

(** [gt.replace('|', '/')]: the genotype without its phasing. *)
Definition unphase (gt : string) : string :=
  smap (λ c, if Ascii.eqb c "|" then "/"%char else c) gt.

(** A row of the table of matches by ID: a record matched with itself. *)
Definition matched_by_id (r : row) : Prop :=
  at_col r "TARGET_ID" = at_col r "ID" ∧ at_col r "OFFSET" = CInt 0 ∧
  at_col r "RO" = CInt 1 ∧ at_col r "SZRO" = CInt 1 ∧ at_col r "OFFSZ" = CInt 0.

Definition ids_table (ids : list string) : frame :=
  Frame ["ID"] (range_index ((λ s, {["ID" := CStr s]}) <$> ids)).

(** The columns of the input tables, each at its first appearance. *)
Definition input_columns (bed_list : list frame) : list string :=
  foldl extend_new [] (columns <$> bed_list).

(** A sequence of upper-case letters, as the alleles of a VCF record. *)
Definition is_upper (c : ascii) : bool := ((65 <=? ord c) && (ord c <=? 90))%N.

Definition bases (s : string) : Prop := all_char is_upper s = true.

(** The Series that [vcf_fields_to_seq] returns. *)
Definition vcf_call (pos end_ : Z) (vartype svtype : string) (svlen : Z)
    (seq ref : string) : gmap string cell :=
  list_to_map
    [("POS", CInt pos); ("END", CInt end_); ("VARTYPE", CStr vartype);
     ("SVTYPE", CStr svtype); ("SVLEN", CInt svlen); ("AC", nan);
     ("SEQ", CStr seq); ("REF", CStr ref)].

Definition vcf_row (pos : Z) (ref alt : string) : gmap string cell :=
  list_to_map [("POS", CInt pos); ("REF", CStr ref); ("ALT", CStr alt)].

Definition symbolic_row : gmap string cell :=
  list_to_map [("POS", CInt 100); ("REF", CStr "n"); ("ALT", CStr ("<" +:+ "DEL" +:+ ">"));
               ("SVLEN", CInt (-150)); ("END", CInt 999)].

(** Two intervals overlap reciprocally by at least one half. *)
Definition redundant (a b : interval) : bool :=
  match reciprocal_overlap a.1 a.2 b.1 b.2 with
  | Ok ro => bool_decide (Q2Qc (1 # 2) ≤ ro)%Qc
  | _ => false
  end.

(** The records that no earlier interval makes redundant, [seen] being the
    intervals met before. *)
Fixpoint kept_from (seen : list interval) (l : list record) : list record :=
  match l with
  | [] => []
  | r :: l' =>
      if existsb (redundant r.2) seen then kept_from (seen ++ [r.2]) l'
      else r :: kept_from (seen ++ [r.2]) l'
  end.

Definition example_intervals : list record :=
  [(CInt 0, (100, 200)); (CInt 1, (120, 210)); (CInt 2, (190, 400)); (CInt 3, (500, 600))].

(** * Properties *)

(** ** Strings: cuts, joins and the decimal numerals *)

Lemma contains_app (c : ascii) (s t : string) :
  contains c (s +:+ t) = contains c s || contains c t.
Proof.
  induction s as [|a s IH]; simpl; [done|].
  rewrite IH. by rewrite orb_assoc.
Qed.

Lemma cut_last_none (c : ascii) (s : string) :
  cut_last c s = None ↔ contains c s = false.
Proof.
  induction s as [|a s IH]; simpl; [done|].
  destruct (cut_last c s) as [[u v]|] eqn:E.
  - split; [done|]. intros [_ H]%orb_false_iff.
    apply IH in H. done.
  - destruct (Ascii.eqb a c); simpl; [done|]. tauto.
Qed.

Lemma cut_last_app (c : ascii) (s t : string) :
  contains c t = false → cut_last c (s +:+ String c t) = Some (s, t).
Proof.
  intros Ht. induction s as [|a s IH]; simpl.
  - apply cut_last_none in Ht. rewrite Ht. by rewrite Ascii.eqb_refl.
  - by rewrite IH.
Qed.

Lemma pretty_N_go_nodot (x : N) (s : string) :
  contains "." s = false → contains "." (pretty_N_go x s) = false.
Proof.
  revert s. induction (N.lt_wf_0 x) as [x _ IH]; intros s Hs.
  destruct (decide (x = 0)%N) as [->|Hx].
  - by rewrite pretty_N_go_0.
  - rewrite pretty_N_go_step by lia.
    apply IH; [apply N.div_lt; lia|].
    simpl. rewrite Hs. unfold pretty_N_char.
    by repeat case_match.
Qed.

Lemma str_nodot (v : Z) : contains "." (str v) = false.
Proof.
  unfold str, pretty, pretty_Z.
  assert (∀ n : N, contains "." (pretty n) = false) as HN.
  { intros n. unfold pretty, pretty_N. case_decide; [done|].
    by apply pretty_N_go_nodot. }
  destruct v as [|p|p]; [done|apply HN|].
  rewrite contains_app. simpl. apply HN.
Qed.

Lemma versioned_eq (t : string) (v : Z) : versioned t v = t +:+ String "." (str v).
Proof. done. Qed.

Lemma versioned_cut (t : string) (v : Z) :
  cut_last "." (versioned t v) = Some (t, str v).
Proof. rewrite versioned_eq. apply cut_last_app, str_nodot. Qed.

Lemma versioned_inj (t t' : string) (v v' : Z) :
  versioned t v = versioned t' v' → t = t' ∧ v = v'.
Proof.
  intros H. pose proof (versioned_cut t v) as H1.
  rewrite H, versioned_cut in H1. simplify_eq.
  split; [done|]. by apply (inj pretty).
Qed.

Lemma versioned_has_dot (t : string) (v : Z) : contains "." (versioned t v) = true.
Proof. rewrite versioned_eq, contains_app. simpl. by rewrite orb_true_r. Qed.

Lemma name_version_nodot (x : string) :
  contains "." x = false → name_version x = Ok (x, 1).
Proof.
  intros H. unfold name_version, rsplit1.
  apply cut_last_none in H. by rewrite H.
Qed.

(** ** The counter and the set of duplicated names *)

Lemma counter_update_lookup (xs : list string) (c : gmap string nat) (x : string) :
  default 0%nat (counter_update xs c !! x)
  = (default 0%nat (c !! x) + occurrences x xs)%nat.
Proof.
  unfold counter_update, occurrences. revert c.
  induction xs as [|y xs IH]; intros c; simpl; [lia|].
  rewrite IH. rewrite filter_cons.
  destruct (decide (y = x)) as [->|Hne].
  - rewrite lookup_insert_eq. simpl. lia.
  - rewrite lookup_insert_ne by done. lia.
Qed.

Lemma elem_of_dup_set_of (m : gmap string nat) (x : string) :
  x ∈ dup_set_of m ↔ (1 < default 0%nat (m !! x))%nat.
Proof.
  unfold dup_set_of. rewrite elem_of_dom. unfold is_Some.
  setoid_rewrite map_lookup_filter_Some. simpl. split.
  - intros (n & Hn & Hlt). by rewrite Hn.
  - intros H. destruct (m !! x) as [n|] eqn:E; simpl in H; [eauto|lia].
Qed.

Lemma occurrences_elements (e : gset string) (x : string) :
  occurrences x (elements e) = if decide (x ∈ e) then 1%nat else 0%nat.
Proof.
  unfold occurrences.
  assert (∀ l : list string, NoDup l →
    length (filter (λ y, y = x) l) = if decide (x ∈ l) then 1%nat else 0%nat) as H.
  { induction 1 as [|y l Hy Hl IH]; [done|].
    rewrite filter_cons. destruct (decide (y = x)) as [->|Hne]; simpl.
    - rewrite IH. rewrite decide_False by done.
      rewrite decide_True by left. done.
    - rewrite IH. destruct (decide (x ∈ l)).
      + rewrite decide_True by (by right). done.
      + rewrite decide_False; [done|]. rewrite elem_of_cons. naive_solver. }
  rewrite H by apply NoDup_elements.
  destruct (decide (x ∈ e)).
  - rewrite decide_True; [done|]. by apply elem_of_elements.
  - rewrite decide_False; [done|]. by rewrite elem_of_elements.
Qed.

Lemma occurrences_zero (x : string) (xs : list string) :
  occurrences x xs = 0%nat ↔ x ∉ xs.
Proof.
  unfold occurrences. induction xs as [|y xs IH]; simpl.
  - split; [intros _; apply not_elem_of_nil|done].
  - rewrite filter_cons, not_elem_of_cons.
    destruct (decide (y = x)) as [->|Hne]; simpl; [naive_solver|].
    rewrite IH. naive_solver.
Qed.

Lemma occurrences_NoDup (x : string) (xs : list string) :
  NoDup xs → (occurrences x xs ≤ 1)%nat.
Proof.
  unfold occurrences. induction 1 as [|y l Hy Hl IH]; simpl; [lia|].
  rewrite filter_cons. destruct (decide (y = x)) as [->|Hne]; simpl; [|done].
  apply occurrences_zero in Hy. unfold occurrences in Hy. lia.
Qed.

Lemma elem_of_duplicated (id_col : list string) (existing : option (gset string)) (x : string) :
  x ∈ duplicated id_col existing ↔
  (1 < (match existing with
        | Some e => if decide (x ∈ e) then 1 else 0
        | None => 0
        end) + occurrences x id_col)%nat.
Proof.
  unfold duplicated. rewrite elem_of_dup_set_of, counter_update_lookup.
  destruct existing as [e|].
  - by rewrite counter_update_lookup, lookup_empty, occurrences_elements.
  - by rewrite lookup_empty.
Qed.

Lemma version_id_unfold (id_col : list string) (existing : option (gset string)) :
  version_id id_col existing =
  let dup_set := duplicated id_col existing in
  if decide (size dup_set = 0%nat) then Ok id_col
  else
    bind (for_each (version_at dup_set) (seq 0 (length id_col))
            (id_col,
             match existing with
             | Some e => list_to_set id_col ∖ dup_set ∪ e
             | None => list_to_set id_col ∖ dup_set
             end))
         (λ st, Ok st.1).
Proof. unfold version_id, duplicated. by destruct existing. Qed.

(** C9: when the entries of the ID column are pairwise distinct and none of
    them is in the set of existing IDs (or no such set is given), [version_id]
    returns the column as it is. *)
Theorem version_id_unique_unchanged (id_col : list string) (existing : option (gset string)) :
  NoDup id_col →
  (∀ e x, existing = Some e → x ∈ id_col → x ∉ e) →
  version_id id_col existing = Ok id_col.
Proof.
  intros Hnd Hdisj. rewrite version_id_unfold. simpl.
  rewrite decide_True; [done|].
  apply size_empty_iff. intros x. rewrite elem_of_duplicated.
  pose proof (occurrences_NoDup x id_col Hnd) as Hocc.
  split; [|by intros ?%not_elem_of_empty].
  intros Hlt. exfalso.
  destruct existing as [e|]; [|lia].
  destruct (decide (x ∈ e)) as [Hin|]; [|lia].
  assert (occurrences x id_col = 0%nat) as Hz; [|lia].
  apply occurrences_zero. intros Hx. by apply (Hdisj e x).
Qed.

Lemma version_id_unique_unchanged_witness :
  version_id ["chr1-100-INS-50"; "chr1-200-DEL-7"; "chr2-5-INS-9"]
             (Some {["chr1-100-INS-50.1"; "chrX-1-DEL-3"]})
  = Ok ["chr1-100-INS-50"; "chr1-200-DEL-7"; "chr2-5-INS-9"].
Proof.
  apply version_id_unique_unchanged.
  - apply (bool_decide_unpack _). vm_compute. exact I.
  - intros e x [= <-] Hx.
    repeat (apply elem_of_cons in Hx as [->|Hx];
            [apply (bool_decide_unpack _); vm_compute; exact I|]).
    by apply not_elem_of_nil in Hx.
Defined.

Lemma for_each_version_at (dup_set : gset string) (rest pre : list string)
    (id_set : gset string) :
  for_each (version_at dup_set) (seq (length pre) (length rest)) (pre ++ rest, id_set)
  = bind (version_loop dup_set id_set rest) (λ '(rest', s'), Ok (pre ++ rest', s')).
Proof.
  revert pre id_set. induction rest as [|name rest IH]; intros pre id_set; simpl.
  - done.
  - rewrite list_lookup_middle by done.
    destruct (decide (name ∈ dup_set)); simpl.
    + destruct (name_version name) as [[tok0 v]| |]; simpl; [|done..].
      destruct (find_unique (size id_set) tok0 v id_set) as [new_name| |]; simpl; [|done..].
      replace (<[length pre:=new_name]> (pre ++ name :: rest))
        with ((pre ++ [new_name]) ++ rest).
      2:{ rewrite insert_app_r_alt by lia. rewrite Nat.sub_diag. simpl.
          by rewrite <-app_assoc. }
      replace (S (length pre)) with (length (pre ++ [new_name]))
        by (rewrite length_app; simpl; lia).
      rewrite IH.
      destruct (version_loop dup_set _ rest) as [[rest' s']| |]; simpl; [|done..].
      by rewrite <-app_assoc.
    + replace (pre ++ name :: rest) with ((pre ++ [name]) ++ rest)
        by (by rewrite <-app_assoc).
      replace (S (length pre)) with (length (pre ++ [name]))
        by (rewrite length_app; simpl; lia).
      rewrite IH.
      destruct (version_loop dup_set _ rest) as [[rest' s']| |]; simpl; [|done..].
      by rewrite <-app_assoc.
Qed.

Lemma version_id_loop (id_col : list string) (existing : option (gset string)) :
  version_id id_col existing =
  let dup_set := duplicated id_col existing in
  if decide (size dup_set = 0%nat) then Ok id_col
  else
    bind (version_loop dup_set
            (match existing with
             | Some e => list_to_set id_col ∖ dup_set ∪ e
             | None => list_to_set id_col ∖ dup_set
             end) id_col)
         (λ st, Ok st.1).
Proof.
  rewrite version_id_unfold. simpl. case_decide; [done|].
  rewrite (for_each_version_at _ id_col []). simpl.
  by destruct (version_loop _ _ id_col) as [[rest' s']| |].
Qed.

(** ** The inner loop finds the least free version *)

Lemma find_unique_spec (fuel : nat) (tok0 : string) (v : Z) (id_set : gset string) :
  match find_unique fuel tok0 v id_set with
  | Ok new_name =>
      ∃ w, v ≤ w ≤ v + Z.of_nat fuel ∧ new_name = versioned tok0 w ∧
           new_name ∉ id_set ∧ ∀ u, v ≤ u < w → versioned tok0 u ∈ id_set
  | Raise _ => False
  | Diverge => ∀ u, v ≤ u ≤ v + Z.of_nat fuel → versioned tok0 u ∈ id_set
  end.
Proof.
  revert v. induction fuel as [|fuel IH]; intros v; simpl.
  - case_decide as Hin.
    + intros u Hu. by replace u with v by lia.
    + exists v. repeat split; [lia..|done|intros; lia].
  - case_decide as Hin.
    + specialize (IH (v + 1)).
      destruct (find_unique fuel tok0 (v + 1) id_set) as [new_name| |]; [|done|].
      * destruct IH as (w & Hw & -> & Hnot & Hbelow).
        exists w. repeat split; [lia..|done|].
        intros u Hu. destruct (decide (u = v)) as [->|]; [done|].
        apply Hbelow. lia.
      * intros u Hu. destruct (decide (u = v)) as [->|]; [done|].
        apply IH. lia.
    + exists v. repeat split; [lia..|done|intros; lia].
Qed.

(** One more candidate than there are names taken: the loop cannot exhaust
    them. *)
Lemma find_unique_total (tok0 : string) (v : Z) (id_set : gset string) :
  find_unique (size id_set) tok0 v id_set ≠ Diverge.
Proof.
  intros Hd. pose proof (find_unique_spec (size id_set) tok0 v id_set) as H.
  rewrite Hd in H.
  set (cands := (λ i : nat, versioned tok0 (v + Z.of_nat i)) <$> seq 0 (S (size id_set))).
  assert (NoDup cands) as Hnd.
  { apply NoDup_fmap_2_strong; [|apply NoDup_seq].
    intros i j _ _ [_ Heq]%versioned_inj. lia. }
  assert (list_to_set cands ⊆ id_set) as Hsub.
  { intros y [i [-> Hi%elem_of_seq]]%elem_of_list_to_set%list_elem_of_fmap.
    apply H. lia. }
  apply subseteq_size in Hsub.
  rewrite size_list_to_set in Hsub by done.
  unfold cands in Hsub. rewrite length_fmap, length_seq in Hsub. lia.
Qed.

Lemma took_zero D ids names out n : took D ids names out 0 n ↔ n ∈ ids.
Proof. unfold took. split; [|by left]. intros [?|(j & y & ? & _)]; [done|lia]. Qed.

Lemma took_succ D ids y0 names o out i n :
  took D ids (y0 :: names) (o :: out) (S i) n ↔
  took D (if decide (y0 ∈ D) then {[o]} ∪ ids else ids) names out i n.
Proof.
  unfold took. split.
  - intros [Hn|(j & y & Hj & Hy & HD & Ho)].
    + left. case_decide; set_solver.
    + destruct j as [|j]; simpl in *.
      * simplify_eq. left. rewrite decide_True by done. set_solver.
      * right. exists j, y. repeat split; [lia|done..].
  - intros [Hn|(j & y & Hj & Hy & HD & Ho)].
    + case_decide as Hd.
      * apply elem_of_union in Hn as [->%elem_of_singleton|Hn]; [|by left].
        right. exists 0%nat, y0. repeat split; [lia|done..].
      * by left.
    + right. exists (S j), y. repeat split; [lia|done..].
Qed.

Lemma version_loop_at (D : gset string) (names : list string) :
  ∀ (ids : gset string) (out : list string) (ids' : gset string),
  version_loop D ids names = Ok (out, ids') →
  length out = length names ∧
  ∀ i y, names !! i = Some y →
    if decide (y ∈ D) then
      ∃ t v0 w, name_version y = Ok (t, v0) ∧ v0 ≤ w ∧
        out !! i = Some (versioned t w) ∧
        ¬ took D ids names out i (versioned t w) ∧
        ∀ u, v0 ≤ u < w → took D ids names out i (versioned t u)
    else out !! i = Some y.
Proof.
  induction names as [|y0 names IH]; intros ids out ids' Hrun; simpl in Hrun.
  - simplify_eq. split; [done|]. intros i y Hi. by rewrite lookup_nil in Hi.
  - destruct (decide (y0 ∈ D)) as [Hd|Hd].
    + destruct (name_version y0) as [[t v0]| |] eqn:Hnv; simpl in Hrun; [|done..].
      pose proof (find_unique_spec (size ids) t v0 ids) as Hfu.
      destruct (find_unique (size ids) t v0 ids) as [new_name| |]; simpl in Hrun; [|done..].
      destruct (version_loop D ({[new_name]} ∪ ids) names) as [[rest' s']| |] eqn:Hrest;
        simpl in Hrun; [|done..].
      simplify_eq. destruct (IH _ _ _ Hrest) as [Hlen Hat].
      split; [simpl; lia|].
      destruct Hfu as (w & Hw & -> & Hnot & Hbelow).
      intros [|i] y Hi; simpl in Hi.
      * simplify_eq. rewrite decide_True by done.
        exists t, v0, w. split_and!; [done|lia|done|..].
        -- by rewrite took_zero.
        -- intros u Hu. rewrite took_zero. by apply Hbelow.
      * specialize (Hat i y Hi). case_decide.
        -- destruct Hat as (t' & v0' & w' & ? & ? & ? & Hn' & Hb').
           exists t', v0', w'. split_and!; [done..| |].
           ++ rewrite took_succ, decide_True by done. done.
           ++ intros u Hu. rewrite took_succ, decide_True by done. by apply Hb'.
        -- done.
    + destruct (version_loop D ids names) as [[rest' s']| |] eqn:Hrest;
        simpl in Hrun; [|done..].
      simplify_eq. destruct (IH _ _ _ Hrest) as [Hlen Hat].
      split; [simpl; lia|].
      intros [|i] y Hi; simpl in Hi.
      * simplify_eq. by rewrite decide_False by done.
      * specialize (Hat i y Hi). case_decide.
        -- destruct Hat as (t' & v0' & w' & ? & ? & ? & Hn' & Hb').
           exists t', v0', w'. split_and!; [done..| |].
           ++ rewrite took_succ, decide_False by done. done.
           ++ intros u Hu. rewrite took_succ, decide_False by done. by apply Hb'.
        -- done.
Qed.

Lemma version_loop_returns (D : gset string) (names : list string) :
  (∀ y, y ∈ names → y ∈ D → returned (name_version y)) →
  ∀ ids, returned (version_loop D ids names).
Proof.
  induction names as [|y0 names IH]; intros Hok ids; simpl; [done|].
  assert (∀ ids, returned (version_loop D ids names)) as IH'.
  { apply IH. intros y Hy. apply Hok. by right. }
  destruct (decide (y0 ∈ D)) as [Hd|Hd].
  - specialize (Hok y0 (list_elem_of_here _ _) Hd).
    destruct (name_version y0) as [[t v0]| |]; simpl in *; [|done..].
    pose proof (find_unique_spec (size ids) t v0 ids) as Hfu.
    pose proof (find_unique_total t v0 ids) as Htot.
    destruct (find_unique (size ids) t v0 ids) as [new_name| |]; simpl; [|done..].
    specialize (IH' ({[new_name]} ∪ ids)).
    by destruct (version_loop D _ names) as [[??]| |].
  - specialize (IH' ids).
    by destruct (version_loop D _ names) as [[??]| |].
Qed.

Lemma occurrences_pos (x : string) (xs : list string) :
  (0 < occurrences x xs)%nat ↔ x ∈ xs.
Proof.
  pose proof (occurrences_zero x xs) as H.
  destruct (decide (x ∈ xs)) as [Hin|Hout].
  - split; [done|]. intros _.
    destruct (decide (occurrences x xs = 0%nat)) as [E|E]; [|lia].
    by apply H in E.
  - split; [|done]. apply H in Hout. lia.
Qed.

Lemma occurrences_app (x : string) (xs ys : list string) :
  occurrences x (xs ++ ys) = (occurrences x xs + occurrences x ys)%nat.
Proof. unfold occurrences. by rewrite filter_app, length_app. Qed.

Lemma occurrences_cons (x y : string) (xs : list string) :
  occurrences x (y :: xs)
  = ((if decide (y = x) then 1 else 0) + occurrences x xs)%nat.
Proof. unfold occurrences. rewrite filter_cons. by case_decide. Qed.

Lemma cut_last_some (c : ascii) (s a b : string) :
  cut_last c s = Some (a, b) → s = a +:+ String c b.
Proof.
  revert a b. induction s as [|d s IH]; intros a b; simpl; [done|].
  destruct (cut_last c s) as [[u v]|] eqn:E.
  - intros [= <- <-]. by rewrite (IH u v eq_refl) at 1.
  - destruct (Ascii.eqb d c) eqn:Hd; [|done].
    apply Ascii.eqb_eq in Hd as ->. by intros [= <- <-].
Qed.

Lemma prefix_app (p s : string) : String.prefix p (p +:+ s) = true.
Proof.
  induction p as [|a p IH]; [by destruct s|].
  change (String a p +:+ s) with (String a (p +:+ s)). simpl.
  destruct (ascii_dec a a); [done|congruence].
Qed.

(** A version of a name that neither is [x] nor starts with [x.] is not a
    version of [x]. *)
Lemma versioned_foreign (x y t : string) (v0 w u : Z) :
  name_version y = Ok (t, v0) → y ≠ x →
  String.prefix (x +:+ ".") y = false →
  versioned t w ≠ versioned x u.
Proof.
  intros Hnv Hne Hpre [-> _]%versioned_inj.
  unfold name_version, rsplit1 in Hnv.
  destruct (cut_last "." y) as [[a b]|] eqn:Hcut.
  - destruct (int b); simplify_eq.
    apply cut_last_some in Hcut as ->.
    assert (x +:+ String "." b = (x +:+ ".") +:+ b) as Heq.
    { clear. induction x as [|a x IH]; [done|].
      change (String a x +:+ String "." b) with (String a (x +:+ String "." b)).
      rewrite IH. done. }
    rewrite Heq, prefix_app in Hpre. done.
  - by simplify_eq.
Qed.

Lemma occurrences_take_S (x : string) (col : list string) (i : nat) :
  occurrences x (take (S i) col)
  = (occurrences x (take i col) + if decide (col !! i = Some x) then 1 else 0)%nat.
Proof.
  destruct (col !! i) as [y|] eqn:E.
  - rewrite (take_S_r _ _ _ E), occurrences_app, occurrences_cons.
    change (occurrences x []) with 0%nat.
    destruct (decide (y = x)) as [->|Hne].
    + rewrite decide_True by done. lia.
    + rewrite decide_False by congruence. lia.
  - rewrite decide_False by done.
    apply lookup_ge_None in E. rewrite !take_ge by lia. lia.
Qed.

Lemma occurrences_take_mono (x : string) (col : list string) (j i : nat) :
  (j ≤ i)%nat → (occurrences x (take j col) ≤ occurrences x (take i col))%nat.
Proof.
  induction 1 as [|i Hle IH]; [done|].
  rewrite occurrences_take_S. lia.
Qed.

(** The occurrences of [x] before [i] are numbered 1, 2, ... without gaps. *)
Lemma occurrences_take_positions (x : string) (col : list string) (i u : nat) :
  (1 ≤ u ≤ occurrences x (take i col))%nat ↔
  ∃ j, (j < i)%nat ∧ col !! j = Some x ∧ u = S (occurrences x (take j col)).
Proof.
  split.
  - induction i as [|i IH]; [simpl; unfold occurrences; simpl; lia|].
    rewrite occurrences_take_S. intros Hu.
    destruct (decide (u ≤ occurrences x (take i col))%nat) as [Hle|Hgt].
    + destruct IH as (j & ? & ? & ?); [lia|]. exists j. split_and!; [lia|done..].
    + case_decide; [|lia]. exists i. split_and!; [lia|done|lia].
  - intros (j & Hj & Hx & ->).
    pose proof (occurrences_take_mono x col (S j) i ltac:(lia)) as Hm.
    rewrite occurrences_take_S, decide_True in Hm by done. lia.
Qed.

Section Renaming.

Variable id_col : list string.

Let D : gset string := duplicated id_col None.
Let ids0 : gset string := list_to_set id_col ∖ D.

Lemma elem_of_dup_none (y : string) :
  y ∈ D ↔ (2 ≤ occurrences y id_col)%nat.
Proof. unfold D. rewrite elem_of_duplicated. lia. Qed.

Lemma elem_of_ids0 (n : string) :
  n ∈ ids0 ↔ occurrences n id_col = 1%nat.
Proof.
  unfold ids0. rewrite elem_of_difference, elem_of_list_to_set,
    elem_of_dup_none, <-occurrences_pos. lia.
Qed.

Variable out : list string.
Variable ids' : gset string.
Hypothesis Hrun : version_loop D ids0 id_col = Ok (out, ids').

Lemma took_taken_before (i : nat) (n : string) :
  took D ids0 id_col out i n ↔ taken_before id_col out i n.
Proof.
  destruct (version_loop_at _ _ _ _ _ Hrun) as [Hlen Hat].
  unfold took, taken_before. rewrite elem_of_ids0. split.
  - intros [?|(j & y & Hj & Hy & Hd & Ho)]; [by right|left].
    apply list_elem_of_lookup. exists j. by rewrite lookup_take_lt.
  - intros [[j Hj]%list_elem_of_lookup|?]; [|by left].
    pose proof (lookup_lt_Some _ _ _ Hj) as Hlt.
    rewrite length_take in Hlt.
    rewrite lookup_take_lt in Hj by lia.
    destruct (id_col !! j) as [y|] eqn:Hy.
    2:{ apply lookup_ge_None in Hy. lia. }
    specialize (Hat j y Hy). case_decide as Hd.
    + right. exists j, y. split_and!; [lia|done..].
    + left. simplify_eq. rewrite elem_of_dup_none in Hd.
      apply list_elem_of_lookup_2, occurrences_pos in Hy. lia.
Qed.

End Renaming.

Lemma versioned_prefix (x : string) (u : Z) :
  String.prefix (x +:+ ".") (versioned x u) = true.
Proof.
  rewrite versioned_eq.
  assert (x +:+ String "." (str u) = (x +:+ ".") +:+ str u) as ->; [|apply prefix_app].
  induction x as [|a x IH]; [done|].
  change (String a x +:+ String "." (str u)) with (String a (x +:+ String "." (str u))).
  by rewrite IH.
Qed.

(** C10, amended: let an ID occur at least twice in the column, no set of
    existing IDs be given, and no ID that occurs more than once in the column
    contain a [.]. Then [version_id] returns a column of the same length in
    which the ID itself no longer occurs: each of its occurrences, the first
    included, is renamed to ID.v, where v is the least version from 1 whose
    name is neither an entry of the column nor a name written at an earlier
    position. So the versions grow along the column, and they are
    1, 2, ..., k in column order when no entry of the column starts with the
    ID followed by a [.]. *)
Theorem version_id_renames_duplicates (id_col : list string) (x : string) :
  (2 ≤ occurrences x id_col)%nat →
  (∀ y, y ∈ id_col → (2 ≤ occurrences y id_col)%nat → contains "." y = false) →
  ∃ out,
    version_id id_col None = Ok out ∧
    length out = length id_col ∧
    (x ∉ out) ∧
    (∀ i, id_col !! i = Some x →
       ∃ v, 1 ≤ v ∧ out !! i = Some (versioned x v) ∧
            (versioned x v ∉ id_col) ∧ (versioned x v ∉ take i out) ∧
            (∀ u, 1 ≤ u < v →
               versioned x u ∈ id_col ∨ versioned x u ∈ take i out)) ∧
    (∀ i j vi vj, (i < j)%nat →
       id_col !! i = Some x → id_col !! j = Some x →
       out !! i = Some (versioned x vi) → out !! j = Some (versioned x vj) →
       vi < vj) ∧
    ((∀ y, y ∈ id_col → String.prefix (x +:+ ".") y = false) →
     ∀ i, id_col !! i = Some x →
       out !! i = Some (versioned x (Z.of_nat (S (occurrences x (take i id_col)))))).
Proof.
  intros Hx Hdots.
  assert (x ∈ id_col) as Hxin by (apply occurrences_pos; lia).
  pose proof (Hdots x Hxin Hx) as Hnodot.
  assert (∀ y, y ∈ id_col → (2 ≤ occurrences y id_col)%nat → returned (name_version y))
    as Hparse.
  { intros y Hy Hy2. by rewrite (name_version_nodot y (Hdots y Hy Hy2)). }
  assert (∀ out i u, taken_before id_col out i (versioned x u)
                     ↔ versioned x u ∈ id_col ∨ versioned x u ∈ take i out) as Htaken.
  { intros out i u. unfold taken_before. split.
    - intros [?|Hone]; [by right|left]. apply occurrences_pos. lia.
    - intros [Hin|?]; [right|by left].
      pose proof (proj2 (occurrences_pos _ _) Hin) as Hpos.
      destruct (decide (2 ≤ occurrences (versioned x u) id_col)%nat) as [H2|]; [|lia].
      pose proof (Hdots _ Hin H2) as Hc. pose proof (versioned_has_dot x u). congruence. }
  set (D := duplicated id_col None).
  set (ids0 := list_to_set id_col ∖ D : gset string).
  assert (x ∈ D) as HxD by (by apply elem_of_dup_none).
  assert (returned (version_loop D ids0 id_col)) as Hret.
  { apply version_loop_returns. intros y Hy HyD.
    apply Hparse; [done|]. by apply elem_of_dup_none. }
  destruct (version_loop D ids0 id_col) as [[out ids']| |] eqn:Hrun; [|done..].
  clear Hret. exists out.
  destruct (version_loop_at _ _ _ _ _ Hrun) as [Hlen Hat].
  pose proof (took_taken_before id_col out ids' Hrun) as Htook.
  (* what happens at a position of [x] *)
  assert (∀ i, id_col !! i = Some x →
    ∃ v, 1 ≤ v ∧ out !! i = Some (versioned x v) ∧
         ¬ took D ids0 id_col out i (versioned x v) ∧
         ∀ u, 1 ≤ u < v → took D ids0 id_col out i (versioned x u)) as Hpos.
  { intros i Hi. specialize (Hat i x Hi). rewrite decide_True in Hat by done.
    destruct Hat as (t & v0 & w & Hnv & Hle & Ho & Hn & Hb).
    rewrite name_version_nodot in Hnv by done. simplify_eq. eauto 10. }
  assert (∀ i j n, (i ≤ j)%nat → took D ids0 id_col out i n →
                   took D ids0 id_col out j n) as Hmono.
  { intros i j n Hij [?|(k & y & Hk & ?)]; [by left|right].
    exists k, y. split; [lia|done]. }
  split_and!.
  - rewrite version_id_loop. simpl. fold D ids0.
    rewrite decide_False.
    2:{ intros Hz%size_empty_iff. by apply (not_elem_of_empty (C:=gset string) x), Hz. }
    by rewrite Hrun.
  - done.
  - intros [k Hk]%list_elem_of_lookup.
    destruct (id_col !! k) as [y|] eqn:Hy.
    2:{ apply lookup_ge_None in Hy. apply lookup_lt_Some in Hk. lia. }
    specialize (Hat k y Hy). case_decide as Hd.
    + destruct Hat as (t & v0 & w & _ & _ & Ho & _).
      simplify_eq. pose proof (versioned_has_dot t w). congruence.
    + congruence.
  - intros i Hi. destruct (Hpos i Hi) as (v & Hv & Ho & Hn & Hb).
    exists v. split_and!; [done..| | |].
    + intros Hin. apply Hn, Htook, Htaken. by left.
    + intros Hin. apply Hn, Htook, Htaken. by right.
    + intros u Hu. apply Htaken, Htook. by apply Hb.
  - intros i j vi vj Hij Hi Hj Hoi Hoj.
    destruct (Hpos i Hi) as (v & Hv & Ho & Hn & Hb).
    destruct (Hpos j Hj) as (v' & Hv' & Ho' & Hn' & Hb').
    rewrite Hoi in Ho. rewrite Hoj in Ho'.
    apply (inj Some) in Ho as [_ <-]%versioned_inj.
    apply (inj Some) in Ho' as [_ <-]%versioned_inj.
    destruct (decide (vi < vj)) as [|Hge]; [done|exfalso].
    apply Hn'. destruct (decide (vj = vi)) as [->|Hne].
    + right. exists i, x. split_and!; [lia|done..].
    + apply (Hmono i j); [lia|]. apply Hb. lia.
  - intros Hfree i. induction (lt_wf i) as [i _ IH]. intros Hi.
    destruct (Hpos i Hi) as (v & Hv & Ho & Hn & Hb).
    set (c := occurrences x (take i id_col)) in *.
    assert (∀ u, 1 ≤ u → took D ids0 id_col out i (versioned x u) ↔ u ≤ Z.of_nat c)
      as Hchar.
    { intros u Hu. split.
      - intros [Hin|(j & y & Hj & Hy & HyD & Hoj)].
        + apply elem_of_difference in Hin as [Hin%elem_of_list_to_set _].
          apply Hfree in Hin. by rewrite versioned_prefix in Hin.
        + destruct (decide (y = x)) as [->|Hne].
          * rewrite (IH j Hj Hy) in Hoj.
            apply (inj Some) in Hoj as [_ <-]%versioned_inj.
            assert (1 ≤ S (occurrences x (take j id_col)) ≤ c)%nat; [|lia].
            apply occurrences_take_positions. eauto.
          * exfalso. specialize (Hat j y Hy). rewrite decide_True in Hat by done.
            destruct Hat as (t & v0 & w & Hnv & _ & Ho' & _).
            rewrite Hoj in Ho'. apply (inj Some) in Ho'.
            eapply versioned_foreign; [done..| |by symmetry].
            apply Hfree. by eapply list_elem_of_lookup_2.
      - intros Hle.
        destruct (proj1 (occurrences_take_positions x id_col i (Z.to_nat u)))
          as (j & Hj & Hy & Heq); [fold c; lia|].
        right. exists j, x. split_and!; [done..|].
        rewrite (IH j Hj Hy). f_equal. f_equal. lia. }
    rewrite Ho. f_equal. f_equal.
    assert (¬ v ≤ Z.of_nat c) by (by rewrite <-Hchar).
    destruct (decide (v = Z.of_nat (S c))) as [|Hne]; [done|exfalso].
    assert (took D ids0 id_col out i (versioned x (Z.of_nat (S c)))) as Ht
      by (apply Hb; lia).
    apply Hchar in Ht; lia.
Qed.

Lemma version_id_renames_duplicates_witness :
  ∃ out, version_id ["a"; "b"; "a"; "a.1"; "b"] None = Ok out ∧
         "a" ∉ out ∧ out !! 2%nat = Some "a.3".
Proof.
  destruct (version_id_renames_duplicates ["a"; "b"; "a"; "a.1"; "b"] "a")
    as (out & Hrun & _ & Hnot & Hpos & _).
  - vm_compute. lia.
  - intros y Hy.
    repeat (apply elem_of_cons in Hy as [->|Hy]; [vm_compute; (reflexivity || lia)|]).
    by apply not_elem_of_nil in Hy.
  - exists out. split_and!; [done..|].
    assert (out = ["a.2"; "b.1"; "a.3"; "a.1"; "b.2"]) as ->; [|done].
    assert (version_id ["a"; "b"; "a"; "a.1"; "b"] None
            = Ok ["a.2"; "b.1"; "a.3"; "a.1"; "b.2"]) as Hval
      by (vm_compute; reflexivity).
    congruence.
Defined.

(** C10 as stated fails on an ID with a [.] whose last part is no integer:
    its two occurrences are not renamed, [version_id] raises. *)
Lemma version_id_suffix_counterexample :
  occurrences "x.y" ["x.y"; "x.y"] = 2%nat ∧
  (∀ out, version_id ["x.y"; "x.y"] None ≠ Ok out) ∧
  ∃ msg, version_id ["x.y"; "x.y"] None = Raise (RuntimeError msg).
Proof.
  split_and!; [vm_compute; reflexivity| |eexists; vm_compute; reflexivity].
  intros out. vm_compute. discriminate.
Qed.

(** ** The error monad *)

Lemma bind_ok {A B : Type} (m : result A) (k : A → result B) (b : B) :
  bind m k = Ok b → ∃ a, m = Ok a ∧ k a = Ok b.
Proof. destruct m; simpl; [eauto|done..]. Qed.

Lemma for_each_app {S X : Type} (f : S → X → result S) (l1 l2 : list X) (st : S) :
  for_each f (l1 ++ l2) st = bind (for_each f l1 st) (for_each f l2).
Proof.
  revert st. induction l1 as [|x l1 IH]; intros st; simpl; [done|].
  destruct (f st x); simpl; auto.
Qed.




(** A property kept by every step is kept by the loop. *)
Lemma for_each_invariant {S X : Type} (P : S → Prop) (Q : X → Prop)
    (f : S → X → result S) (l : list X) (st st' : S) :
  (∀ s x s', Q x → P s → f s x = Ok s' → P s') →
  (∀ x, x ∈ l → Q x) →
  P st → for_each f l st = Ok st' → P st'.
Proof.
  intros Hstep. revert st. induction l as [|x l IH]; intros st HQ HP; simpl.
  - by intros [= <-].
  - intros (s1 & Hs1 & Hrest)%bind_ok.
    apply (IH s1); [|by eapply (Hstep st x); [apply HQ; left|..]|done].
    intros y Hy. apply HQ. by right.
Qed.

Lemma flag_ok (name : string) (val : option string) (p p' : param_set) :
  flag name val p = Ok p' → p' = p.
Proof. unfold flag. destruct val; [done|]. by intros [= <-]. Qed.

(** Case analysis on the branch a parameter element takes. *)
Ltac step_branches :=
  repeat case_bool_decide;
  repeat (first [ progress simplify_eq/= | case_match
                | intros (? & ?%flag_ok & ?)%bind_ok
                | intros (? & ? & ?)%bind_ok
                | intros [= <-] | intros ? ]); try done.

Lemma param_element_step_ro_min (p p' : param_set) (e : string) :
  ¬ names_key "ro" e → param_element_step p e = Ok p' → ro_min p' = ro_min p.
Proof.
  unfold names_key, element_key, param_element_step. intros Hkey.
  case_bool_decide as Hblank; [by intros [= <-]|].
  case_bool_decide as Hro; [by destruct Hkey|].
  step_branches.
Qed.

Lemma param_element_step_szro_min (p p' : param_set) (e : string) :
  ¬ names_key "szro" e → param_element_step p e = Ok p' → szro_min p' = szro_min p.
Proof.
  unfold names_key, element_key, param_element_step. intros Hkey.
  case_bool_decide as Hblank; [by intros [= <-]|].
  case_bool_decide as Hro; [step_branches|].
  case_bool_decide as Hszro; [by destruct Hkey|].
  step_branches.
Qed.

Lemma percent_ok (what val : string) (x : Qc) :
  percent what val = Ok x →
  ∃ n, int (strip val) = Some n ∧ truediv n 100 = Ok x ∧ (0 ≤ x ≤ 1)%Qc.
Proof.
  unfold percent. destruct (int (strip val)) as [n|]; [|done].
  intros (y & Hy & Hc)%bind_ok. case_bool_decide as Hr; [done|].
  simplify_eq. exists n. split_and!; [done..| |].
  - destruct (Qclt_le_dec x 0); [|done]. destruct Hr. by left.
  - destruct (Qclt_le_dec 1 x); [|done]. destruct Hr. by right.
Qed.

Lemma param_element_step_szro (p p' : param_set) (e v : string) :
  names_key "szro" e → element_val e = Some v → v ≠ "any" →
  param_element_step p e = Ok p' →
  ∃ n x, int (strip v) = Some n ∧ truediv n 100 = Ok x ∧ (0 ≤ x ≤ 1)%Qc ∧
         szro_min p' = Some x ∧ ro_min p' = ro_min p.
Proof.
  unfold names_key, element_key, element_val, param_element_step.
  intros [Hblank Hkey] Hval Hany.
  rewrite bool_decide_false by done. rewrite Hkey, Hval. simpl.
  rewrite bool_decide_true by done.
  intros (x & (n & ? & ? & ?)%percent_ok & [= <-])%bind_ok.
  exists n, x. do 3 (split; [done|]). done.
Qed.

Lemma finish_ok (p ps : param_set) :
  finish p = Ok ps →
  szro_min ps = szro_min p ∧
  (ro_min p = None → ro_min ps = szro_min p) ∧
  (is_Some (szro_min p) → is_Some (offset_max ps)).
Proof.
  unfold finish. case_bool_decide as Hoff; [done|].
  assert (∀ ro' : option Qc, ro' =
    (if bool_decide (ro_min p = None ∧ is_Some (szro_min p)) then szro_min p
     else ro_min p) →
    (ro_min p = None → ro' = szro_min p)) as Hro.
  { intros ro' -> Hnone. case_bool_decide as Hc; [done|].
    rewrite Hnone. destruct (szro_min p) eqn:E; [|done].
    destruct Hc. split; [done|]. by eexists. }
  assert (is_Some (szro_min p) → is_Some (offset_max p)) as Hoff'.
  { intros Hs. destruct (offset_max p) eqn:E; [done|]. by destruct Hoff. }
  destruct (align_param p) as [align|].
  - intros (m & _ & (mm & _ & (go & _ & (ge & _ & (sp & _ & [= <-])%bind_ok)
      %bind_ok)%bind_ok)%bind_ok)%bind_ok. simpl. split_and!; [done| |done].
    by apply Hro.
  - intros [= <-]. simpl. split_and!; [done| |done]. by apply Hro.
Qed.

(** C7: take a parameter string with an element [szro=val] ([val] other than
    [any]) that no later [szro] element overrides, and with no [ro] element.
    Whenever [get_param_set] returns a parameter set for it, [val] is an
    integer n, the RO threshold [ro_min] and the size threshold [szro_min] are
    both the float n / 100, and an offset was given. *)
Theorem ro_defaults_to_szro (params strategy : string) (before after : list string)
    (element val : string) (ps : param_set) :
  split ":" params = before ++ element :: after →
  names_key "szro" element → element_val element = Some val → val ≠ "any" →
  (∀ e, e ∈ after → ¬ names_key "szro" e) →
  (∀ e, e ∈ split ":" params → ¬ names_key "ro" e) →
  get_param_set (Some params) strategy = Ok ps →
  ∃ n x, int (strip val) = Some n ∧ truediv n 100 = Ok x ∧
         szro_min ps = Some x ∧ ro_min ps = Some x ∧ is_Some (offset_max ps).
Proof.
  intros Hsplit Hkey Hval Hany Hlast Hnoro. unfold get_param_set.
  intros (p & Hloop & Hfin)%bind_ok.
  assert (ro_min p = None) as Hro.
  { revert Hloop.
    apply (for_each_invariant (λ s, ro_min s = None) (λ e, ¬ names_key "ro" e));
      [|done..].
    intros s e s' He Hs Hstep. by rewrite (param_element_step_ro_min s s' e). }
  rewrite Hsplit, for_each_app in Hloop.
  apply bind_ok in Hloop as (p1 & _ & Hloop). simpl in Hloop.
  apply bind_ok in Hloop as (p2 & Hstep & Hloop).
  destruct (param_element_step_szro _ _ _ _ Hkey Hval Hany Hstep)
    as (n & x & Hn & Hx & _ & Hszro & _).
  assert (szro_min p = Some x) as Hszro'.
  { revert Hloop.
    apply (for_each_invariant (λ s, szro_min s = Some x) (λ e, ¬ names_key "szro" e));
      [|done..].
    intros s e s' He Hs Hstep'. by rewrite (param_element_step_szro_min s s' e). }
  destruct (finish_ok _ _ Hfin) as (Hs & Hr & Ho).
  exists n, x. split_and!; [done..|congruence|by rewrite Hr|].
  apply Ho. by rewrite Hszro'.
Qed.

Lemma ro_defaults_to_szro_witness :
  ∃ ps, get_param_set (Some "expand:szro=80:offset=2000") "nr" = Ok ps ∧
    ∃ n x, int (strip "80") = Some n ∧ truediv n 100 = Ok x ∧
           szro_min ps = Some x ∧ ro_min ps = Some x ∧ is_Some (offset_max ps).
Proof.
  eexists. split; [vm_compute; reflexivity|].
  apply (ro_defaults_to_szro "expand:szro=80:offset=2000" "nr"
           ["expand"] ["offset=2000"] "szro=80" "80").
  - vm_compute. reflexivity.
  - split; vm_compute; [discriminate|reflexivity].
  - vm_compute. reflexivity.
  - discriminate.
  - intros e ->%list_elem_of_singleton [_ H]. vm_compute in H. discriminate.
  - intros e He [_ H]. vm_compute in He.
    repeat (apply elem_of_cons in He as [->|He]; [vm_compute in H; discriminate|]).
    by apply not_elem_of_nil in He.
  - vm_compute. reflexivity.
Defined.

(** ** C3: the map limit *)

Lemma int_rstrip_cons (a : ascii) (r : string) :
  int_blank a = false → ∃ r', int_rstrip (String a r) = String a r'.
Proof.
  intros Ha. simpl. destruct (int_rstrip r); [|eauto]. rewrite Ha. eauto.
Qed.

(** A text that starts with a letter is no integer. *)
Lemma int_starts_with (a : ascii) (r : string) :
  int_blank a = false → digit_of a = None → a ≠ "+"%char → a ≠ "-"%char →
  int (String a r) = None.
Proof.
  intros Hsp Hd Hplus Hminus. unfold int.
  simpl int_lstrip. rewrite Hsp.
  destruct (int_rstrip_cons a r Hsp) as [r' ->].
  destruct a as [[] [] [] [] [] [] [] []]; try done; simpl; by rewrite ?Hd.
Qed.

Lemma lower_char_n (a : ascii) :
  lower_char a = "n"%char ∨ lower_char a = "u"%char →
  int_blank a = false ∧ digit_of a = None ∧ a ≠ "+"%char ∧ a ≠ "-"%char.
Proof.
  destruct a as [[] [] [] [] [] [] [] []]; vm_compute; intros [H|H];
    try discriminate H; by repeat split.
Qed.

Lemma int_of_no_limit (tok : string) :
  lower tok = "na" ∨ lower tok = "unlimited" → int tok = None.
Proof.
  intros H. destruct tok as [|a r]; [by destruct H|].
  destruct (lower_char_n a) as (? & ? & ? & ?).
  { destruct H as [H|H]; injection H; auto. }
  by apply int_starts_with.
Qed.

(** C3: what the code does on the failing input *)
Lemma align_field_map_limit (align : gmap string align_value) (tok : string) :
  lower (strip tok) = "na" ∨ lower (strip tok) = "unlimited" →
  align_field align (5%nat, tok)
  = Raise (RuntimeError "Alignment parameter in match type mismatch").
Proof.
  intros H. unfold align_field.
  assert (ALIGN_PARAM_KEY !! 5%nat = Some "MAP-LIMIT") as -> by (vm_compute; reflexivity).
  assert (ALIGN_PARAM_TYPE !! "MAP-LIMIT" = Some TInt) as -> by (vm_compute; reflexivity).
  rewrite bool_decide_false by (intros Heq; rewrite Heq in H; by destruct H).
  unfold lower_method_in. rewrite andb_false_r. simpl.
  by rewrite (int_of_no_limit _ H).
Qed.

(** C3, on the code: with [na] or [UNLIMITED] as the map limit
    [get_param_set] raises the type-mismatch error, where a number is
    accepted. *)
Theorem get_param_set_map_limit_raises :
  get_param_set (Some "ro=50:match=0.8,2,-1,-5,-0.5,na") "nr"
  = Raise (RuntimeError "Alignment parameter in match type mismatch") ∧
  get_param_set (Some "ro=50:match=,,,,,UNLIMITED") "nr"
  = Raise (RuntimeError "Alignment parameter in match type mismatch") ∧
  returned (get_param_set (Some "ro=50:match=0.8,2,-1,-5,-0.5,20000") "nr").
Proof. split_and!; vm_compute; done. Qed.

(** ** Which errors a computation can raise *)

Lemma raises_only_ok {A : Type} (P : exn → Prop) (a : A) : raises_only P (Ok a).
Proof. by intros e. Qed.

Lemma raises_only_raise {A : Type} (P : exn → Prop) (e : exn) :
  P e → raises_only P (Raise e : result A).
Proof. by intros He e' [= <-]. Qed.

Lemma raises_only_bind {A B : Type} (P : exn → Prop) (m : result A) (k : A → result B) :
  raises_only P m → (∀ a, m = Ok a → raises_only P (k a)) → raises_only P (bind m k).
Proof.
  intros Hm Hk e. destruct m as [a|e'|]; simpl; [by apply Hk|by intros [= <-]; apply Hm|done].
Qed.

Lemma raises_only_for_each {S X : Type} (P : exn → Prop) (f : S → X → result S)
    (l : list X) (st : S) :
  (∀ s x, raises_only P (f s x)) → raises_only P (for_each f l st).
Proof.
  intros Hf. revert st. induction l as [|x l IH]; intros st; simpl.
  - apply raises_only_ok.
  - apply raises_only_bind; auto.
Qed.

Lemma raises_only_map_each {X Y : Type} (P : exn → Prop) (f : X → result Y) (l : list X) :
  (∀ x, raises_only P (f x)) → raises_only P (map_each f l).
Proof.
  intros Hf. induction l as [|x l IH]; simpl.
  - apply raises_only_ok.
  - apply raises_only_bind; [done|]. intros y _.
    apply raises_only_bind; [done|]. intros ys _. apply raises_only_ok.
Qed.

Lemma raises_only_set_col_rows (P : exn → Prop) (c : string) (f : row → result cell)
    (b : list (cell * row)) :
  (∀ r, raises_only P (f r)) → raises_only P (set_col_rows c f b).
Proof.
  intros Hf. induction b as [|lr b IH]; simpl.
  - apply raises_only_ok.
  - apply raises_only_bind; [done|]. intros y _.
    apply raises_only_bind; [done|]. intros ys _. apply raises_only_ok.
Qed.

Lemma raises_only_loc_labels (P : exn → Prop) (labels : list cell) (b : list (cell * row)) :
  (∀ msg, P (KeyError msg)) → raises_only P (loc_labels labels b).
Proof.
  intros HP. induction labels as [|l ls IH]; simpl.
  - apply raises_only_ok.
  - destruct (filter _ b); [by apply raises_only_raise|].
    apply raises_only_bind; [done|]. intros ys _. apply raises_only_ok.
Qed.

Lemma raises_only_check_sortable (P : exn → Prop) (cs : list string) (df : frame) :
  (∀ msg, P (KeyError msg)) → (∀ msg, P (TypeError msg)) →
  raises_only P (check_sortable cs df).
Proof.
  intros HK HT. induction cs as [|c cs IH]; simpl.
  - apply raises_only_ok.
  - unfold col. destruct (has_col df c); simpl; [|by apply raises_only_raise].
    destruct (one_kind _); [done|by apply raises_only_raise].
Qed.

(** ** Values met more than once *)

Lemma filter_nil_iff {A : Type} (P : A → Prop) `{∀ x, Decision (P x)} (l : list A) :
  filter P l = [] ↔ Forall (λ x, ¬ P x) l.
Proof.
  induction l as [|x l IH]; [by split; [constructor|]|].
  rewrite filter_cons, Forall_cons. case_decide; [|tauto].
  split; [done|]. by intros [? _].
Qed.

Lemma filter_eq_length_NoDup {A : Type} `{EqDecision A} (l : list A) (v : A) :
  NoDup l → (length (filter (λ c, c = v) l) ≤ 1)%nat.
Proof.
  induction 1 as [|x l Hx Hl IH]; simpl; [lia|].
  rewrite filter_cons. case_decide as Hv; simpl; [|done]. subst.
  assert (filter (λ c, c = v) l = []) as ->; [|simpl; lia].
  apply filter_nil_iff, Forall_forall. by intros y Hy ->.
Qed.

Lemma duplicates_nil (cells : list cell) : duplicates cells = [] ↔ NoDup cells.
Proof.
  unfold duplicates. split.
  - intros Hnil. induction cells as [|x l IH]; [constructor|].
    assert (∀ v, (length (filter (λ c, c = v) (x :: l)) ≤ 1)%nat) as Hcount.
    { intros v. destruct (decide (v ∈ x :: l)) as [Hin|Hout].
      - apply elem_of_remove_dups in Hin.
        destruct (decide (1 < length (filter (λ c, c = v) (x :: l)))%nat) as [Hlt|]; [|lia].
        assert (v ∈ filter (λ v0, (1 < length (filter (λ c, c = v0) (x :: l)))%nat)
                      (remove_dups (x :: l))) as Hv
          by (by apply list_elem_of_filter).
        rewrite Hnil in Hv. by apply not_elem_of_nil in Hv.
      - assert (filter (λ c, c = v) (x :: l) = []) as ->; [|simpl; lia].
        apply filter_nil_iff, Forall_forall. by intros y Hy ->. }
    constructor.
    + intros Hx. specialize (Hcount x). rewrite filter_cons_True in Hcount by done.
      simpl in Hcount.
      assert (x ∈ filter (λ c, c = x) l) as Hin by (by apply list_elem_of_filter).
      destruct (filter (λ c, c = x) l); [by apply not_elem_of_nil in Hin|simpl in *; lia].
    + apply IH. apply filter_nil_iff, Forall_forall. intros v Hv Hlt.
      specialize (Hcount v). rewrite filter_cons in Hcount.
      case_decide; simpl in *; lia.
  - intros Hnd. apply filter_nil_iff, Forall_forall. intros v _ Hlt.
    pose proof (filter_eq_length_NoDup cells v Hnd). lia.
Qed.

(** ** C8 *)

Lemma col_support_id (df : frame) (cells : list cell) :
  col df "SUPPORT_ID" = Ok cells → cells = support_ids df.
Proof. unfold col. destruct (has_col df "SUPPORT_ID"); [|done]. by intros [= <-]. Qed.

(** ** Joining strings *)

Lemma join_items_strings (i : nat) (l : list cell) :
  (∀ c, c ∈ l → ∃ s, c = CStr s) → ∃ parts, join_items i l = Ok parts.
Proof.
  revert i. induction l as [|c l IH]; intros i Hstr; simpl; [by eexists|].
  destruct (Hstr c) as [s ->]; [left|].
  destruct (IH (S i)) as [parts ->]; [|simpl; eauto].
  intros c Hc. apply Hstr. by right.
Qed.

Lemma join_cells_strings (sep : string) (l : list cell) :
  (∀ c, c ∈ l → ∃ s, c = CStr s) → ∃ t, join_cells sep l = Ok t.
Proof.
  intros Hstr. unfold join_cells.
  destruct (join_items_strings 0 l Hstr) as [parts ->]. simpl. eauto.
Qed.

Lemma elem_of_duplicates (cells : list cell) (x : cell) :
  x ∈ duplicates cells → x ∈ cells.
Proof.
  unfold duplicates. intros Hx. apply list_elem_of_filter in Hx as [_ Hx].
  by rewrite elem_of_remove_dups in Hx.
Qed.

(** The names shown in a message about duplicated IDs can be joined when the
    IDs are strings. *)
Lemma join_duplicates_strings (cells : list cell) (n : nat) :
  (∀ c, c ∈ cells → ∃ s, c = CStr s) →
  ∃ t, join_cells ", " (take n (duplicates cells)) = Ok t.
Proof.
  intros Hstr. apply join_cells_strings. intros c Hc.
  apply Hstr, elem_of_duplicates. eapply elem_of_sublist; [exact Hc|].
  apply sublist_take.
Qed.

Ltac other :=
  repeat first
    [ apply raises_only_ok
    | apply raises_only_raise; unfold other_error, duplicate_ids_error;
      let H := fresh in intros H; cbv in H; discriminate H
    | apply raises_only_bind; [|intros ? _]
    | apply raises_only_for_each; intros ? ?
    | apply raises_only_set_col_rows; intros ?
    | apply raises_only_loc_labels; intros ?; unfold other_error; discriminate
    | apply raises_only_check_sortable; intros ?; unfold other_error; discriminate
    | progress simpl
    | case_match ].

Lemma other_col (df : frame) (c : string) : raises_only other_error (col df c).
Proof. unfold col. other. Qed.

Lemma other_series (df : frame) (c : string) : raises_only other_error (series df c).
Proof. unfold series. other. Qed.

Lemma other_set_index (c : string) (drop : bool) (df : frame) :
  raises_only other_error (set_index c drop df).
Proof. unfold set_index. other. Qed.

Lemma other_loc (labels : list cell) (df : frame) :
  raises_only other_error (loc labels df).
Proof. unfold loc. other. Qed.

Lemma other_assign_series (c : string) (s : list (cell * cell)) (df : frame) :
  raises_only other_error (assign_series c s df).
Proof. unfold assign_series. other. Qed.

Lemma other_copy_col (o df : frame) (c : string) :
  raises_only other_error (copy_col o df c).
Proof.
  unfold copy_col. apply raises_only_bind; [apply other_series|].
  intros ? _. apply other_assign_series.
Qed.

Lemma other_sample_step (df_support : frame) (opt : list string)
    (st : list string * list frame) (it : frame * string) :
  raises_only other_error (sample_step df_support opt st it).
Proof.
  unfold sample_step. destruct st as [col_list merge_df_list], it as [bed sample_name].
  apply raises_only_bind; [apply other_col|]. intros ? _.
  apply raises_only_bind; [apply other_set_index|]. intros dss _.
  case_bool_decide; [apply raises_only_ok|].
  apply raises_only_bind; [apply other_set_index|]. intros ? _.
  apply raises_only_bind; [apply other_col|]. intros ? _.
  apply raises_only_bind; [apply other_loc|]. intros ? _.
  apply raises_only_bind.
  { apply raises_only_bind; [apply other_series|]. intros ? _. apply other_assign_series. }
  intros ? _.
  apply raises_only_bind; [apply other_copy_col|]. intros ? _.
  apply raises_only_bind; [apply other_copy_col|]. intros ? _.
  apply raises_only_bind; [|intros ? _; apply raises_only_ok].
  apply raises_only_for_each. intros ? ?. apply other_copy_col.
Qed.

Lemma other_convert_col (df : frame) (c : string) :
  raises_only other_error (convert_col df c).
Proof.
  unfold convert_col, OPT_COL_DTYPE.
  repeat case_bool_decide; [| |apply raises_only_ok].
  - apply raises_only_bind; [apply other_col|]. intros ? _.
    unfold set_col_checked. apply raises_only_bind; [|intros ? _; apply raises_only_ok].
    apply raises_only_set_col_rows. intros r. unfold to_int32. other.
  - apply raises_only_bind; [apply other_col|]. intros ? _.
    unfold set_col_checked. apply raises_only_bind; [|intros ? _; apply raises_only_ok].
    apply raises_only_set_col_rows. intros r. unfold to_float32. other.
Qed.

Lemma other_sort_values (by_cols : list (string * bool)) (df : frame) :
  raises_only other_error (sort_values by_cols df).
Proof. unfold sort_values. other. Qed.

Lemma other_add_missing (head_cols : list string) (df : frame) (c : string) :
  raises_only other_error (add_missing head_cols df c).
Proof. unfold add_missing. other. Qed.

Lemma other_select_cols (cs : list string) (df : frame) :
  raises_only other_error (select_cols cs df).
Proof. unfold select_cols. other. Qed.

Lemma other_join_cells (sep : string) (l : list cell) :
  raises_only other_error (join_cells sep l).
Proof.
  unfold join_cells. apply raises_only_bind; [|intros ? _; apply raises_only_ok].
  generalize 0%nat. induction l as [|c l IH]; intros i; simpl; [apply raises_only_ok|].
  destruct c; try (apply raises_only_raise; unfold other_error; discriminate).
  - apply raises_only_bind; [apply IH|]. intros ? _. apply raises_only_ok.
  - apply raises_only_bind; [apply IH|]. intros ? _. apply raises_only_ok.
Qed.

(** C8: let the [SUPPORT_ID] values of the support table be strings. When two
    rows have the same [SUPPORT_ID], [merge_sample_by_support] raises and
    returns no table, and what it raises is the error for duplicate IDs once
    the lists of tables and names are of one length and the required columns
    are there. When the [SUPPORT_ID] values are pairwise distinct, the error
    for duplicate IDs is not what it raises. *)
Theorem merge_sample_by_support_duplicate_ids (df_support : frame)
    (bed_list : list frame) (sample_names : list string) :
  (∀ c, c ∈ support_ids df_support → ∃ s, c = CStr s) →
  (¬ NoDup (support_ids df_support) →
   raised (merge_sample_by_support (Some df_support) bed_list sample_names) ∧
   (length bed_list = length sample_names →
    (∀ c, c ∈ REQUIRED_COLUMNS → c ∈ columns df_support) →
    merge_sample_by_support (Some df_support) bed_list sample_names
    = Raise duplicate_ids_error)) ∧
  (NoDup (support_ids df_support) →
   merge_sample_by_support (Some df_support) bed_list sample_names
   ≠ Raise duplicate_ids_error).
Proof.
  intros Hstr. unfold merge_sample_by_support. simpl default. split.
  - intros Hdup.
    assert (∀ cells, col df_support "SUPPORT_ID" = Ok cells →
      bind (Ok cells) (λ support_ids,
        let dup_id_list := duplicates support_ids in
        if bool_decide (0 < length dup_id_list)%nat then
          bind (join_cells ", " (take 3 dup_id_list)) (λ dup_id_str,
          Raise (RuntimeError "Duplicate IDs after merging"))
        else @Ok frame (Frame [] [])) = Raise duplicate_ids_error) as Hraise.
    { intros cells ->%col_support_id. cbn [bind]. cbv zeta.
      rewrite bool_decide_true.
      - by destruct (join_duplicates_strings (support_ids df_support) 3 Hstr) as [t ->].
      - destruct (duplicates (support_ids df_support)) eqn:E; [|simpl; lia].
        by apply duplicates_nil in E. }
    split.
    + case_bool_decide; [done|]. case_bool_decide; [done|].
      destruct (col df_support "SUPPORT_ID") as [cells| |] eqn:Hcol; [|done|].
      * specialize (Hraise cells eq_refl). cbn [bind] in Hraise |- *. cbv zeta in Hraise |- *.
        destruct (bool_decide (0 < length (duplicates cells))%nat); [|done].
        by destruct (join_cells _ _).
      * unfold col in Hcol. by destruct (has_col _ _).
    + intros Hlen Hreq.
      rewrite bool_decide_false by (intros ?; done).
      rewrite bool_decide_false.
      2:{ intros Hmiss. apply Hmiss. case_bool_decide; [|done].
          apply filter_nil_iff, Forall_forall. intros c Hc Hn. by apply Hn, Hreq. }
      assert (col df_support "SUPPORT_ID" = Ok (support_ids df_support)) as Hcol.
      { unfold col, has_col. rewrite bool_decide_true; [done|].
        apply Hreq. apply (bool_decide_unpack _). vm_compute. exact I. }
      specialize (Hraise _ Hcol). rewrite Hcol. cbn [bind] in Hraise |- *.
      cbv zeta in Hraise |- *.
      destruct (bool_decide (0 < length (duplicates (support_ids df_support)))%nat); [|done].
      by destruct (join_cells _ _).
  - intros Hnd Hrun.
    assert (raises_only other_error
      (merge_sample_by_support (Some df_support) bed_list sample_names)) as Hother;
      [|by apply (Hother _ Hrun)].
    clear Hrun. unfold merge_sample_by_support. simpl default.
    case_bool_decide; [other|]. case_bool_decide; [other|].
    apply raises_only_bind; [apply other_col|]. intros cells Hcol.
    apply col_support_id in Hcol as ->.
    apply duplicates_nil in Hnd as ->. simpl.
    apply raises_only_bind.
    { apply raises_only_for_each. intros ? ?. apply other_sample_step. }
    intros [col_list merge_df_list] _.
    apply raises_only_bind.
    { apply raises_only_for_each. intros ? ?. apply other_convert_col. }
    intros ? _. apply raises_only_bind; [apply other_sort_values|]. intros ? _.
    apply raises_only_bind.
    { apply raises_only_for_each. intros ? ?. apply other_add_missing. }
    intros ? _. apply raises_only_bind; [apply other_select_cols|]. intros ? _.
    apply raises_only_ok.
Qed.

Lemma merge_sample_by_support_duplicate_ids_witness :
  raised (merge_sample_by_support (Some support_twice) [] []) ∧
  merge_sample_by_support (Some support_twice) [] [] = Raise duplicate_ids_error.
Proof.
  destruct (merge_sample_by_support_duplicate_ids support_twice [] []) as [Hdup _].
  - intros c Hc. vm_compute in Hc.
    repeat (apply elem_of_cons in Hc as [->|Hc]; [by eexists|]).
    by apply not_elem_of_nil in Hc.
  - destruct Hdup as [Hraised Herror].
    + intros Hnd. vm_compute in Hnd. apply NoDup_cons in Hnd as [Hn _].
      apply Hn. right. left.
    + split; [exact Hraised|]. apply Herror; [reflexivity|].
      intros c Hc. exact Hc.
Defined.

(** ** Tables: rows under the column operations *)

Lemma has_col_true (df : frame) (c : string) : has_col df c = true ↔ c ∈ columns df.
Proof. unfold has_col. apply bool_decide_eq_true. Qed.

Lemma has_col_false (df : frame) (c : string) : has_col df c = false ↔ c ∉ columns df.
Proof. unfold has_col. apply bool_decide_eq_false. Qed.

Lemma col_ok (df : frame) (c : string) (cells : list cell) :
  col df c = Ok cells ↔ c ∈ columns df ∧ cells = (λ r, at_col r c) <$> rows df.
Proof.
  unfold col. destruct (has_col df c) eqn:E.
  - apply has_col_true in E. split; [by intros [= <-]|by intros [_ ->]].
  - apply has_col_false in E. split; [done|by intros [? _]].
Qed.

Lemma at_col_insert (r : row) (c : string) (v : cell) : at_col (<[c := v]> r) c = v.
Proof. unfold at_col. by rewrite lookup_insert_eq. Qed.

Lemma at_col_insert_ne (r : row) (c c' : string) (v : cell) :
  c ≠ c' → at_col (<[c := v]> r) c' = at_col r c'.
Proof. intros. unfold at_col. by rewrite lookup_insert_ne. Qed.

Lemma at_col_restrict (cs : list string) (r : row) (c : string) :
  c ∈ cs → at_col (restrict cs r) c = at_col r c.
Proof.
  intros Hc. unfold at_col, restrict.
  destruct (r !! c) as [v|] eqn:E.
  - by rewrite (map_lookup_filter_Some_2 _ _ _ v).
  - by rewrite map_lookup_filter_None_2 by (by left).
Qed.

Lemma at_col_delete_ne (r : row) (c c' : string) :
  c ≠ c' → at_col (delete c r) c' = at_col r c'.
Proof. intros. unfold at_col. by rewrite lookup_delete_ne. Qed.

Lemma rows_set_col (c : string) (f : row → cell) (df : frame) :
  rows (set_col c f df) = (λ r, <[c := f r]> r) <$> rows df.
Proof. unfold rows, set_col. simpl. by rewrite <-!list_fmap_compose. Qed.

Lemma columns_set_col (c : string) (f : row → cell) (df : frame) :
  columns (set_col c f df) = add_col (columns df) c.
Proof. done. Qed.

Lemma elem_of_add_col (cs : list string) (c x : string) :
  x ∈ add_col cs c ↔ x ∈ cs ∨ x = c.
Proof.
  unfold add_col. case_bool_decide.
  - split; [by left|]. by intros [?| ->].
  - rewrite elem_of_app, list_elem_of_singleton. done.
Qed.







(** ** The stable sort *)

Lemma insert_sorted_perm {A : Type} (lt : A → A → bool) (x : A) (l : list A) :
  insert_sorted lt x l ≡ₚ x :: l.
Proof.
  induction l as [|y l IH]; simpl; [done|].
  destruct (lt y x); [|done]. rewrite IH. apply Permutation_swap.
Qed.

Lemma stable_sort_perm {A : Type} (lt : A → A → bool) (l : list A) :
  stable_sort lt l ≡ₚ l.
Proof.
  induction l as [|x l IH]; simpl; [done|].
  unfold stable_sort in *. simpl. by rewrite insert_sorted_perm, IH.
Qed.

Lemma sort_values_ok (by_cols : list (string * bool)) (df df' : frame) :
  sort_values by_cols df = Ok df' →
  columns df' = columns df ∧ body df' ≡ₚ body df ∧
  body df' = stable_sort (λ a b, row_lt by_cols a.2 b.2) (body df).
Proof.
  unfold sort_values. intros ([] & _ & [= <-])%bind_ok. simpl.
  split_and!; [done| |done]. apply stable_sort_perm.
Qed.

Lemma rows_sort_values (by_cols : list (string * bool)) (df df' : frame) :
  sort_values by_cols df = Ok df' → rows df' ≡ₚ rows df.
Proof. intros (_ & Hp & _)%sort_values_ok. unfold rows. by rewrite Hp. Qed.



























Lemma rows_range_index (l : list row) : (range_index l).*2 = l.
Proof.
  unfold range_index. apply list_eq. intros i.
  rewrite list_lookup_fmap, list_lookup_imap. by destruct (l !! i).
Qed.



(** ** Keeping the first row of each key *)

Section KeepFirst.
Context {A K : Type} `{EqDecision K} (key : A → K).

Lemma keep_first_spec (l : list A) (seen : list K) (x : A) (p : nat) :
  keep_first key seen l !! p = Some x →
  ∃ i, l !! i = Some x ∧ key x ∉ seen ∧
       (∀ j y, (j < i)%nat → l !! j = Some y → key y ≠ key x) ∧
       (p ≤ i)%nat.
Proof.
  revert seen p. induction l as [|a l IH]; intros seen p; simpl; [done|].
  case_decide as Hseen.
  - intros (i & Hi & Hx & Hfirst & Hp)%IH. exists (S i). split_and!; [done..| |lia].
    intros [|j] y Hj Hy; simpl in Hy.
    + simplify_eq. congruence.
    + apply (Hfirst j); [lia|done].
  - destruct p as [|p]; simpl.
    + intros [= <-]. exists 0%nat. split_and!; [done..| |lia]. intros; lia.
    + intros (i & Hi & Hx & Hfirst & Hp)%IH. exists (S i).
      apply not_elem_of_cons in Hx as [Hne Hx]. split_and!; [done..| |lia].
      intros [|j] y Hj Hy; simpl in Hy.
      * by simplify_eq.
      * apply (Hfirst j); [lia|done].
Qed.

Lemma keep_first_elem (l : list A) (seen : list K) (x : A) :
  x ∈ keep_first key seen l → x ∈ l ∧ key x ∉ seen.
Proof.
  intros [p Hp]%list_elem_of_lookup.
  destruct (keep_first_spec _ _ _ _ Hp) as (i & Hi & Hx & _).
  split; [by eapply list_elem_of_lookup_2|done].
Qed.

Lemma keep_first_NoDup (l : list A) (seen : list K) :
  NoDup (key <$> keep_first key seen l).
Proof.
  revert seen. induction l as [|a l IH]; intros seen; simpl; [constructor|].
  case_decide; [apply IH|]. rewrite fmap_cons. constructor; [|apply IH].
  intros (y & Hy & Hin)%list_elem_of_fmap.
  apply keep_first_elem in Hin as [_ Hin]. apply Hin. rewrite <-Hy. left.
Qed.

Lemma keep_first_covers (l : list A) (seen : list K) (x : A) :
  x ∈ l → key x ∉ seen → ∃ y, y ∈ keep_first key seen l ∧ key y = key x.
Proof.
  revert seen. induction l as [|a l IH]; intros seen Hx Hseen; simpl.
  { by apply not_elem_of_nil in Hx. }
  apply elem_of_cons in Hx as [->|Hx].
  - rewrite decide_False by done. exists a. split; [left|done].
  - case_decide as Ha; [by apply IH|].
    destruct (decide (key x = key a)) as [Heq|Hne].
    + exists a. split; [left|done].
    + destruct (IH (key a :: seen) Hx) as (y & Hy & Hk).
      { rewrite not_elem_of_cons. done. }
      exists y. split; [by right|done].
Qed.

Lemma keep_first_sublist (l : list A) (seen : list K) :
  sublist (keep_first key seen l) l.
Proof.
  revert seen. induction l as [|a l IH]; intros seen; simpl; [constructor|].
  case_decide; [apply sublist_cons, IH|apply sublist_skip, IH].
Qed.

End KeepFirst.

(** ** The order of cells of one kind *)

(** Floats that are not NaN. *)
Definition is_nan (x : float) : bool := match x with NaN => true | _ => false end.

Lemma flt_asym (x y : float) : flt x y = true → flt y x = false.
Proof.
  destruct x as [a|[]|], y as [b|[]|]; simpl; try done.
  rewrite bool_decide_eq_true, bool_decide_eq_false.
  intros H1 H2. by apply (Qclt_not_le _ _ H1), Qclt_le_weak.
Qed.

Lemma flt_le_trans (x y z : float) :
  is_nan x = false → is_nan y = false → is_nan z = false →
  flt y x = false → flt z y = false → flt z x = false.
Proof.
  destruct x as [a|[]|], y as [b|[]|], z as [c|[]|]; simpl; try done.
  intros _ _ _. rewrite !bool_decide_eq_false.
  intros H1%Qcnot_lt_le H2%Qcnot_lt_le. apply Qcle_not_lt. by etrans.
Qed.

Lemma str_lt_le (a b : string) : str_lt b a = false ↔ String.le a b.
Proof.
  unfold str_lt, String.le, String.ltb, String.leb.
  rewrite (String.compare_antisym a b).
  destruct (String.compare b a); simpl; split; done.
Qed.

Lemma str_lt_asym (a b : string) : str_lt a b = true → str_lt b a = false.
Proof.
  unfold str_lt, String.ltb. rewrite (String.compare_antisym a b).
  by destruct (String.compare b a).
Qed.

Lemma str_le_trans (a b c : string) :
  str_lt b a = false → str_lt c b = false → str_lt c a = false.
Proof. rewrite !str_lt_le. intros. by etrans. Qed.

(** A cell is of kind [k] when it is missing or of that kind. *)
Definition of_kind (k : kind) (a : cell) : Prop :=
  kind_of a = None ∨ kind_of a = Some k.

Lemma kind_num_not_nan (a : cell) : kind_of a = Some KNum → is_nan (num_of a) = false.
Proof. by destruct a as [| |[| |]| |]. Qed.

Lemma isnull_kind (a : cell) : isnull a = true ↔ kind_of a = None.
Proof. destruct a as [| |[| |]| |]; simpl; split; done. Qed.

Lemma cell_lt_asym (a b : cell) : cell_lt a b = true → cell_lt b a = false.
Proof.
  destruct a, b; cbn [cell_lt]; try done; try apply flt_asym; try apply str_lt_asym.
  rewrite bool_decide_eq_true, bool_decide_eq_false. lia.
Qed.

Lemma cell_le_trans (k : kind) (a b c : cell) :
  kind_of a = Some k → kind_of b = Some k → kind_of c = Some k →
  cell_lt b a = false → cell_lt c b = false → cell_lt c a = false.
Proof.
  intros Ha Hb Hc. destruct k.
  - destruct a as [s1| |[| |]| |], b as [s2| |[| |]| |], c as [s3| |[| |]| |]; try done.
    simpl. apply str_le_trans.
  - assert (∀ x y, kind_of x = Some KNum → kind_of y = Some KNum →
                   cell_lt x y = flt (num_of x) (num_of y)) as Hnum.
    { intros x y Hx Hy. by destruct x as [| |[| |]| |], y as [| |[| |]| |]. }
    rewrite !Hnum by done.
    apply flt_le_trans; by apply kind_num_not_nan.
  - destruct a as [| |[| |]| |], b as [| |[| |]| |], c as [| |[| |]| |]; try done.
    simpl. rewrite !bool_decide_eq_false. lia.
Qed.

Lemma key_lt_asym (ascending : bool) (a b : cell) :
  key_lt ascending a b = true → key_lt ascending b a = false.
Proof.
  unfold key_lt. destruct (isnull a) eqn:Ea, (isnull b) eqn:Eb; try done.
  destruct ascending; apply cell_lt_asym.
Qed.

Lemma key_le_trans (k : kind) (ascending : bool) (a b c : cell) :
  of_kind k a → of_kind k b → of_kind k c →
  key_lt ascending b a = false → key_lt ascending c b = false →
  key_lt ascending c a = false.
Proof.
  unfold key_lt, of_kind. rewrite <-!isnull_kind.
  destruct (isnull a) eqn:Ea, (isnull b) eqn:Eb, (isnull c) eqn:Ec; try done.
  intros [|Ha] [|Hb] [|Hc]; try done.
  destruct ascending; [by apply (cell_le_trans k)|].
  intros H1 H2. by apply (cell_le_trans k c b a).
Qed.

(** ** The lexicographic order of rows *)

(** The rows whose cells in each sort column are of the kind [kinds] gives. *)
Definition well_kinded (kinds : string → kind) (by_cols : list (string * bool))
    (r : row) : Prop :=
  ∀ c, c ∈ by_cols.*1 → of_kind (kinds c) (at_col r c).

Lemma row_lt_asym (by_cols : list (string * bool)) (r1 r2 : row) :
  row_lt by_cols r1 r2 = true → row_lt by_cols r2 r1 = false.
Proof.
  induction by_cols as [|[c asc] rest IH]; simpl; [done|].
  destruct (key_lt asc (at_col r1 c) (at_col r2 c)) eqn:E12; simpl.
  - intros _. by rewrite (key_lt_asym _ _ _ E12).
  - destruct (key_lt asc (at_col r2 c) (at_col r1 c)); simpl; [done|]. apply IH.
Qed.

Lemma row_le_trans (kinds : string → kind) (by_cols : list (string * bool))
    (r1 r2 r3 : row) :
  well_kinded kinds by_cols r1 → well_kinded kinds by_cols r2 →
  well_kinded kinds by_cols r3 →
  row_lt by_cols r2 r1 = false → row_lt by_cols r3 r2 = false →
  row_lt by_cols r3 r1 = false.
Proof.
  induction by_cols as [|[c asc] rest IH]; simpl; [done|].
  intros W1 W2 W3.
  assert (well_kinded kinds rest r1 ∧ well_kinded kinds rest r2 ∧
          well_kinded kinds rest r3) as (W1' & W2' & W3').
  { split_and!; intros c' Hc'; [apply W1|apply W2|apply W3]; simpl; by right. }
  specialize (IH W1' W2' W3').
  pose proof (W1 c ltac:(simpl; left)) as K1.
  pose proof (W2 c ltac:(simpl; left)) as K2.
  pose proof (W3 c ltac:(simpl; left)) as K3.
  set (a1 := at_col r1 c) in *. set (a2 := at_col r2 c) in *.
  set (a3 := at_col r3 c) in *.
  pose proof (key_le_trans (kinds c) asc a1 a2 a3 K1 K2 K3) as T123.
  pose proof (key_le_trans (kinds c) asc a3 a1 a2 K3 K1 K2) as T312.
  pose proof (key_le_trans (kinds c) asc a2 a3 a1 K2 K3 K1) as T231.
  pose proof (key_lt_asym asc a1 a2). pose proof (key_lt_asym asc a2 a3).
  pose proof (key_lt_asym asc a1 a3). pose proof (key_lt_asym asc a2 a1).
  pose proof (key_lt_asym asc a3 a2). pose proof (key_lt_asym asc a3 a1).
  destruct (key_lt asc a1 a2), (key_lt asc a2 a1), (key_lt asc a2 a3),
    (key_lt asc a3 a2), (key_lt asc a1 a3), (key_lt asc a3 a1);
    simpl; intros; try done; try (by apply IH); exfalso;
    repeat match goal with
           | H : ?x = ?x → _ |- _ => specialize (H eq_refl)
           end; congruence.
Qed.

(** ** The stable sort sorts *)

Section StableSort.
Context {A : Type} (lt : A → A → bool) (P : A → Prop).
Hypothesis lt_asym : ∀ a b, P a → P b → lt a b = true → lt b a = false.
Hypothesis le_trans : ∀ a b c, P a → P b → P c →
  lt b a = false → lt c b = false → lt c a = false.

Lemma insert_sorted_sorted (x : A) (l : list A) :
  P x → Forall P l →
  StronglySorted (λ a b, lt b a = false) l →
  StronglySorted (λ a b, lt b a = false) (insert_sorted lt x l).
Proof.
  intros Hx. induction l as [|y l IH]; intros HP Hs; simpl.
  { repeat constructor. }
  apply Forall_cons in HP as [Hy HP].
  apply StronglySorted_inv in Hs as [Hs Hall].
  destruct (lt y x) eqn:E.
  - constructor; [by apply IH|].
    rewrite (insert_sorted_perm lt x l). constructor; [|done].
    destruct (lt x y) eqn:E'; [|done]. by rewrite (lt_asym x y) in E.
  - constructor; [by constructor|]. constructor; [done|].
    rewrite Forall_forall in Hall, HP. apply Forall_forall. intros z Hz.
    apply (le_trans x y z); auto.
Qed.

Lemma stable_sort_sorted (l : list A) :
  Forall P l → StronglySorted (λ a b, lt b a = false) (stable_sort lt l).
Proof.
  induction l as [|x l IH]; intros HP; [constructor|].
  apply Forall_cons in HP as [Hx HP]. unfold stable_sort in *. simpl.
  apply insert_sorted_sorted; [done| |by apply IH].
  by rewrite (stable_sort_perm lt l).
Qed.

End StableSort.

Lemma StronglySorted_lookup {A : Type} (R : A → A → Prop) (l : list A)
    (i j : nat) (x y : A) :
  StronglySorted R l → (i < j)%nat → l !! i = Some x → l !! j = Some y → R x y.
Proof.
  intros Hs. revert i j. induction Hs as [|a l Hs IH Hall]; intros i j Hij Hi Hj.
  { done. }
  destruct j as [|j]; [lia|]. simpl in Hj. destruct i as [|i]; simpl in Hi.
  - simplify_eq. rewrite Forall_forall in Hall. apply Hall.
    by eapply list_elem_of_lookup_2.
  - apply (IH i j); [lia|done..].
Qed.

(** ** Sortable columns are of one kind *)

Lemma one_kind_of_kind (cells : list cell) :
  one_kind cells = true → ∃ k, Forall (of_kind k) cells.
Proof.
  unfold one_kind. destruct (omap kind_of cells) as [|k ks] eqn:E.
  - intros _. exists KStr. apply Forall_forall. intros a Ha. left.
    destruct (kind_of a) as [k|] eqn:Ek; [|done].
    assert (k ∈ omap kind_of cells) as Hin by (apply list_elem_of_omap; eauto).
    rewrite E in Hin. by apply not_elem_of_nil in Hin.
  - intros Hall. exists k. apply Forall_forall. intros a Ha.
    destruct (kind_of a) as [k'|] eqn:Ek; [right|by left].
    assert (k' ∈ omap kind_of cells) as Hin by (apply list_elem_of_omap; eauto).
    rewrite E in Hin. apply elem_of_cons in Hin as [->|Hin]; [done|].
    rewrite forallb_forall in Hall. apply list_elem_of_In, Hall in Hin.
    apply bool_decide_eq_true in Hin. congruence.
Qed.

Lemma check_sortable_kinds (cs : list string) (df : frame) (u : unit) :
  check_sortable cs df = Ok u →
  ∃ kinds, ∀ r c, r ∈ rows df → c ∈ cs → of_kind (kinds c) (at_col r c).
Proof.
  induction cs as [|c cs IH]; simpl.
  { intros _. exists (λ _, KStr). intros r c _ Hc. by apply not_elem_of_nil in Hc. }
  intros (cells & Hcol & Hrest)%bind_ok.
  destruct (one_kind cells) eqn:E; [|done].
  apply IH in Hrest as [kinds Hkinds].
  apply one_kind_of_kind in E as [k Hk].
  apply col_ok in Hcol as [_ ->].
  exists (λ c', if decide (c' = c) then k else kinds c').
  intros r c' Hr Hc'. case_decide as Hd.
  - subst c'. rewrite Forall_forall in Hk. apply Hk.
    apply list_elem_of_fmap. eauto.
  - apply elem_of_cons in Hc' as [?|Hc']; [done|]. by apply Hkinds.
Qed.

Lemma sort_values_sorted (by_cols : list (string * bool)) (df df' : frame) :
  sort_values by_cols df = Ok df' →
  StronglySorted (λ a b, row_lt by_cols b a = false) (rows df').
Proof.
  unfold sort_values. intros (u & Hchk & [= <-])%bind_ok.
  apply check_sortable_kinds in Hchk as [kinds Hkinds].
  unfold rows. simpl.
  assert (∀ l : list (cell * row),
    StronglySorted (λ a b, row_lt by_cols b.2 a.2 = false) l →
    StronglySorted (λ a b, row_lt by_cols b a = false) l.*2) as Hmap.
  { induction 1 as [|a l Hs IH Hall]; simpl; constructor; [done|].
    by apply Forall_fmap. }
  apply Hmap.
  apply (stable_sort_sorted (λ a b, row_lt by_cols a.2 b.2)
           (λ lr, well_kinded kinds by_cols lr.2)).
  - intros a b _ _. apply row_lt_asym.
  - intros a b c Ha Hb Hc. by apply (row_le_trans kinds).
  - apply Forall_forall. intros [l r] Hin c Hc. simpl. apply Hkinds; [|done].
    unfold rows. apply list_elem_of_fmap. by exists (l, r).
Qed.

Lemma row_lt_irrefl (by_cols : list (string * bool)) (r : row) :
  row_lt by_cols r r = false.
Proof.
  destruct (row_lt by_cols r r) eqn:E; [|done].
  pose proof (row_lt_asym _ _ _ E). congruence.
Qed.

Lemma drop_duplicates_ok (subset : list string) (df out : frame) :
  drop_duplicates subset df = Ok out →
  body out = keep_first (λ lr : cell * row, key_of subset lr.2) [] (body df).
Proof.
  unfold drop_duplicates.
  destruct (filter (λ c, c ∉ columns df) subset); [|done]. by intros [= <-].
Qed.

(** C2: the finalizer sorts the merged support table by (SAMPLE ascending,
    SUPPORT_RO descending, SUPPORT_OFFSET ascending, SUPPORT_SZRO descending,
    SUPPORT_OFFSZ descending, SUPPORT_MATCH descending) and drops duplicates
    on (SUPPORT_ID, SAMPLE, SUPPORT_SAMPLE).  Whenever that step returns, the
    sorted table is a permutation of the input in non-decreasing order, the
    result is a subsequence of it with at most one row for each triple, every
    triple of the input keeps a row, the row kept is the first of its triple
    in the sorted table, and no input row of the same triple is strictly
    before it in the sort order: it is the best-supported one. *)
Theorem best_support_first_of_triple (df out : frame) :
  best_support df = Ok out →
  ∃ sorted,
    sort_values support_order df = Ok sorted ∧
    rows sorted ≡ₚ rows df ∧
    (∀ i j r1 r2, (i < j)%nat →
       rows sorted !! i = Some r1 → rows sorted !! j = Some r2 →
       row_lt support_order r2 r1 = false) ∧
    sublist (rows out) (rows sorted) ∧
    NoDup (key_of support_key <$> rows out) ∧
    (∀ r, r ∈ rows df →
       ∃ r', r' ∈ rows out ∧ key_of support_key r' = key_of support_key r) ∧
    (∀ r, r ∈ rows out →
       ∃ i, rows sorted !! i = Some r ∧
            ∀ j r', (j < i)%nat → rows sorted !! j = Some r' →
                    key_of support_key r' ≠ key_of support_key r) ∧
    (∀ r r', r ∈ rows out → r' ∈ rows df →
       key_of support_key r' = key_of support_key r →
       row_lt support_order r' r = false).
Proof.
  unfold best_support. intros (sorted & Hsort & Hdrop)%bind_ok.
  exists sorted. apply drop_duplicates_ok in Hdrop.
  pose proof (rows_sort_values _ _ _ Hsort) as Hperm.
  pose proof (sort_values_sorted _ _ _ Hsort) as Hsorted.
  set (key := λ lr : cell * row, key_of support_key lr.2) in *.
  assert (∀ i j r1 r2, (i < j)%nat →
            rows sorted !! i = Some r1 → rows sorted !! j = Some r2 →
            row_lt support_order r2 r1 = false) as Hord.
  { intros i j r1 r2 Hij H1 H2.
    by apply (StronglySorted_lookup _ _ i j r1 r2 Hsorted). }
  assert (∀ r, r ∈ rows out →
            ∃ i, rows sorted !! i = Some r ∧
                 ∀ j r', (j < i)%nat → rows sorted !! j = Some r' →
                         key_of support_key r' ≠ key_of support_key r) as Hfirst.
  { intros r ([l r0] & -> & [p Hp]%list_elem_of_lookup)%list_elem_of_fmap.
    rewrite Hdrop in Hp.
    destruct (keep_first_spec key _ _ _ _ Hp) as (i & Hi & _ & Hbefore & _).
    exists i. unfold rows. rewrite list_lookup_fmap, Hi. split; [done|].
    intros j r'. rewrite list_lookup_fmap.
    destruct (body sorted !! j) as [[l' r'']|] eqn:Ej; [|done].
    intros Hj [= <-]. apply (Hbefore j (l', r'') Hj Ej). }
  split_and!; try done.
  - unfold rows. rewrite Hdrop. apply fmap_sublist, keep_first_sublist.
  - unfold rows. rewrite Hdrop, <-list_fmap_compose. apply (keep_first_NoDup key).
  - intros r Hr. rewrite <-Hperm in Hr.
    apply list_elem_of_fmap in Hr as ([l r0] & -> & Hin).
    destruct (keep_first_covers key (body sorted) [] (l, r0) Hin) as ([l' r'] & Hin' & Hk).
    { apply not_elem_of_nil. }
    exists r'. split; [|done]. unfold rows. rewrite Hdrop.
    apply list_elem_of_fmap. by exists (l', r').
  - intros r r' Hr Hr' Hkey.
    destruct (Hfirst r Hr) as (i & Hi & Hbefore).
    rewrite <-Hperm in Hr'. apply list_elem_of_lookup in Hr' as [j Hj].
    destruct (decide (j < i)%nat) as [Hlt|Hge].
    { by destruct (Hbefore j r' Hlt Hj). }
    destruct (decide (j = i)) as [->|Hne].
    { rewrite Hi in Hj. injection Hj as <-. apply row_lt_irrefl. }
    apply (Hord i j r r'); [lia|done..].
Qed.

Lemma best_support_first_of_triple_witness :
  ∃ out, best_support support_example = Ok out ∧
    (λ r, at_col r "ID") <$> rows out = [CStr "v1"; CStr "y"] ∧
    NoDup (key_of support_key <$> rows out).
Proof.
  eexists. split; [vm_compute; reflexivity|]. split; [vm_compute; reflexivity|].
  destruct (best_support_first_of_triple support_example _ eq_refl)
    as (sorted & _ & _ & _ & _ & Hnd & _).
  exact Hnd.
Defined.











(** ** Rationals in canonical form, seen as rationals *)

Lemma this_plus (x y : Qc) : (this (x + y)%Qc == this x + this y)%Q.
Proof. apply Qred_correct. Qed.

Lemma this_mult (x y : Qc) : (this (x * y)%Qc == this x * this y)%Q.
Proof. apply Qred_correct. Qed.

Lemma this_opp (x : Qc) : (this (- x)%Qc == - this x)%Q.
Proof. apply Qred_correct. Qed.

Lemma this_minus (x y : Qc) : (this (x - y)%Qc == this x - this y)%Q.
Proof. unfold Qcminus. rewrite this_plus, this_opp. reflexivity. Qed.

Lemma this_inv (x : Qc) : (this (/ x)%Qc == / this x)%Q.
Proof. apply Qred_correct. Qed.

Lemma this_div (x y : Qc) : (this (x / y)%Qc == this x / this y)%Q.
Proof. unfold Qcdiv. rewrite this_mult, this_inv. reflexivity. Qed.

Lemma this_Qc_of (z : Z) : (this (Qc_of z) == inject_Z z)%Q.
Proof. reflexivity. Qed.

Lemma this_half : (this (1 / Qc_of 2)%Qc == 1 # 2)%Q.
Proof. reflexivity. Qed.

Lemma this_0 : (this 0%Qc == 0)%Q.
Proof. reflexivity. Qed.

Lemma this_1 : (this 1%Qc == 1)%Q.
Proof. reflexivity. Qed.

Lemma Qc_eq_this (x y : Qc) : x = y ↔ (this x == this y)%Q.
Proof. split; [by intros ->|apply Qc_is_canon]. Qed.

Lemma Qc_le_this (x y : Qc) : (x ≤ y)%Qc ↔ (this x <= this y)%Q.
Proof. done. Qed.

Lemma Qc_lt_this (x y : Qc) : (x < y)%Qc ↔ (this x < this y)%Q.
Proof. done. Qed.

Ltac to_Q :=
  repeat match goal with
         | H : context [@eq Qc _ _] |- _ => rewrite Qc_eq_this in H
         | H : context [Qcle _ _] |- _ => rewrite Qc_le_this in H
         | H : context [Qclt _ _] |- _ => rewrite Qc_lt_this in H
         end;
  rewrite ?Qc_eq_this, ?Qc_le_this, ?Qc_lt_this;
  repeat (rewrite ?this_half, ?this_plus, ?this_minus, ?this_mult, ?this_opp, ?this_div,
            ?this_inv, ?this_Qc_of in * );
  change (this 0%Qc) with 0%Q in *; change (this 1%Qc) with 1%Q in *.

(** ** The floor and the nearest integer *)

Lemma Qc_floor_le (q : Qc) : (Qc_of (Qc_floor q) ≤ q)%Qc.
Proof. to_Q. apply Qfloor_le. Qed.

Lemma Qc_floor_lt (q : Qc) : (q < Qc_of (Qc_floor q + 1))%Qc.
Proof. to_Q. apply Qlt_floor. Qed.

Lemma Qc_floor_mono (q q' : Qc) : (q ≤ q')%Qc → Qc_floor q ≤ Qc_floor q'.
Proof. intros H. by apply Qfloor_resp_le. Qed.

Lemma Qc_floor_of (z : Z) : Qc_floor (Qc_of z) = z.
Proof.
  unfold Qc_floor. rewrite (Qfloor_comp _ _ (this_Qc_of z)). apply Qfloor_Z.
Qed.

Lemma round_half_even_bounds (q : Qc) :
  Qc_floor q ≤ round_half_even q ≤ Qc_floor q + 1.
Proof.
  unfold round_half_even. repeat case_decide; try lia.
  destruct (Z.even _); lia.
Qed.

Lemma round_half_even_of (z : Z) : round_half_even (Qc_of z) = z.
Proof.
  unfold round_half_even. rewrite Qc_floor_of.
  rewrite decide_True; [done|]. to_Q. lra.
Qed.

Lemma round_half_even_mono (q q' : Qc) :
  (q ≤ q')%Qc → round_half_even q ≤ round_half_even q'.
Proof.
  intros Hle. pose proof (Qc_floor_mono _ _ Hle) as Hf.
  destruct (decide (Qc_floor q < Qc_floor q')) as [Hlt|Hge].
  { pose proof (round_half_even_bounds q). pose proof (round_half_even_bounds q').
    lia. }
  assert (Qc_floor q' = Qc_floor q) as Heq by lia.
  unfold round_half_even. rewrite Heq.
  set (f := Qc_floor q) in *.
  assert (q - Qc_of f ≤ q' - Qc_of f)%Qc as Hr.
  { to_Q. lra. }
  set (r := (q - Qc_of f)%Qc) in *. set (r' := (q' - Qc_of f)%Qc) in *.
  set (half := (1 / Qc_of 2)%Qc).
  clearbody r r' half.
  repeat case_decide; try lia; try (destruct (Z.even f); lia);
    exfalso; unfold Qclt, Qcle in *; lra.
Qed.

(** ** Powers of two *)

Lemma this_pow2 (e : Z) : (this (pow2 e) == 2 ^ e)%Q.
Proof.
  unfold pow2. destruct (Z.leb_spec 0 e) as [Hle|Hlt].
  - rewrite this_Qc_of. by rewrite Zpower_Qpower.
  - rewrite this_div, this_Qc_of, Zpower_Qpower by lia.
    change (this 1%Qc) with 1%Q. change (inject_Z 2) with 2%Q.
    rewrite <-(Z.opp_involutive e) at 2. rewrite (Qpower_opp 2 (- e)).
    unfold Qdiv. ring.
Qed.

Lemma Qpow2_pos (e : Z) : (0 < 2 ^ e)%Q.
Proof. by apply Qpower_0_lt. Qed.

Lemma Qpow2_add (x y : Z) : (2 ^ (x + y) == 2 ^ x * 2 ^ y)%Q.
Proof. by apply Qpower_plus. Qed.

Lemma Qpow2_succ (x : Z) : (2 ^ (x + 1) == 2 * 2 ^ x)%Q.
Proof. rewrite Qpow2_add. change (2 ^ 1)%Q with 2%Q. ring. Qed.

Lemma Qpow2_le (x y : Z) : x ≤ y → (2 ^ x <= 2 ^ y)%Q.
Proof. intros. by apply Qpower_le_compat_l. Qed.

Lemma Qpow2_lt (x y : Z) : x < y → (2 ^ x < 2 ^ y)%Q.
Proof. intros. by apply Qpower_lt_compat_l. Qed.

Lemma Qpow2_lt_inv (x y : Z) : (2 ^ x < 2 ^ y)%Q → x < y.
Proof. intros. by apply (Qpower_lt_compat_l_inv 2). Qed.

Lemma pow2_pos (e : Z) : (0 < pow2 e)%Qc.
Proof. rewrite Qc_lt_this, this_pow2. apply Qpow2_pos. Qed.

Lemma pow2_nonneg (e : Z) : 0 ≤ e → pow2 e = Qc_of (2 ^ e).
Proof. unfold pow2. intros. destruct (Z.leb_spec 0 e); [done|lia]. Qed.

(** ** The binary exponent *)

Lemma Qlog2_bounds (n : Z) :
  0 < n → (2 ^ Z.log2 n <= inject_Z n < 2 ^ (Z.log2 n + 1))%Q.
Proof.
  intros Hn. destruct (Z.log2_spec n Hn) as [H1 H2].
  pose proof (Z.log2_nonneg n) as H0.
  rewrite <-!(Zpower_Qpower 2) by lia. split.
  - by rewrite <-Zle_Qle.
  - rewrite <-Zlt_Qlt. by rewrite Z.add_1_r.
Qed.

Lemma ilog2_spec (q : Qc) :
  (0 < q)%Qc → (pow2 (ilog2 q) ≤ q)%Qc ∧ (q < pow2 (ilog2 q + 1))%Qc.
Proof.
  intros Hq. unfold ilog2.
  set (n := Qnum (this q)). set (d := Z.pos (Qden (this q))).
  assert (this q * inject_Z d == inject_Z n)%Q as Hnd.
  { destruct (this q) as [a b] eqn:E. subst n d. simpl.
    rewrite (Qmake_Qdiv a b). field. discriminate. }
  assert (0 < inject_Z d)%Q as Hd.
  { change 0%Q with (inject_Z 0). by rewrite <-Zlt_Qlt. }
  assert (0 < n) as Hn.
  { rewrite Qc_lt_this in Hq. change (this 0%Qc) with 0%Q in Hq.
    rewrite Zlt_Qlt, <-Hnd. change (inject_Z 0) with 0%Q. nra. }
  destruct (Qlog2_bounds n Hn) as [Hn1 Hn2].
  destruct (Qlog2_bounds d eq_refl) as [Hd1 Hd2].
  set (ln := Z.log2 n) in *. set (ld := Z.log2 d) in *.
  pose proof (Qpow2_pos (ln - ld)) as Hp0.
  pose proof (Qpow2_pos (ln - ld - 1)) as Hp1.
  pose proof (Qpow2_pos ld) as Hp2.
  assert (2 ^ (ln + 1) == 2 * 2 ^ (ln - ld) * 2 ^ ld)%Q as E1.
  { rewrite Qpow2_succ, <-Qmult_assoc, <-Qpow2_add.
    by replace (ln - ld + ld) with ln by lia. }
  assert (2 ^ ln == 2 ^ (ln - ld - 1) * (2 * 2 ^ ld))%Q as E2.
  { rewrite <-Qpow2_succ, <-Qpow2_add.
    by replace (ln - ld - 1 + (ld + 1)) with ln by lia. }
  rewrite Qpow2_succ in Hd2. rewrite E1 in Hn2. rewrite E2 in Hn1.
  case_decide as Hc.
  - split; [done|]. rewrite Qc_lt_this, this_pow2, Qpow2_succ.
    apply (Qmult_lt_r _ _ (inject_Z d)); [done|]. rewrite Hnd. nra.
  - apply Qcnot_le_lt in Hc. replace (ln - ld - 1 + 1) with (ln - ld) by lia.
    split; [|done]. rewrite Qc_le_this, this_pow2.
    apply (Qmult_le_r _ _ (inject_Z d)); [done|]. rewrite Hnd. nra.
Qed.

Lemma ilog2_mono (a b : Qc) : (0 < a)%Qc → (a ≤ b)%Qc → ilog2 a ≤ ilog2 b.
Proof.
  intros Ha Hab.
  destruct (ilog2_spec a Ha) as [Ha1 _].
  destruct (ilog2_spec b) as [_ Hb2]; [by eapply Qclt_le_trans|].
  assert (pow2 (ilog2 a) < pow2 (ilog2 b + 1))%Qc as Hlt.
  { eapply Qcle_lt_trans; [done|]. by eapply Qcle_lt_trans. }
  rewrite Qc_lt_this, !this_pow2 in Hlt. apply Qpow2_lt_inv in Hlt. lia.
Qed.

Lemma pow2_add (x y : Z) : pow2 (x + y) = (pow2 x * pow2 y)%Qc.
Proof. rewrite Qc_eq_this, this_mult, !this_pow2. apply Qpow2_add. Qed.

Lemma pow2_le (x y : Z) : x ≤ y → (pow2 x ≤ pow2 y)%Qc.
Proof. intros. rewrite Qc_le_this, !this_pow2. by apply Qpow2_le. Qed.

Lemma Qc_of_le (x y : Z) : x ≤ y → (Qc_of x ≤ Qc_of y)%Qc.
Proof. intros. rewrite Qc_le_this, !this_Qc_of. by rewrite <-Zle_Qle. Qed.

Lemma Qc_inv_pos (c : Qc) : (0 < c)%Qc → (0 < / c)%Qc.
Proof.
  rewrite !Qc_lt_this, this_inv. change (this 0%Qc) with 0%Q.
  apply Qinv_lt_0_compat.
Qed.

Lemma Qc_div_le (a b c : Qc) : (0 < c)%Qc → (a ≤ b)%Qc → (a / c ≤ b / c)%Qc.
Proof.
  intros Hc Hab. unfold Qcdiv. apply Qcmult_le_compat_r; [done|].
  apply Qclt_le_weak, Qc_inv_pos, Hc.
Qed.

Lemma Qc_mul_div (a c : Qc) : (0 < c)%Qc → (a * c / c = a)%Qc.
Proof. intros Hc. apply Qcdiv_mult_l. intros ->. by apply (Qclt_not_eq 0 0). Qed.

Lemma scaled_le (a : Qc) (u k : Z) :
  0 ≤ k → (a ≤ pow2 (u + k))%Qc →
  (Qc_of (round_half_even (a / pow2 u)) * pow2 u ≤ pow2 (u + k))%Qc.
Proof.
  intros Hk Ha. pose proof (pow2_pos u) as Hu.
  rewrite (Z.add_comm u k), pow2_add in *.
  apply Qcmult_le_compat_r; [|by apply Qclt_le_weak].
  rewrite (pow2_nonneg k Hk) in *.
  rewrite <-(round_half_even_of (2 ^ k)) at 1.
  apply Qc_of_le, round_half_even_mono.
  rewrite <-(Qc_mul_div (Qc_of (2 ^ k)) (pow2 u)) by done.
  by apply Qc_div_le.
Qed.

Lemma scaled_ge (a : Qc) (u k : Z) :
  0 ≤ k → (pow2 (u + k) ≤ a)%Qc →
  (pow2 (u + k) ≤ Qc_of (round_half_even (a / pow2 u)) * pow2 u)%Qc.
Proof.
  intros Hk Ha. pose proof (pow2_pos u) as Hu.
  rewrite (Z.add_comm u k), pow2_add in *.
  apply Qcmult_le_compat_r; [|by apply Qclt_le_weak].
  rewrite (pow2_nonneg k Hk) in *.
  rewrite <-(round_half_even_of (2 ^ k)) at 1.
  apply Qc_of_le, round_half_even_mono.
  rewrite <-(Qc_mul_div (Qc_of (2 ^ k)) (pow2 u)) by done.
  by apply Qc_div_le.
Qed.

Lemma rounded_mono (prec emin : Z) (a b : Qc) :
  0 < prec → (0 < a)%Qc → (a ≤ b)%Qc →
  (rounded prec emin a ≤ rounded prec emin b)%Qc.
Proof.
  intros Hprec Ha Hab. unfold rounded.
  pose proof (ilog2_mono a b Ha Hab) as He.
  assert (0 < b)%Qc as Hb by (by eapply Qclt_le_trans).
  destruct (ilog2_spec a Ha) as [_ Ha2].
  destruct (ilog2_spec b Hb) as [Hb1 _].
  set (ea := ilog2 a) in *. set (eb := ilog2 b) in *.
  set (ua := Z.max (ea - (prec - 1)) emin).
  set (ub := Z.max (eb - (prec - 1)) emin).
  destruct (decide (ua = ub)) as [Heq|Hne].
  - rewrite Heq. apply Qcmult_le_compat_r; [|apply Qclt_le_weak, pow2_pos].
    apply Qc_of_le, round_half_even_mono, Qc_div_le; [apply pow2_pos|done].
  - assert (ua < ub ∧ ub = eb - (prec - 1) ∧ ea + 1 ≤ eb) as (Hlt & Hub & Hea) by lia.
    apply (Qcle_trans _ (pow2 eb)).
    + replace eb with (ua + (eb - ua)) by lia. apply scaled_le; [lia|].
      replace (ua + (eb - ua)) with eb by lia.
      apply Qclt_le_weak. eapply Qclt_le_trans; [done|]. by apply pow2_le.
    + replace eb with (ub + (eb - ub)) at 1 by lia. apply scaled_ge; [lia|].
      by replace (ub + (eb - ub)) with eb by lia.
Qed.

Lemma round_binary_pos (prec emin emax : Z) (q : Qc) :
  (0 < q)%Qc →
  round_binary prec emin emax q
  = if decide (pow2 emax ≤ rounded prec emin q)%Qc then Inf false
    else Fin (rounded prec emin q).
Proof.
  intros Hq. unfold round_binary, rounded.
  rewrite decide_False by (intros ->; by apply (Qclt_not_eq 0 0)).
  rewrite !(decide_False (P := (q < 0)%Qc)) by (by apply Qcle_not_lt, Qclt_le_weak).
  rewrite bool_decide_eq_false_2 by (by apply Qcle_not_lt, Qclt_le_weak).
  done.
Qed.

Lemma round_binary_0 (prec emin emax : Z) : round_binary prec emin emax 0 = Fin 0%Qc.
Proof. unfold round_binary. by rewrite decide_True. Qed.

(** ** Quotients in the unit interval *)

Lemma rounded_one : rounded 53 (-1074) 1 = 1%Qc.
Proof. apply Qc_is_canon. vm_compute. reflexivity. Qed.

Lemma Qc_of_0 : Qc_of 0 = 0%Qc.
Proof. by apply Qc_is_canon. Qed.

Lemma pow2_0 : pow2 0 = 1%Qc.
Proof. by apply Qc_is_canon. Qed.

Lemma rounded_nonneg (prec emin : Z) (a : Qc) :
  (0 < a)%Qc → (0 ≤ rounded prec emin a)%Qc.
Proof.
  intros Ha. unfold rounded.
  set (u := Z.max _ _). pose proof (pow2_pos u) as Hu.
  rewrite <-(Qcmult_0_l (pow2 u)).
  apply Qcmult_le_compat_r; [|by apply Qclt_le_weak].
  rewrite <-Qc_of_0. rewrite <-(round_half_even_of 0) at 1.
  apply Qc_of_le, round_half_even_mono.
  rewrite Qc_of_0. replace 0%Qc with (0 / pow2 u)%Qc at 1 by apply Qcmult_0_l.
  apply Qc_div_le; [done|by apply Qclt_le_weak].
Qed.

Lemma round64_unit (x : Qc) :
  (0 ≤ x)%Qc → (x ≤ 1)%Qc →
  ∃ q, round64 x = Fin q ∧ (0 ≤ q)%Qc ∧ (q ≤ 1)%Qc.
Proof.
  intros H0 H1. apply Qcle_lt_or_eq in H0 as [Hpos|<-].
  - exists (rounded 53 (-1074) x). unfold round64.
    rewrite round_binary_pos by done.
    assert (rounded 53 (-1074) x ≤ 1)%Qc as Hle.
    { rewrite <-rounded_one. by apply rounded_mono. }
    split_and!; [|by apply rounded_nonneg|done].
    rewrite decide_False; [done|]. apply Qclt_not_le.
    eapply Qcle_lt_trans; [done|]. rewrite <-pow2_0.
    rewrite Qc_lt_this, !this_pow2. by apply Qpow2_lt.
  - exists 0%Qc. by split_and!.
Qed.

Lemma round64_mono_unit (x y qx qy : Qc) :
  (0 ≤ x)%Qc → (x ≤ y)%Qc → (y ≤ 1)%Qc →
  round64 x = Fin qx → round64 y = Fin qy → (qx ≤ qy)%Qc.
Proof.
  intros H0 Hxy H1. apply Qcle_lt_or_eq in H0 as [Hpos|<-].
  - assert (0 < y)%Qc as Hy by (by eapply Qclt_le_trans).
    unfold round64. rewrite !round_binary_pos by done.
    repeat case_decide; try done. intros [= <-] [= <-]. by apply rounded_mono.
  - unfold round64 at 1. rewrite round_binary_0. intros [= <-] Hy.
    destruct (round64_unit y) as (q & Hq & Hq0 & _); [done..|]. congruence.
Qed.

(** The exact quotient of two integers. *)
Lemma quotient_unit (a b : Z) :
  0 ≤ a → a ≤ b → 0 < b → (0 ≤ Qc_of a / Qc_of b)%Qc ∧ (Qc_of a / Qc_of b ≤ 1)%Qc.
Proof.
  intros Ha Hab Hb. rewrite !Qc_le_this, this_div, !this_Qc_of.
  change (this 0%Qc) with 0%Q. change (this 1%Qc) with 1%Q.
  assert (0 < inject_Z b)%Q as Hb' by (change 0%Q with (inject_Z 0); by rewrite <-Zlt_Qlt).
  assert (0 <= inject_Z a)%Q as Ha' by (change 0%Q with (inject_Z 0); by rewrite <-Zle_Qle).
  assert (inject_Z a <= inject_Z b)%Q as Hab' by (by rewrite <-Zle_Qle).
  split.
  - apply Qle_shift_div_l; [done|]. lra.
  - apply Qle_shift_div_r; [done|]. lra.
Qed.

Lemma quotient_anti (a b b' : Z) :
  0 ≤ a → 0 < b → b ≤ b' → (Qc_of a / Qc_of b' ≤ Qc_of a / Qc_of b)%Qc.
Proof.
  intros Ha Hb Hbb. rewrite !Qc_le_this, !this_div, !this_Qc_of.
  assert (0 < inject_Z b)%Q as Hb' by (change 0%Q with (inject_Z 0); by rewrite <-Zlt_Qlt).
  assert (0 <= inject_Z a)%Q as Ha' by (change 0%Q with (inject_Z 0); by rewrite <-Zle_Qle).
  assert (inject_Z b <= inject_Z b')%Q as Hbb' by (by rewrite <-Zle_Qle).
  apply Qle_shift_div_l; [done|].
  assert (inject_Z a / inject_Z b' * inject_Z b
          == inject_Z a * inject_Z b / inject_Z b')%Q as -> by (field; lra).
  apply Qle_shift_div_r; [lra|]. nra.
Qed.

Lemma truediv_unit (a b : Z) :
  0 ≤ a → a ≤ b → 0 < b →
  ∃ q, truediv a b = Ok q ∧ round64 (Qc_of a / Qc_of b) = Fin q ∧
       (0 ≤ q)%Qc ∧ (q ≤ 1)%Qc.
Proof.
  intros Ha Hab Hb. destruct (quotient_unit a b Ha Hab Hb) as [H0 H1].
  destruct (round64_unit _ H0 H1) as (q & Hq & Hq0 & Hq1).
  exists q. unfold truediv. rewrite decide_False by lia. by rewrite Hq.
Qed.

Lemma quotient_zero (b : Z) : (Qc_of 0 / Qc_of b)%Qc = 0%Qc.
Proof. rewrite Qc_of_0. apply Qcmult_0_l. Qed.

(** C5: for two non-empty half-open integer intervals, reciprocal_overlap
    returns the quotient of max(0, min(end_a, end_b) - max(begin_a, begin_b))
    by max(end_a - begin_a, end_b - begin_b): the binary64 value Python's
    true division of these two integers gives, that is the exact quotient
    rounded to nearest.  The result lies between 0 and 1, and it is 0 when
    the intervals are disjoint. *)
Theorem reciprocal_overlap_formula (begin_a end_a begin_b end_b : Z) :
  begin_a < end_a → begin_b < end_b →
  let overlap := Z.min end_a end_b - Z.max begin_a begin_b in
  let longest := Z.max (end_a - begin_a) (end_b - begin_b) in
  ∃ q,
    reciprocal_overlap begin_a end_a begin_b end_b = Ok q ∧
    truediv (Z.max 0 overlap) longest = Ok q ∧
    round64 (Qc_of (Z.max 0 overlap) / Qc_of longest) = Fin q ∧
    (0 ≤ q)%Qc ∧ (q ≤ 1)%Qc ∧
    (end_a ≤ begin_b ∨ end_b ≤ begin_a → q = 0%Qc).
Proof.
  intros Ha Hb overlap longest. unfold reciprocal_overlap.
  fold overlap. case_decide as Hneg.
  - exists 0%Qc. rewrite Z.max_l by lia.
    unfold truediv. rewrite decide_False by lia.
    rewrite quotient_zero. unfold round64. rewrite round_binary_0.
    by split_and!.
  - rewrite Z.max_r by lia.
    set (len_a := end_a - begin_a) in *. set (len_b := end_b - begin_b) in *.
    assert (0 ≤ overlap ∧ overlap ≤ len_a ∧ overlap ≤ len_b ∧ 0 < len_a ∧ 0 < len_b)
      as (H0 & Hoa & Hob & Hla & Hlb) by lia.
    destruct (truediv_unit overlap len_a H0 Hoa Hla) as (x & Hx & Hrx & Hx0 & Hx1).
    destruct (truediv_unit overlap len_b H0 Hob Hlb) as (y & Hy & Hry & Hy0 & Hy1).
    destruct (quotient_unit overlap len_a H0 Hoa Hla) as [Hqa0 Hqa1].
    destruct (quotient_unit overlap len_b H0 Hob Hlb) as [Hqb0 Hqb1].
    rewrite Hx, Hy. cbn [bind].
    assert (overlap = 0 → x = 0%Qc ∧ y = 0%Qc) as Hzero.
    { intros Hz. rewrite Hz, quotient_zero in Hrx, Hry.
      unfold round64 in Hrx, Hry. rewrite round_binary_0 in Hrx, Hry.
      split; congruence. }
    destruct (decide (len_b ≤ len_a)) as [Hle|Hgt].
    + assert (x ≤ y)%Qc as Hxy.
      { apply (round64_mono_unit (Qc_of overlap / Qc_of len_a)
                 (Qc_of overlap / Qc_of len_b) x y Hqa0); [|done..].
        by apply quotient_anti. }
      exists x. unfold min2. rewrite decide_False by (by apply Qcle_not_lt).
      subst longest. rewrite Z.max_l by lia. split_and!; try done.
      intros Hdis. apply Hzero. lia.
    + assert (y ≤ x)%Qc as Hyx.
      { apply (round64_mono_unit (Qc_of overlap / Qc_of len_b)
                 (Qc_of overlap / Qc_of len_a) y x Hqb0); [|done..].
        apply quotient_anti; [done..|lia]. }
      exists y. subst longest. rewrite Z.max_r by lia. split_and!; try done.
      * unfold min2. case_decide as Hlt; [done|].
        f_equal. apply Qcle_antisym; [|done]. by apply Qcnot_lt_le.
      * intros Hdis. apply Hzero. lia.
Qed.

Lemma reciprocal_overlap_formula_witness :
  (∃ q, reciprocal_overlap 0 10 5 25 = Ok q ∧
        truediv (Z.max 0 (Z.min 10 25 - Z.max 0 5)) (Z.max (10 - 0) (25 - 5)) = Ok q ∧
        round64 (Qc_of (Z.max 0 (Z.min 10 25 - Z.max 0 5))
                 / Qc_of (Z.max (10 - 0) (25 - 5))) = Fin q ∧
        (0 ≤ q)%Qc ∧ (q ≤ 1)%Qc ∧ (10 ≤ 5 ∨ 25 ≤ 0 → q = 0%Qc)) ∧
  (∃ q, reciprocal_overlap 0 10 5 25 = Ok q ∧ this q = (1 # 4)%Q).
Proof.
  split.
  - apply (reciprocal_overlap_formula 0 10 5 25); lia.
  - eexists. split; [vm_compute; reflexivity|reflexivity].
Defined.

(** ** Steps that cannot fail on well-typed tables *)

Lemma map_each_total {X Y : Type} (f : X → result Y) (g : X → Y) (xs : list X) :
  (∀ x, x ∈ xs → f x = Ok (g x)) → map_each f xs = Ok (g <$> xs).
Proof.
  induction xs as [|x xs IH]; intros H; simpl; [done|].
  rewrite (H x) by left. simpl. rewrite IH; [done|].
  intros y Hy. apply H. by right.
Qed.

Lemma set_col_rows_total (c : string) (f : row → result cell) (g : row → cell)
    (b : list (cell * row)) :
  (∀ lr, lr ∈ b → f lr.2 = Ok (g lr.2)) →
  set_col_rows c f b = Ok ((λ lr, (lr.1, <[c := g lr.2]> lr.2)) <$> b).
Proof.
  induction b as [|lr b IH]; intros H; simpl; [done|].
  rewrite (H lr) by left. simpl. rewrite IH; [done|].
  intros y Hy. apply H. by right.
Qed.

Lemma set_col_checked_total (c : string) (f : row → result cell) (g : row → cell)
    (df : frame) :
  (∀ r, r ∈ rows df → f r = Ok (g r)) →
  set_col_checked c f df = Ok (set_col c g df).
Proof.
  intros H. unfold set_col_checked, set_col.
  rewrite (set_col_rows_total c f g); [done|].
  intros lr Hlr. apply H. unfold rows. apply list_elem_of_fmap. by exists lr.
Qed.

Lemma one_kind_total (k : kind) (cells : list cell) :
  Forall (of_kind k) cells → one_kind cells = true.
Proof.
  intros Hall. unfold one_kind.
  assert (Forall (λ k', k' = k) (omap kind_of cells)) as Hk.
  { apply Forall_forall. intros k' (a & Ha & Hka)%list_elem_of_omap.
    rewrite Forall_forall in Hall. destruct (Hall a Ha) as [?|?]; congruence. }
  destruct (omap kind_of cells) as [|k0 ks]; [done|].
  apply Forall_cons in Hk as [-> Hk]. apply forallb_forall.
  intros k' Hin%list_elem_of_In. apply bool_decide_eq_true.
  rewrite Forall_forall in Hk. by apply Hk.
Qed.

Lemma check_sortable_total (cs : list string) (df : frame) :
  (∀ c, c ∈ cs → c ∈ columns df ∧
                 ∃ k, ∀ r, r ∈ rows df → of_kind k (at_col r c)) →
  check_sortable cs df = Ok tt.
Proof.
  induction cs as [|c cs IH]; intros H; simpl; [done|].
  destruct (H c) as [Hc [k Hk]]; [left|].
  unfold col. rewrite (proj2 (has_col_true df c) Hc). simpl.
  rewrite (one_kind_total k).
  - apply IH. intros c' Hc'. apply H. by right.
  - apply Forall_forall. intros a (r & -> & Hr)%list_elem_of_fmap. by apply Hk.
Qed.

Lemma sort_values_total_ok (by_cols : list (string * bool)) (df : frame) :
  (∀ c, c ∈ by_cols.*1 → c ∈ columns df ∧
                 ∃ k, ∀ r, r ∈ rows df → of_kind k (at_col r c)) →
  ∃ df', sort_values by_cols df = Ok df' ∧ columns df' = columns df ∧
         body df' ≡ₚ body df.
Proof.
  intros H. unfold sort_values. rewrite (check_sortable_total _ _ H). simpl.
  eexists. split_and!; [done..|]. apply stable_sort_perm.
Qed.

Lemma ascending_fst (cs : list string) : (ascending cs).*1 = cs.
Proof.
  unfold ascending. rewrite <-list_fmap_compose. simpl. apply list_fmap_id.
Qed.

(** ** Unique keys *)

Lemma keep_first_id {A K : Type} `{EqDecision K} (key : A → K) (seen : list K)
    (l : list A) :
  NoDup (key <$> l) → (∀ x, x ∈ l → key x ∉ seen) → keep_first key seen l = l.
Proof.
  revert seen. induction l as [|a l IH]; intros seen Hnd Hseen; simpl; [done|].
  rewrite fmap_cons in Hnd. apply NoDup_cons in Hnd as [Ha Hnd].
  rewrite decide_False by (apply Hseen; left). f_equal.
  apply IH; [done|]. intros x Hx. apply not_elem_of_cons. split.
  - intros Heq. apply Ha. rewrite <-Heq. apply list_elem_of_fmap. by exists x.
  - apply Hseen. by right.
Qed.

Lemma filter_unique {A K : Type} `{EqDecision K} (key : A → K) (l : list A) (x : A) :
  NoDup (key <$> l) → x ∈ l → filter (λ y, key y = key x) l = [x].
Proof.
  induction l as [|a l IH]; intros Hnd Hx; [by apply not_elem_of_nil in Hx|].
  rewrite fmap_cons in Hnd. apply NoDup_cons in Hnd as [Ha Hnd].
  apply elem_of_cons in Hx as [->|Hx].
  - rewrite filter_cons_True by done. f_equal.
    apply filter_nil_iff, Forall_forall. intros y Hy Heq. apply Ha. rewrite <-Heq.
    apply list_elem_of_fmap. by exists y.
  - rewrite filter_cons_False; [by apply IH|].
    intros Heq. apply Ha. rewrite Heq. apply list_elem_of_fmap. by exists x.
Qed.

Lemma remove_dups_NoDup {A : Type} `{EqDecision A} (l : list A) :
  NoDup l → remove_dups l = l.
Proof.
  induction 1 as [|x l Hx Hnd IH]; simpl; [done|].
  destruct (decide_rel elem_of x l); [done|]. by rewrite IH.
Qed.

Lemma filter_fmap {A B : Type} (f : A → B) (P : B → Prop) `{∀ x, Decision (P x)}
    (l : list A) :
  filter P (f <$> l) = f <$> filter (λ x, P (f x)) l.
Proof.
  induction l as [|a l IH]; [done|].
  rewrite fmap_cons, !filter_cons. case_decide; [rewrite fmap_cons|]; by rewrite IH.
Qed.

Lemma filter_all_nil {A : Type} (P : A → Prop) `{∀ x, Decision (P x)} (l : list A) :
  (∀ x, x ∈ l → ¬ P x) → filter P l = [].
Proof. intros Hl. by apply filter_nil_iff, Forall_forall. Qed.

Lemma rows_read_csv_chrom (bed : frame) (chrom : option string)
    (usecols : string → bool) :
  usecols "#CHROM" = true → "#CHROM" ∈ columns bed →
  let kept := filter (λ c, usecols c = true) (columns bed) in
  columns (read_csv_chrom bed chrom usecols) = kept ∧
  rows (read_csv_chrom bed chrom usecols) = restrict kept <$> selected bed chrom.
Proof.
  intros Huse Hin kept. unfold read_csv_chrom. fold kept.
  assert ("#CHROM" ∈ kept) as Hk by (by apply list_elem_of_filter).
  destruct chrom as [c|]; simpl.
  - split; [done|]. unfold rows. simpl. rewrite filter_fmap, <-!list_fmap_compose.
    rewrite filter_fmap. simpl. rewrite <-list_fmap_compose.
    erewrite (list_filter_iff _ (λ x : cell * row, at_col x.2 "#CHROM" = CStr c)).
    + by apply list_fmap_ext.
    + intros [l r]. simpl. rewrite bool_decide_spec. by rewrite at_col_restrict.
  - split; [done|]. unfold rows. simpl. by rewrite <-!list_fmap_compose.
Qed.

Lemma cell_lt_int_nonneg (z : Z) : 0 ≤ z → cell_lt_int (CInt z) 0 = Ok false.
Proof.
  intros Hz. simpl. f_equal. apply bool_decide_eq_false.
  apply Qcle_not_lt. unfold Qc_of, Qcle. simpl. by rewrite <-Zle_Qle.
Qed.

Lemma existsb_false {A : Type} (f : A → bool) (l : list A) :
  (∀ x, x ∈ l → f x = false) → existsb f l = false.
Proof.
  induction l as [|a l IH]; intros H; simpl; [done|].
  rewrite (H a) by left. simpl. apply IH. intros x Hx. apply H. by right.
Qed.

Ltac in_list := apply list_elem_of_In; simpl; tauto.

Lemma valid_record_kinds (rs : list row) (c : string) :
  Forall valid_record rs → c ∈ ["#CHROM"; "POS"; "SVLEN"; "ID"] →
  ∃ k, ∀ r, r ∈ rs → of_kind k (at_col r c).
Proof.
  intros Hv Hc. rewrite Forall_forall in Hv.
  repeat (apply elem_of_cons in Hc as [->|Hc]); [..|by apply not_elem_of_nil in Hc].
  - exists KStr. intros r Hr. destruct (Hv r Hr) as ([s ->] & _). by right.
  - exists KNum. intros r Hr. destruct (Hv r Hr) as (_ & [z ->] & _). by right.
  - exists KNum. intros r Hr. destruct (Hv r Hr) as (_ & _ & (z & -> & _) & _). by right.
  - exists KStr. intros r Hr. destruct (Hv r Hr) as (_ & _ & _ & [s ->]). by right.
Qed.

(** Reading a valid table succeeds and keeps the IDs. *)
Lemma read_variant_table_valid (bed : frame) (name : string)
    (chrom : option string) (cl : list string) :
  (∀ c, c ∈ head_cols → c ∈ columns bed) →
  (∀ c, c ∈ cl → c ∈ columns bed) →
  Forall valid_record (selected bed chrom) →
  NoDup ((λ r, at_col r "ID") <$> selected bed chrom) →
  ∃ df, read_variant_table bed name chrom None cl = Ok df ∧
        (∀ c, c ∈ head_cols → c ∈ columns df) ∧
        (∀ c, c ∈ cl → c ∈ columns df) ∧
        (λ r, at_col r "ID") <$> rows df
        ≡ₚ (λ r, at_col r "ID") <$> selected bed chrom.
Proof.
  intros Hhead Hcl Hvalid Hnodup. unfold read_variant_table.
  set (cl' := head_cols ++ filter (λ c, c ∉ head_cols) cl).
  set (usecols := λ c : string, bool_decide (c ∈ cl')).
  assert (∀ c, c ∈ head_cols → c ∈ cl') as Hhead'.
  { intros c Hc. apply elem_of_app. by left. }
  assert (∀ c, c ∈ cl → c ∈ cl') as Hcl'.
  { intros c Hc. apply elem_of_app. destruct (decide (c ∈ head_cols)); [by left|].
    right. by apply list_elem_of_filter. }
  assert (∀ c, c ∈ cl' → c ∈ columns bed) as Hbed.
  { intros c [Hc|[_ Hc]%list_elem_of_filter]%elem_of_app; auto. }
  assert (∀ c, c ∈ ["#CHROM"; "POS"; "SVLEN"; "ID"] → c ∈ head_cols) as Hkey.
  { intros c Hc%list_elem_of_In. simpl in Hc. unfold head_cols; in_list. }
  destruct (rows_read_csv_chrom bed chrom usecols) as [Hcols0 Hrows0].
  { apply bool_decide_eq_true, Hhead'. unfold head_cols; in_list. }
  { apply Hhead. unfold head_cols; in_list. }
  set (df0 := read_csv_chrom bed chrom usecols) in *.
  set (kept := filter (λ c, usecols c = true) (columns bed)) in *.
  assert (∀ c, c ∈ cl' → c ∈ kept) as Hkept.
  { intros c Hc. apply list_elem_of_filter. split; [by apply bool_decide_eq_true|auto]. }
  assert (∃ cl1, read_seq_column df0 name None cl' = Ok (df0, cl1) ∧
                 (∀ c, c ∈ cl1 → c ∈ columns df0) ∧ (∀ c, c ∈ cl' → c ∈ cl1))
    as (cl1 & -> & Hcl1 & Hsub).
  { unfold read_seq_column. destruct (has_col df0 "SEQ") eqn:Hseq.
    - exists (with_seq cl'). split; [done|]. unfold with_seq.
      apply has_col_true in Hseq. case_bool_decide.
      + split; [|done]. intros c Hc. rewrite Hcols0. auto.
      + split.
        * intros c [Hc|Hc]%elem_of_app; [rewrite Hcols0; auto|].
          apply list_elem_of_singleton in Hc as ->. done.
        * intros c Hc. apply elem_of_app. by left.
    - exists cl'. split; [done|]. split; [|done]. intros c Hc. rewrite Hcols0. auto. }
  cbn [bind].
  assert (default_columns df0 = Ok df0) as ->.
  { unfold default_columns.
    rewrite (proj2 (has_col_true df0 "SVLEN"))
      by (rewrite Hcols0; apply Hkept, Hhead'; unfold head_cols; in_list).
    cbn [bind].
    by rewrite (proj2 (has_col_true df0 "SVTYPE"))
      by (rewrite Hcols0; apply Hkept, Hhead'; unfold head_cols; in_list). }
  cbn [bind].
  set (df2 := Frame cl1 ((λ lr : cell * row, (lr.1, restrict cl1 lr.2)) <$> body df0)).
  assert (order_variant_columns df0 (Some cl1) None false true = Ok df2) as ->.
  { unfold order_variant_columns, check_present. simpl.
    rewrite (filter_all_nil (λ c, c ∉ columns df0) cl1) by (intros c Hc Hn; auto).
    simpl. rewrite filter_nil.
    rewrite bool_decide_eq_false_2.
    2:{ intros [Hlen _]. apply length_zero_iff_nil in Hlen.
        assert ("ID" ∈ cl1) as Hin by (apply Hsub, Hhead'; unfold head_cols; in_list).
        rewrite Hlen in Hin. by apply not_elem_of_nil in Hin. }
    unfold select_cols. rewrite !app_nil_r.
    by rewrite (filter_all_nil (λ c, c ∉ columns df0) cl1) by (intros c Hc Hn; auto). }
  cbn [bind].
  assert (rows df2 = (λ r, restrict cl1 (restrict kept r)) <$> selected bed chrom) as Hrows2.
  { unfold rows, df2. simpl. rewrite <-list_fmap_compose.
    transitivity (restrict cl1 <$> rows df0).
    { unfold rows. rewrite <-list_fmap_compose. by apply list_fmap_ext. }
    rewrite Hrows0, <-list_fmap_compose. by apply list_fmap_ext. }
  assert (∀ c, c ∈ cl' → (λ r, at_col r c) <$> rows df2
                         = (λ r, at_col r c) <$> selected bed chrom) as Hcol2.
  { intros c Hc. rewrite Hrows2, <-list_fmap_compose. apply list_fmap_ext.
    intros i r _. simpl. rewrite !at_col_restrict; auto. }
  assert (∀ c, c ∈ ["#CHROM"; "POS"; "SVLEN"; "ID"] →
               c ∈ columns df2 ∧ ∃ k, ∀ r, r ∈ rows df2 → of_kind k (at_col r c)) as Hkinds.
  { intros c Hc. split; [apply Hsub, Hhead', Hkey, Hc|].
    destruct (valid_record_kinds _ c Hvalid Hc) as [k Hk]. exists k.
    intros r Hr.
    assert (at_col r c ∈ (λ r, at_col r c) <$> rows df2) as Hin.
    { apply list_elem_of_fmap. by exists r. }
    rewrite Hcol2 in Hin by apply Hhead', Hkey, Hc.
    apply list_elem_of_fmap in Hin as (r0 & -> & Hr0). by apply Hk. }
  unfold col at 1.
  rewrite (proj2 (has_col_true df2 "SVLEN")) by (apply Hkinds; in_list).
  cbn [bind].
  rewrite (map_each_total _ (λ _, false)).
  2:{ intros x Hx. rewrite Hcol2 in Hx by (apply Hhead'; unfold head_cols; in_list).
      apply list_elem_of_fmap in Hx as (r & -> & Hr).
      rewrite Forall_forall in Hvalid.
      destruct (Hvalid r Hr) as (_ & _ & (z & -> & Hz) & _).
      by apply cell_lt_int_nonneg. }
  cbn [bind].
  rewrite existsb_false by (by intros x (y & -> & _)%list_elem_of_fmap).
  destruct (sort_values_total_ok (ascending ["#CHROM"; "POS"; "SVLEN"; "ID"]) df2)
    as (df3 & -> & Hcols3 & Hbody3).
  { rewrite ascending_fst. apply Hkinds. }
  cbn [bind].
  assert ((λ r, at_col r "ID") <$> rows df3
          ≡ₚ (λ r, at_col r "ID") <$> selected bed chrom) as Hids.
  { rewrite <-(Hcol2 "ID") by (apply Hhead'; unfold head_cols; in_list).
    unfold rows. by rewrite Hbody3. }
  unfold col. 
  assert (has_col df3 "ID" = true) as Hid3.
  { apply has_col_true. rewrite Hcols3. apply Hkinds. in_list. }
  rewrite Hid3. cbn [bind].
  rewrite (proj2 (duplicates_nil _)) by (by rewrite Hids).
  unfold set_index. rewrite Hid3. eexists. split; [done|]. simpl.
  split_and!.
  - intros c Hc. rewrite Hcols3. apply Hsub, Hhead', Hc.
  - intros c Hc. rewrite Hcols3. apply Hsub, Hcl', Hc.
  - rewrite <-Hids. unfold rows. simpl. by rewrite <-!list_fmap_compose.
Qed.

Ltac cells :=
  repeat first [ rewrite at_col_insert
               | rewrite at_col_insert_ne by done
               | rewrite at_col_delete_ne by done ].

Lemma update_col_total (c : string) (f : cell → result cell) (g : row → cell)
    (df : frame) :
  c ∈ columns df → (∀ r, r ∈ rows df → f (at_col r c) = Ok (g r)) →
  update_col c f df = Ok (set_col c g df).
Proof.
  intros Hc Hf. unfold update_col, col.
  rewrite (proj2 (has_col_true df c) Hc). cbn [bind].
  by apply set_col_checked_total.
Qed.

Lemma elem_of_rows_set_col (c : string) (f : row → cell) (df : frame) (r : row) :
  r ∈ rows (set_col c f df) ↔ ∃ r0, r0 ∈ rows df ∧ r = <[c := f r0]> r0.
Proof.
  rewrite rows_set_col, list_elem_of_fmap. split; intros (r0 & ? & ?); eauto.
Qed.

Lemma elem_of_columns_set_col (c x : string) (f : row → cell) (df : frame) :
  x ∈ columns df → x ∈ columns (set_col c f df).
Proof. intros. rewrite columns_set_col. apply elem_of_add_col. by left. Qed.

Lemma self_support_rows (name : string) (df : frame) (r : row) :
  (∀ r0, r0 ∈ rows df → ∃ s, at_col r0 "ID" = CStr s) →
  r ∈ rows (self_support name df) → self_supported name r.
Proof.
  intros Hid. unfold self_support.
  repeat (rewrite elem_of_rows_set_col; intros (? & ? & ->); revert H).
  intros Hr. destruct (Hid _ Hr) as [s Hs].
  unfold self_supported. cells. rewrite Hs. split_and!; eauto.
Qed.

Lemma self_support_ids (name : string) (df : frame) :
  (λ r, at_col r "ID") <$> rows (self_support name df)
  = (λ r, at_col r "ID") <$> rows df.
Proof.
  unfold self_support. rewrite !rows_set_col, <-!list_fmap_compose.
  apply list_fmap_ext. intros i r _. simpl. by cells.
Qed.

Lemma self_support_columns (name : string) (df : frame) (c : string) :
  c ∈ columns df ∨ (c ∈ support_columns ∧ c ≠ "ID") →
  c ∈ columns (self_support name df).
Proof.
  intros Hc. unfold self_support. rewrite !columns_set_col.
  rewrite !elem_of_add_col. destruct Hc as [Hc|[Hc Hid]]; [tauto|].
  apply list_elem_of_In in Hc. simpl in Hc.
  repeat (destruct Hc as [<-|Hc]; [tauto|]). done.
Qed.

Lemma categorical_single (name : string) : categorical [name] (CStr name) = CCat 0 name.
Proof. unfold categorical. simpl. by rewrite decide_True. Qed.

Ltac origin H :=
  repeat (let r0 := fresh "r" in apply elem_of_rows_set_col in H as (r0 & H & ->)).

Ltac has_column := repeat apply elem_of_columns_set_col; auto.

Lemma normalize_support_total (name : string) (df : frame) :
  (∀ c, c ∈ support_columns → c ∈ columns df) →
  (∀ r, r ∈ rows df → self_supported name r) →
  ∃ df', normalize_support [name] df = Ok df' ∧
         (∀ c, c ∈ columns df → c ∈ columns df') ∧
         (∀ r, r ∈ rows df' → normalized name r) ∧
         (λ r, at_col r "ID") <$> rows df' = (λ r, at_col r "ID") <$> rows df.
Proof.
  intros Hcols Hrows. unfold normalize_support.
  assert (∀ c, c ∈ support_columns → c ∈ columns df) as Hc by done.
  rewrite (update_col_total "SAMPLE" _ (λ _, CCat 0 name)).
  2:{ apply Hc. unfold support_columns. in_list. }
  2:{ intros r Hr. destruct (Hrows r Hr) as (_ & _ & -> & _).
      by rewrite categorical_single. }
  cbn [bind].
  rewrite (update_col_total "SUPPORT_SAMPLE" _ (λ _, CCat 0 name)).
  2:{ has_column. apply Hc. unfold support_columns. in_list. }
  2:{ intros r Hr. origin Hr. cells.
      destruct (Hrows _ Hr) as (_ & _ & _ & -> & _). by rewrite categorical_single. }
  cbn [bind].
  rewrite (update_col_total "SUPPORT_OFFSET" _ (λ _, CInt 0)).
  2:{ has_column. apply Hc. unfold support_columns. in_list. }
  2:{ intros r Hr. origin Hr. cells.
      by destruct (Hrows _ Hr) as (_ & _ & _ & _ & -> & _). }
  cbn [bind].
  rewrite (update_col_total "SUPPORT_RO" _ (λ _, CInt 1)).
  2:{ has_column. apply Hc. unfold support_columns. in_list. }
  2:{ intros r Hr. origin Hr. cells.
      by destruct (Hrows _ Hr) as (_ & _ & _ & _ & _ & -> & _). }
  cbn [bind].
  rewrite (update_col_total "SUPPORT_SZRO" _ (λ _, CInt 1)).
  2:{ has_column. apply Hc. unfold support_columns. in_list. }
  2:{ intros r Hr. origin Hr. cells.
      by destruct (Hrows _ Hr) as (_ & _ & _ & _ & _ & _ & -> & _). }
  cbn [bind].
  rewrite (update_col_total "SUPPORT_OFFSZ" _ (λ _, CInt 1)).
  2:{ has_column. apply Hc. unfold support_columns. in_list. }
  2:{ intros r Hr. origin Hr. cells.
      by destruct (Hrows _ Hr) as (_ & _ & _ & _ & _ & _ & _ & -> & _). }
  cbn [bind].
  rewrite (update_col_total "SUPPORT_MATCH" _ (λ _, CInt 1)).
  2:{ has_column. apply Hc. unfold support_columns. in_list. }
  2:{ intros r Hr. origin Hr. cells.
      by destruct (Hrows _ Hr) as (_ & _ & _ & _ & _ & _ & _ & _ & ->). }
  cbn [bind]. eexists. split; [done|]. split_and!.
  - intros c Hin. has_column.
  - intros r Hr. origin Hr. destruct (Hrows _ Hr) as ([s Hs] & Hsid & _).
    unfold normalized. cells. rewrite Hsid, Hs. split_and!; eauto.
  - rewrite !rows_set_col, <-!list_fmap_compose.
    apply list_fmap_ext. intros i r _. simpl. by cells.
Qed.

Lemma rows_perm (df df' : frame) : body df' ≡ₚ body df → rows df' ≡ₚ rows df.
Proof. intros H. unfold rows. by rewrite H. Qed.

Lemma normalized_support_ids (name : string) (df : frame) :
  (∀ r, r ∈ rows df → normalized name r) →
  (λ r, at_col r "SUPPORT_ID") <$> rows df = (λ r, at_col r "ID") <$> rows df.
Proof.
  intros H. apply list_fmap_ext. intros i r Hr%list_elem_of_lookup_2.
  by destruct (H r Hr) as (_ & -> & _).
Qed.

Lemma normalized_kinds (name : string) (rs : list row) (c : string) :
  (∀ r, r ∈ rs → normalized name r) →
  c ∈ ["SUPPORT_ID"; "SAMPLE"; "SUPPORT_SAMPLE"; "SUPPORT_OFFSET"; "SUPPORT_RO";
       "SUPPORT_SZRO"; "SUPPORT_OFFSZ"; "SUPPORT_MATCH"] →
  ∃ k, ∀ r, r ∈ rs → kind_of (at_col r c) = Some k.
Proof.
  intros H Hc. apply list_elem_of_In in Hc. simpl in Hc.
  destruct Hc as [<-|[<-|[<-|[<-|[<-|[<-|[<-|[<-|[]]]]]]]]].
  - exists KStr. intros r Hr. destruct (H r Hr) as ([s Hs] & -> & _). by rewrite Hs.
  - exists KCat. intros r Hr. by destruct (H r Hr) as (_ & _ & -> & _).
  - exists KCat. intros r Hr. by destruct (H r Hr) as (_ & _ & _ & -> & _).
  - exists KNum. intros r Hr. by destruct (H r Hr) as (_ & _ & _ & _ & -> & _).
  - exists KNum. intros r Hr. by destruct (H r Hr) as (_ & _ & _ & _ & _ & -> & _).
  - exists KNum. intros r Hr. by destruct (H r Hr) as (_ & _ & _ & _ & _ & _ & -> & _).
  - exists KNum. intros r Hr. by destruct (H r Hr) as (_ & _ & _ & _ & _ & _ & _ & -> & _).
  - exists KNum. intros r Hr. by destruct (H r Hr) as (_ & _ & _ & _ & _ & _ & _ & _ & ->).
Qed.

Lemma sort_normalized (name : string) (by_cols : list (string * bool)) (df : frame) :
  (∀ c, c ∈ support_columns → c ∈ columns df) →
  (∀ r, r ∈ rows df → normalized name r) →
  (∀ c, c ∈ by_cols.*1 →
        c ∈ ["SUPPORT_ID"; "SAMPLE"; "SUPPORT_SAMPLE"; "SUPPORT_OFFSET"; "SUPPORT_RO";
             "SUPPORT_SZRO"; "SUPPORT_OFFSZ"; "SUPPORT_MATCH"]) →
  ∃ df', sort_values by_cols df = Ok df' ∧ columns df' = columns df ∧
         body df' ≡ₚ body df.
Proof.
  intros Hcols Hrows Hby. apply sort_values_total_ok. intros c Hc%Hby. split.
  - apply Hcols. apply list_elem_of_In in Hc. simpl in Hc. unfold support_columns.
    apply list_elem_of_In. simpl. tauto.
  - destruct (normalized_kinds name (rows df) c Hrows Hc) as [k Hk].
    exists k. intros r Hr. right. by apply Hk.
Qed.

Lemma best_support_single (name : string) (df : frame) :
  (∀ c, c ∈ support_columns → c ∈ columns df) →
  (∀ r, r ∈ rows df → normalized name r) →
  NoDup ((λ r, at_col r "ID") <$> rows df) →
  ∃ df', best_support df = Ok df' ∧ columns df' = columns df ∧ body df' ≡ₚ body df.
Proof.
  intros Hcols Hrows Hnd. unfold best_support.
  destruct (sort_normalized name support_order df Hcols Hrows) as (df1 & -> & Hc1 & Hb1).
  { intros c Hc. apply list_elem_of_In in Hc. simpl in Hc. in_list. }
  cbn [bind]. unfold drop_duplicates.
  rewrite filter_all_nil.
  2:{ intros c Hc Hn. apply Hn. rewrite Hc1. apply Hcols.
      apply list_elem_of_In in Hc. simpl in Hc. unfold support_columns. in_list. }
  eexists. split; [done|]. split; [done|]. simpl.
  rewrite keep_first_id; [done| |intros; apply not_elem_of_nil].
  apply (NoDup_fmap_1 (λ k : list cell, default nan (head k))).
  rewrite <-list_fmap_compose.
  change (NoDup (((λ r, at_col r "SUPPORT_ID") ∘ snd) <$> body df1)).
  rewrite list_fmap_compose. fold (rows df1).
  rewrite (normalized_support_ids name).
  - by rewrite (rows_perm _ _ Hb1).
  - intros r Hr. apply Hrows. by rewrite <-(rows_perm _ _ Hb1).
Qed.

Lemma truediv_one : ∃ af, truediv 1 1 = Ok af ∧ format_f 4 (Fin af) = "1.0000".
Proof. eexists. split; [vm_compute; reflexivity|]. vm_compute. reflexivity. Qed.

Lemma format_cell_one : format_cell 2 (CInt 1) = Ok "1.00".
Proof. vm_compute. reflexivity. Qed.

Lemma format_cell_zero : format_cell 0 (CInt 0) = Ok "0".
Proof. vm_compute. reflexivity. Qed.

Lemma summarize_single (name : string) (cols : list string) (lr : cell * row) :
  (∀ c, c ∈ support_columns → c ∈ cols) → normalized name lr.2 →
  summarize 1 (Frame cols [lr]) = Ok (summary name (at_col lr.2 "ID")).
Proof.
  intros Hcols ([s Hs] & Hsid & Hsample & Hsup & Hoff & Hro & Hszro & Hoffsz & Hmatch).
  assert (∀ c, c ∈ support_columns → has_col (Frame cols [lr]) c = true) as Hhas.
  { intros c Hc. apply has_col_true. simpl. auto. }
  unfold summarize, join_col, col.
  rewrite !Hhas by (unfold support_columns; in_list).
  change (rows (Frame cols [lr])) with [lr.2].
  change (nrows (Frame cols [lr])) with 1%nat.
  change (Z.of_nat 1) with 1.
  destruct truediv_one as (af & -> & Hfmt).
  cbn [bind fmap list_fmap map_each].
  rewrite Hs, Hsample, Hsup, Hoff, Hro, Hszro, Hoffsz, Hmatch.
  rewrite format_cell_one, format_cell_zero, Hfmt.
  reflexivity.
Qed.

Lemma apply_groups_total (f : frame → result row) (g : cell → row) (df : frame)
    (key : string) (ks : list cell) :
  (∀ k, k ∈ ks → f (filter_rows (λ r, bool_decide (at_col r key = k)) df) = Ok (g k)) →
  apply_groups f df key ks = Ok ((λ k, (k, g k)) <$> ks).
Proof.
  induction ks as [|k ks IH]; intros H; simpl; [done|].
  rewrite (H k) by left. cbn [bind]. rewrite IH; [done|].
  intros k' Hk'. apply H. by right.
Qed.

Lemma filter_all_id {A : Type} (P : A → Prop) `{∀ x, Decision (P x)} (l : list A) :
  (∀ x, x ∈ l → P x) → filter P l = l.
Proof.
  induction l as [|a l IH]; intros H'; [done|].
  rewrite filter_cons_True by (apply H'; left). f_equal. apply IH.
  intros x Hx. apply H'. by right.
Qed.

Lemma groupby_single (name : string) (df : frame) :
  (∀ c, c ∈ support_columns → c ∈ columns df) →
  (∀ r, r ∈ rows df → normalized name r) →
  NoDup ((λ r, at_col r "ID") <$> rows df) →
  ∃ ks, ks ≡ₚ (λ r, at_col r "ID") <$> rows df ∧
        groupby_apply "SUPPORT_ID" summary_columns (summarize 1) df
        = Ok (Frame summary_columns ((λ k, (k, summary name k)) <$> ks)).
Proof.
  intros Hcols Hrows Hnd. unfold groupby_apply, col.
  rewrite (proj2 (has_col_true df "SUPPORT_ID"))
    by (apply Hcols; unfold support_columns; in_list).
  cbn [bind]. rewrite (normalized_support_ids name df Hrows).
  set (ids := (λ r, at_col r "ID") <$> rows df) in *.
  assert (∀ k, k ∈ ids → ∃ lr, lr ∈ body df ∧ at_col lr.2 "ID" = k ∧ ∃ s, k = CStr s)
    as Hids.
  { intros k (r & -> & Hr)%list_elem_of_fmap.
    destruct (Hrows r Hr) as ([s Hs] & _).
    apply list_elem_of_fmap in Hr as (lr & -> & Hlr). exists lr. eauto. }
  rewrite (filter_all_id _ ids).
  2:{ intros k (lr & _ & _ & s & ->)%Hids. done. }
  rewrite (one_kind_total KStr).
  2:{ apply Forall_forall. intros k (lr & _ & _ & s & ->)%Hids. by right. }
  rewrite (remove_dups_NoDup ids Hnd).
  exists (stable_sort cell_lt ids). split; [apply stable_sort_perm|].
  rewrite (apply_groups_total _ (summary name)); [done|].
  intros k Hk. rewrite (stable_sort_perm cell_lt ids) in Hk.
  destruct (Hids k Hk) as (lr & Hlr & <- & _).
  assert (normalized name lr.2) as Hn.
  { apply Hrows. unfold rows. apply list_elem_of_fmap. by exists lr. }
  unfold filter_rows.
  rewrite (list_filter_iff _ (λ y : cell * row,
             at_col y.2 "SUPPORT_ID" = at_col lr.2 "SUPPORT_ID")).
  2:{ intros y. rewrite bool_decide_spec.
      by destruct Hn as (_ & -> & _). }
  rewrite (filter_unique (λ y : cell * row, at_col y.2 "SUPPORT_ID")); [|..|done].
  - by apply summarize_single.
  - change (NoDup (((λ r, at_col r "SUPPORT_ID") ∘ snd) <$> body df)).
    rewrite list_fmap_compose. fold (rows df).
    by rewrite (normalized_support_ids name df Hrows).
Qed.

Lemma rows_reset_index_keep (name : string) (df : frame) :
  rows (reset_index_keep name df) = (λ lr, <[name := lr.1]> lr.2) <$> body df.
Proof. unfold reset_index_keep, rows. simpl. apply rows_range_index. Qed.

(** The finalizer on a merged set that a single sample built: one summary
    row for each variant. *)
Lemma finalize_single (name : string) (df : frame) :
  (∀ c, c ∈ support_columns → c ∈ columns df) →
  (∀ r, r ∈ rows df → self_supported name r) →
  NoDup ((λ r, at_col r "ID") <$> rows df) →
  ∃ sup ks, finalize [name] df = Ok sup ∧
            ks ≡ₚ (λ r, at_col r "ID") <$> rows df ∧
            (∀ c, c ∈ "SUPPORT_ID" :: summary_columns → c ∈ columns sup) ∧
            rows sup = support_row name <$> ks.
Proof.
  intros Hcols Hrows Hnd. unfold finalize. case_bool_decide as Hn.
  - destruct (normalize_support_total name df Hcols Hrows)
      as (df1 & -> & Hc1 & Hr1 & Hid1).
    cbn [bind].
    assert (∀ c, c ∈ support_columns → c ∈ columns df1) as Hcols1 by auto.
    destruct (best_support_single name df1 Hcols1 Hr1) as (df2 & -> & Hc2 & Hb2).
    { by rewrite Hid1. }
    cbn [bind].
    assert (∀ c, c ∈ support_columns → c ∈ columns df2) as Hcols2.
    { intros c Hc. rewrite Hc2. auto. }
    assert (∀ r, r ∈ rows df2 → normalized name r) as Hr2.
    { intros r Hr. apply Hr1. by rewrite <-(rows_perm _ _ Hb2). }
    destruct (sort_normalized name (ascending support_key) df2 Hcols2 Hr2)
      as (df3 & -> & Hc3 & Hb3).
    { rewrite ascending_fst. intros c Hc. apply list_elem_of_In in Hc.
      simpl in Hc. in_list. }
    cbn [bind].
    assert (∀ c, c ∈ support_columns → c ∈ columns df3) as Hcols3.
    { intros c Hc. rewrite Hc3. auto. }
    assert (∀ r, r ∈ rows df3 → normalized name r) as Hr3.
    { intros r Hr. apply Hr2. by rewrite <-(rows_perm _ _ Hb3). }
    assert ((λ r, at_col r "ID") <$> rows df3 ≡ₚ (λ r, at_col r "ID") <$> rows df)
      as Hid3.
    { by rewrite (rows_perm _ _ Hb3), (rows_perm _ _ Hb2), Hid1. }
    destruct (groupby_single name df3 Hcols3 Hr3) as (ks & Hks & Hg).
    { by rewrite Hid3. }
    change (length [name]) with 1%nat. rewrite Hg. cbn [bind].
    eexists. exists ks. split; [done|]. split_and!.
    + by rewrite Hks.
    + intros c Hc. apply list_elem_of_In in Hc. simpl. apply list_elem_of_In, Hc.
    + rewrite rows_reset_index_keep. simpl. rewrite <-list_fmap_compose.
      by apply list_fmap_ext.
  - assert (body df = []) as Hempty.
    { destruct (body df) eqn:E; [done|]. exfalso. apply Hn.
      unfold nrows. rewrite E. simpl. lia. }
    eexists. exists []. split; [done|]. split_and!.
    + unfold rows. by rewrite Hempty.
    + intros c Hc. apply list_elem_of_In in Hc. simpl in Hc. simpl. in_list.
    + done.
Qed.

(** ** Tables whose rows come from one list *)

Lemma rows_filter_rows (p : row → bool) (df : frame) :
  rows (filter_rows p df) = filter (λ r, p r) (rows df).
Proof. unfold rows, filter_rows. simpl. by rewrite filter_fmap. Qed.

Lemma filter_rows_all (p : row → bool) (df : frame) :
  (∀ r, r ∈ rows df → p r = true) → filter_rows p df = df.
Proof.
  intros H. unfold filter_rows. destruct df as [cs b]. simpl. f_equal.
  apply filter_all_id. intros lr Hlr. apply Is_true_true, H.
  unfold rows. apply list_elem_of_fmap. by exists lr.
Qed.

Lemma set_index_total (c : string) (drop : bool) (df : frame) :
  c ∈ columns df →
  set_index c drop df
  = Ok (Frame (if drop then filter (λ x, x ≠ c) (columns df) else columns df)
              ((λ r, (at_col r c, if drop then delete c r else r)) <$> rows df)).
Proof.
  intros Hc. unfold set_index. rewrite (proj2 (has_col_true df c) Hc).
  unfold rows. by rewrite <-list_fmap_compose.
Qed.

Section Aligned.
Context {X : Type} (lab : X → cell).

(** [df[c] = other[c']] when both tables list the same records in the same
    order under the same labels. *)
Lemma assign_aligned (c c' : string) (cs cs' : list string) (f g : X → row)
    (xs : list X) :
  c' ∈ cs' →
  bind (series (Frame cs' ((λ x, (lab x, g x)) <$> xs)) c')
       (λ s, assign_series c s (Frame cs ((λ x, (lab x, f x)) <$> xs)))
  = Ok (Frame (add_col cs c) ((λ x, (lab x, <[c := at_col (g x) c']> (f x))) <$> xs)).
Proof.
  intros Hc'. unfold series.
  rewrite (proj2 (has_col_true (Frame cs' _) c')) by done.
  cbn [bind body]. unfold assign_series.
  rewrite decide_True.
  2:{ unfold index. simpl. rewrite <-!list_fmap_compose. by apply list_fmap_ext. }
  f_equal. simpl. f_equal. rewrite <-!list_fmap_compose.
  rewrite zip_with_fmap_l, zip_with_fmap_r, zip_with_diag. done.
Qed.

Lemma copy_aligned (c : string) (cs cs' : list string) (f g : X → row)
    (xs : list X) :
  c ∈ cs' →
  copy_col (Frame cs' ((λ x, (lab x, g x)) <$> xs))
           (Frame cs ((λ x, (lab x, f x)) <$> xs)) c
  = Ok (Frame (add_col cs c) ((λ x, (lab x, <[c := at_col (g x) c]> (f x))) <$> xs)).
Proof. apply assign_aligned. Qed.

End Aligned.

(** [df.loc[labels]] when each label names one record. *)
Lemma loc_labels_unique {X : Type} (lab : X → cell) (f : X → row)
    (all xs : list X) :
  NoDup (lab <$> all) → xs ⊆ all →
  loc_labels (lab <$> xs) ((λ x, (lab x, f x)) <$> all)
  = Ok ((λ x, (lab x, f x)) <$> xs).
Proof.
  intros Hnd Hsub. induction xs as [|x xs IH]; [done|].
  assert (x ∈ all) as Hx by (apply Hsub; left).
  rewrite !fmap_cons. cbn [loc_labels]. rewrite filter_fmap.
  rewrite (list_filter_iff _ (λ y, lab y = lab x)) by done.
  rewrite (filter_unique lab all x Hnd Hx).
  rewrite IH by (intros y Hy; apply Hsub; by right). done.
Qed.

Lemma elem_of_foldl_add_col (cs acc : list string) (c : string) :
  c ∈ foldl add_col acc cs ↔ c ∈ acc ∨ c ∈ cs.
Proof.
  revert acc. induction cs as [|x cs IH]; intros acc; simpl.
  - split; [by left|]. intros [?|?%not_elem_of_nil]; done.
  - rewrite IH, elem_of_add_col, elem_of_cons. tauto.
Qed.

Lemma elem_of_extend_new (l cs : list string) (c : string) :
  c ∈ extend_new l cs ↔ c ∈ l ∨ c ∈ cs.
Proof.
  unfold extend_new. rewrite elem_of_app, list_elem_of_filter.
  destruct (decide (c ∈ l)); tauto.
Qed.

Lemma at_col_annotate (g : row) (cs : list string) (r : row) (c : string) :
  at_col (annotate g cs r) c = if decide (c ∈ cs) then at_col g c else at_col r c.
Proof.
  unfold annotate. revert r. induction cs as [|x cs IH]; intros r; cbn [foldl].
  { case_decide as H; [by apply not_elem_of_nil in H|done]. }
  rewrite IH. repeat case_decide; try done.
  - exfalso. apply H0. by right.
  - apply elem_of_cons in H0 as [->|?]; [|done]. by rewrite at_col_insert.
  - rewrite at_col_insert_ne; [done|]. intros ->. apply H0. left.
Qed.

Section Copies.
Context {X : Type} (lab : X → cell).

Lemma for_each_copy_aligned (cl cs cs' : list string) (f g : X → row) (xs : list X) :
  (∀ c, c ∈ cl → c ∈ cs') →
  for_each (copy_col (Frame cs' ((λ x, (lab x, g x)) <$> xs))) cl
           (Frame cs ((λ x, (lab x, f x)) <$> xs))
  = Ok (Frame (foldl add_col cs cl)
              ((λ x, (lab x, annotate (g x) cl (f x))) <$> xs)).
Proof.
  revert cs f. induction cl as [|c cl IH]; intros cs f Hin; [done|].
  cbn [for_each]. rewrite (copy_aligned lab) by (apply Hin; left).
  cbn [bind]. rewrite IH by (intros c' Hc'; apply Hin; by right). done.
Qed.

End Copies.

Lemma support_row_cells (name : string) (k : cell) :
  at_col (support_row name k) "SUPPORT_ID" = k ∧
  at_col (support_row name k) "MERGE_SRC" = CStr name ∧
  at_col (support_row name k) "MERGE_SRC_ID" = k ∧
  at_col (support_row name k) "MERGE_AC" = CInt 1 ∧
  at_col (support_row name k) "MERGE_AF" = CStr "1.0000" ∧
  at_col (support_row name k) "MERGE_SAMPLES" = CStr name ∧
  at_col (support_row name k) "MERGE_VARIANTS" = k ∧
  at_col (support_row name k) "MERGE_RO" = CStr "1.00" ∧
  at_col (support_row name k) "MERGE_OFFSET" = CStr "0" ∧
  at_col (support_row name k) "MERGE_SZRO" = CStr "1.00" ∧
  at_col (support_row name k) "MERGE_OFFSZ" = CStr "1.00" ∧
  at_col (support_row name k) "MERGE_MATCH" = CStr "1.00".
Proof.
  unfold support_row, summary. cbn [list_to_map foldr uncurry fst snd].
  split_and!; by cells.
Qed.

Lemma sample_step_single (name : string) (bed sup : frame) (xs : list row) :
  "ID" ∈ columns bed →
  NoDup ((λ r, at_col r "ID") <$> rows bed) →
  xs ⊆ rows bed →
  (∀ c, c ∈ "SUPPORT_ID" :: summary_columns → c ∈ columns sup) →
  rows sup = (λ r, support_row name (at_col r "ID")) <$> xs →
  sample_step sup OPT_COL ([], []) (bed, name)
  = Ok (columns bed,
        match xs with
        | [] => []
        | _ => [Frame (merged_columns bed)
                      ((λ r, (at_col r "ID", merged_row name r)) <$> xs)]
        end).
Proof.
  intros Hid Hnd Hsub Hcols Hrows.
  set (lab := λ r : row, at_col r "ID").
  set (g := λ r : row, support_row name (at_col r "ID")).
  unfold sample_step. unfold col at 1.
  rewrite (proj2 (has_col_true sup "MERGE_SRC")) by (apply Hcols; in_list).
  cbn [bind].
  rewrite filter_rows_all.
  2:{ intros r Hr. rewrite Hrows in Hr. apply list_elem_of_fmap in Hr as (x & -> & _).
      apply bool_decide_eq_true.
      by destruct (support_row_cells name (at_col x "ID")) as (_ & -> & _). }
  rewrite set_index_total by (apply Hcols; in_list).
  cbn [bind].
  assert ((λ r, (at_col r "MERGE_SRC_ID", r)) <$> rows sup
          = (λ x, (lab x, g x)) <$> xs) as ->.
  { rewrite Hrows, <-list_fmap_compose. apply list_fmap_ext. intros i x _. simpl.
    by destruct (support_row_cells name (at_col x "ID")) as (_ & _ & -> & _). }
  assert (extend_new [] (columns bed) = columns bed) as ->.
  { unfold extend_new. simpl. apply filter_all_id. intros c _. apply not_elem_of_nil. }
  unfold nrows. cbn [body]. rewrite length_fmap.
  destruct xs as [|x0 xs0] eqn:Exs; [done|]. rewrite <-Exs in *.
  rewrite bool_decide_eq_false_2 by (rewrite Exs; done).
  rewrite set_index_total by done. cbn [bind].
  unfold col. rewrite (proj2 (has_col_true _ "MERGE_SRC_ID")) by (apply Hcols; in_list).
  cbn [bind].
  assert ((λ r, at_col r "MERGE_SRC_ID") <$> rows (Frame (columns sup) ((λ x, (lab x, g x)) <$> xs))
          = lab <$> xs) as ->.
  { unfold rows. simpl. rewrite <-!list_fmap_compose. apply list_fmap_ext.
    intros i x _. simpl. unfold g.
    by destruct (support_row_cells name (at_col x "ID")) as (_ & _ & -> & _). }
  unfold loc. cbn [body].
  rewrite (loc_labels_unique lab (λ r, delete "ID" r) (rows bed) xs Hnd Hsub).
  cbn [bind columns].
  rewrite (assign_aligned lab "ID" "SUPPORT_ID" (filter (λ x, x ≠ "ID") (columns bed))
             (columns sup) (λ x, delete "ID" x) g xs) by (apply Hcols; in_list).
  cbn [bind].
  rewrite (copy_aligned lab "MERGE_SRC" _ (columns sup) _ g xs)
    by (apply Hcols; in_list).
  cbn [bind].
  rewrite (copy_aligned lab "MERGE_SRC_ID" _ (columns sup) _ g xs)
    by (apply Hcols; in_list).
  cbn [bind].
  rewrite (for_each_copy_aligned lab OPT_COL _ (columns sup) _ g xs).
  2:{ intros c Hc. apply Hcols. apply list_elem_of_In in Hc. simpl in Hc. in_list. }
  cbn [bind app]. rewrite Exs. unfold merged_columns, merged_row, lab, g.
  reflexivity.
Qed.

Lemma merged_row_kept (name : string) (r : row) (c : string) :
  c ∉ "ID" :: "MERGE_SRC" :: "MERGE_SRC_ID" :: OPT_COL →
  at_col (merged_row name r) c = at_col r c.
Proof.
  intros Hc. unfold merged_row. rewrite at_col_annotate.
  rewrite decide_False by (intros Hin; apply Hc; by do 3 right).
  rewrite !at_col_insert_ne, at_col_delete_ne; try done;
    intros <-; apply Hc; in_list.
Qed.

Lemma merged_row_cells (name : string) (r : row) :
  at_col (merged_row name r) "ID" = at_col r "ID" ∧
  at_col (merged_row name r) "MERGE_SRC" = CStr name ∧
  at_col (merged_row name r) "MERGE_SRC_ID" = at_col r "ID" ∧
  at_col (merged_row name r) "MERGE_AC" = CInt 1 ∧
  at_col (merged_row name r) "MERGE_AF" = CStr "1.0000" ∧
  at_col (merged_row name r) "MERGE_SAMPLES" = CStr name ∧
  at_col (merged_row name r) "MERGE_VARIANTS" = at_col r "ID" ∧
  at_col (merged_row name r) "MERGE_RO" = CStr "1.00" ∧
  at_col (merged_row name r) "MERGE_OFFSET" = CStr "0" ∧
  at_col (merged_row name r) "MERGE_SZRO" = CStr "1.00" ∧
  at_col (merged_row name r) "MERGE_OFFSZ" = CStr "1.00" ∧
  at_col (merged_row name r) "MERGE_MATCH" = CStr "1.00".
Proof.
  destruct (support_row_cells name (at_col r "ID"))
    as (H0 & H1 & H2 & H3 & H4 & H5 & H6 & H7 & H8 & H9 & H10 & H11).
  assert (∀ c, c ∈ ["ID"; "MERGE_SRC"; "MERGE_SRC_ID"] → c ∉ OPT_COL) as Hout.
  { intros c Hc%list_elem_of_In Hin%list_elem_of_In. simpl in Hc, Hin.
    repeat (destruct Hc as [<-|Hc]; [repeat (destruct Hin as [Hin|Hin]; [done|]); done|]).
    done. }
  unfold merged_row. split_and!; rewrite at_col_annotate;
    first [ rewrite decide_True by (unfold OPT_COL; in_list); done
          | rewrite decide_False by (apply Hout; in_list); cells; done ].
Qed.

Lemma convert_col_other (df : frame) (c : string) :
  c ≠ "MERGE_AC" → c ≠ "MERGE_AF" → convert_col df c = Ok df.
Proof.
  intros H1 H2. unfold convert_col, OPT_COL_DTYPE.
  by rewrite !bool_decide_eq_false_2 by done.
Qed.

Lemma to_float32_one :
  ∃ q, to_float32 (CStr "1.0000") = Ok (CFloat (Fin q)) ∧ q = 1%Qc.
Proof.
  eexists. split; [vm_compute; reflexivity|]. by apply Qc_is_canon.
Qed.

Lemma convert_col_ac (df : frame) :
  "MERGE_AC" ∈ columns df →
  (∀ r, r ∈ rows df → at_col r "MERGE_AC" = CInt 1) →
  convert_col df "MERGE_AC" = Ok (set_col "MERGE_AC" (λ _, CInt 1) df).
Proof.
  intros Hc Hr. unfold convert_col, OPT_COL_DTYPE.
  rewrite bool_decide_eq_true_2 by done. unfold col.
  rewrite (proj2 (has_col_true df _) Hc). cbn [bind].
  apply set_col_checked_total. intros r Hin. by rewrite (Hr r Hin).
Qed.

Lemma convert_col_af (df : frame) :
  "MERGE_AF" ∈ columns df →
  (∀ r, r ∈ rows df → at_col r "MERGE_AF" = CStr "1.0000") →
  convert_col df "MERGE_AF" = Ok (set_col "MERGE_AF" (λ _, CFloat (Fin 1%Qc)) df).
Proof.
  intros Hc Hr. unfold convert_col, OPT_COL_DTYPE.
  rewrite bool_decide_eq_false_2 by done.
  rewrite bool_decide_eq_true_2 by done. unfold col.
  rewrite (proj2 (has_col_true df _) Hc). cbn [bind].
  apply set_col_checked_total. intros r Hin. rewrite (Hr r Hin).
  by destruct to_float32_one as (q & -> & ->).
Qed.

Lemma select_cols_total (cs : list string) (df : frame) :
  (∀ c, c ∈ cs → c ∈ columns df) →
  select_cols cs df = Ok (Frame cs ((λ lr, (lr.1, restrict cs lr.2)) <$> body df)).
Proof.
  intros H. unfold select_cols. by rewrite filter_all_nil by (intros c Hc Hn; auto).
Qed.

(** The loop that adds the columns the merged table lacks touches none of
    the columns it already has. *)
Lemma add_missing_total (hs cl : list string) (df : frame) :
  (∀ c, c ∈ cl → c ∈ hs → c ∈ columns df) →
  ∃ df', for_each (add_missing hs) cl df = Ok df' ∧
         (∀ c, c ∈ columns df ∨ c ∈ cl → c ∈ columns df') ∧
         Forall2 (λ r r', ∀ c, c ∈ columns df → at_col r' c = at_col r c)
                 (rows df) (rows df').
Proof.
  revert df. induction cl as [|c cl IH]; intros df Hhs.
  { exists df. split; [done|]. split.
    - intros c [?|?%not_elem_of_nil]; done.
    - apply Forall2_same_length_lookup. split; [done|].
      intros i r r' H1 H2 c _. congruence. }
  cbn [for_each]. unfold add_missing at 1.
  destruct (has_col df c) eqn:Hhas.
  - apply has_col_true in Hhas. cbn [bind].
    destruct (IH df) as (df' & -> & Hc' & Hr').
    { intros c' Hc'. apply Hhs. by right. }
    exists df'. split; [done|]. split; [|done].
    intros c' [?|[->|?]%elem_of_cons]; auto.
  - apply has_col_false in Hhas.
    rewrite bool_decide_eq_false_2 by (intros Hin; apply Hhas, Hhs; [left|done]).
    cbn [bind].
    destruct (IH (set_col c (λ _, nan) df)) as (df' & -> & Hc' & Hr').
    { intros c' Hc' Hh. apply elem_of_columns_set_col, Hhs; [by right|done]. }
    exists df'. split; [done|]. split.
    + intros c' [Hin|[->|Hin]%elem_of_cons]; apply Hc'; auto.
      * left. by apply elem_of_columns_set_col.
      * left. rewrite columns_set_col. apply elem_of_add_col. by right.
    + rewrite rows_set_col in Hr'. apply Forall2_fmap_l in Hr'.
      eapply Forall2_impl; [exact Hr'|]. intros r r' H c' Hin. simpl in H.
      rewrite H by (by apply (elem_of_columns_set_col c c' (λ _, nan))).
      apply at_col_insert_ne. intros ->. done.
Qed.

Lemma rows_reset_index_drop (df : frame) : rows (reset_index_drop df) = rows df.
Proof. unfold reset_index_drop. unfold rows at 1. simpl. apply rows_range_index. Qed.

Lemma rows_restricted (cs : list string) (b : list (cell * row)) :
  rows (Frame cs ((λ lr : cell * row, (lr.1, restrict cs lr.2)) <$> b))
  = restrict cs <$> b.*2.
Proof. unfold rows. simpl. rewrite <-!list_fmap_compose. by apply list_fmap_ext. Qed.

Lemma converted_row_output (name : string) (r o : row) :
  (∀ c, c ∈ output_columns → at_col o c = at_col (converted_row name r) c) →
  single_sample_output name r o.
Proof.
  intros Hat.
  destruct (merged_row_cells name r)
    as (H0 & H1 & H2 & _ & _ & H5 & H6 & H7 & H8 & H9 & H10 & H11).
  assert (∀ c, c ∈ ["#CHROM"; "POS"; "END"] →
               at_col (merged_row name r) c = at_col r c) as Hkept.
  { intros c Hc. apply merged_row_kept.
    apply list_elem_of_In in Hc. simpl in Hc.
    unfold OPT_COL. intros Hin%list_elem_of_In. simpl in Hin.
    destruct Hc as [<-|[<-|[<-|[]]]];
      repeat (destruct Hin as [Hin|Hin]; [done|]); done. }
  unfold single_sample_output.
  rewrite !Hat by (unfold output_columns, OPT_COL; in_list).
  unfold converted_row. cells.
  rewrite !Hkept by in_list.
  split_and!;
    [reflexivity|reflexivity|reflexivity|exact H0|exact H1|exact H2|reflexivity
    |reflexivity|exact H5|exact H6|exact H7|exact H8|exact H9|exact H10|exact H11].
Qed.

Lemma concat_single (df : frame) :
  concat [df] = Frame (foldl add_col [] (columns df)) (body df).
Proof. unfold concat. simpl. by rewrite app_nil_r. Qed.

Lemma merge_sample_by_support_single (name : string) (bed sup : frame)
    (xs : list row) :
  (∀ c, c ∈ ["#CHROM"; "POS"; "END"; "ID"] → c ∈ columns bed) →
  NoDup ((λ r, at_col r "ID") <$> rows bed) →
  xs ⊆ rows bed →
  NoDup ((λ r, at_col r "ID") <$> xs) →
  (∀ r, r ∈ xs → (∃ s, at_col r "#CHROM" = CStr s) ∧ (∃ z, at_col r "POS" = CInt z)) →
  (∀ c, c ∈ "SUPPORT_ID" :: summary_columns → c ∈ columns sup) →
  rows sup = (λ r, support_row name (at_col r "ID")) <$> xs →
  ∃ out ys, merge_sample_by_support (Some sup) [bed] [name] = Ok out ∧
            ys ≡ₚ xs ∧
            (∀ c, c ∈ output_columns → c ∈ columns out) ∧
            Forall2 (single_sample_output name) ys (rows out).
Proof.
  intros Hbed Hnd Hsub Hndx Hkinds Hcols Hrows.
  unfold merge_sample_by_support. cbn [default from_option length]. unfold id.
  rewrite bool_decide_eq_false_2 by (intros H; by apply H).
  assert ((if bool_decide (0 < nrows sup)%nat
           then filter (λ c, c ∉ columns sup) REQUIRED_COLUMNS else []) = []) as ->.
  { case_bool_decide; [|done]. apply filter_all_nil. intros c Hc Hn. apply Hn, Hcols.
    apply list_elem_of_In in Hc. simpl in Hc. in_list. }
  rewrite bool_decide_eq_false_2 by (intros H; by apply H).
  assert (filter (λ c, c ∈ columns sup) OPT_COL = OPT_COL) as ->.
  { apply filter_all_id. intros c Hc. apply Hcols.
    apply list_elem_of_In in Hc. simpl in Hc. in_list. }
  unfold col at 1.
  rewrite (proj2 (has_col_true sup "SUPPORT_ID")) by (apply Hcols; in_list).
  cbn [bind].
  assert ((λ r, at_col r "SUPPORT_ID") <$> rows sup = (λ r, at_col r "ID") <$> xs) as ->.
  { rewrite Hrows, <-list_fmap_compose. apply list_fmap_ext. intros i r _. simpl.
    by destruct (support_row_cells name (at_col r "ID")) as (-> & _). }
  rewrite (proj2 (duplicates_nil _) Hndx). cbn [length].
  rewrite bool_decide_eq_false_2 by lia.
  cbn [zip zip_with for_each].
  rewrite (sample_step_single name bed sup xs); [|by apply Hbed; in_list|done..].
  cbn [bind].
  set (cl := extend_new (extend_new (columns bed) REQUIRED_COLUMNS) OPT_COL).
  set (F := λ r : row, (at_col r "ID", merged_row name r)).
  assert (∀ c, c ∈ output_columns → c ∈ cl) as Hout_cl.
  { intros c Hc. unfold cl. rewrite !elem_of_extend_new.
    apply list_elem_of_In in Hc. simpl in Hc.
    destruct Hc as [<-|[<-|[<-|[<-|Hc]]]];
      [left; left; apply Hbed; in_list..|].
    destruct Hc as [<-|[<-|Hc]]; [left; right; in_list..|].
    right. apply list_elem_of_In. simpl. tauto. }
  assert (∃ cols, match match xs with
                        | [] => []
                        | _ :: _ => [Frame (merged_columns bed) (F <$> xs)]
                        end with
                  | [] => Frame cl []
                  | _ :: _ => concat match xs with
                                     | [] => []
                                     | _ :: _ => [Frame (merged_columns bed) (F <$> xs)]
                                     end
                  end = Frame cols (F <$> xs) ∧
                  ∀ c, c ∈ columns bed ∨ c ∈ output_columns → c ∈ cols)
    as (cols & -> & Hcols_m).
  { destruct xs as [|x0 xs0].
    - exists cl. split; [reflexivity|]. intros c [Hc|Hc]; [|auto].
      unfold cl. rewrite !elem_of_extend_new. auto.
    - exists (foldl add_col [] (merged_columns bed)). split.
      { rewrite concat_single. reflexivity. }
      intros c Hc. rewrite elem_of_foldl_add_col. right.
      unfold merged_columns. rewrite elem_of_foldl_add_col, !elem_of_add_col.
      rewrite list_elem_of_filter.
      destruct Hc as [Hc|Hc].
      + destruct (decide (c = "ID")); [tauto|]. left. tauto.
      + apply list_elem_of_In in Hc. simpl in Hc.
        destruct Hc as [<-|[<-|[<-|[<-|[<-|[<-|Hc]]]]]];
          [left; left; left; left; (split; [done|apply Hbed; in_list])..
          |tauto|tauto|tauto|].
        right. apply list_elem_of_In. simpl. tauto. }
  set (dfm := Frame cols (F <$> xs)).
  assert (rows dfm = merged_row name <$> xs) as Hrows_m.
  { unfold rows, dfm. simpl. rewrite <-list_fmap_compose. by apply list_fmap_ext. }
  assert (∀ c, c ∈ output_columns → c ∈ columns dfm) as Hcm by (intros; apply Hcols_m; auto).
  unfold OPT_COL at 1. cbn [for_each].
  rewrite convert_col_ac.
  2:{ apply Hcm. unfold output_columns, OPT_COL. in_list. }
  2:{ intros r Hr. rewrite Hrows_m in Hr. apply list_elem_of_fmap in Hr as (x & -> & _).
      by destruct (merged_row_cells name x) as (_ & _ & _ & -> & _). }
  cbn [bind].
  rewrite convert_col_af.
  2:{ apply elem_of_columns_set_col, Hcm. unfold output_columns, OPT_COL. in_list. }
  2:{ intros r Hr. origin Hr. cells. rewrite Hrows_m in Hr.
      apply list_elem_of_fmap in Hr as (x & -> & _).
      by destruct (merged_row_cells name x) as (_ & _ & _ & _ & -> & _). }
  cbn [bind].
  repeat (rewrite convert_col_other by done; cbn [bind]).
  set (G := converted_row name).
  set (dfc := set_col "MERGE_AF" _ (set_col "MERGE_AC" _ dfm)).
  assert (rows dfc = G <$> xs) as Hrows_c.
  { unfold dfc. rewrite !rows_set_col, Hrows_m, <-!list_fmap_compose. done. }
  assert (∀ c, c ∈ columns bed ∨ c ∈ output_columns → c ∈ columns dfc) as Hcc.
  { intros c Hc. unfold dfc. do 2 apply elem_of_columns_set_col. by apply Hcols_m. }
  destruct (sort_values_total_ok (ascending ["#CHROM"; "POS"]) dfc)
    as (dfs & -> & Hcs & Hbs).
  { rewrite ascending_fst. intros c Hc. split.
    { apply Hcc. left. apply Hbed. apply list_elem_of_In in Hc. simpl in Hc. in_list. }
    apply list_elem_of_In in Hc. simpl in Hc. destruct Hc as [<-|[<-|[]]].
    - exists KStr. intros r Hr. rewrite Hrows_c in Hr.
      apply list_elem_of_fmap in Hr as (x & -> & Hx). unfold G, converted_row. cells.
      rewrite merged_row_kept
        by (unfold OPT_COL; intros Hin%list_elem_of_In; simpl in Hin;
            repeat (destruct Hin as [Hin|Hin]; [done|]); done).
      destruct (Hkinds x Hx) as ([s ->] & _). by right.
    - exists KNum. intros r Hr. rewrite Hrows_c in Hr.
      apply list_elem_of_fmap in Hr as (x & -> & Hx). unfold G, converted_row. cells.
      rewrite merged_row_kept
        by (unfold OPT_COL; intros Hin%list_elem_of_In; simpl in Hin;
            repeat (destruct Hin as [Hin|Hin]; [done|]); done).
      destruct (Hkinds x Hx) as (_ & [z ->]). by right. }
  cbn [bind].
  set (hs := ["#CHROM"; "POS"; "END"; "ID"] ++
             (if has_col dfs "SVTYPE" then ["SVTYPE"] else []) ++
             (if has_col dfs "SVLEN" then ["SVLEN"] else [])).
  assert (∀ c, c ∈ hs → c ∈ columns dfs) as Hhs.
  { intros c Hc. unfold hs in Hc. rewrite !elem_of_app in Hc.
    destruct Hc as [Hc|[Hc|Hc]].
    - rewrite Hcs. apply Hcc. left. by apply Hbed.
    - destruct (has_col dfs "SVTYPE") eqn:E; [|by apply not_elem_of_nil in Hc].
      apply list_elem_of_singleton in Hc as ->. by apply has_col_true.
    - destruct (has_col dfs "SVLEN") eqn:E; [|by apply not_elem_of_nil in Hc].
      apply list_elem_of_singleton in Hc as ->. by apply has_col_true. }
  destruct (add_missing_total hs cl dfs) as (dfa & -> & Hca & Hra); [by auto|].
  cbn [bind].
  set (cs := hs ++ filter (λ c, c ∉ hs) cl).
  assert (∀ c, c ∈ cs ↔ c ∈ hs ∨ c ∈ cl) as Hcs_iff.
  { intros c. unfold cs. rewrite elem_of_app, list_elem_of_filter.
    destruct (decide (c ∈ hs)); tauto. }
  rewrite select_cols_total.
  2:{ intros c [Hc|Hc]%Hcs_iff; apply Hca; auto. }
  cbn [bind].
  assert (rows dfs ≡ₚ G <$> xs) as Hperm.
  { rewrite <-Hrows_c. by apply rows_perm. }
  apply Permutation_map_inv in Hperm as (ys & Hys & Hperm).
  eexists. exists ys. split; [done|]. split_and!.
  - by symmetry.
  - intros c Hc. simpl. apply Hcs_iff. right. by apply Hout_cl.
  - rewrite rows_reset_index_drop, rows_restricted. fold (rows dfa).
    apply Forall2_fmap_r.
    change (map G ys) with (G <$> ys) in Hys. rewrite Hys in Hra.
    apply Forall2_fmap_l in Hra. eapply Forall2_impl; [exact Hra|].
    intros r o Heq. cbn [compose] in *.
    apply converted_row_output. intros c Hc.
    rewrite at_col_restrict by (apply Hcs_iff; right; by apply Hout_cl).
    apply Heq. rewrite Hcs. apply Hcc. by right.
Qed.

Lemma rows_del_col (c : string) (df : frame) :
  rows (del_col c df) = delete c <$> rows df.
Proof. unfold rows, del_col. simpl. by rewrite <-!list_fmap_compose. Qed.

Lemma selected_subseteq (bed : frame) (chrom : option string) :
  selected bed chrom ⊆ rows bed.
Proof.
  unfold selected. destruct chrom; [|done].
  intros r Hr. by apply list_elem_of_filter in Hr as [_ Hr].
Qed.

Lemma selected_sublist (bed : frame) (chrom : option string) :
  sublist (selected bed chrom) (rows bed).
Proof. unfold selected. destruct chrom; [apply sublist_filter|done]. Qed.

(** The merged set before the finalizer, when no further sample came. *)
Lemma drop_seq_self_support (name : string) (df : frame) :
  "ID" ∈ columns df →
  (∀ r, r ∈ rows df → ∃ s, at_col r "ID" = CStr s) →
  let df1 := self_support name df in
  let df2 := if has_col df1 "SEQ" then del_col "SEQ" df1 else df1 in
  (∀ c, c ∈ support_columns → c ∈ columns df2) ∧
  (∀ r, r ∈ rows df2 → self_supported name r) ∧
  (λ r, at_col r "ID") <$> rows df2 = (λ r, at_col r "ID") <$> rows df.
Proof.
  intros Hid Hids df1 df2.
  assert (∀ c, c ∈ support_columns → c ∈ columns df1) as Hc1.
  { intros c Hc. apply self_support_columns.
    destruct (decide (c = "ID")) as [->|Hne]; [by left|by right]. }
  assert (∀ r, r ∈ rows df1 → self_supported name r) as Hr1.
  { intros r Hr. by apply (self_support_rows name df). }
  pose proof (self_support_ids name df) as Hi1. fold df1 in Hi1.
  unfold df2. destruct (has_col df1 "SEQ"); [|done].
  split_and!.
  - intros c Hc. unfold del_col. simpl. apply list_elem_of_filter. split; [|auto].
    apply list_elem_of_In in Hc. simpl in Hc. intros ->.
    repeat (destruct Hc as [Hc|Hc]; [done|]). done.
  - intros r Hr. rewrite rows_del_col in Hr.
    apply list_elem_of_fmap in Hr as (r0 & -> & Hr0).
    destruct (Hr1 r0 Hr0) as (H0 & H1 & H2 & H3 & H4 & H5 & H6 & H7 & H8).
    unfold self_supported. rewrite !at_col_delete_ne by done.
    split_and!; [exact H0|exact H1|exact H2|exact H3|exact H4|exact H5|exact H6
                |exact H7|exact H8].
  - rewrite rows_del_col, <-Hi1, <-list_fmap_compose. apply list_fmap_ext.
    intros i r _. simpl. by rewrite at_col_delete_ne.
Qed.

Section SingleSample.
Variable merge_next :
  param_set → list string → bool → option string → nat →
  frame * list frame → frame * string * option fasta →
  result (frame * list frame).

(** X1: a run of [merge_variants_nr] on one valid sample table returns a merged
    table with one row for each record read, in some order: the row keeps the
    record's chromosome, position, end and ID and carries the marks of a
    variant that only this sample supports. *)
Theorem merge_variants_nr_single_sample (bed : frame) (raw name : string)
    (merge_params : option string) (fa_list : option (list (option fasta)))
    (subset_chrom : option string) (threads : nat) (ps : param_set) :
  check_sample_names (Some [raw]) = Ok [name] →
  get_param_set merge_params "nr" = Ok ps →
  (read_seq ps = true → fa_list = None) →
  (∀ c, c ∈ read_columns ps → c ∈ columns bed) →
  Forall valid_record (selected bed subset_chrom) →
  NoDup ((λ r, at_col r "ID") <$> rows bed) →
  ∃ out ys,
    merge_variants_nr merge_next [bed] (Some [raw]) merge_params fa_list
                      subset_chrom threads = Ok out ∧
    ys ≡ₚ selected bed subset_chrom ∧
    (∀ c, c ∈ output_columns → c ∈ columns out) ∧
    Forall2 (single_sample_output name) ys (rows out).
Proof.
  intros Hname Hps Hfa Hcols Hvalid Hnd.
  unfold merge_variants_nr. cbn [length].
  rewrite bool_decide_eq_false_2 by done.
  rewrite Hname. cbn [bind length]. rewrite Hps. cbn [bind].
  set (col_list := ["#CHROM"; "POS"; "END"; "ID"; "SVTYPE"; "SVLEN"]
      ++ (if match_ref ps then ["REF"] else [])
      ++ (if match_alt ps then ["ALT"] else [])
      ++ (if read_seq ps then ["SEQ"] else [])).
  assert (∃ seq_in_col,
            (if read_seq ps
             then match fa_list with
                  | None => Ok (true, replicate 1 None)
                  | Some l =>
                      if bool_decide (length l ≠ 1%nat)
                      then Raise (RuntimeError "Non-redundant merge requires variant sequences, but fa_list is not the same length as the number of samples")
                      else Ok (false, l)
                  end
             else Ok (false, replicate 1 None))
            = Ok (seq_in_col, [None : option fasta]) ∧
            (seq_in_col = true → "SEQ" ∈ col_list)) as (seq_in_col & -> & Hseq).
  { destruct (read_seq ps) eqn:E.
    - rewrite (Hfa eq_refl). exists true. split; [done|]. intros _.
      unfold col_list. rewrite ?E. rewrite !elem_of_app. do 3 right. left.
    - exists false. split; [done|]. done. }
  cbn [bind].
  assert (∀ c, c ∈ col_list → c ∈ columns bed) as Hcl by exact Hcols.
  assert (∀ c, c ∈ head_cols → c ∈ columns bed) as Hhead.
  { intros c Hc. apply Hcols. unfold read_columns. apply elem_of_app. by left. }
  assert (NoDup ((λ r, at_col r "ID") <$> selected bed subset_chrom)) as Hnds.
  { eapply sublist_NoDup; [exact Hnd|apply fmap_sublist, selected_sublist]. }
  destruct (read_variant_table_valid bed name subset_chrom col_list Hhead Hcl Hvalid Hnds)
    as (df & -> & Hdh & Hdc & Hids).
  cbn [bind].
  assert (need_seq_column seq_in_col df = Ok tt) as ->.
  { unfold need_seq_column. destruct seq_in_col; [|done].
    by rewrite (proj2 (has_col_true df "SEQ")) by (apply Hdc, Hseq; done). }
  cbn [bind zip zip_with for_each].
  assert (∀ r, r ∈ rows df → ∃ s, at_col r "ID" = CStr s) as Hstr.
  { intros r Hr.
    assert (at_col r "ID" ∈ (λ r, at_col r "ID") <$> selected bed subset_chrom) as Hin.
    { rewrite <-Hids. apply list_elem_of_fmap. by exists r. }
    apply list_elem_of_fmap in Hin as (r0 & -> & Hr0).
    rewrite Forall_forall in Hvalid. by destruct (Hvalid r0 Hr0) as (_ & _ & _ & ?). }
  destruct (drop_seq_self_support name df) as (Hc2 & Hr2 & Hi2);
    [apply Hdh; unfold head_cols; in_list|exact Hstr|].
  set (df2 := if has_col (self_support name df) "SEQ"
              then del_col "SEQ" (self_support name df) else self_support name df) in *.
  destruct (finalize_single name df2 Hc2 Hr2) as (sup & ks & -> & Hks & Hcsup & Hrsup).
  { by rewrite Hi2, Hids. }
  cbn [bind].
  rewrite Hi2, Hids in Hks.
  apply Permutation_map_inv in Hks as (xs & -> & Hxs).
  destruct (merge_sample_by_support_single name bed sup xs)
    as (out & ys & -> & Hys & Hco & Hout).
  - intros c Hc. apply Hhead. apply list_elem_of_In in Hc. simpl in Hc.
    unfold head_cols. in_list.
  - exact Hnd.
  - intros r Hr. apply (selected_subseteq bed subset_chrom). by rewrite Hxs.
  - change (map ?f xs) with (f <$> xs). by rewrite <-Hxs.
  - intros r Hr. rewrite <-Hxs in Hr. rewrite Forall_forall in Hvalid.
    destruct (Hvalid r Hr) as (H1 & H2 & _). by split.
  - exact Hcsup.
  - rewrite Hrsup. change (map ?f xs) with (f <$> xs).
    by rewrite <-list_fmap_compose.
  - exists out, ys. split; [reflexivity|]. split_and!; [|exact Hco|exact Hout].
    by rewrite Hys, <-Hxs.
Qed.

End SingleSample.

Lemma merge_variants_nr_single_sample_witness :
  ∃ out ys,
    merge_variants_nr no_next [example_bed] (Some [" A "]) (Some "ro=50") None
                      None 1 = Ok out ∧
    ys ≡ₚ selected example_bed None ∧
    (∀ c, c ∈ output_columns → c ∈ columns out) ∧
    Forall2 (single_sample_output "A") ys (rows out).
Proof.
  eapply (merge_variants_nr_single_sample no_next example_bed " A " "A"
            (Some "ro=50") None None 1).
  - vm_compute. reflexivity.
  - vm_compute. reflexivity.
  - intros _. reflexivity.
  - apply Forall_forall. apply (bool_decide_unpack _). vm_compute. exact I.
  - repeat constructor; eexists; first [vm_compute; reflexivity | split; [vm_compute; reflexivity|done]].
  - apply (bool_decide_unpack _). vm_compute. exact I.
Defined.

Lemma occurrences_le_1_NoDup (P : string → Prop) `{∀ x, Decision (P x)}
    (xs : list string) :
  (∀ x, x ∈ xs → P x → (occurrences x xs ≤ 1)%nat) → NoDup (filter P xs).
Proof.
  induction xs as [|y xs IH]; intros Hocc; [constructor|].
  assert (NoDup (filter P xs)) as Hnd.
  { apply IH. intros x Hx HP. specialize (Hocc x (list_elem_of_further _ _ _ Hx) HP).
    unfold occurrences in *. rewrite filter_cons in Hocc.
    destruct (decide (y = x)); simpl in Hocc; lia. }
  rewrite filter_cons. case_decide as HP; [|done].
  constructor; [|done]. intros [_ Hin]%list_elem_of_filter.
  specialize (Hocc y (list_elem_of_here _ _) HP).
  unfold occurrences in Hocc. rewrite filter_cons_True in Hocc by done.
  simpl in Hocc. apply occurrences_zero in Hin; [done|].
  unfold occurrences. lia.
Qed.

(** The renaming loop gives pairwise distinct names when the names it leaves
    alone are distinct and already taken. *)
Lemma version_loop_NoDup (D : gset string) (names : list string) :
  ∀ (ids : gset string) (out : list string) (ids' : gset string),
  (∀ x, x ∈ names → x ∉ D → x ∈ ids) →
  NoDup (filter (λ x, x ∉ D) names) →
  version_loop D ids names = Ok (out, ids') →
  length out = length names ∧ NoDup out ∧
  (∀ x, x ∈ out → x ∈ ids → x ∈ names ∧ x ∉ D).
Proof.
  induction names as [|name rest IH]; intros ids out ids' Htaken Hnd; simpl.
  { intros [= <- <-]. split_and!; [done|constructor|].
    intros x Hx. by apply not_elem_of_nil in Hx. }
  case_decide as HD.
  - intros ([tok0 v] & _ & (new_name & Hfind & H)%bind_ok)%bind_ok.
    apply bind_ok in H as ([rest' s'] & Hloop & [= <- <-]).
    pose proof (find_unique_spec (size ids) tok0 v ids) as Hspec.
    rewrite Hfind in Hspec. destruct Hspec as (w & _ & _ & Hfresh & _).
    rewrite filter_cons_False in Hnd by (intros Hn; by apply Hn).
    destruct (IH ({[new_name]} ∪ ids) rest' s') as (Hlen & Hnd' & Hold); [..|done|].
    { intros x Hx Hx'. apply elem_of_union_r, Htaken; [by right|done]. }
    { done. }
    split_and!.
    + simpl. by rewrite Hlen.
    + constructor; [|done]. intros Hin.
      destruct (Hold new_name Hin) as [Hrest Hnot]; [set_solver|].
      apply Hfresh, Htaken; [by right|done].
    + intros x [->|Hx]%elem_of_cons Hids; [done|].
      destruct (Hold x Hx) as [Hrest Hnot]; [set_solver|].
      split; [by right|done].
  - intros ([rest' s'] & Hloop & [= <- <-])%bind_ok.
    rewrite filter_cons_True in Hnd by done. apply NoDup_cons in Hnd as [Hname Hnd].
    destruct (IH ids rest' s') as (Hlen & Hnd' & Hold); [..|done|].
    { intros x Hx Hx'. apply Htaken; [by right|done]. }
    { done. }
    split_and!.
    + simpl. by rewrite Hlen.
    + constructor; [|done]. intros Hin.
      destruct (Hold name Hin) as [Hrest Hnot]; [apply Htaken; [left|done]|].
      apply Hname. by apply list_elem_of_filter.
    + intros x [->|Hx]%elem_of_cons Hids; [split; [left|done]|].
      destruct (Hold x Hx Hids) as [Hrest Hnot]. split; [by right|done].
Qed.

(** X2: when [version_id] returns, the column has its length, its IDs are
    pairwise distinct, and none of them is in the set of existing IDs. *)
Theorem version_id_no_duplicates (id_col : list string)
    (existing : option (gset string)) (out : list string) :
  version_id id_col existing = Ok out →
  length out = length id_col ∧ NoDup out ∧
  ∀ e, existing = Some e → ∀ x, x ∈ out → x ∉ e.
Proof.
  rewrite version_id_loop. cbv zeta.
  set (D := duplicated id_col existing).
  assert (∀ x, x ∉ D → (occurrences x id_col ≤ 1)%nat) as Hocc.
  { intros x Hx. unfold D in Hx. rewrite elem_of_duplicated in Hx. lia. }
  assert (∀ e x, existing = Some e → x ∈ id_col → x ∈ e → x ∈ D) as Hex.
  { intros e x -> Hx He. unfold D. rewrite elem_of_duplicated.
    rewrite decide_True by done. apply occurrences_pos in Hx. lia. }
  case_decide as Hsize.
  - intros [= <-]. apply size_empty_inv in Hsize.
    assert (∀ x, x ∉ D) as Hnone by (intros x; rewrite (Hsize x); set_solver).
    split_and!; [done| |].
    + rewrite <-(filter_all_id (λ x, x ∉ D) id_col) by (intros; apply Hnone).
      apply occurrences_le_1_NoDup. intros x _ _. apply Hocc, Hnone.
    + intros e He x Hx Hin. by apply (Hnone x), (Hex e).
  - set (ids := match existing with
                | Some e => list_to_set id_col ∖ D ∪ e
                | None => list_to_set id_col ∖ D
                end).
    intros ([out' ids'] & Hloop & [= <-])%bind_ok. simpl.
    destruct (version_loop_NoDup D id_col ids out' ids') as (Hlen & Hnd & Hold);
      [..|done|].
    { intros x Hx HD. unfold ids. destruct existing; set_solver. }
    { apply occurrences_le_1_NoDup. intros x _ HD. by apply Hocc. }
    split_and!; [done..|].
    intros e He x Hx Hin.
    destruct (Hold x Hx) as [Hcol HD].
    { unfold ids. rewrite He. set_solver. }
    by apply HD, (Hex e).
Qed.

Lemma version_id_no_duplicates_witness :
  length ["a.2"; "a.3"; "b"; "a.4"] = length ["a"; "a"; "b"; "a.1"] ∧
  NoDup ["a.2"; "a.3"; "b"; "a.4"] ∧
  ∀ e, Some ({["a.1"]} : gset string) = Some e →
       ∀ x, x ∈ ["a.2"; "a.3"; "b"; "a.4"] → x ∉ e.
Proof.
  apply (version_id_no_duplicates ["a"; "a"; "b"; "a.1"] (Some {["a.1"]})).
  vm_compute. reflexivity.
Defined.

Lemma min2_comm (x y : Qc) : min2 x y = min2 y x.
Proof.
  unfold min2. repeat case_decide; try done.
  - exfalso. by apply (Qclt_not_le _ _ H), Qclt_le_weak.
  - apply Qcle_antisym; by apply Qcnot_lt_le.
Qed.

Lemma min2_bounds (x y : Qc) :
  (0 ≤ x)%Qc → (x ≤ 1)%Qc → (0 ≤ y)%Qc → (y ≤ 1)%Qc →
  (0 ≤ min2 x y)%Qc ∧ (min2 x y ≤ 1)%Qc.
Proof. intros. unfold min2. by case_decide. Qed.

Lemma truediv_zero (a : Z) :
  truediv a 0 = Raise (ZeroDivisionError "division by zero").
Proof. unfold truediv. by rewrite decide_True. Qed.

(** X3: [reciprocal_overlap] does not depend on the order of the two
    intervals, whatever the four integers: the same value, or the same
    error. *)
Theorem reciprocal_overlap_symmetric (begin_a end_a begin_b end_b : Z) :
  reciprocal_overlap begin_a end_a begin_b end_b
  = reciprocal_overlap begin_b end_b begin_a end_a.
Proof.
  unfold reciprocal_overlap.
  rewrite (Z.min_comm end_b end_a), (Z.max_comm begin_b begin_a).
  set (overlap := Z.min end_a end_b - Z.max begin_a begin_b).
  case_decide as Hneg; [done|].
  assert (0 ≤ overlap ∧ overlap ≤ end_a - begin_a ∧ overlap ≤ end_b - begin_b)
    as (H0 & Ha & Hb) by lia.
  destruct (decide (end_a - begin_a = 0)) as [Eza|Hnza];
    destruct (decide (end_b - begin_b = 0)) as [Ezb|Hnzb].
  - rewrite Eza, Ezb. by rewrite truediv_zero.
  - rewrite Eza, truediv_zero. cbn [bind].
    destruct (truediv_unit overlap (end_b - begin_b)) as (y & -> & _); [lia..|].
    done.
  - rewrite Ezb, truediv_zero.
    destruct (truediv_unit overlap (end_a - begin_a)) as (x & -> & _); [lia..|].
    done.
  - destruct (truediv_unit overlap (end_a - begin_a)) as (x & -> & _); [lia..|].
    destruct (truediv_unit overlap (end_b - begin_b)) as (y & -> & _); [lia..|].
    cbn [bind]. by rewrite min2_comm.
Qed.

(** X4: on any four integers [reciprocal_overlap] either returns a value
    between 0 and 1 or raises ZeroDivisionError, and it raises exactly when
    the overlap is not negative and one of the two intervals is empty. It
    never fails in another way, whatever the size of the integers. *)
Theorem reciprocal_overlap_total (begin_a end_a begin_b end_b : Z) :
  let overlap := Z.min end_a end_b - Z.max begin_a begin_b in
  (reciprocal_overlap begin_a end_a begin_b end_b
     = Raise (ZeroDivisionError "division by zero")
   ∧ 0 ≤ overlap ∧ (end_a = begin_a ∨ end_b = begin_b))
  ∨ (∃ q, reciprocal_overlap begin_a end_a begin_b end_b = Ok q
          ∧ (0 ≤ q)%Qc ∧ (q ≤ 1)%Qc
          ∧ (overlap < 0 ∨ (end_a ≠ begin_a ∧ end_b ≠ begin_b))).
Proof.
  intros overlap. unfold reciprocal_overlap. fold overlap.
  case_decide as Hneg.
  { right. exists 0%Qc. split_and!; [done..|by left]. }
  assert (0 ≤ overlap ∧ overlap ≤ end_a - begin_a ∧ overlap ≤ end_b - begin_b)
    as (H0 & Ha & Hb) by lia.
  destruct (decide (end_a - begin_a = 0)) as [Eza|Hnza].
  { left. rewrite Eza, truediv_zero. split_and!; [done|lia|left; lia]. }
  destruct (truediv_unit overlap (end_a - begin_a)) as (x & -> & _ & Hx0 & Hx1);
    [lia..|].
  cbn [bind].
  destruct (decide (end_b - begin_b = 0)) as [Ezb|Hnzb].
  { left. rewrite Ezb, truediv_zero. split_and!; [done|lia|right; lia]. }
  destruct (truediv_unit overlap (end_b - begin_b)) as (y & -> & _ & Hy0 & Hy1);
    [lia..|].
  cbn [bind]. right. exists (min2 x y).
  destruct (min2_bounds x y Hx0 Hx1 Hy0 Hy1). split_and!; [done..|right; lia].
Qed.

(** With every column there and no FASTA, the table is read, cut to the
    columns asked for, and handed to the last steps. *)
Lemma read_variant_table_loaded (bed : frame) (name : string)
    (chrom : option string) (cl : list string) :
  (∀ c, c ∈ head_cols → c ∈ columns bed) →
  (∀ c, c ∈ cl → c ∈ columns bed) →
  ∃ df2, read_variant_table bed name chrom None cl = check_and_index name df2 ∧
         (∀ c, c ∈ head_cols ∨ c ∈ cl → c ∈ columns df2) ∧
         (∀ c, c ∈ head_cols ∨ c ∈ cl →
               (λ r, at_col r c) <$> rows df2
               = (λ r, at_col r c) <$> selected bed chrom).
Proof.
  intros Hhead Hcl. unfold read_variant_table.
  set (cl' := head_cols ++ filter (λ c, c ∉ head_cols) cl).
  set (usecols := λ c : string, bool_decide (c ∈ cl')).
  assert (∀ c, c ∈ head_cols → c ∈ cl') as Hhead'.
  { intros c Hc. apply elem_of_app. by left. }
  assert (∀ c, c ∈ cl → c ∈ cl') as Hcl'.
  { intros c Hc. apply elem_of_app. destruct (decide (c ∈ head_cols)); [by left|].
    right. by apply list_elem_of_filter. }
  assert (∀ c, c ∈ cl' → c ∈ columns bed) as Hbed.
  { intros c [Hc|[_ Hc]%list_elem_of_filter]%elem_of_app; auto. }
  destruct (rows_read_csv_chrom bed chrom usecols) as [Hcols0 Hrows0].
  { apply bool_decide_eq_true, Hhead'. unfold head_cols; in_list. }
  { apply Hhead. unfold head_cols; in_list. }
  set (df0 := read_csv_chrom bed chrom usecols) in *.
  set (kept := filter (λ c, usecols c = true) (columns bed)) in *.
  assert (∀ c, c ∈ cl' → c ∈ kept) as Hkept.
  { intros c Hc. apply list_elem_of_filter. split; [by apply bool_decide_eq_true|auto]. }
  assert (∃ cl1, read_seq_column df0 name None cl' = Ok (df0, cl1) ∧
                 (∀ c, c ∈ cl1 → c ∈ columns df0) ∧ (∀ c, c ∈ cl' → c ∈ cl1))
    as (cl1 & -> & Hcl1 & Hsub).
  { unfold read_seq_column. destruct (has_col df0 "SEQ") eqn:Hseq.
    - exists (with_seq cl'). split; [done|]. unfold with_seq.
      apply has_col_true in Hseq. case_bool_decide.
      + split; [|done]. intros c Hc. rewrite Hcols0. auto.
      + split.
        * intros c [Hc|Hc]%elem_of_app; [rewrite Hcols0; auto|].
          apply list_elem_of_singleton in Hc as ->. done.
        * intros c Hc. apply elem_of_app. by left.
    - exists cl'. split; [done|]. split; [|done]. intros c Hc. rewrite Hcols0. auto. }
  cbn [bind].
  assert (default_columns df0 = Ok df0) as ->.
  { unfold default_columns.
    rewrite (proj2 (has_col_true df0 "SVLEN"))
      by (rewrite Hcols0; apply Hkept, Hhead'; unfold head_cols; in_list).
    cbn [bind].
    by rewrite (proj2 (has_col_true df0 "SVTYPE"))
      by (rewrite Hcols0; apply Hkept, Hhead'; unfold head_cols; in_list). }
  cbn [bind].
  set (df2 := Frame cl1 ((λ lr : cell * row, (lr.1, restrict cl1 lr.2)) <$> body df0)).
  assert (order_variant_columns df0 (Some cl1) None false true = Ok df2) as ->.
  { unfold order_variant_columns, check_present. simpl.
    rewrite (filter_all_nil (λ c, c ∉ columns df0) cl1) by (intros c Hc Hn; auto).
    simpl. rewrite filter_nil.
    rewrite bool_decide_eq_false_2.
    2:{ intros [Hlen _]. apply length_zero_iff_nil in Hlen.
        assert ("ID" ∈ cl1) as Hin by (apply Hsub, Hhead'; unfold head_cols; in_list).
        rewrite Hlen in Hin. by apply not_elem_of_nil in Hin. }
    unfold select_cols. rewrite !app_nil_r.
    by rewrite (filter_all_nil (λ c, c ∉ columns df0) cl1) by (intros c Hc Hn; auto). }
  cbn [bind]. exists df2. split; [reflexivity|].
  assert (rows df2 = (λ r, restrict cl1 (restrict kept r)) <$> selected bed chrom) as Hrows2.
  { unfold rows, df2. simpl. rewrite <-list_fmap_compose.
    transitivity (restrict cl1 <$> rows df0).
    { unfold rows. rewrite <-list_fmap_compose. by apply list_fmap_ext. }
    rewrite Hrows0, <-list_fmap_compose. by apply list_fmap_ext. }
  assert (∀ c, c ∈ head_cols ∨ c ∈ cl → c ∈ cl') as Hany by (intros c [?|?]; auto).
  split.
  - intros c Hc. apply Hsub, Hany, Hc.
  - intros c Hc. rewrite Hrows2, <-list_fmap_compose. apply list_fmap_ext.
    intros i r _. simpl. rewrite !at_col_restrict; auto.
Qed.

Lemma cell_lt_int_spec (z : Z) :
  cell_lt_int (CInt z) 0 = Ok (bool_decide (z < 0)).
Proof.
  simpl. f_equal. apply bool_decide_ext.
  unfold Qc_of, Qclt. simpl. by rewrite <-Zlt_Qlt.
Qed.

(** X5: on a table of typed records that has the columns asked for,
    [read_variant_table] raises "Negative SVLEN entries" when a record read has
    a negative length; otherwise it raises "Found IDs with duplicates" when two
    records read share an ID; otherwise it returns the records sorted by
    chromosome, position, length and ID, each labelled by its ID. *)
Theorem read_variant_table_checks (bed : frame) (name : string)
    (chrom : option string) (cl : list string) :
  (∀ c, c ∈ head_cols → c ∈ columns bed) →
  (∀ c, c ∈ cl → c ∈ columns bed) →
  Forall typed_record (selected bed chrom) →
  let ids := (λ r, at_col r "ID") <$> selected bed chrom in
  (Exists negative_length (selected bed chrom) ∧
   read_variant_table bed name chrom None cl
   = Raise (RuntimeError "Negative SVLEN entries"))
  ∨ (Forall valid_record (selected bed chrom) ∧ ¬ NoDup ids ∧
     read_variant_table bed name chrom None cl
     = Raise (RuntimeError ("Found IDs with duplicates in sample " +:+ name)))
  ∨ (Forall valid_record (selected bed chrom) ∧ NoDup ids ∧
     ∃ df, read_variant_table bed name chrom None cl = Ok df ∧
           (λ r, at_col r "ID") <$> rows df ≡ₚ ids ∧
           StronglySorted
             (λ a b, row_lt (ascending ["#CHROM"; "POS"; "SVLEN"; "ID"]) b a = false)
             (rows df) ∧
           Forall (λ lr, lr.1 = at_col lr.2 "ID") (body df)).
Proof.
  intros Hhead Hcl Htyped ids.
  destruct (read_variant_table_loaded bed name chrom cl Hhead Hcl)
    as (df2 & -> & Hcols2 & Hcol2).
  assert (∀ c, c ∈ ["#CHROM"; "POS"; "SVLEN"; "ID"] → c ∈ head_cols) as Hkey.
  { intros c Hc%list_elem_of_In. simpl in Hc. unfold head_cols; in_list. }
  unfold check_and_index.
  assert (col df2 "SVLEN" = Ok ((λ r, at_col r "SVLEN") <$> rows df2)) as ->.
  { unfold col. by rewrite (proj2 (has_col_true df2 "SVLEN"))
      by (apply Hcols2; left; unfold head_cols; in_list). }
  cbn [bind].
  rewrite (map_each_total _ (λ c, flt (num_of c) (Fin (Qc_of 0)))).
  2:{ intros x Hx. rewrite Hcol2 in Hx by (left; unfold head_cols; in_list).
      apply list_elem_of_fmap in Hx as (r & -> & Hr).
      rewrite Forall_forall in Htyped.
      destruct (Htyped r Hr) as (_ & _ & (z & ->) & _). reflexivity. }
  cbn [bind].
  rewrite (Hcol2 "SVLEN") by (left; unfold head_cols; in_list).
  destruct (existsb id _) eqn:Hneg.
  { left. split; [|reflexivity].
    apply existsb_exists in Hneg as (b & Hb%list_elem_of_In & Hid).
    apply list_elem_of_fmap in Hb as (a & -> & (r & -> & Hr)%list_elem_of_fmap).
    apply Exists_exists. exists r. split; [done|].
    rewrite Forall_forall in Htyped.
    destruct (Htyped r Hr) as (_ & _ & (z & Hz) & _). exists z. split; [done|].
    unfold id in Hid. rewrite Hz in Hid.
    assert (cell_lt_int (CInt z) 0 = Ok true) as Hlt by exact (f_equal Ok Hid).
    rewrite cell_lt_int_spec in Hlt. injection Hlt as Hlt.
    by apply bool_decide_eq_true in Hlt. }
  right.
  assert (Forall valid_record (selected bed chrom)) as Hvalid.
  { apply Forall_forall. intros r Hr. rewrite Forall_forall in Htyped.
    destruct (Htyped r Hr) as (H1 & H2 & (z & Hz) & H4).
    split_and!; [done|done| |done]. exists z. split; [done|].
    destruct (decide (0 ≤ z)) as [|Hn]; [done|]. exfalso.
    assert (existsb id ((λ c, flt (num_of c) (Fin (Qc_of 0)))
                          <$> ((λ r, at_col r "SVLEN") <$> selected bed chrom)) = true)
      as Hex; [|congruence].
    apply existsb_exists. exists true. split; [|done].
    apply list_elem_of_In, list_elem_of_fmap. exists (at_col r "SVLEN").
    split; [|apply list_elem_of_fmap; by exists r].
    rewrite Hz.
    assert (cell_lt_int (CInt z) 0 = Ok true) as Hlt.
    { rewrite cell_lt_int_spec. f_equal. apply bool_decide_eq_true. lia. }
    injection Hlt as Hlt. symmetry. exact Hlt. }
  assert (∀ c, c ∈ ["#CHROM"; "POS"; "SVLEN"; "ID"] →
               c ∈ columns df2 ∧ ∃ k, ∀ r, r ∈ rows df2 → of_kind k (at_col r c)) as Hkinds.
  { intros c Hc. split; [apply Hcols2; left; apply Hkey, Hc|].
    destruct (valid_record_kinds _ c Hvalid Hc) as [k Hk]. exists k.
    intros r Hr.
    assert (at_col r c ∈ (λ r, at_col r c) <$> rows df2) as Hin.
    { apply list_elem_of_fmap. by exists r. }
    rewrite Hcol2 in Hin by (left; apply Hkey, Hc).
    apply list_elem_of_fmap in Hin as (r0 & -> & Hr0). by apply Hk. }
  destruct (sort_values_total_ok (ascending ["#CHROM"; "POS"; "SVLEN"; "ID"]) df2)
    as (df3 & Hsort & Hcols3 & Hbody3).
  { rewrite ascending_fst. apply Hkinds. }
  rewrite Hsort. cbn [bind].
  assert ((λ r, at_col r "ID") <$> rows df3 ≡ₚ ids) as Hids.
  { unfold ids. rewrite <-(Hcol2 "ID") by (left; unfold head_cols; in_list).
    unfold rows. by rewrite Hbody3. }
  unfold col.
  assert (has_col df3 "ID" = true) as Hid3.
  { apply has_col_true. rewrite Hcols3. apply Hkinds. in_list. }
  rewrite Hid3. cbn [bind].
  destruct (join_duplicates_strings ((λ r, at_col r "ID") <$> rows df3) 3) as [shown Hshown].
  { intros c Hc. rewrite Hids in Hc. unfold ids in Hc.
    apply list_elem_of_fmap in Hc as (r & -> & Hr).
    rewrite Forall_forall in Htyped. by destruct (Htyped r Hr) as (_ & _ & _ & ?). }
  destruct (duplicates _) as [|d ds] eqn:Hdup.
  - right. apply duplicates_nil in Hdup. rewrite Hids in Hdup.
    split_and!; [done|done|].
    unfold set_index. rewrite Hid3. eexists. split; [reflexivity|].
    assert (∀ b : list (cell * row),
              ((λ lr : cell * row, (at_col lr.2 "ID", lr.2)) <$> b).*2 = b.*2) as Hsnd.
    { intros b. rewrite <-list_fmap_compose. by apply list_fmap_ext. }
    split_and!.
    + rewrite <-Hids. unfold rows. simpl. by rewrite Hsnd.
    + apply sort_values_sorted in Hsort. unfold rows in *. simpl. by rewrite Hsnd.
    + simpl. apply Forall_fmap, Forall_forall. by intros lr _.
  - left. split_and!; [done| |by rewrite Hshown].
    intros Hnd. rewrite <-Hids in Hnd. apply duplicates_nil in Hnd. congruence.
Qed.

Lemma read_variant_table_checks_witness :
  let bed := example_bed in
  let ids := (λ r, at_col r "ID") <$> selected bed (Some "chr1") in
  (Exists negative_length (selected bed (Some "chr1")) ∧
   read_variant_table bed "A" (Some "chr1") None ["QUAL"]
   = Raise (RuntimeError "Negative SVLEN entries"))
  ∨ (Forall valid_record (selected bed (Some "chr1")) ∧ ¬ NoDup ids ∧
     read_variant_table bed "A" (Some "chr1") None ["QUAL"]
     = Raise (RuntimeError ("Found IDs with duplicates in sample " +:+ "A")))
  ∨ (Forall valid_record (selected bed (Some "chr1")) ∧ NoDup ids ∧
     ∃ df, read_variant_table bed "A" (Some "chr1") None ["QUAL"] = Ok df ∧
           (λ r, at_col r "ID") <$> rows df ≡ₚ ids ∧
           StronglySorted
             (λ a b, row_lt (ascending ["#CHROM"; "POS"; "SVLEN"; "ID"]) b a = false)
             (rows df) ∧
           Forall (λ lr, lr.1 = at_col lr.2 "ID") (body df)).
Proof.
  apply (read_variant_table_checks example_bed "A" (Some "chr1") ["QUAL"]).
  - apply Forall_forall. apply (bool_decide_unpack _). vm_compute. exact I.
  - apply Forall_forall. apply (bool_decide_unpack _). vm_compute. exact I.
  - repeat constructor; eexists; vm_compute; reflexivity.
Defined.

Lemma columns_read_csv_chrom (bed : frame) (chrom : option string)
    (usecols : string → bool) :
  columns (read_csv_chrom bed chrom usecols)
  = filter (λ c, usecols c = true) (columns bed).
Proof. unfold read_csv_chrom. by destruct chrom. Qed.

(** X6: when the sample table has [SVLEN] but lacks another column that is
    asked for (other than [SVTYPE], which gets a default, and [SEQ]), reading
    it without a FASTA ends in a [NameError]: the handler of the error that
    [order_variant_columns] raises names the class [RuntimeException], which
    is not defined. *)
Theorem read_variant_table_missing_column (bed : frame) (name : string)
    (chrom : option string) (cl : list string) (c : string) :
  "SVLEN" ∈ columns bed →
  c ∈ head_cols ++ cl → c ≠ "SVTYPE" → c ∉ columns bed →
  read_variant_table bed name chrom None cl
  = Raise (NameError "name 'RuntimeException' is not defined").
Proof.
  intros Hsvlen Hc Hty Hmiss. unfold read_variant_table.
  set (cl' := head_cols ++ filter (λ c, c ∉ head_cols) cl).
  set (usecols := λ c : string, bool_decide (c ∈ cl')).
  set (df0 := read_csv_chrom bed chrom usecols).
  assert (c ∈ cl') as Hc'.
  { apply elem_of_app in Hc as [Hc|Hc]; apply elem_of_app; [by left|].
    destruct (decide (c ∈ head_cols)); [by left|]. right. by apply list_elem_of_filter. }
  assert (columns df0 = filter (λ c, usecols c = true) (columns bed)) as Hcols0
    by apply columns_read_csv_chrom.
  assert (c ∉ columns df0) as Hmiss0.
  { rewrite Hcols0. by intros [_ ?]%list_elem_of_filter. }
  assert ("SVLEN" ∈ columns df0) as Hsvlen0.
  { rewrite Hcols0. apply list_elem_of_filter. split; [|done].
    apply bool_decide_eq_true, elem_of_app. left. unfold head_cols. in_list. }
  assert (∃ cl1, read_seq_column df0 name None cl' = Ok (df0, cl1) ∧ c ∈ cl1)
    as (cl1 & -> & Hc1).
  { unfold read_seq_column, with_seq.
    destruct (has_col df0 "SEQ"); [case_bool_decide|]; eexists; (split; [done|]);
      [done| |done].
    apply elem_of_app. by left. }
  cbn [bind].
  assert (∃ df1, default_columns df0 = Ok df1 ∧ c ∉ columns df1) as (df1 & -> & Hmiss1).
  { unfold default_columns. rewrite (proj2 (has_col_true df0 "SVLEN") Hsvlen0).
    cbn [bind]. destruct (has_col df0 "SVTYPE"); eexists; (split; [done|]); [done|].
    rewrite columns_set_col. intros [Hin|Heq]%elem_of_add_col; [done|congruence]. }
  cbn [bind]. unfold order_variant_columns, check_present. simpl.
  destruct (filter (λ c0, c0 ∉ columns df1) cl1) as [|m ms] eqn:Hf; [|reflexivity].
  exfalso. assert (c ∈ filter (λ c0, c0 ∉ columns df1) cl1) as Hin
    by by apply list_elem_of_filter.
  rewrite Hf in Hin. by apply not_elem_of_nil in Hin.
Qed.

Lemma read_variant_table_missing_column_witness :
  read_variant_table example_bed "A" None None ["GT"]
  = Raise (NameError "name 'RuntimeException' is not defined").
Proof.
  apply (read_variant_table_missing_column example_bed "A" None ["GT"] "GT").
  - apply (bool_decide_unpack _). vm_compute. exact I.
  - apply (bool_decide_unpack _). vm_compute. exact I.
  - done.
  - apply (bool_decide_unpack _). vm_compute. exact I.
Defined.

Lemma get_in_range (s : string) (n : nat) :
  (n < String.length s)%nat → ∃ c, String.get n s = Some c.
Proof.
  revert n. induction s as [|a s IH]; intros n Hn; simpl in Hn; [lia|].
  destruct n as [|n]; simpl; [by eexists|]. apply IH. lia.
Qed.

Lemma get_out_of_range (s : string) (n : nat) :
  (String.length s ≤ n)%nat → String.get n s = None.
Proof.
  revert n. induction s as [|a s IH]; intros n Hn; simpl in *; [done|].
  destruct n as [|n]; [lia|]. apply IH. lia.
Qed.

Lemma item_from_start (s : string) (i : Z) :
  0 ≤ i < Z.of_nat (String.length s) →
  ∃ c, String.get (Z.to_nat i) s = Some c ∧ item s i = Value c.
Proof.
  intros Hi. destruct (get_in_range s (Z.to_nat i)) as [c Hc]; [lia|].
  exists c. split; [done|]. unfold item.
  rewrite (proj2 (Z.ltb_ge i 0)) by lia.
  rewrite (proj2 (Z.leb_le 0 i)), (proj2 (Z.ltb_lt i _)) by lia.
  simpl. by rewrite Hc.
Qed.

Lemma item_from_end (s : string) (m : Z) :
  0 ≤ m < Z.of_nat (String.length s) →
  ∃ c, String.get (Z.to_nat ((- m) mod Z.of_nat (String.length s))) s = Some c ∧
       item s (- m) = Value c.
Proof.
  intros Hm. set (n := Z.of_nat (String.length s)) in *.
  destruct (decide (m = 0)) as [->|Hnz].
  - rewrite Z.opp_0, Z.mod_0_l by lia. apply (item_from_start s 0). fold n. lia.
  - assert ((- m) mod n = n - m) as ->.
    { rewrite Z_mod_nz_opp_full by (rewrite Z.mod_small; lia).
      rewrite Z.mod_small; lia. }
    destruct (get_in_range s (Z.to_nat (n - m))) as [c Hc]; [lia|].
    exists c. split; [done|]. unfold item. fold n.
    rewrite (proj2 (Z.ltb_lt (- m) 0)) by lia.
    rewrite (proj2 (Z.leb_le 0 (- m + n))), (proj2 (Z.ltb_lt (- m + n) n)) by lia.
    simpl. replace (- m + n) with (n - m) by lia. by rewrite Hc.
Qed.

Lemma left_loop_spec (pos_tig : Z) (seq_tig seq_sv : string) (fuel : nat) (k : Z) :
  pos_tig < Z.of_nat (String.length seq_tig) → seq_sv ≠ EmptyString →
  0 ≤ k ≤ pos_tig + 1 → pos_tig + 1 - k ≤ Z.of_nat fuel →
  ∃ h, left_loop fuel pos_tig seq_tig seq_sv k = Value h ∧ k ≤ h ≤ pos_tig + 1 ∧
       (∀ i, k ≤ i < h → left_match pos_tig seq_tig seq_sv i = true) ∧
       (h ≤ pos_tig → left_match pos_tig seq_tig seq_sv h = false).
Proof.
  intros Htig Hsv. revert k.
  assert (0 < Z.of_nat (String.length seq_sv)) as Hlen.
  { destruct seq_sv; [done|]. simpl. lia. }
  induction fuel as [|fuel IH]; intros k Hk Hfuel.
  - exists k. assert (k = pos_tig + 1) as -> by lia. simpl.
    rewrite (proj2 (Z.leb_gt _ _)) by lia. split; [done|]. split; [lia|].
    split; intros; lia.
  - cbn [left_loop]. destruct (Z.leb_spec k pos_tig) as [Hle|Hgt].
    2:{ exists k. split; [done|]. split; [lia|]. split; intros; lia. }
    destruct (item_from_start seq_tig (pos_tig - k)) as (a & Ha & ->); [lia|].
    cbn [and_then].
    destruct (is_acgt a) eqn:Hacgt; cbn [negb].
    2:{ exists k. split; [done|]. split; [lia|]. split; [intros; lia|].
        intros _. unfold left_match. rewrite Ha, Hacgt. by destruct (String.get _ seq_sv). }
    unfold py_mod. rewrite (proj2 (Z.eqb_neq _ 0)) by lia. cbn [and_then].
    destruct (item_from_end seq_sv ((k + 1) mod Z.of_nat (String.length seq_sv)))
      as (b & Hb & ->); [apply Z.mod_pos_bound; lia|].
    assert (∀ x n, (- (x mod n)) mod n = (- x) mod n) as Hopp.
    { intros x n. rewrite <-!Z.sub_0_l. apply Zminus_mod_idemp_r. }
    rewrite Hopp in Hb.
    cbn [and_then].
    assert (left_match pos_tig seq_tig seq_sv k = Ascii.eqb b a) as Hmk.
    { unfold left_match. by rewrite Ha, Hb, Hacgt. }
    destruct (Ascii.eqb b a) eqn:Hba; cbn [negb].
    2:{ exists k. split; [done|]. split; [lia|]. split; [intros; lia|]. done. }
    destruct (IH (k + 1)) as (h & -> & Hh & Hall & Hmax); [lia|lia|].
    exists h. split; [done|]. split; [lia|]. split; [|done].
    intros i Hi. destruct (decide (i = k)) as [->|]; [done|]. apply Hall. lia.
Qed.

Lemma right_loop_spec (pos_tig : Z) (seq_tig seq_sv : string) (fuel : nat) (k : Z) :
  0 ≤ pos_tig → seq_sv ≠ EmptyString →
  0 ≤ k → Z.of_nat (String.length seq_tig) - pos_tig - k ≤ Z.of_nat fuel →
  ∃ h, right_loop fuel pos_tig seq_tig seq_sv k = Value h ∧
       k ≤ h ≤ Z.max k (Z.of_nat (String.length seq_tig) - pos_tig) ∧
       (∀ i, k ≤ i < h → right_match pos_tig seq_tig seq_sv i = true) ∧
       (pos_tig + h < Z.of_nat (String.length seq_tig) →
        right_match pos_tig seq_tig seq_sv h = false).
Proof.
  intros Hpos Hsv. revert k.
  assert (0 < Z.of_nat (String.length seq_sv)) as Hlen.
  { destruct seq_sv; [done|]. simpl. lia. }
  induction fuel as [|fuel IH]; intros k Hk Hfuel.
  - exists k. simpl. rewrite (proj2 (Z.ltb_ge _ _)) by lia.
    split; [done|]. split; [lia|]. split; intros; lia.
  - cbn [right_loop]. destruct (Z.ltb_spec k (Z.of_nat (String.length seq_tig) - pos_tig))
      as [Hlt|Hge].
    2:{ exists k. split; [done|]. split; [lia|]. split; intros; lia. }
    destruct (item_from_start seq_tig (pos_tig + k)) as (a & Ha & ->); [lia|].
    cbn [and_then].
    destruct (is_acgt a) eqn:Hacgt; cbn [negb].
    2:{ exists k. split; [done|]. split; [lia|]. split; [intros; lia|].
        intros _. unfold right_match. rewrite Ha, Hacgt. by destruct (String.get _ seq_sv). }
    unfold py_mod. rewrite (proj2 (Z.eqb_neq _ 0)) by lia. cbn [and_then].
    destruct (item_from_start seq_sv (k mod Z.of_nat (String.length seq_sv)))
      as (b & Hb & ->); [apply Z.mod_pos_bound; lia|].
    cbn [and_then].
    assert (right_match pos_tig seq_tig seq_sv k = Ascii.eqb b a) as Hmk.
    { unfold right_match. by rewrite Ha, Hb, Hacgt. }
    destruct (Ascii.eqb b a) eqn:Hba; cbn [negb].
    2:{ exists k. split; [done|]. split; [lia|]. split; [intros; lia|]. done. }
    destruct (IH (k + 1)) as (h & -> & Hh & Hall & Hmax); [lia|lia|].
    exists h. split; [done|]. split; [lia|]. split; [|done].
    intros i Hi. destruct (decide (i = k)) as [->|]; [done|]. apply Hall. lia.
Qed.

(** X7: for a position before the end of the contig and a variant sequence
    that is not empty, [left_homology] returns a length [h] between 0 and
    [pos_tig + 1] such that each of the [h] bases of the contig from
    [pos_tig] leftwards is one of A, C, G, T and equals the base of the
    variant sequence at the same distance from its end, going round; the
    count is maximal: the next base to the left, if there is one, does not
    match. *)
Theorem left_homology_spec (pos_tig : Z) (seq_tig seq_sv : string) :
  pos_tig < Z.of_nat (String.length seq_tig) → seq_sv ≠ EmptyString →
  ∃ h, left_homology pos_tig (Some seq_tig) (Some seq_sv) = Value h ∧
       0 ≤ h ≤ Z.max 0 (pos_tig + 1) ∧
       (∀ i, 0 ≤ i < h → left_match pos_tig seq_tig seq_sv i = true) ∧
       (h ≤ pos_tig → left_match pos_tig seq_tig seq_sv h = false).
Proof.
  intros Htig Hsv. unfold left_homology.
  destruct (decide (0 ≤ pos_tig)) as [Hpos|Hneg].
  - destruct (left_loop_spec pos_tig seq_tig seq_sv (Z.to_nat (pos_tig + 1)) 0)
      as (h & -> & Hh & Hall & Hmax); [done|done|lia|lia|].
    exists h. split; [done|]. split; [lia|]. done.
  - exists 0. replace (Z.to_nat (pos_tig + 1)) with 0%nat by lia. simpl.
    rewrite (proj2 (Z.leb_gt _ _)) by lia. split; [done|]. split; [lia|].
    split; intros; lia.
Qed.

Lemma left_homology_spec_witness :
  ∃ h, left_homology 5 (Some "TTACGACG") (Some "GAC") = Value h ∧
       0 ≤ h ≤ Z.max 0 (5 + 1) ∧
       (∀ i, 0 ≤ i < h → left_match 5 "TTACGACG" "GAC" i = true) ∧
       (h ≤ 5 → left_match 5 "TTACGACG" "GAC" h = false).
Proof.
  apply (left_homology_spec 5 "TTACGACG" "GAC"); [vm_compute; reflexivity|done].
Defined.

(** X8: for a position that is not negative and a variant sequence that is
    not empty, [right_homology] returns a length [h], at most the number of
    bases from [pos_tig] to the end of the contig, such that each of the [h]
    bases of the contig from [pos_tig] rightwards is one of A, C, G, T and
    equals the base of the variant sequence at the same distance from its
    start, going round; the count is maximal. *)
Theorem right_homology_spec (pos_tig : Z) (seq_tig seq_sv : string) :
  0 ≤ pos_tig → seq_sv ≠ EmptyString →
  ∃ h, right_homology pos_tig (Some seq_tig) (Some seq_sv) = Value h ∧
       0 ≤ h ≤ Z.max 0 (Z.of_nat (String.length seq_tig) - pos_tig) ∧
       (∀ i, 0 ≤ i < h → right_match pos_tig seq_tig seq_sv i = true) ∧
       (pos_tig + h < Z.of_nat (String.length seq_tig) →
        right_match pos_tig seq_tig seq_sv h = false).
Proof.
  intros Hpos Hsv. unfold right_homology.
  destruct (right_loop_spec pos_tig seq_tig seq_sv
              (Z.to_nat (Z.of_nat (String.length seq_tig) - pos_tig)) 0)
    as (h & -> & Hh & Hall & Hmax); [done|done|lia|lia|].
  exists h. split; [done|]. split; [lia|]. done.
Qed.

Lemma right_homology_spec_witness :
  ∃ h, right_homology 2 (Some "TTACGACGAT") (Some "ACG") = Value h ∧
       0 ≤ h ≤ Z.max 0 (Z.of_nat (String.length "TTACGACGAT") - 2) ∧
       (∀ i, 0 ≤ i < h → right_match 2 "TTACGACGAT" "ACG" i = true) ∧
       (2 + h < Z.of_nat (String.length "TTACGACGAT") →
        right_match 2 "TTACGACGAT" "ACG" h = false).
Proof.
  apply (right_homology_spec 2 "TTACGACGAT" "ACG"); [lia|done].
Defined.

Lemma get_lookup (s : string) (n : nat) :
  String.get n s = String.list_ascii_of_string s !! n.
Proof.
  revert n. induction s as [|a s IH]; intros [|n]; simpl; try done.
Qed.

Lemma length_list_ascii (s : string) :
  length (String.list_ascii_of_string s) = String.length s.
Proof. induction s as [|a s IH]; simpl; [done|]. by rewrite IH. Qed.

Lemma list_ascii_rev_app (s1 s2 : string) :
  String.list_ascii_of_string (String.rev_app s1 s2)
  = reverse (String.list_ascii_of_string s1) ++ String.list_ascii_of_string s2.
Proof.
  revert s2. induction s1 as [|a s1 IH]; intros s2; simpl; [done|].
  rewrite IH, reverse_cons. simpl. by rewrite <-app_assoc.
Qed.

Lemma list_ascii_rev (s : string) :
  String.list_ascii_of_string (String.rev s) = reverse (String.list_ascii_of_string s).
Proof. unfold String.rev. rewrite list_ascii_rev_app. simpl. by rewrite app_nil_r. Qed.

Lemma length_rev (s : string) : String.length (String.rev s) = String.length s.
Proof. by rewrite <-!length_list_ascii, list_ascii_rev, length_reverse. Qed.

Lemma get_rev (s : string) (n : nat) :
  (n < String.length s)%nat →
  String.get n (String.rev s) = String.get (String.length s - 1 - n) s.
Proof.
  intros Hn. rewrite !get_lookup, list_ascii_rev.
  rewrite reverse_lookup by (rewrite length_list_ascii; lia).
  rewrite length_list_ascii. f_equal. lia.
Qed.

Lemma opp_succ_mod (k n : Z) : 0 < n → (- (k + 1)) mod n = n - 1 - k mod n.
Proof.
  intros Hn. symmetry. apply (Z.mod_unique_pos _ _ (- (k / n) - 1)).
  - pose proof (Z.mod_pos_bound k n Hn). lia.
  - pose proof (Z.div_mod k n ltac:(lia)). lia.
Qed.

Lemma item_rev (s : string) (i : Z) :
  0 ≤ i < Z.of_nat (String.length s) →
  item (String.rev s) (Z.of_nat (String.length s) - 1 - i) = item s i.
Proof.
  intros Hi.
  destruct (item_from_start s i) as (c & Hc & ->); [done|].
  destruct (item_from_start (String.rev s) (Z.of_nat (String.length s) - 1 - i))
    as (c' & Hc' & ->); [rewrite length_rev; lia|].
  rewrite get_rev in Hc' by lia.
  replace (String.length s - 1 - Z.to_nat (Z.of_nat (String.length s) - 1 - i))%nat
    with (Z.to_nat i) in Hc' by lia.
  congruence.
Qed.

Lemma item_rev_round (s : string) (k : Z) :
  0 < Z.of_nat (String.length s) →
  item s (- ((k + 1) mod Z.of_nat (String.length s)))
  = item (String.rev s) (k mod Z.of_nat (String.length s)).
Proof.
  intros Hn. set (n := Z.of_nat (String.length s)) in *.
  pose proof (Z.mod_pos_bound k n Hn) as Hk.
  destruct (item_from_end s ((k + 1) mod n)) as (c & Hc & ->);
    [apply Z.mod_pos_bound; done|]. fold n in Hc.
  assert ((- ((k + 1) mod n)) mod n = n - 1 - k mod n) as Hidx.
  { rewrite <-(opp_succ_mod k n Hn), <-!Z.sub_0_l. apply Zminus_mod_idemp_r. }
  rewrite Hidx in Hc.
  destruct (item_from_start (String.rev s) (k mod n)) as (c' & Hc' & Heq);
    [rewrite length_rev; fold n; lia|].
  rewrite Heq. rewrite get_rev in Hc' by lia.
  replace (String.length s - 1 - Z.to_nat (k mod n))%nat
    with (Z.to_nat (n - 1 - k mod n)) in Hc' by lia.
  congruence.
Qed.

Lemma left_loop_mirror (pos_tig : Z) (seq_tig seq_sv : string) (fuel : nat) (k : Z) :
  pos_tig < Z.of_nat (String.length seq_tig) → 0 ≤ k →
  left_loop fuel pos_tig seq_tig seq_sv k
  = right_loop fuel (Z.of_nat (String.length seq_tig) - 1 - pos_tig)
               (String.rev seq_tig) (String.rev seq_sv) k.
Proof.
  intros Htig. revert k. induction fuel as [|fuel IH]; intros k Hk.
  - simpl. rewrite length_rev.
    destruct (Z.leb_spec k pos_tig), (Z.ltb_spec k
      (Z.of_nat (String.length seq_tig) - (Z.of_nat (String.length seq_tig) - 1 - pos_tig)));
      first [done|lia].
  - cbn [left_loop right_loop]. rewrite !length_rev.
    destruct (Z.leb_spec k pos_tig), (Z.ltb_spec k
      (Z.of_nat (String.length seq_tig) - (Z.of_nat (String.length seq_tig) - 1 - pos_tig)));
      first [done|lia|idtac].
    rewrite <-(item_rev seq_tig (pos_tig - k)) by lia.
    replace (Z.of_nat (String.length seq_tig) - 1 - (pos_tig - k))
      with (Z.of_nat (String.length seq_tig) - 1 - pos_tig + k) by lia.
    destruct (item (String.rev seq_tig) _) as [a| |]; cbn [and_then]; [|done..].
    destruct (is_acgt a); cbn [negb]; [|done].
    unfold py_mod. destruct (Z.eqb_spec (Z.of_nat (String.length seq_sv)) 0) as [|Hnz];
      [done|]. cbn [and_then].
    rewrite item_rev_round by lia.
    destruct (item (String.rev seq_sv) _) as [b| |]; cbn [and_then]; [|done..].
    destruct (Ascii.eqb b a); cbn [negb]; [|done].
    apply IH. lia.
Qed.

(** X9: the two searches mirror each other: for a position on the contig,
    [left_homology] gives what [right_homology] gives on the reversed contig
    and the reversed variant sequence at the mirrored position, whether a
    length or an exception. *)
Theorem left_homology_mirror (pos_tig : Z) (seq_tig seq_sv : string) :
  0 ≤ pos_tig < Z.of_nat (String.length seq_tig) →
  left_homology pos_tig (Some seq_tig) (Some seq_sv)
  = right_homology (Z.of_nat (String.length seq_tig) - 1 - pos_tig)
                   (Some (String.rev seq_tig)) (Some (String.rev seq_sv)).
Proof.
  intros Hpos. unfold left_homology, right_homology.
  rewrite length_rev.
  replace (Z.to_nat (Z.of_nat (String.length seq_tig)
                     - (Z.of_nat (String.length seq_tig) - 1 - pos_tig)))
    with (Z.to_nat (pos_tig + 1)) by lia.
  apply left_loop_mirror; lia.
Qed.

Lemma left_homology_mirror_witness :
  left_homology 5 (Some "TTACGACG") (Some "GAC")
  = right_homology (Z.of_nat (String.length "TTACGACG") - 1 - 5)
                   (Some (String.rev "TTACGACG")) (Some (String.rev "GAC")).
Proof. apply (left_homology_mirror 5 "TTACGACG" "GAC"). vm_compute. by split. Defined.

(** X10: one place past the end of the contig, or further, [left_homology]
    raises [IndexError] while [right_homology] returns 0, whatever the variant
    sequence. *)
Theorem homology_past_the_end (pos_tig : Z) (seq_tig seq_sv : string) :
  Z.of_nat (String.length seq_tig) ≤ pos_tig →
  left_homology pos_tig (Some seq_tig) (Some seq_sv)
  = Error (IndexError "string index out of range") ∧
  right_homology pos_tig (Some seq_tig) (Some seq_sv) = Value 0.
Proof.
  intros Hpos. unfold left_homology, right_homology. split.
  - destruct (Z.to_nat (pos_tig + 1)) as [|fuel] eqn:Hf; [lia|].
    cbn [left_loop]. rewrite (proj2 (Z.leb_le 0 pos_tig)) by lia.
    unfold item. rewrite Z.sub_0_r.
    rewrite (proj2 (Z.ltb_ge pos_tig 0)) by lia.
    rewrite (proj2 (Z.ltb_ge pos_tig _)) by lia.
    by rewrite andb_false_r.
  - replace (Z.to_nat (Z.of_nat (String.length seq_tig) - pos_tig)) with 0%nat by lia.
    simpl. by rewrite (proj2 (Z.ltb_ge 0 _)) by lia.
Qed.

Lemma homology_past_the_end_witness :
  left_homology 4 (Some "ACGT") (Some "GT")
  = Error (IndexError "string index out of range") ∧
  right_homology 4 (Some "ACGT") (Some "GT") = Value 0.
Proof. apply (homology_past_the_end 4 "ACGT" "GT"). vm_compute. discriminate. Defined.

(** X11: with an empty variant sequence both searches raise
    [ZeroDivisionError] when the base of the contig at [pos_tig] is one of A,
    C, G, T, and return 0 when it is another character. *)
Theorem homology_empty_sequence (pos_tig : Z) (seq_tig : string) (base : ascii) :
  0 ≤ pos_tig →
  String.get (Z.to_nat pos_tig) seq_tig = Some base →
  let res := if is_acgt base
             then Error (Builtin (ZeroDivisionError "integer division or modulo by zero"))
             else Value 0 in
  left_homology pos_tig (Some seq_tig) (Some EmptyString) = res ∧
  right_homology pos_tig (Some seq_tig) (Some EmptyString) = res.
Proof.
  intros Hpos Hget res.
  assert (pos_tig < Z.of_nat (String.length seq_tig)) as Hlt.
  { destruct (decide (pos_tig < Z.of_nat (String.length seq_tig))) as [|Hge]; [done|].
    rewrite get_out_of_range in Hget by lia. done. }
  destruct (item_from_start seq_tig pos_tig) as (c & Hc & Hitem); [lia|].
  assert (c = base) as -> by congruence.
  unfold left_homology, right_homology. split.
  - destruct (Z.to_nat (pos_tig + 1)) as [|fuel] eqn:Hf; [lia|].
    cbn [left_loop]. rewrite (proj2 (Z.leb_le 0 pos_tig)) by lia.
    rewrite Z.sub_0_r, Hitem. cbn [and_then]. unfold res.
    by destruct (is_acgt base).
  - destruct (Z.to_nat (Z.of_nat (String.length seq_tig) - pos_tig)) as [|fuel] eqn:Hf;
      [lia|].
    cbn [right_loop]. rewrite (proj2 (Z.ltb_lt 0 _)) by lia.
    rewrite Z.add_0_r, Hitem. cbn [and_then]. unfold res.
    by destruct (is_acgt base).
Qed.

Lemma homology_empty_sequence_witness :
  let res := if is_acgt "C"
             then Error (Builtin (ZeroDivisionError "integer division or modulo by zero"))
             else Value 0 in
  left_homology 1 (Some "ACGT") (Some EmptyString) = res ∧
  right_homology 1 (Some "ACGT") (Some EmptyString) = res.
Proof. apply (homology_empty_sequence 1 "ACGT" "C"); [lia|reflexivity]. Defined.

Lemma re_split_class_unphase (gt : string) :
  re_split_class gt_sep (unphase gt) = re_split_class gt_sep gt.
Proof.
  unfold unphase. induction gt as [|c gt IH]; [done|].
  cbn [smap re_split_class]. rewrite IH.
  destruct (Ascii.eqb_spec c "|") as [->|Hne]; [done|]. done.
Qed.

(** X12: the allele count does not depend on phasing: a genotype written with
    [|] gives what the same genotype written with [/] gives. *)
Theorem gt_to_ac_unphased (gt : string) (no_call : Z) (no_call_strict : bool) :
  gt_to_ac (unphase gt) no_call no_call_strict = gt_to_ac gt no_call no_call_strict.
Proof. unfold gt_to_ac. by rewrite re_split_class_unphase. Qed.

Lemma count_alleles_range (alleles : list string) (ac0 ac : Z) :
  for_each count_allele alleles ac0 = Ok ac →
  ac0 ≤ ac ≤ ac0 + Z.of_nat (length alleles).
Proof.
  revert ac0. induction alleles as [|a l IH]; intros ac0; simpl.
  - intros [= <-]. lia.
  - intros (ac1 & H1 & H2)%bind_ok. apply IH in H2.
    assert (ac0 ≤ ac1 ≤ ac0 + 1); [|lia].
    unfold count_allele in H1. case_bool_decide.
    + destruct (int a) as [n|]; [|done]. destruct (0 <? n); injection H1 as <-; lia.
    + injection H1 as <-. lia.
Qed.

Lemma length_re_split_class (is_sep : ascii → bool) (s : string) :
  (1 ≤ length (re_split_class is_sep s))%nat.
Proof.
  induction s as [|c s IH]; simpl; [lia|].
  destruct (is_sep c); simpl; [lia|].
  destruct (re_split_class is_sep s); simpl; lia.
Qed.

(** X13: when [gt_to_ac] returns, the value is [no_call] or a count between 0
    and the number of alleles of the genotype. *)
Theorem gt_to_ac_range (gt : string) (no_call : Z) (no_call_strict : bool) (ac : Z) :
  gt_to_ac gt no_call no_call_strict = Ok ac →
  ac = no_call ∨ 0 ≤ ac ≤ Z.of_nat (length (re_split_class gt_sep gt)).
Proof.
  unfold gt_to_ac. destruct (_ && _).
  - intros [= <-]. by left.
  - intros H%count_alleles_range. right. lia.
Qed.

Lemma gt_to_ac_range_witness :
  1 = -1 ∨ 0 ≤ 1 ≤ Z.of_nat (length (re_split_class gt_sep "0|1")).
Proof. apply (gt_to_ac_range "0|1" (-1) false 1). vm_compute. reflexivity. Defined.

Lemma length_remove_dups {A : Type} `{EqDecision A} (l : list A) :
  (length (remove_dups l) ≤ length l)%nat.
Proof.
  induction l as [|x l IH]; simpl; [done|]. case_decide; simpl; lia.
Qed.

Lemma length_remove_dups_NoDup {A : Type} `{EqDecision A} (l : list A) :
  length (remove_dups l) = length l ↔ NoDup l.
Proof.
  induction l as [|x l IH]; simpl.
  - split; [constructor|done].
  - pose proof (length_remove_dups l). case_decide as Hx; simpl.
    + split; [lia|]. intros [Hn _]%NoDup_cons. done.
    + rewrite NoDup_cons. split.
      * intros Hl. split; [done|]. apply IH. lia.
      * intros [_ Hl]. apply IH in Hl. lia.
Qed.

Lemma check_series (id_row : list cell) (message : option string) :
  check_unique_ids (Series id_row) message = Ok tt ↔ NoDup id_row.
Proof.
  unfold check_unique_ids. cbn [bind].
  pose proof (length_remove_dups id_row) as Hle.
  destruct (Nat.ltb_spec (length (remove_dups id_row)) (length id_row)) as [Hlt|Hge].
  - split.
    + cbv zeta. by destruct (join_cells _ _).
    + intros Hn%length_remove_dups_NoDup. lia.
  - split; [|done]. intros _. apply length_remove_dups_NoDup. lia.
Qed.

Lemma counted_twice_elem (l : list cell) (x : cell) : x ∈ counted_twice l → x ∈ l.
Proof.
  unfold counted_twice. intros Hx. apply list_elem_of_filter in Hx as [_ Hx].
  revert Hx. generalize (@nil cell).
  induction l as [|y l IH]; intros seen; simpl; [done|].
  case_decide.
  - intros Hx%IH. by right.
  - intros [->|Hx%IH]%elem_of_cons; [left|by right].
Qed.

(** On a column of strings the check returns when the IDs are pairwise
    distinct and raises [RuntimeError] when they are not. *)
Lemma check_series_strings (id_row : list cell) (message : option string) :
  (∀ c, c ∈ id_row → ∃ s, c = CStr s) →
  (check_unique_ids (Series id_row) message = Ok tt ↔ NoDup id_row) ∧
  (¬ NoDup id_row →
   ∃ msg, check_unique_ids (Series id_row) message = Raise (RuntimeError msg)).
Proof.
  intros Hstr. split; [apply check_series|].
  intros Hnd. unfold check_unique_ids. cbn [bind].
  pose proof (length_remove_dups id_row) as Hle.
  destruct (Nat.ltb_spec (length (remove_dups id_row)) (length id_row)) as [Hlt|Hge].
  2:{ exfalso. apply Hnd, length_remove_dups_NoDup. lia. }
  cbv zeta.
  destruct (join_cells_strings ", " (take 3 (counted_twice id_row))) as [shown ->].
  { intros c Hc. apply Hstr, counted_twice_elem.
    eapply elem_of_sublist; [exact Hc|]. apply sublist_take. }
  cbn [bind]. eauto.
Qed.

(** X14: on IDs that are strings, [check_unique_ids] returns exactly when the
    IDs are pairwise distinct and raises [RuntimeError] when they are not, for
    a column of IDs and for a table with an [ID] column; a table without an
    [ID] column makes it raise [RuntimeError]. *)
Theorem check_unique_ids_passes (message : option string) :
  (∀ id_row, (∀ c, c ∈ id_row → ∃ s, c = CStr s) →
     (check_unique_ids (Series id_row) message = Ok tt ↔ NoDup id_row) ∧
     (¬ NoDup id_row →
      ∃ msg, check_unique_ids (Series id_row) message = Raise (RuntimeError msg))) ∧
  (∀ df, "ID" ∈ columns df →
     (∀ c, c ∈ (λ r, at_col r "ID") <$> rows df → ∃ s, c = CStr s) →
     (check_unique_ids (DataFrame df) message = Ok tt
      ↔ NoDup ((λ r, at_col r "ID") <$> rows df)) ∧
     (¬ NoDup ((λ r, at_col r "ID") <$> rows df) →
      ∃ msg, check_unique_ids (DataFrame df) message = Raise (RuntimeError msg))) ∧
  (∀ df, "ID" ∉ columns df →
     check_unique_ids (DataFrame df) message
     = Raise (RuntimeError "Cannot check for unique IDs is DataFrame: No ID column")).
Proof.
  split_and!.
  - intros id_row Hstr. by apply check_series_strings.
  - intros df Hid Hstr.
    assert (check_unique_ids (DataFrame df) message
            = check_unique_ids (Series ((λ r, at_col r "ID") <$> rows df)) message) as ->.
    { unfold check_unique_ids, col. by rewrite (proj2 (has_col_true df "ID") Hid). }
    by apply check_series_strings.
  - intros df Hid. unfold check_unique_ids.
    by rewrite (proj2 (has_col_false df "ID") Hid).
Qed.

Lemma check_unique_ids_passes_witness :
  check_unique_ids (Series [CStr "a"; CStr "b"]) None = Ok tt ∧
  ∃ msg, check_unique_ids (Series [CStr "a"; CStr "b"; CStr "a"]) None
         = Raise (RuntimeError msg).
Proof.
  assert (∀ l : list string, ∀ c, c ∈ CStr <$> l → ∃ s, c = CStr s) as Hstr.
  { intros l c (s & -> & _)%list_elem_of_fmap. by exists s. }
  split.
  - apply (proj1 (proj1 (check_unique_ids_passes None) [CStr "a"; CStr "b"]
                    (Hstr ["a"; "b"]))).
    apply (bool_decide_unpack _). vm_compute. exact I.
  - apply (proj2 (proj1 (check_unique_ids_passes None) [CStr "a"; CStr "b"; CStr "a"]
                    (Hstr ["a"; "b"; "a"]))).
    intros Hnd. apply NoDup_cons in Hnd as [Hn _]. apply Hn. right. left.
Defined.

(** The IDs that [version_id] returns are pairwise distinct. *)
Lemma version_id_distinct (id_col : list string) (existing : option (gset string))
    (out : list string) :
  version_id id_col existing = Ok out → NoDup out.
Proof.
  rewrite version_id_loop. cbv zeta.
  set (D := duplicated id_col existing).
  assert (∀ x, x ∉ D → (occurrences x id_col ≤ 1)%nat) as Hocc.
  { intros x Hx. unfold D in Hx. rewrite elem_of_duplicated in Hx. lia. }
  case_decide as Hsize.
  - intros [= <-]. apply size_empty_inv in Hsize.
    assert (∀ x, x ∉ D) as Hnone.
    { intros x Hx. apply Hsize in Hx. by apply not_elem_of_empty in Hx. }
    rewrite <-(filter_all_id (λ x, x ∉ D) id_col) by (intros; apply Hnone).
    apply occurrences_le_1_NoDup. intros x _ _. apply Hocc, Hnone.
  - intros ([out' ids'] & Hloop & [= <-])%bind_ok.
    eapply (version_loop_NoDup D id_col); [| |exact Hloop].
    + intros x Hx HD. destruct existing.
      * apply elem_of_union_l, elem_of_difference. split; [|done].
        by apply elem_of_list_to_set.
      * apply elem_of_difference. split; [|done]. by apply elem_of_list_to_set.
    + apply occurrences_le_1_NoDup. intros x _ HD. by apply Hocc.
Qed.

(** X15: the IDs that [version_id] returns pass [check_unique_ids]. *)
Theorem version_id_passes_check (id_col : list string)
    (existing : option (gset string)) (out : list string) (message : option string) :
  version_id id_col existing = Ok out →
  check_unique_ids (Series (CStr <$> out)) message = Ok tt.
Proof.
  intros Hnd%version_id_distinct.
  apply check_series. apply NoDup_fmap; [|done]. by intros a b [= ->].
Qed.

Lemma version_id_passes_check_witness :
  check_unique_ids (Series (CStr <$> ["a.2"; "a.3"; "b"; "a.4"])) (Some "merged")
  = Ok tt.
Proof.
  apply (version_id_passes_check ["a"; "a"; "b"; "a.1"] (Some {["a.1"]})).
  vm_compute. reflexivity.
Defined.

Lemma counter_keys_elem (seen l : list cell) (x : cell) :
  x ∈ l → x ∉ seen → x ∈ counter_keys seen l.
Proof.
  revert seen. induction l as [|y l IH]; intros seen Hx Hs; [by apply not_elem_of_nil in Hx|].
  simpl. destruct (decide (x = y)) as [->|Hne].
  - rewrite decide_False by done. left.
  - apply elem_of_cons in Hx as [?|Hx]; [done|].
    case_decide; [by apply IH|]. right. apply IH; [done|].
    intros [?|?]%elem_of_cons; done.
Qed.

Lemma counted_twice_not_nil (l : list cell) : ¬ NoDup l → counted_twice l ≠ [].
Proof.
  intros Hnd Hnil. apply Hnd. clear Hnd.
  assert (∀ x, x ∈ l → (length (filter (λ c, c = x) l) ≤ 1)%nat) as Hocc.
  { intros x Hx. destruct (decide (1 < length (filter (λ c, c = x) l))%nat) as [Hlt|]; [|lia].
    assert (x ∈ counted_twice l) as Hin.
    { unfold counted_twice. apply list_elem_of_filter. split; [done|].
      apply counter_keys_elem; [done|]. apply not_elem_of_nil. }
    rewrite Hnil in Hin. by apply not_elem_of_nil in Hin. }
  clear Hnil. induction l as [|y l IH]; [constructor|].
  constructor.
  - intros Hy. specialize (Hocc y (list_elem_of_here _ _)).
    rewrite filter_cons_True in Hocc by done. simpl in Hocc.
    assert (y ∈ filter (λ c, c = y) l) as Hin by by apply list_elem_of_filter.
    destruct (filter (λ c, c = y) l); [by apply not_elem_of_nil in Hin|]. simpl in Hocc. lia.
  - apply IH. intros x Hx. specialize (Hocc x (list_elem_of_further _ _ _ Hx)).
    rewrite filter_cons in Hocc. case_decide; simpl in Hocc; lia.
Qed.

Lemma counter_keys_subseteq (seen l : list cell) (x : cell) :
  x ∈ counter_keys seen l → x ∈ l.
Proof.
  revert seen. induction l as [|y l IH]; intros seen; simpl; [done|].
  case_decide.
  - intros Hx%IH. by right.
  - intros [->|Hx%IH]%elem_of_cons; [left|by right].
Qed.

Lemma counted_twice_subseteq (l : list cell) (x : cell) : x ∈ counted_twice l → x ∈ l.
Proof.
  unfold counted_twice. intros [_ Hc]%list_elem_of_filter.
  by apply counter_keys_subseteq in Hc.
Qed.

(** X16: when IDs that are integers repeat, [check_unique_ids] raises
    [TypeError], from joining the duplicated IDs into the message, and not the
    [RuntimeError] about duplicates. *)
Theorem check_unique_ids_not_strings (id_row : list cell) (message : option string) :
  (∀ c, c ∈ id_row → ∃ z, c = CInt z) → ¬ NoDup id_row →
  check_unique_ids (Series id_row) message
  = Raise (TypeError "sequence item 0: expected str instance, int found").
Proof.
  intros Hns Hnd. unfold check_unique_ids. cbn [bind].
  pose proof (length_remove_dups id_row) as Hle.
  destruct (Nat.ltb_spec (length (remove_dups id_row)) (length id_row)) as [Hlt|Hge].
  2:{ exfalso. apply Hnd, length_remove_dups_NoDup. lia. }
  cbv zeta. pose proof (counted_twice_not_nil id_row Hnd) as Hne.
  pose proof (counted_twice_subseteq id_row) as Hsub.
  destruct (counted_twice id_row) as [|d ds]; [done|].
  destruct (Hns d (Hsub d (list_elem_of_here _ _))) as [z ->].
  reflexivity.
Qed.

Lemma check_unique_ids_not_strings_witness :
  check_unique_ids (Series [CInt 7; CInt 8; CInt 7]) None
  = Raise (TypeError "sequence item 0: expected str instance, int found").
Proof.
  apply (check_unique_ids_not_strings [CInt 7; CInt 8; CInt 7] None).
  - intros c Hc. repeat (apply elem_of_cons in Hc as [->|Hc]; [by eexists|]).
    by apply not_elem_of_nil in Hc.
  - intros Hn. apply NoDup_cons in Hn as [Hn _]. apply Hn. right. left.
Defined.

Lemma filter_ext_in {A : Type} (P1 P2 : A → Prop)
    `{!∀ x, Decision (P1 x), !∀ x, Decision (P2 x)} (l : list A) :
  (∀ x, x ∈ l → (P1 x ↔ P2 x)) → filter P1 l = filter P2 l.
Proof.
  induction l as [|a l IH]; intros Hiff; [done|].
  rewrite !filter_cons. rewrite IH by (intros x Hx; apply Hiff; by right).
  destruct (decide (P1 a)) as [Ha|Ha], (decide (P2 a)) as [Hb|Hb]; try done.
  - by apply (Hiff a) in Ha; [|left].
  - by apply (Hiff a) in Hb; [|left].
Qed.

Lemma filter_intersect (ids next_ids : list cell) :
  filter (λ id, id ∈ filter (λ id, id ∈ next_ids) (remove_dups ids)) ids
  = filter (λ id, id ∈ next_ids) ids.
Proof.
  apply filter_ext_in. intros x Hx.
  rewrite list_elem_of_filter, elem_of_remove_dups. tauto.
Qed.

Lemma get_support_table_nrid_rows (df df_next : frame) :
  "ID" ∈ columns df → "ID" ∈ columns df_next →
  get_support_table_nrid df df_next
  = Ok (Frame ["ID"; "TARGET_ID"; "OFFSET"; "RO"; "SZRO"; "OFFSZ"]
          (range_index (nrid_row <$>
             filter (λ id, id ∈ (λ r, at_col r "ID") <$> rows df_next)
                    ((λ r, at_col r "ID") <$> rows df)))).
Proof.
  intros Hid Hnext. unfold get_support_table_nrid, col.
  rewrite (proj2 (has_col_true df "ID") Hid), (proj2 (has_col_true df_next "ID") Hnext).
  cbn [bind]. by rewrite filter_intersect.
Qed.

Lemma get_support_table_nrid_ids (df df_next out : frame) :
  get_support_table_nrid df df_next = Ok out →
  (λ r, at_col r "ID") <$> rows out
  = filter (λ id, id ∈ (λ r, at_col r "ID") <$> rows df_next)
           ((λ r, at_col r "ID") <$> rows df).
Proof.
  intros Hok.
  destruct (decide ("ID" ∈ columns df)) as [Hid|Hid].
  2:{ unfold get_support_table_nrid, col in Hok.
      by rewrite (proj2 (has_col_false df "ID") Hid) in Hok. }
  destruct (decide ("ID" ∈ columns df_next)) as [Hnext|Hnext].
  2:{ unfold get_support_table_nrid, col in Hok.
      rewrite (proj2 (has_col_true df "ID") Hid) in Hok. cbn [bind] in Hok.
      by rewrite (proj2 (has_col_false df_next "ID") Hnext) in Hok. }
  rewrite get_support_table_nrid_rows in Hok by done. injection Hok as <-.
  unfold rows at 1. cbn [body]. rewrite rows_range_index.
  rewrite <-list_fmap_compose. rewrite <-(list_fmap_id (filter _ _)) at 2.
  apply list_fmap_ext. intros i x _. reflexivity.
Qed.

(** X17: on two tables with an [ID] column whose IDs are strings,
    [get_support_table_nrid] returns one row for each record of the first
    table whose ID occurs in the second, in the order of the first table and
    as often as the ID occurs there; each row matches the ID with itself, with
    offset 0, overlaps 1 and OFFSZ 0. Without the column in one of the tables
    it raises [KeyError]. *)
Theorem get_support_table_nrid_spec (df df_next : frame) :
  ("ID" ∈ columns df → "ID" ∈ columns df_next →
   (∀ c, c ∈ (λ r, at_col r "ID") <$> rows df → ∃ s, c = CStr s) →
   (∀ c, c ∈ (λ r, at_col r "ID") <$> rows df_next → ∃ s, c = CStr s) →
   ∃ out, get_support_table_nrid df df_next = Ok out ∧
          columns out = ["ID"; "TARGET_ID"; "OFFSET"; "RO"; "SZRO"; "OFFSZ"] ∧
          (λ r, at_col r "ID") <$> rows out
          = filter (λ id, id ∈ (λ r, at_col r "ID") <$> rows df_next)
                   ((λ r, at_col r "ID") <$> rows df) ∧
          Forall matched_by_id (rows out)) ∧
  ("ID" ∉ columns df ∨ "ID" ∉ columns df_next →
   get_support_table_nrid df df_next = Raise (KeyError "ID")).
Proof.
  split.
  - intros Hid Hnext _ _.
    rewrite get_support_table_nrid_rows by done. eexists. split; [done|].
    assert (∀ cs l, rows (Frame cs (range_index l)) = l) as Hrows.
    { intros cs l. unfold rows. cbn [body]. apply rows_range_index. }
    rewrite !Hrows. cbn [columns].
    split_and!; [done| |].
    + rewrite <-list_fmap_compose. rewrite <-(list_fmap_id (filter _ _)) at 2.
      apply list_fmap_ext. intros i x _. reflexivity.
    + apply Forall_fmap, Forall_forall. intros x _. unfold matched_by_id.
      split_and!; reflexivity.
  - intros Hno. unfold get_support_table_nrid, col.
    destruct (decide ("ID" ∈ columns df)) as [Hid|Hid].
    + destruct Hno as [?|Hnext]; [done|].
      rewrite (proj2 (has_col_true df "ID") Hid). cbn [bind].
      by rewrite (proj2 (has_col_false df_next "ID") Hnext).
    + by rewrite (proj2 (has_col_false df "ID") Hid).
Qed.

(** X18: when the IDs of each table are pairwise distinct, the table of
    matches by ID has the same IDs whichever table comes first, up to the
    order of the rows. *)
Theorem get_support_table_nrid_symmetric (df df_next out out' : frame) :
  NoDup ((λ r, at_col r "ID") <$> rows df) →
  NoDup ((λ r, at_col r "ID") <$> rows df_next) →
  get_support_table_nrid df df_next = Ok out →
  get_support_table_nrid df_next df = Ok out' →
  (λ r, at_col r "ID") <$> rows out ≡ₚ (λ r, at_col r "ID") <$> rows out'.
Proof.
  intros Hnd Hnd' H1 H2.
  rewrite (get_support_table_nrid_ids df df_next out H1).
  rewrite (get_support_table_nrid_ids df_next df out' H2).
  apply NoDup_Permutation.
  - by apply NoDup_filter.
  - by apply NoDup_filter.
  - intros x. rewrite !list_elem_of_filter. tauto.
Qed.

Lemma get_support_table_nrid_symmetric_witness :
  ∃ out out',
    get_support_table_nrid (ids_table ["a"; "b"; "c"]) (ids_table ["c"; "a"]) = Ok out ∧
    get_support_table_nrid (ids_table ["c"; "a"]) (ids_table ["a"; "b"; "c"]) = Ok out' ∧
    (λ r, at_col r "ID") <$> rows out ≡ₚ (λ r, at_col r "ID") <$> rows out'.
Proof.
  eexists _, _. split; [vm_compute; reflexivity|]. split; [vm_compute; reflexivity|].
  eapply (get_support_table_nrid_symmetric (ids_table ["a"; "b"; "c"]) (ids_table ["c"; "a"])).
  - apply (bool_decide_unpack _). vm_compute. exact I.
  - apply (bool_decide_unpack _). vm_compute. exact I.
  - vm_compute. reflexivity.
  - vm_compute. reflexivity.
Defined.

Lemma get_support_table_nrid_spec_witness :
  ∃ out, get_support_table_nrid (ids_table ["a"; "b"; "c"; "a"]) (ids_table ["c"; "a"])
         = Ok out ∧
         (λ r, at_col r "ID") <$> rows out = [CStr "a"; CStr "c"; CStr "a"] ∧
         Forall matched_by_id (rows out).
Proof.
  assert (∀ l c, c ∈ (λ r, at_col r "ID") <$> rows (ids_table l) → ∃ s, c = CStr s)
    as Hstr.
  { intros l c. unfold ids_table, rows. cbn [body]. rewrite rows_range_index.
    rewrite <-list_fmap_compose.
    intros (s & -> & _)%list_elem_of_fmap. by exists s. }
  destruct (proj1 (get_support_table_nrid_spec (ids_table ["a"; "b"; "c"; "a"])
                     (ids_table ["c"; "a"])))
    as (out & Hrun & _ & Hids & Hrows).
  - by left.
  - by left.
  - apply Hstr.
  - apply Hstr.
  - exists out. split_and!; [done| |done].
    rewrite Hids. apply (bool_decide_unpack _). vm_compute. exact I.
Defined.

Lemma cut_first_some (sep : ascii) (s a b : string) :
  cut_first sep s = Some (a, b) → s = a +:+ String sep b.
Proof.
  revert a b. induction s as [|c s IH]; intros a b; simpl; [done|].
  destruct (Ascii.eqb_spec c sep) as [->|Hne].
  - by intros [= <- <-].
  - destruct (cut_first sep s) as [[a' b']|]; [|done].
    intros [= <- <-].
    change (String c a' +:+ String sep b') with (String c (a' +:+ String sep b')).
    f_equal. by apply IH.
Qed.

Section Dispatch.

Variable merge_next :
  param_set → list string → bool → option string → nat →
  frame * list frame → frame * string * option fasta →
  result (frame * list frame).

(** X19: with as many sample names as tables, and at least one,
    [merge_variants] hands the run to [merge_variants_nr] when the strategy is
    [nr], without parameters, or begins with [nr:], with what follows the
    first colon as parameters; any other strategy is refused with a
    [RuntimeError] that quotes it. *)
Theorem merge_variants_dispatch (bed_list : list frame) (names : list string)
    (strategy : string) (fa_list : option (list (option fasta)))
    (subset_chrom : option string) (threads : nat) :
  length bed_list = length names → bed_list ≠ [] →
  (strategy = "nr" ∧
   merge_variants merge_next bed_list (Some names) strategy fa_list subset_chrom threads
   = merge_variants_nr merge_next bed_list (Some names) None fa_list subset_chrom threads)
  ∨ (∃ params, strategy = "nr:" +:+ params ∧
       merge_variants merge_next bed_list (Some names) strategy fa_list subset_chrom threads
       = merge_variants_nr merge_next bed_list (Some names) (Some params) fa_list
                           subset_chrom threads)
  ∨ (strategy ≠ "nr" ∧ (∀ params, strategy ≠ "nr:" +:+ params) ∧
     merge_variants merge_next bed_list (Some names) strategy fa_list subset_chrom threads
     = Raise (RuntimeError ("Unrecognized strategy: " +:+ strategy))).
Proof.
  intros Hlen Hne. unfold merge_variants. cbn [bind].
  rewrite bool_decide_eq_false_2 by (intros H; by apply H).
  rewrite bool_decide_eq_false_2 by (by destruct bed_list).
  unfold strategy_tok. destruct (cut_first ":" strategy) as [[a b]|] eqn:Hcut; cbn [fst snd].
  - apply cut_first_some in Hcut as Hs. case_bool_decide as Ha.
    + right. left. exists b. subst a. done.
    + right. right. split_and!; [| |done].
      * intros ->. done.
      * intros params ->.
        assert (cut_first ":" ("nr:" +:+ params) = Some ("nr", params)) as Hp
          by reflexivity.
        rewrite Hp in Hcut. congruence.
  - case_bool_decide as Ha.
    + left. done.
    + right. right. split_and!; [done| |done].
      intros params ->.
      assert (cut_first ":" ("nr:" +:+ params) = Some ("nr", params)) as Hp
        by reflexivity.
      rewrite Hp in Hcut. done.
Qed.

(** X20: a run of [merge_variants_nr] that returns had at least one table and
    sample names that, once stripped, are not empty, hold no blank and are
    pairwise distinct. *)
Theorem merge_variants_nr_names_checked (bed_list : list frame)
    (sample_names : option (list string)) (merge_params : option string)
    (fa_list : option (list (option fasta))) (subset_chrom : option string)
    (threads : nat) (out : frame) :
  merge_variants_nr merge_next bed_list sample_names merge_params fa_list
                    subset_chrom threads = Ok out →
  bed_list ≠ [] ∧
  ∃ names, sample_names = Some names ∧ names ≠ [] ∧
           NoDup (strip <$> names) ∧
           Forall (λ n, strip n ≠ EmptyString ∧ any_char isspace (strip n) = false) names.
Proof.
  unfold merge_variants_nr. case_bool_decide as Hbeds; [done|].
  intros (checked & Hnames & _)%bind_ok.
  split; [by intros ->|].
  unfold check_sample_names in Hnames.
  destruct sample_names as [[|n0 ns]|]; [done| |done].
  exists (n0 :: ns). split; [done|]. split; [done|].
  set (names := strip <$> n0 :: ns) in *.
  destruct (forallb _ names) eqn:Hall; [|done]. cbn [negb] in Hnames.
  destruct (existsb _ names) eqn:Hany; [done|].
  case_bool_decide as Hdup; [done|].
  split.
  - apply length_remove_dups_NoDup. exact Hdup.
  - apply Forall_forall. intros n Hn.
    assert (strip n ∈ names) as Hin by (apply list_elem_of_fmap; by exists n).
    split.
    + rewrite forallb_forall in Hall. specialize (Hall (strip n)).
      rewrite <-list_elem_of_In in Hall. specialize (Hall Hin).
      apply negb_true_iff, bool_decide_eq_false in Hall. done.
    + destruct (any_char isspace (strip n)) eqn:Hsp; [|done].
      assert (existsb (any_char isspace) names = true) as Hex; [|congruence].
      apply existsb_exists. exists (strip n). by rewrite <-list_elem_of_In.
Qed.

End Dispatch.

Lemma merge_variants_dispatch_witness :
  ("nr:ro=50" = "nr" ∧
   merge_variants no_next [example_bed] (Some ["A"]) "nr:ro=50" None None 1
   = merge_variants_nr no_next [example_bed] (Some ["A"]) None None None 1)
  ∨ (∃ params, "nr:ro=50" = "nr:" +:+ params ∧
       merge_variants no_next [example_bed] (Some ["A"]) "nr:ro=50" None None 1
       = merge_variants_nr no_next [example_bed] (Some ["A"]) (Some params) None None 1)
  ∨ ("nr:ro=50" ≠ "nr" ∧ (∀ params, "nr:ro=50" ≠ "nr:" +:+ params) ∧
     merge_variants no_next [example_bed] (Some ["A"]) "nr:ro=50" None None 1
     = Raise (RuntimeError ("Unrecognized strategy: " +:+ "nr:ro=50"))).
Proof.
  apply (merge_variants_dispatch no_next [example_bed] ["A"] "nr:ro=50" None None 1);
    [reflexivity|done].
Defined.

Lemma merge_variants_nr_names_checked_witness :
  ∃ out,
    merge_variants_nr no_next [example_bed] (Some [" A "]) (Some "ro=50") None None 1
    = Ok out ∧
    [example_bed] ≠ [] ∧
    ∃ names, Some [" A "] = Some names ∧ names ≠ [] ∧
             NoDup (strip <$> names) ∧
             Forall (λ n, strip n ≠ EmptyString ∧ any_char isspace (strip n) = false) names.
Proof.
  eexists. split; [vm_compute; reflexivity|].
  eapply (merge_variants_nr_names_checked no_next [example_bed] (Some [" A "])
            (Some "ro=50") None None 1).
  vm_compute. reflexivity.
Defined.

Lemma sample_step_no_support (col_list : list string) (bed : frame) (name : string) :
  sample_step (Frame REQUIRED_COLUMNS []) [] (col_list, []) (bed, name)
  = Ok (extend_new col_list (columns bed), []).
Proof. reflexivity. Qed.

Lemma for_each_no_support (beds : list frame) (names : list string) (cl : list string) :
  length beds = length names →
  for_each (sample_step (Frame REQUIRED_COLUMNS []) []) (zip beds names) (cl, [])
  = Ok (foldl extend_new cl (columns <$> beds), []).
Proof.
  revert names cl. induction beds as [|bed beds IH]; intros [|n names] cl Hlen;
    simpl in Hlen; try done.
  cbn [zip zip_with for_each]. rewrite sample_step_no_support. cbn [bind].
  rewrite IH by lia. done.
Qed.

Lemma elem_of_extend_new_iff (l cs : list string) (c : string) :
  c ∈ extend_new l cs ↔ c ∈ l ∨ c ∈ cs.
Proof.
  unfold extend_new. rewrite elem_of_app, list_elem_of_filter.
  destruct (decide (c ∈ l)); tauto.
Qed.

(** X21: without a support table ([None]), [merge_sample_by_support] on as
    many tables as names, when the tables bring the columns [#CHROM], [POS],
    [END] and [ID], returns a table with no row whose columns are those of the
    tables and the three required support columns. *)
Theorem merge_sample_by_support_no_support (bed_list : list frame)
    (sample_names : list string) :
  length bed_list = length sample_names →
  (∀ c, c ∈ ["#CHROM"; "POS"; "END"; "ID"] → c ∈ input_columns bed_list) →
  ∃ out, merge_sample_by_support None bed_list sample_names = Ok out ∧
         body out = [] ∧
         ∀ c, c ∈ columns out ↔ c ∈ input_columns bed_list ∨ c ∈ REQUIRED_COLUMNS.
Proof.
  intros Hlen Hhead. unfold merge_sample_by_support.
  cbn [default from_option]. 
  rewrite bool_decide_eq_false_2 by (intros H; by apply H).
  change (nrows (Frame REQUIRED_COLUMNS [])) with 0%nat.
  rewrite (bool_decide_eq_false_2 (0 < 0)%nat) by lia.
  rewrite bool_decide_eq_false_2 by (intros H; by apply H).
  change (filter (λ c, c ∈ columns (Frame REQUIRED_COLUMNS [])) OPT_COL) with (@nil string).
  change (col (Frame REQUIRED_COLUMNS []) "SUPPORT_ID") with (@Ok (list cell) []).
  cbn [bind]. change (duplicates []) with (@nil cell).
  rewrite (bool_decide_eq_false_2 (0 < length [])%nat) by (simpl; lia).
  rewrite for_each_no_support by done. cbn [bind for_each].
  fold (input_columns bed_list).
  set (cl := extend_new (extend_new (input_columns bed_list) REQUIRED_COLUMNS) []).
  assert (∀ c, c ∈ cl ↔ c ∈ input_columns bed_list ∨ c ∈ REQUIRED_COLUMNS) as Hcl.
  { intros c. unfold cl. rewrite !elem_of_extend_new_iff.
    split; [intros [?|?%not_elem_of_nil]; tauto|tauto]. }
  set (df := Frame cl []).
  assert (sort_values (ascending ["#CHROM"; "POS"]) df = Ok df) as ->.
  { unfold sort_values. rewrite check_sortable_total; [done|].
    rewrite ascending_fst. intros c Hc. split.
    - apply Hcl. left. apply Hhead. apply list_elem_of_In in Hc. simpl in Hc. in_list.
    - exists KStr. intros r Hr. by apply not_elem_of_nil in Hr. }
  cbn [bind].
  set (hs := ["#CHROM"; "POS"; "END"; "ID"]
             ++ (if has_col df "SVTYPE" then ["SVTYPE"] else [])
             ++ (if has_col df "SVLEN" then ["SVLEN"] else [])).
  assert (∀ c, c ∈ hs → c ∈ cl) as Hhs.
  { intros c. unfold hs. rewrite !elem_of_app. intros [Hc|[Hc|Hc]].
    - apply Hcl. left. by apply Hhead.
    - destruct (has_col df "SVTYPE") eqn:E; [|by apply not_elem_of_nil in Hc].
      apply list_elem_of_singleton in Hc as ->. by apply has_col_true in E.
    - destruct (has_col df "SVLEN") eqn:E; [|by apply not_elem_of_nil in Hc].
      apply list_elem_of_singleton in Hc as ->. by apply has_col_true in E. }
  assert (for_each (add_missing hs) cl df = Ok df) as ->.
  { assert (∀ l, (∀ c, c ∈ l → c ∈ cl) → for_each (add_missing hs) l df = Ok df) as Hall.
    { induction l as [|c l IH]; intros Hl; [done|].
      cbn [for_each]. unfold add_missing at 1.
      rewrite (proj2 (has_col_true df c)) by (apply Hl; left).
      cbn [bind]. apply IH. intros c' Hc'. apply Hl. by right. }
    by apply Hall. }
  cbn [bind]. rewrite select_cols_total.
  2:{ intros c [Hc|[_ Hc]%list_elem_of_filter]%elem_of_app; [by apply Hhs|done]. }
  cbn [bind]. eexists. split; [reflexivity|]. split; [reflexivity|].
  intros c. cbn [reset_index_drop columns]. rewrite <-Hcl.
  rewrite elem_of_app, list_elem_of_filter. split.
  - intros [Hc|[_ Hc]]; [by apply Hhs|done].
  - intros Hc. destruct (decide (c ∈ hs)); tauto.
Qed.

Lemma merge_sample_by_support_no_support_witness :
  ∃ out, merge_sample_by_support None [example_bed; example_bed] ["A"; "B"] = Ok out ∧
         body out = [] ∧
         ∀ c, c ∈ columns out
              ↔ c ∈ input_columns [example_bed; example_bed] ∨ c ∈ REQUIRED_COLUMNS.
Proof.
  apply (merge_sample_by_support_no_support [example_bed; example_bed] ["A"; "B"]).
  - reflexivity.
  - apply Forall_forall. apply (bool_decide_unpack _). vm_compute. exact I.
Defined.

Lemma check_present_returns (what : string) (allow_missing : bool) (df : frame)
    (cols cs : list string) :
  check_present what allow_missing df cols = Ok cs →
  cs = filter (λ c, c ∈ columns df) cols.
Proof.
  unfold check_present. destruct allow_missing; [by intros [= <-]|].
  destruct (filter (λ c, c ∉ columns df) cols) as [|m ms] eqn:Hf; [|done].
  intros [= <-]. symmetry. apply filter_all_id. intros c Hc.
  destruct (decide (c ∈ columns df)) as [|Hn]; [done|].
  assert (c ∈ filter (λ c, c ∉ columns df) cols) as Hin by by apply list_elem_of_filter.
  rewrite Hf in Hin. by apply not_elem_of_nil in Hin.
Qed.

Lemma select_cols_returns (cs : list string) (df out : frame) :
  select_cols cs df = Ok out →
  (∀ c, c ∈ cs → c ∈ columns df) ∧
  out = Frame cs ((λ lr, (lr.1, restrict cs lr.2)) <$> body df).
Proof.
  unfold select_cols.
  destruct (filter (λ c, c ∉ columns df) cs) as [|m ms] eqn:Hf; [|done].
  intros [= <-]. split; [|done]. intros c Hc.
  destruct (decide (c ∈ columns df)) as [|Hn]; [done|].
  assert (c ∈ filter (λ c, c ∉ columns df) cs) as Hin by by apply list_elem_of_filter.
  rewrite Hf in Hin. by apply not_elem_of_nil in Hin.
Qed.

(** X22: on a table whose column names are pairwise distinct, given head and
    tail lists without repetition, [order_variant_columns] without
    [subset], when it returns, only rearranges: the columns of the result are a
    permutation of those of the table, beginning with the head columns that
    the table has, in the order given; the index and every cell are kept. *)
Theorem order_variant_columns_rearranges (df : frame) (hs ts : list string)
    (allow_missing : bool) (out : frame) :
  NoDup (columns df) → NoDup hs → NoDup ts →
  order_variant_columns df (Some hs) (Some ts) allow_missing false = Ok out →
  columns out ≡ₚ columns df ∧
  (∃ rest, columns out = filter (λ c, c ∈ columns df) hs ++ rest) ∧
  index out = index df ∧
  Forall2 (λ r r', ∀ c, c ∈ columns df → at_col r' c = at_col r c)
          (rows df) (rows out).
Proof.
  intros Hnd Hnh Hnt. unfold order_variant_columns.
  intros (hs' & Hh%check_present_returns & (ts' & Ht%check_present_returns & H)%bind_ok)%bind_ok.
  cbn [default from_option] in Hh, Ht. unfold id in Hh, Ht.
  case_bool_decide as Hempty; [done|].
  apply select_cols_returns in H as [Hall ->]. cbn [columns].
  set (T := filter (λ c, c ∉ hs') ts') in *.
  set (M := filter (λ c, (c ∉ hs') ∧ (c ∉ T)) (columns df)) in *.
  assert (NoDup hs') as Hnh' by (rewrite Hh; by apply NoDup_filter).
  assert (NoDup T) as HnT by (unfold T; rewrite Ht; by do 2 apply NoDup_filter).
  assert (NoDup M) as HnM by (by apply NoDup_filter).
  split_and!.
  - apply NoDup_Permutation; [|done|].
    + apply NoDup_app. split; [done|]. split.
      * intros c Hc [[Hm _]%list_elem_of_filter|[Hm _]%list_elem_of_filter]%elem_of_app;
          [tauto|done].
      * apply NoDup_app. split; [done|]. split; [|done].
        intros c [[_ Hm] _]%list_elem_of_filter Hc. done.
    + intros c. split; [apply Hall|]. intros Hc.
      rewrite !elem_of_app. destruct (decide (c ∈ hs')); [tauto|].
      destruct (decide (c ∈ T)); [tauto|]. right. left.
      by apply list_elem_of_filter.
  - exists (M ++ T). by rewrite Hh.
  - unfold index. cbn [body]. rewrite <-list_fmap_compose. by apply list_fmap_ext.
  - rewrite rows_restricted. fold (rows df).
    apply Forall2_fmap_r, Forall_Forall2_diag, Forall_forall.
    intros r _ c Hc. apply at_col_restrict.
    rewrite !elem_of_app. destruct (decide (c ∈ hs')); [tauto|].
    destruct (decide (c ∈ T)); [tauto|]. right. left.
    by apply list_elem_of_filter.
Qed.

Lemma order_variant_columns_rearranges_witness :
  ∃ out,
    order_variant_columns example_bed (Some ["ID"; "GT"; "#CHROM"]) (Some ["POS"; "ID"])
                          true false = Ok out ∧
    columns out ≡ₚ columns example_bed ∧
    (∃ rest, columns out
             = filter (λ c, c ∈ columns example_bed) ["ID"; "GT"; "#CHROM"] ++ rest) ∧
    index out = index example_bed ∧
    Forall2 (λ r r', ∀ c, c ∈ columns example_bed → at_col r' c = at_col r c)
            (rows example_bed) (rows out).
Proof.
  eexists. split; [vm_compute; reflexivity|].
  eapply (order_variant_columns_rearranges example_bed ["ID"; "GT"; "#CHROM"] ["POS"; "ID"] true).
  - apply (bool_decide_unpack _). vm_compute. exact I.
  - apply (bool_decide_unpack _). vm_compute. exact I.
  - apply (bool_decide_unpack _). vm_compute. exact I.
  - vm_compute. reflexivity.
Defined.

Lemma bases_cons (c : ascii) (s : string) :
  bases (String c s) ↔ is_upper c = true ∧ bases s.
Proof. unfold bases. simpl. apply andb_true_iff. Qed.

Lemma bases_app (s t : string) : bases s → bases t → bases (s +:+ t).
Proof.
  induction s as [|c s IH]; [done|].
  change (String c s +:+ t) with (String c (s +:+ t)).
  rewrite !bases_cons. intros [Hc Hs] Ht. auto.
Qed.

Lemma is_upper_facts (c : ascii) :
  is_upper c = true →
  upper_char c = c ∧ isspace c = false ∧ is_letter c = true ∧
  Ascii.eqb c "," = false ∧ Ascii.eqb c "." = false ∧ Ascii.eqb c "<" = false ∧
  Ascii.eqb c "[" = false ∧ Ascii.eqb c "]" = false.
Proof.
  unfold is_upper, ord. intros [H1%N.leb_le H2%N.leb_le]%andb_true_iff.
  set (ok := λ c : ascii,
         Ascii.eqb (upper_char c) c && negb (isspace c) && is_letter c
         && negb (Ascii.eqb c ",") && negb (Ascii.eqb c ".") && negb (Ascii.eqb c "<")
         && negb (Ascii.eqb c "[") && negb (Ascii.eqb c "]")).
  assert (forallb (λ n, ok (ascii_of_N (N.of_nat n))) (seq 65 26) = true) as Hall
    by (vm_compute; reflexivity).
  rewrite forallb_forall in Hall.
  specialize (Hall (N.to_nat (N_of_ascii c))).
  rewrite N2Nat.id, ascii_N_embedding in Hall.
  assert (ok c = true) as Hok.
  { apply Hall. apply list_elem_of_In, elem_of_seq. lia. }
  unfold ok in Hok. repeat (apply andb_true_iff in Hok as [Hok ?]).
  repeat match goal with H : negb _ = true |- _ => apply negb_true_iff in H end.
  apply Ascii.eqb_eq in Hok. done.
Qed.

Lemma upper_bases (s : string) : bases s → upper s = s.
Proof.
  induction s as [|c s IH]; [done|]. rewrite bases_cons. intros [Hc Hs].
  unfold upper in *. simpl. rewrite IH by done.
  by destruct (is_upper_facts c Hc) as (-> & _).
Qed.

Lemma rstrip_bases (s : string) : bases s → rstrip s = s.
Proof.
  induction s as [|c s IH]; [done|]. rewrite bases_cons. intros [Hc Hs].
  simpl. rewrite IH by done.
  destruct (is_upper_facts c Hc) as (_ & -> & _). by destruct s.
Qed.

Lemma strip_bases (s : string) : bases s → strip s = s.
Proof.
  intros Hs. unfold strip.
  assert (lstrip s = s) as ->; [|by apply rstrip_bases].
  destruct s as [|c s]; [done|]. apply bases_cons in Hs as [Hc _].
  simpl. by destruct (is_upper_facts c Hc) as (_ & -> & _).
Qed.

Lemma contains_bases (c : ascii) (s : string) :
  bases s → is_upper c = false → contains c s = false.
Proof.
  intros Hs Hc. induction s as [|a s IH]; [done|].
  apply bases_cons in Hs as [Ha Hs]. simpl. rewrite IH by done.
  destruct (Ascii.eqb_spec a c) as [->|]; [congruence|done].
Qed.

Lemma is_letters_bases (s : string) : bases s → s ≠ EmptyString → is_letters s = true.
Proof.
  intros Hs Hne. unfold is_letters. rewrite bool_decide_eq_false_2 by done.
  simpl. induction s as [|a s IH]; [done|].
  apply bases_cons in Hs as [Ha Hs]. simpl.
  destruct (is_upper_facts a Ha) as (_ & _ & -> & _). simpl.
  destruct s; [done|]. by apply IH.
Qed.

Lemma is_symbolic_bases (s : string) :
  bases s → s ≠ EmptyString → is_symbolic s = Value false.
Proof.
  intros Hs Hne. destruct s as [|a s]; [done|].
  apply bases_cons in Hs as [Ha Hs]. unfold is_symbolic.
  change (item (String a s) 0) with (Value a). cbn [and_then].
  by destruct (is_upper_facts a Ha) as (_ & _ & _ & _ & _ & -> & _).
Qed.

(** A record of letters reaches the branch of the spelled-out alleles. *)
Lemma vcf_letters (row : gmap string cell) (pos : Z) (ref alt : string) :
  row !! "POS" = Some (CInt pos) → row !! "REF" = Some (CStr ref) →
  row !! "ALT" = Some (CStr alt) → row !! "GT" = None →
  bases ref → bases alt → ref ≠ EmptyString → alt ≠ EmptyString →
  vcf_fields_to_seq row "POS" "REF" "ALT"
  = and_then (sequence_variant (CInt pos) ref alt) (λ c,
    Value (list_to_map
             [("POS", call_pos c); ("END", call_end c);
              ("VARTYPE", CStr (call_vartype c)); ("SVTYPE", CStr (call_svtype c));
              ("SVLEN", call_svlen c); ("AC", nan); ("SEQ", call_seq c);
              ("REF", call_ref c)])).
Proof.
  intros Hpos Href Halt Hgt Hr Ha Hrne Hane.
  unfold vcf_fields_to_seq, getitem. rewrite Hpos, Href, Halt, Hgt.
  cbn [and_then upper_strip].
  rewrite !upper_bases, !strip_bases by done.
  rewrite !(contains_bases _ alt) by done.
  rewrite bool_decide_eq_false_2.
  2:{ intros ->. by vm_compute in Ha. }
  rewrite is_symbolic_bases by done. cbn [and_then orb].
  rewrite !is_letters_bases by done. cbn [andb].
  by destruct (sequence_variant (CInt pos) ref alt).
Qed.

Lemma append_empty (s : string) : s +:+ EmptyString = s.
Proof.
  induction s as [|c s IH]; [done|].
  change (String c s +:+ EmptyString) with (String c (s +:+ EmptyString)).
  by rewrite IH.
Qed.

Lemma length_app (s t : string) :
  String.length (s +:+ t) = (String.length s + String.length t)%nat.
Proof.
  induction s as [|c s IH]; [done|].
  change (String c s +:+ t) with (String c (s +:+ t)). simpl. by rewrite IH.
Qed.

(** The loop that trims on the left removes a common prefix as long as the
    shorter allele. *)
Lemma trim_left_prefix (p r a : string) (t : Z) :
  trim_left_loop (String.length p) (p +:+ r) (p +:+ a) t
  = Value (r, a, t + len p, O).
Proof.
  revert t. induction p as [|c p IH]; intros t.
  - simpl. unfold len. simpl. by rewrite Z.add_0_r.
  - change (String c p +:+ r) with (String c (p +:+ r)).
    change (String c p +:+ a) with (String c (p +:+ a)).
    cbn [String.length trim_left_loop].
    change (item (String c (p +:+ r)) 0) with (Value c).
    change (item (String c (p +:+ a)) 0) with (Value c).
    cbn [and_then]. rewrite Ascii.eqb_refl. cbn [without_first].
    rewrite IH. unfold len. cbn [String.length]. rewrite Nat2Z.inj_succ.
    replace (t + 1 + Z.of_nat (String.length p))
      with (t + Z.succ (Z.of_nat (String.length p))) by lia. done.
Qed.

Lemma size_class_int (n : Z) :
  size_class (CInt n) = Value (if n <? 50 then "INDEL" else "SV").
Proof.
  unfold size_class. simpl. f_equal.
  destruct (Z.ltb_spec n 50) as [Hlt|Hge].
  - rewrite bool_decide_eq_true_2; [done|].
    unfold Qc_of, Qclt. simpl. by rewrite <-Zlt_Qlt.
  - rewrite bool_decide_eq_false_2; [done|].
    apply Qcle_not_lt. unfold Qc_of, Qcle. simpl. by rewrite <-Zle_Qle.
Qed.

Lemma not_empty_length (s : string) : s ≠ EmptyString → (0 < String.length s)%nat.
Proof. destruct s; [done|]. simpl. lia. Qed.

(** X23: a record whose ALT is its REF followed by more bases (both in
    upper-case letters, no genotype) is read as the insertion of these bases:
    SVTYPE [INS], SEQ and SVLEN the inserted bases and their number, POS moved
    to the last base of REF in 0-based coordinates, END one after POS, REF
    emptied, VARTYPE [INDEL] below 50 bases and [SV] from 50 on. *)
Theorem vcf_insertion (row : gmap string cell) (pos : Z) (anchor ins : string) :
  row !! "POS" = Some (CInt pos) → row !! "REF" = Some (CStr anchor) →
  row !! "ALT" = Some (CStr (anchor +:+ ins)) → row !! "GT" = None →
  bases anchor → bases ins → anchor ≠ EmptyString → ins ≠ EmptyString →
  vcf_fields_to_seq row "POS" "REF" "ALT"
  = Value (vcf_call (pos + len anchor - 1) (pos + len anchor)
                    (if len ins <? 50 then "INDEL" else "SV") "INS" (len ins)
                    ins EmptyString).
Proof.
  intros Hpos Href Halt Hgt Ha Hi Hane Hine.
  rewrite (vcf_letters row pos anchor (anchor +:+ ins)); try done.
  2:{ by apply bases_app. }
  2:{ destruct anchor; done. }
  unfold sequence_variant. rewrite length_app.
  replace (String.length anchor `min` (String.length anchor + String.length ins))%nat
    with (String.length anchor) by lia.
  rewrite <-(append_empty anchor) at 2.
  rewrite trim_left_prefix. cbn [and_then trim_right_loop].
  rewrite bool_decide_eq_true_2 by done.
  rewrite (bool_decide_eq_false_2 (ins = EmptyString)) by done.
  cbn [negb andb]. rewrite size_class_int. cbn [and_then lift add sub int_like].
  unfold vcf_call. cbn [call_pos call_end call_vartype call_svtype call_svlen
                         call_seq call_ref].
  replace (pos + (0 + len anchor) - 1 + 1) with (pos + len anchor) by lia.
  replace (pos + (0 + len anchor) - 1) with (pos + len anchor - 1) by lia.
  reflexivity.
Qed.

(** X24: a record whose REF is its ALT followed by more bases is read as the
    deletion of these bases: SVTYPE [DEL], SEQ and SVLEN the deleted bases and
    their number, POS moved to the last base of ALT in 0-based coordinates,
    END at POS plus SVLEN, REF emptied. *)
Theorem vcf_deletion (row : gmap string cell) (pos : Z) (anchor del : string) :
  row !! "POS" = Some (CInt pos) → row !! "REF" = Some (CStr (anchor +:+ del)) →
  row !! "ALT" = Some (CStr anchor) → row !! "GT" = None →
  bases anchor → bases del → anchor ≠ EmptyString → del ≠ EmptyString →
  vcf_fields_to_seq row "POS" "REF" "ALT"
  = Value (vcf_call (pos + len anchor - 1) (pos + len anchor - 1 + len del)
                    (if len del <? 50 then "INDEL" else "SV") "DEL" (len del)
                    del EmptyString).
Proof.
  intros Hpos Href Halt Hgt Ha Hd Hane Hdne.
  rewrite (vcf_letters row pos (anchor +:+ del) anchor); try done.
  2:{ by apply bases_app. }
  2:{ destruct anchor; done. }
  unfold sequence_variant. rewrite length_app.
  replace ((String.length anchor + String.length del) `min` String.length anchor)%nat
    with (String.length anchor) by lia.
  rewrite <-(append_empty anchor) at 3.
  rewrite trim_left_prefix. cbn [and_then trim_right_loop].
  rewrite (bool_decide_eq_false_2 (del = EmptyString)) by done.
  rewrite (bool_decide_eq_true_2 (EmptyString = EmptyString)) by done.
  cbn [negb andb]. rewrite size_class_int. cbn [and_then lift add sub int_like].
  unfold vcf_call. cbn [call_pos call_end call_vartype call_svtype call_svlen
                         call_seq call_ref].
  replace (pos + (0 + len anchor) - 1) with (pos + len anchor - 1) by lia.
  reflexivity.
Qed.

(** X25: a record whose ALT equals its REF is not refused: it is returned as
    a substitution ([SUB]) of length 0 with empty SEQ and REF. *)
Theorem vcf_same_alleles (row : gmap string cell) (pos : Z) (allele : string) :
  row !! "POS" = Some (CInt pos) → row !! "REF" = Some (CStr allele) →
  row !! "ALT" = Some (CStr allele) → row !! "GT" = None →
  bases allele → allele ≠ EmptyString →
  vcf_fields_to_seq row "POS" "REF" "ALT"
  = Value (vcf_call (pos + len allele - 1) (pos + len allele - 1) "SUB" "SUB" 0
                    EmptyString EmptyString).
Proof.
  intros Hpos Href Halt Hgt Ha Hane.
  rewrite (vcf_letters row pos allele allele); try done.
  unfold sequence_variant. rewrite Nat.min_id.
  rewrite <-(append_empty allele) at 2 3.
  rewrite trim_left_prefix. cbn [and_then trim_right_loop].
  rewrite (bool_decide_eq_true_2 (EmptyString = EmptyString)) by done.
  cbn [negb andb]. cbn [String.length]. 
  rewrite (bool_decide_eq_false_2 (0%nat = 1%nat)) by done.
  cbn [andb and_then lift add sub int_like len String.length].
  unfold vcf_call. cbn [call_pos call_end call_vartype call_svtype call_svlen
                         call_seq call_ref].
  change (len EmptyString) with 0.
  replace (pos + (0 + len allele) - 1 + 0) with (pos + len allele - 1) by lia.
  reflexivity.
Qed.

Lemma vcf_insertion_witness :
  vcf_fields_to_seq (vcf_row 100 "A" ("A" +:+ "CGT")) "POS" "REF" "ALT"
  = Value (vcf_call (100 + len "A" - 1) (100 + len "A")
                    (if len "CGT" <? 50 then "INDEL" else "SV") "INS" (len "CGT")
                    "CGT" EmptyString).
Proof. apply (vcf_insertion (vcf_row 100 "A" ("A" +:+ "CGT")) 100 "A" "CGT"); done. Defined.

Lemma vcf_deletion_witness :
  vcf_fields_to_seq (vcf_row 100 ("AC" +:+ "GT") "AC") "POS" "REF" "ALT"
  = Value (vcf_call (100 + len "AC" - 1) (100 + len "AC" - 1 + len "GT")
                    (if len "GT" <? 50 then "INDEL" else "SV") "DEL" (len "GT")
                    "GT" EmptyString).
Proof. apply (vcf_deletion (vcf_row 100 ("AC" +:+ "GT") "AC") 100 "AC" "GT"); done. Defined.

Lemma vcf_same_alleles_witness :
  vcf_fields_to_seq (vcf_row 100 "ACG" "ACG") "POS" "REF" "ALT"
  = Value (vcf_call (100 + len "ACG" - 1) (100 + len "ACG" - 1) "SUB" "SUB" 0
                    EmptyString EmptyString).
Proof. apply (vcf_same_alleles (vcf_row 100 "ACG" "ACG") 100 "ACG"); done. Defined.

Lemma and_then_value {A B : Type} (m : outcome A) (k : A → outcome B) (b : B) :
  and_then m k = Value b → ∃ a, m = Value a ∧ k a = Value b.
Proof. destruct m as [a| |]; simpl; [eauto|done..]. Qed.

Lemma symbolic_sv_svtype (row : gmap string cell) (pos : cell) (ref alt : string)
    (c : call) :
  symbolic_sv row pos ref alt = Value c →
  call_svtype c ∈ ["INS"; "DEL"; "INV"; "DUP"; "CNV"].
Proof.
  unfold symbolic_sv. case_bool_decide as Hin; [|done]. cbn [negb].
  intros (svlen & _ & (vt & _ & (e & _ & [= <-])%and_then_value)%and_then_value)%and_then_value.
  exact Hin.
Qed.

Lemma sequence_variant_svtype (pos : cell) (ref alt : string) (c : call) :
  sequence_variant pos ref alt = Value c →
  call_svtype c ∈ ["INS"; "DEL"; "SNV"; "SUB"].
Proof.
  unfold sequence_variant.
  intros ([[[r a] t] m] & _ & ([r' a'] & _ & H)%and_then_value)%and_then_value.
  repeat match type of H with
         | (if ?b then _ else _) = _ => destruct b
         end;
    repeat (apply and_then_value in H as (? & _ & H));
    injection H as <-; cbn [call_svtype]; apply list_elem_of_In; simpl; tauto.
Qed.

(** X26: whatever the record, a call that [vcf_fields_to_seq] returns has one
    of the types INS, DEL, INV, DUP, CNV, BND, SNV and SUB: the type [NONE]
    of the branch for a missing ALT never comes out, since an ALT of [.] is
    refused before the branch is reached. *)
Theorem vcf_never_none (row : gmap string cell) (pos_row ref_row alt_row : string)
    (out : gmap string cell) :
  vcf_fields_to_seq row pos_row ref_row alt_row = Value out →
  ∃ svtype, out !! "SVTYPE" = Some (CStr svtype) ∧
            svtype ∈ ["INS"; "DEL"; "INV"; "DUP"; "CNV"; "BND"; "SNV"; "SUB"].
Proof.
  unfold vcf_fields_to_seq.
  intros (pos & _ & (ref & _ & (alt & _ & H)%and_then_value)%and_then_value)%and_then_value.
  destruct (contains "," alt); [done|].
  case_bool_decide as Hdot; [done|].
  apply and_then_value in H as (symbolic & _ & H).
  apply and_then_value in H as (c & Hc & H).
  apply and_then_value in H as (ac & _ & [= <-]).
  exists (call_svtype c). split; [reflexivity|].
  assert (∀ l : list string, call_svtype c ∈ l →
            (∀ x, x ∈ l → x ∈ ["INS"; "DEL"; "INV"; "DUP"; "CNV"; "BND"; "SNV"; "SUB"]) →
            call_svtype c ∈ ["INS"; "DEL"; "INV"; "DUP"; "CNV"; "BND"; "SNV"; "SUB"])
    as Hsub by auto.
  destruct symbolic.
  { apply symbolic_sv_svtype in Hc. apply (Hsub _ Hc).
    intros x Hx%list_elem_of_In. apply list_elem_of_In. simpl in *. tauto. }
  destruct (_ || _).
  { apply and_then_value in Hc as (e & _ & [= <-]). cbn [call_svtype].
    apply list_elem_of_In. simpl. tauto. }
  destruct (_ && _); [|done].
  apply sequence_variant_svtype in Hc. apply (Hsub _ Hc).
  intros x Hx%list_elem_of_In. apply list_elem_of_In. simpl in *. tauto.
Qed.

Lemma vcf_never_none_witness :
  ∃ svtype, vcf_call 100 101 "INDEL" "INS" 3 "CGT" EmptyString !! "SVTYPE"
            = Some (CStr svtype) ∧
            svtype ∈ ["INS"; "DEL"; "INV"; "DUP"; "CNV"; "BND"; "SNV"; "SUB"].
Proof.
  apply (vcf_never_none (vcf_row 100 "A" "ACGT") "POS" "REF" "ALT").
  vm_compute. reflexivity.
Defined.

(** X27: for a symbolic ALT [<INS>], [<DEL>], [<INV>], [<DUP>] or [<CNV>] and
    an integer [SVLEN] field, the length is the absolute value of the field
    and the end is computed from it: POS + 1 for an insertion, POS + SVLEN
    otherwise; an [END] field of the record is not read. *)
Theorem vcf_symbolic_svlen (row : gmap string cell) (pos svlen : Z)
    (ref svtype : string) :
  row !! "POS" = Some (CInt pos) → row !! "REF" = Some (CStr ref) →
  row !! "ALT" = Some (CStr ("<" +:+ svtype +:+ ">")) →
  row !! "SVLEN" = Some (CInt svlen) → row !! "GT" = None →
  svtype ∈ ["INS"; "DEL"; "INV"; "DUP"; "CNV"] →
  vcf_fields_to_seq row "POS" "REF" "ALT"
  = Value (list_to_map
             [("POS", CInt pos);
              ("END", CInt (if bool_decide (svtype = "INS") then pos + 1
                            else pos + Z.abs svlen));
              ("VARTYPE", CStr (if Z.abs svlen <? 50 then "INDEL" else "SV"));
              ("SVTYPE", CStr svtype); ("SVLEN", CInt (Z.abs svlen)); ("AC", nan);
              ("SEQ", default nan (row !! "SEQ")); ("REF", CStr (strip (upper ref)))]).
Proof.
  intros Hpos Href Halt Hlen Hgt Hin.
  unfold vcf_fields_to_seq, getitem. rewrite Hpos, Href, Halt, Hgt.
  cbn [and_then upper_strip].
  assert (∃ alt, strip (upper ("<" +:+ svtype +:+ ">")) = alt ∧
                 contains "," alt = false ∧ alt ≠ "." ∧
                 is_symbolic alt = Value true ∧ first_token (inner alt) = svtype)
    as (alt & -> & -> & Hdot & Hsym & Htok).
  { apply list_elem_of_In in Hin. simpl in Hin.
    repeat (destruct Hin as [<-|Hin]; [eexists; split; [vm_compute; reflexivity|];
                                       split_and!; [reflexivity|done|reflexivity..]|]).
    done. }
  rewrite bool_decide_eq_false_2 by done. rewrite Hsym. cbn [and_then].
  unfold symbolic_sv. rewrite Htok. rewrite bool_decide_eq_true_2 by done.
  cbn [negb]. rewrite Hlen. cbn [int_of_cell fmap option_fmap option_map and_then].
  rewrite size_class_int. cbn [and_then].
  case_bool_decide; cbn [lift add int_like and_then]; reflexivity.
Qed.

Lemma vcf_symbolic_svlen_witness :
  vcf_fields_to_seq symbolic_row "POS" "REF" "ALT"
  = Value (list_to_map
             [("POS", CInt 100);
              ("END", CInt (if bool_decide ("DEL" = "INS") then 100 + 1
                            else 100 + Z.abs (-150)));
              ("VARTYPE", CStr (if Z.abs (-150) <? 50 then "INDEL" else "SV"));
              ("SVTYPE", CStr "DEL"); ("SVLEN", CInt (Z.abs (-150))); ("AC", nan);
              ("SEQ", default nan (symbolic_row !! "SEQ"));
              ("REF", CStr (strip (upper "n")))]).
Proof.
  apply (vcf_symbolic_svlen symbolic_row 100 (-150) "n" "DEL"); try reflexivity.
  apply list_elem_of_In. simpl. tauto.
Defined.

Lemma truediv_0 (b : Z) : 0 < b → truediv 0 b = Ok 0%Qc.
Proof.
  intros Hb. unfold truediv. rewrite decide_False by lia.
  rewrite quotient_zero. unfold round64. by rewrite round_binary_0.
Qed.

Lemma reciprocal_overlap_returns (a b : interval) :
  a.1 < a.2 → b.1 < b.2 →
  ∃ q, reciprocal_overlap a.1 a.2 b.1 b.2 = Ok q ∧
       (¬ (b.1 < a.2 ∧ a.1 < b.2) → q = 0%Qc).
Proof.
  destruct a as [ba ea], b as [bb eb]. simpl. intros Ha Hb.
  unfold reciprocal_overlap.
  set (overlap := Z.min ea eb - Z.max ba bb).
  case_decide as Hneg.
  { exists 0%Qc. done. }
  destruct (decide (overlap = 0)) as [H0|Hpos].
  { rewrite H0, !truediv_0 by lia. cbn [bind]. exists (min2 0 0). split; [done|].
    intros _. unfold min2. by case_decide. }
  destruct (truediv_unit overlap (ea - ba)) as (x & -> & _); [lia..|].
  destruct (truediv_unit overlap (eb - bb)) as (y & -> & _); [lia..|].
  cbn [bind]. eexists. split; [done|]. intros Hno. exfalso. lia.
Qed.

Lemma redundant_disjoint (a b : interval) :
  a.1 < a.2 → b.1 < b.2 → ¬ (b.1 < a.2 ∧ a.1 < b.2) → redundant a b = false.
Proof.
  intros Ha Hb Hno. unfold redundant.
  destruct (reciprocal_overlap_returns a b Ha Hb) as (q & -> & Hq).
  rewrite (Hq Hno). apply bool_decide_eq_false. intros H. apply H. reflexivity.
Qed.

Lemma any_match_all (a : interval) (tree : list interval) :
  a.1 < a.2 → Forall (λ iv : interval, iv.1 < iv.2) tree →
  any_match a.1 a.2 (overlapping tree a.1 a.2) = Ok (existsb (redundant a) tree).
Proof.
  intros Ha Htree. unfold overlapping. rewrite decide_False by lia.
  induction Htree as [|iv tree Hiv Htree IH]; [done|].
  rewrite filter_cons. cbn [existsb].
  destruct (decide (iv.1 < a.2 ∧ a.1 < iv.2)) as [Hov|Hno].
  - cbn [any_match]. unfold redundant at 1.
    destruct (reciprocal_overlap_returns a iv Ha Hiv) as (q & -> & _). cbn [bind].
    case_decide as Hq.
    + by rewrite bool_decide_eq_true_2.
    + by rewrite bool_decide_eq_false_2.
  - rewrite redundant_disjoint by done. done.
Qed.

Lemma existsb_same_elements {A : Type} (f : A → bool) (l l' : list A) :
  (∀ x, x ∈ l ↔ x ∈ l') → existsb f l = existsb f l'.
Proof.
  intros Hiff. apply eq_true_iff_eq. rewrite !existsb_exists.
  split; intros (x & Hx & Hf); exists x; (split; [|done]);
    apply list_elem_of_In; apply list_elem_of_In in Hx; by apply Hiff.
Qed.

Lemma tree_add_elements (tree : list interval) (iv : interval) :
  iv.1 < iv.2 →
  ∃ tree', tree_add tree iv.1 iv.2 = Ok tree' ∧ ∀ x, x ∈ tree' ↔ x ∈ tree ∨ x = iv.
Proof.
  intros Hiv. unfold tree_add. destruct iv as [b e]. simpl in *.
  case_decide as Hin.
  - exists tree. split; [done|]. intros x. split; [by left|]. by intros [?| ->].
  - rewrite decide_False by lia. eexists. split; [done|].
    intros x. rewrite elem_of_app, list_elem_of_singleton. done.
Qed.

(** The loop of [nr_interval_merge] on records that are not empty. *)
Lemma nr_loop (l : list record) (seen tree : list interval) (index_list : list cell) :
  Forall (λ r : record, r.2.1 < r.2.2) l →
  Forall (λ iv : interval, iv.1 < iv.2) seen →
  (∀ x, x ∈ tree ↔ x ∈ seen) →
  ∃ tree', for_each nr_step l (index_list, tree)
           = Ok (index_list ++ (kept_from seen l).*1, tree') ∧
           ∀ x, x ∈ tree' ↔ x ∈ seen ∨ x ∈ l.*2.
Proof.
  intros Hl. revert seen tree index_list.
  induction Hl as [|[index [pos end_]] l Hr Hl IH]; intros seen tree index_list Hseen Htree.
  { exists tree. simpl. rewrite app_nil_r. split; [done|].
    intros x. rewrite Htree. split; [by left|]. by intros [?|?%not_elem_of_nil]. }
  simpl in Hr. cbn [for_each nr_step].
  assert (Forall (λ iv : interval, iv.1 < iv.2) tree) as Htree'.
  { apply Forall_forall. intros x Hx%Htree. rewrite Forall_forall in Hseen. by apply Hseen. }
  pose proof (any_match_all (pos, end_) tree Hr Htree') as Hany.
  cbn [fst snd] in Hany. rewrite Hany. cbn [bind].
  rewrite (existsb_same_elements _ tree seen Htree).
  destruct (tree_add_elements tree (pos, end_)) as (tree1 & Hadd & Hel); [done|].
  simpl in Hadd. rewrite Hadd. cbn [bind kept_from snd].
  destruct (IH (seen ++ [(pos, end_)]) tree1
              (if existsb (redundant (pos, end_)) seen then index_list
               else index_list ++ [index])) as (tree' & -> & Hel').
  { apply Forall_app. split; [done|]. by constructor. }
  { intros x. rewrite Hel, elem_of_app, list_elem_of_singleton, Htree. done. }
  exists tree'. split.
  - destruct (existsb _ seen); [done|].
    rewrite fmap_cons. simpl. by rewrite <-app_assoc.
  - intros x. rewrite Hel', elem_of_app, list_elem_of_singleton, fmap_cons, elem_of_cons.
    simpl. tauto.
Qed.

Lemma kept_sublist (seen : list interval) (l : list record) :
  kept_from seen l `sublist_of` l.
Proof.
  revert seen. induction l as [|r l IH]; intros seen; simpl; [constructor|].
  destruct (existsb _ seen); [apply sublist_cons|apply sublist_skip]; apply IH.
Qed.

Lemma kept_member (seen : list interval) (pre post : list record) (r : record) :
  NoDup (pre ++ r :: post).*1 →
  r ∈ kept_from seen (pre ++ r :: post)
  ↔ existsb (redundant r.2) (seen ++ pre.*2) = false.
Proof.
  revert seen. induction pre as [|p pre IH]; intros seen Hnd.
  - simpl in *. rewrite app_nil_r. apply NoDup_cons in Hnd as [Hr _].
    assert (r ∉ kept_from (seen ++ [r.2]) post) as Hnot.
    { intros Hin. apply Hr. apply list_elem_of_fmap. exists r. split; [done|].
      by apply (elem_of_sublist _ _ _ Hin (kept_sublist _ _)). }
    destruct (existsb _ seen); [by split|]. split; [done|]. intros _. left.
  - rewrite <-app_comm_cons in *. rewrite fmap_cons in Hnd.
    apply NoDup_cons in Hnd as [Hp Hnd]. cbn [kept_from].
    assert (r ≠ p) as Hne.
    { intros ->. apply Hp. rewrite fmap_app, fmap_cons, elem_of_app, elem_of_cons. auto. }
    rewrite fmap_cons.
    replace (seen ++ p.2 :: pre.*2) with ((seen ++ [p.2]) ++ pre.*2)
      by (by rewrite <-app_assoc).
    rewrite <-(IH (seen ++ [p.2]) Hnd).
    destruct (existsb _ seen); [done|]. rewrite elem_of_cons. split; [|by right].
    by intros [?|?].
Qed.

Lemma filter_label (l : list record) (r : record) :
  NoDup l.*1 → r ∈ l → filter (λ x : record, x.1 = r.1) l = [r].
Proof.
  induction l as [|x l IH]; intros Hnd Hr; [by apply not_elem_of_nil in Hr|].
  rewrite fmap_cons in Hnd. apply NoDup_cons in Hnd as [Hx Hnd].
  rewrite filter_cons. apply elem_of_cons in Hr as [->|Hr].
  - rewrite decide_True by done. f_equal. apply filter_all_nil.
    intros y Hy Heq. apply Hx. rewrite <-Heq. apply list_elem_of_fmap. by exists y.
  - rewrite decide_False.
    2:{ intros Heq. apply Hx. rewrite Heq. apply list_elem_of_fmap. by exists r. }
    by apply IH.
Qed.

Lemma loc_kept (k l : list record) :
  NoDup l.*1 → k `sublist_of` l → loc_records k.*1 l = k.
Proof.
  intros Hnd. induction k as [|r k IH]; intros Hsub; [done|].
  unfold loc_records in *. rewrite fmap_cons. cbn [mbind list_bind]. 
  rewrite filter_label; [|done|].
  2:{ apply (elem_of_sublist (r :: k) l r); [left|done]. }
  simpl. f_equal. apply IH. etrans; [|exact Hsub]. by apply sublist_cons.
Qed.

Lemma existsb_false_Forall {A : Type} (f : A → bool) (l : list A) :
  existsb f l = false ↔ Forall (λ x, f x = false) l.
Proof.
  induction l as [|x l IH]; simpl; [by split; [constructor|]|].
  rewrite Forall_cons, orb_false_iff, IH. done.
Qed.

Lemma redundant_comm (a b : interval) :
  a.1 < a.2 → b.1 < b.2 → redundant a b = redundant b a.
Proof.
  destruct a as [ba ea], b as [bb eb]. simpl. intros Ha Hb.
  unfold redundant, reciprocal_overlap. simpl.
  rewrite (Z.min_comm eb ea), (Z.max_comm bb ba).
  set (overlap := Z.min ea eb - Z.max ba bb).
  case_decide as Hneg; [done|].
  destruct (truediv_unit overlap (ea - ba)) as (x & -> & _); [lia..|].
  destruct (truediv_unit overlap (eb - bb)) as (y & -> & _); [lia..|].
  cbn [bind]. by rewrite min2_comm.
Qed.

(** X28: on records with pairwise distinct labels whose intervals are not
    empty, [nr_interval_merge] returns, in the order of the table, exactly
    the records that no earlier record (kept or not) overlaps reciprocally by
    one half or more; no two records of the result overlap each other by one
    half or more. *)
Theorem nr_interval_merge_keeps (df_chr : list record) (overlap : Qc) :
  Forall (λ r : record, r.2.1 < r.2.2) df_chr → NoDup df_chr.*1 →
  ∃ out, nr_interval_merge df_chr overlap = Ok out ∧
         out `sublist_of` df_chr ∧
         (∀ pre r post, df_chr = pre ++ r :: post →
            (r ∈ out ↔ Forall (λ e : record, redundant r.2 e.2 = false) pre)) ∧
         (∀ a b, a ∈ out → b ∈ out → a ≠ b → redundant a.2 b.2 = false).
Proof.
  intros Hdf Hnd. unfold nr_interval_merge.
  destruct (nr_loop df_chr [] [] [] Hdf) as (tree' & -> & _); [constructor|done|].
  cbn [bind app]. pose proof (kept_sublist [] df_chr) as Hsub.
  rewrite loc_kept by done.
  exists (kept_from [] df_chr). split; [done|]. split; [done|].
  assert (∀ pre r post, df_chr = pre ++ r :: post →
            (r ∈ kept_from [] df_chr
             ↔ Forall (λ e : record, redundant r.2 e.2 = false) pre)) as Hkept.
  { intros pre r post ->. rewrite kept_member by done. simpl.
    rewrite existsb_false_Forall, Forall_fmap. done. }
  split; [done|].
  assert (∀ r, r ∈ df_chr → r.2.1 < r.2.2) as Hnn by (by apply Forall_forall).
  intros a b Ha Hb Hne.
  pose proof (elem_of_sublist _ _ _ Ha Hsub) as Ha'.
  pose proof (elem_of_sublist _ _ _ Hb Hsub) as Hb'.
  apply list_elem_of_split in Ha' as (l1 & l2 & Hsplit).
  assert (b ∈ l1 ∨ b ∈ l2) as [Hin|Hin].
  { rewrite Hsplit in Hb'. apply elem_of_app in Hb' as [?|Hb']; [by left|].
    apply elem_of_cons in Hb' as [?|?]; [congruence|by right]. }
  - apply (Hkept l1 a l2 Hsplit) in Ha. rewrite Forall_forall in Ha. by apply Ha.
  - apply list_elem_of_split in Hin as (m1 & m2 & ->).
    assert (df_chr = (l1 ++ a :: m1) ++ b :: m2) as Hsplit'
      by (by rewrite Hsplit, <-app_assoc).
    apply (Hkept _ b m2 Hsplit') in Hb. rewrite Forall_forall in Hb.
    rewrite redundant_comm.
    + apply Hb. apply elem_of_app. right. left.
    + apply Hnn. rewrite Hsplit. apply elem_of_app. right. left.
    + apply Hnn. rewrite Hsplit'. apply elem_of_app. right. left.
Qed.

Lemma nr_interval_merge_keeps_witness :
  ∃ out, nr_interval_merge example_intervals (Q2Qc (1 # 2)) = Ok out ∧
         out `sublist_of` example_intervals ∧
         (∀ pre r post, example_intervals = pre ++ r :: post →
            (r ∈ out ↔ Forall (λ e : record, redundant r.2 e.2 = false) pre)) ∧
         (∀ a b, a ∈ out → b ∈ out → a ≠ b → redundant a.2 b.2 = false).
Proof.
  apply (nr_interval_merge_keeps example_intervals (Q2Qc (1 # 2))).
  - repeat constructor.
  - apply (bool_decide_unpack _). vm_compute. exact I.
Defined.

(** X29: a record whose [END] is not beyond its [POS] makes
    [nr_interval_merge] raise [ValueError], from the interval tree, which
    refuses the empty interval when the record is added. *)
Theorem nr_interval_merge_empty_interval (pre post : list record) (r : record)
    (overlap : Qc) :
  Forall (λ r : record, r.2.1 < r.2.2) pre → r.2.2 ≤ r.2.1 →
  nr_interval_merge (pre ++ r :: post) overlap
  = Raise (ValueError "IntervalTree: Null Interval objects not allowed in IntervalTree").
Proof.
  intros Hpre Hr. unfold nr_interval_merge. rewrite for_each_app.
  destruct (nr_loop pre [] [] [] Hpre) as (tree' & -> & Hel); [constructor|done|].
  cbn [bind for_each]. destruct r as [index [pos end_]]. simpl in Hr.
  cbn [nr_step]. unfold overlapping. rewrite decide_True by done.
  cbn [any_match bind]. unfold tree_add.
  rewrite decide_False.
  2:{ intros [Hin|Hin]%Hel; [by apply not_elem_of_nil in Hin|].
      apply list_elem_of_fmap in Hin as (e & He & Hin).
      rewrite Forall_forall in Hpre. specialize (Hpre e Hin).
      rewrite <-He in Hpre. simpl in Hpre. lia. }
  by rewrite decide_True by done.
Qed.

Lemma nr_interval_merge_empty_interval_witness :
  nr_interval_merge ([(CInt 0, (100, 200))] ++ (CInt 1, (300, 300)) :: []) (Q2Qc (1 # 2))
  = Raise (ValueError "IntervalTree: Null Interval objects not allowed in IntervalTree").
Proof.
  apply (nr_interval_merge_empty_interval [(CInt 0, (100, 200))] [] (CInt 1, (300, 300))).
  - repeat constructor.
  - simpl. lia.
Defined.

(** X30: a record whose ALT is empty or blank, with POS and a string REF
    present, makes [vcf_fields_to_seq] raise [IndexError], from [alt[0]], and
    not one of its [RuntimeError]s. *)
Theorem vcf_blank_alt (row : gmap string cell) (pos : cell) (ref alt : string) :
  row !! "POS" = Some pos → row !! "REF" = Some (CStr ref) →
  row !! "ALT" = Some (CStr alt) → strip (upper alt) = EmptyString →
  vcf_fields_to_seq row "POS" "REF" "ALT"
  = Error (IndexError "string index out of range").
Proof.
  intros Hpos Href Halt Hblank.
  unfold vcf_fields_to_seq, getitem. rewrite Hpos, Href, Halt.
  cbn [and_then upper_strip]. rewrite Hblank. reflexivity.
Qed.

Lemma vcf_blank_alt_witness :
  vcf_fields_to_seq (vcf_row 100 "A" "  ") "POS" "REF" "ALT"
  = Error (IndexError "string index out of range").
Proof.
  apply (vcf_blank_alt (vcf_row 100 "A" "  ") (CInt 100) "A" "  "); reflexivity.
Defined.
